(** * StracePerfDiff: trace parsers and banded aligner (services/traceService)

    A shallow embedding of [parsePerfTrace], [parseStrace], [levenshtein],
    [getArgSimilarity], [calculateScore] and [alignTraces], and the
    properties the specification states about them.

    Conventions of the embedding:
    - a JavaScript string is the list of its UTF-16 code units ([list N]);
    - a JavaScript number is an extended exact rational ([num]): [NaN] and
      the two infinities are kept, binary64 rounding and overflow are
      idealised away, and the sign of zero is dropped; an integer that is
      only counted or indexed with (a length, a loop index, an edit
      distance) is a [Z] or a [nat]; a property that an overflow to
      [Infinity] or the rounding of a process id above 2^53 breaks in the
      code is stated for inputs in the safe range ([safe_number],
      [safe_pid]), where the code's numbers are finite and its process
      ids exact;
    - a [Map] is a [gmap]; a [Set] is the list of its elements in insertion
      order; an array is a [list];
    - a [forEach] or [for] loop is a fold over the list of its indices, a
      [while] loop a function with an iteration budget. *)

From Stdlib Require Import String Ascii QArith Qround Qabs Qpower Lqa.
From stdpp Require Import gmap list sorting.

Local Open Scope Z_scope.

(** ** Strings *)

Abbreviation jsstring := (list N).

Definition str (s : string) : jsstring :=
  map N_of_ascii (list_ascii_of_string s).

Definition chr (a : ascii) : N := N_of_ascii a.

(** [x === y] on strings. *)
Definition str_eqb (x y : jsstring) : bool := bool_decide (x = y).

(** WhiteSpace and LineTerminator code units: what [String.prototype.trim]
    strips and what the class [\s] accepts. *)
Definition is_space (c : N) : bool :=
  ((9 <=? c) && (c <=? 13) || (c =? 32) || (c =? 160) || (c =? 5760)
   || (8192 <=? c) && (c <=? 8202) || (c =? 8232) || (c =? 8233)
   || (c =? 8239) || (c =? 8287) || (c =? 12288) || (c =? 65279))%N.

Definition is_digit (c : N) : bool := ((48 <=? c) && (c <=? 57))%N.

(** [\w] is [A-Za-z0-9_]. *)
Definition is_word (c : N) : bool :=
  ((65 <=? c) && (c <=? 90) || (97 <=? c) && (c <=? 122)
   || is_digit c || (c =? 95))%N.

(** [.] without the [s] flag: anything but a line terminator. *)
Definition is_dot (c : N) : bool :=
  negb ((c =? 10) || (c =? 13) || (c =? 8232) || (c =? 8233))%N.

(** [[\d\.]] *)
Definition is_digit_or_dot (c : N) : bool := is_digit c || (c =? 46)%N.

(** Any code unit but the double quote (34). *)
Definition is_not_quote (c : N) : bool := negb (c =? 34)%N.

Fixpoint drop_while (p : N -> bool) (s : jsstring) : jsstring :=
  match s with
  | c :: s' => if p c then drop_while p s' else s
  | [] => []
  end.

Definition trim (s : jsstring) : jsstring :=
  rev (drop_while is_space (rev (drop_while is_space s))).

(** [s.split(sep)] for a one-unit separator: never the empty array. *)
Fixpoint split (sep : N) (s : jsstring) : list jsstring :=
  match s with
  | [] => [[]]
  | c :: s' =>
      if (c =? sep)%N then [] :: split sep s'
      else match split sep s' with
           | w :: ws => (c :: w) :: ws
           | [] => [[c]]
           end
  end.

(** [s.includes(t)] *)
Fixpoint is_prefix (t s : jsstring) : bool :=
  match t, s with
  | [], _ => true
  | a :: t', b :: s' => (a =? b)%N && is_prefix t' s'
  | _ :: _, [] => false
  end.

Fixpoint includes (s t : jsstring) : bool :=
  is_prefix t s ||
  match s with
  | [] => false
  | _ :: s' => includes s' t
  end.

(** ** Numbers *)

Inductive num : Type :=
| NaN
| NInf
| Fin (q : Q)
| PInf.

Definition of_Z (z : Z) : num := Fin (inject_Z z).

Definition Qsgn (q : Q) : Z := Z.sgn (Qnum q).

Definition nneg (x : num) : num :=
  match x with
  | NaN => NaN
  | NInf => PInf
  | Fin q => Fin (- q)
  | PInf => NInf
  end.

Definition nadd (x y : num) : num :=
  match x, y with
  | NaN, _ | _, NaN => NaN
  | PInf, NInf | NInf, PInf => NaN
  | PInf, _ | _, PInf => PInf
  | NInf, _ | _, NInf => NInf
  | Fin a, Fin b => Fin (a + b)
  end.

Definition nsub (x y : num) : num := nadd x (nneg y).

Definition inf_of_sign (s : Z) : num :=
  match s with
  | Z0 => NaN
  | Zpos _ => PInf
  | Zneg _ => NInf
  end.

Definition sign_of (x : num) : Z :=
  match x with
  | NaN => 0
  | NInf => -1
  | Fin q => Qsgn q
  | PInf => 1
  end.

Definition nmul (x y : num) : num :=
  match x, y with
  | NaN, _ | _, NaN => NaN
  | Fin a, Fin b => Fin (a * b)
  | _, _ => inf_of_sign (sign_of x * sign_of y)
  end.

(** Division; a zero divisor counts as [+0]. *)
Definition ndiv (x y : num) : num :=
  match x, y with
  | NaN, _ | _, NaN => NaN
  | Fin a, Fin b =>
      if Qeq_bool b 0 then inf_of_sign (Qsgn a) else Fin (a / b)
  | Fin _, _ => Fin 0
  | _, Fin b => inf_of_sign (sign_of x * (if Qeq_bool b 0 then 1 else Qsgn b))
  | _, _ => NaN
  end.

Definition nltb (x y : num) : bool :=
  match x, y with
  | NaN, _ | _, NaN => false
  | _, NInf => false
  | NInf, _ => true
  | PInf, _ => false
  | Fin _, PInf => true
  | Fin a, Fin b => negb (Qle_bool b a)
  end.

Definition nleb (x y : num) : bool :=
  match x, y with
  | NaN, _ | _, NaN => false
  | NInf, _ => true
  | _, PInf => true
  | _, NInf => false
  | PInf, _ => false
  | Fin a, Fin b => Qle_bool a b
  end.

Definition ngtb (x y : num) : bool := nltb y x.
Definition ngeb (x y : num) : bool := nleb y x.

(** [x === y] on numbers. *)
Definition neqb (x y : num) : bool :=
  match x, y with
  | NInf, NInf | PInf, PInf => true
  | Fin a, Fin b => Qeq_bool a b
  | _, _ => false
  end.

(** [Math.max(x, y)] and [Math.min(x, y)]. *)
Definition nmax (x y : num) : num :=
  match x, y with
  | NaN, _ | _, NaN => NaN
  | _, _ => if nltb x y then y else x
  end.

Definition nmin (x y : num) : num :=
  match x, y with
  | NaN, _ | _, NaN => NaN
  | _, _ => if nltb y x then y else x
  end.

Definition nfloor (x : num) : num :=
  match x with
  | Fin q => of_Z (Qfloor q)
  | _ => x
  end.

Definition nabs (x : num) : num :=
  match x with
  | NaN => NaN
  | NInf | PInf => PInf
  | Fin q => Fin (Qabs q)
  end.

(** Truthiness of a number: [0] and [NaN] are falsy. *)
Definition truthy (x : num) : bool :=
  match x with
  | NaN => false
  | Fin q => negb (Qeq_bool q 0)
  | _ => true
  end.

(** [o || d] where [o] is a number or [undefined]. *)
Definition or_else (o : option num) (d : num) : num :=
  match o with
  | Some x => if truthy x then x else d
  | None => d
  end.

(** Numeric equality of two numbers (representation-independent). *)
Definition num_eqv (x y : num) : Prop :=
  match x, y with
  | NaN, NaN | NInf, NInf | PInf, PInf => True
  | Fin a, Fin b => a == b
  | _, _ => False
  end.

Definition is_zero (x : num) : Prop := num_eqv x (Fin 0).

(** [0 <= x], false of [NaN]. *)
Definition nonneg (x : num) : Prop := nleb (Fin 0) x = true.

(** ** Regular expressions

    The patterns of the source only quantify single character classes and
    never nest capture groups, so the matcher is a backtracking matcher in
    continuation-passing style over that fragment.  Alternatives are tried
    in the order the ECMAScript matcher tries them: a greedy quantifier
    takes one more unit first, a lazy one tries the continuation first. *)

Inductive regex : Type :=
| REmp
| RLit (c : N)
| RSet (p : N -> bool)
| RStar (greedy : bool) (p : N -> bool)
| RPlus (greedy : bool) (p : N -> bool)
| RCap (r : regex)
| RCat (r1 r2 : regex)
| REnd.

Fixpoint star_greedy {A} (p : N -> bool) (s : jsstring)
    (k : jsstring -> option A) : option A :=
  match s with
  | c :: s' =>
      if p c then
        match star_greedy p s' k with
        | Some a => Some a
        | None => k s
        end
      else k s
  | [] => k []
  end.

Fixpoint star_lazy {A} (p : N -> bool) (s : jsstring)
    (k : jsstring -> option A) : option A :=
  match k s with
  | Some a => Some a
  | None =>
      match s with
      | c :: s' => if p c then star_lazy p s' k else None
      | [] => None
      end
  end.

Definition star {A} (greedy : bool) (p : N -> bool) (s : jsstring)
    (k : jsstring -> option A) : option A :=
  if greedy then star_greedy p s k else star_lazy p s k.

(** [rmatch r s caps k]: match [r] at the head of [s]; on success hand the
    rest of the input and the captures so far to [k]. *)
Fixpoint rmatch {A} (r : regex) (s : jsstring) (caps : list jsstring)
    (k : jsstring -> list jsstring -> option A) : option A :=
  match r with
  | REmp => k s caps
  | RLit c =>
      match s with
      | x :: s' => if (x =? c)%N then k s' caps else None
      | [] => None
      end
  | RSet p =>
      match s with
      | x :: s' => if p x then k s' caps else None
      | [] => None
      end
  | RStar g p => star g p s (fun s' => k s' caps)
  | RPlus g p =>
      match s with
      | x :: s' => if p x then star g p s' (fun s'' => k s'' caps) else None
      | [] => None
      end
  | RCap r1 =>
      rmatch r1 s caps
        (fun s' caps' => k s' (caps' ++ [take (length s - length s') s]))
  | RCat r1 r2 => rmatch r1 s caps (fun s' caps' => rmatch r2 s' caps' k)
  | REnd =>
      match s with
      | [] => k [] caps
      | _ :: _ => None
      end
  end.

(** A pattern that starts with [^]: the captures of groups 1, 2, ... *)
Definition match_at_start (r : regex) (s : jsstring) : option (list jsstring) :=
  rmatch r s [] (fun _ caps => Some caps).

(** A pattern without [^]: the first start position that matches. *)
Fixpoint match_anywhere (r : regex) (s : jsstring) : option (list jsstring) :=
  match match_at_start r s with
  | Some caps => Some caps
  | None =>
      match s with
      | _ :: s' => match_anywhere r s'
      | [] => None
      end
  end.

(** [m[k]] for [k >= 1]. *)
Definition group (k : nat) (caps : list jsstring) : jsstring :=
  default [] (caps !! (k - 1)%nat).

Definition rlits (s : string) : regex :=
  foldr (fun c r => RCat (RLit c) r) REmp (str s).

Fixpoint rseq (rs : list regex) : regex :=
  match rs with
  | [] => REmp
  | [r] => r
  | r :: rs' => RCat r (rseq rs')
  end.

Definition greedy := true.
Definition lazy := false.

(** ** parseInt and parseFloat *)

Fixpoint take_while (p : N -> bool) (s : jsstring) : jsstring * jsstring :=
  match s with
  | c :: s' =>
      if p c then let '(a, b) := take_while p s' in (c :: a, b) else ([], s)
  | [] => ([], [])
  end.

Definition digit_val (c : N) : Z := Z.of_N c - 48.

Definition digits_val (ds : jsstring) : Z :=
  fold_left (fun acc d => 10 * acc + digit_val d) ds 0.

Definition is_hex_digit (c : N) : bool :=
  (is_digit c || (65 <=? c) && (c <=? 70) || (97 <=? c) && (c <=? 102))%N.

Definition hex_val (c : N) : Z :=
  if is_digit c then Z.of_N c - 48
  else if (c <=? 70)%N then Z.of_N c - 55 else Z.of_N c - 87.

Definition hex_digits_val (ds : jsstring) : Z :=
  fold_left (fun acc d => 16 * acc + hex_val d) ds 0.

(** The optional sign in front of a numeric literal. *)
Definition take_sign (s : jsstring) : Z * jsstring :=
  match s with
  | c :: s' =>
      if (c =? 45)%N then (-1, s')
      else if (c =? 43)%N then (1, s')
      else (1, s)
  | [] => (1, [])
  end.

(** Does the text start with [0x] or [0X]? *)
Definition has_hex_prefix (s : jsstring) : bool :=
  match s with
  | z :: x :: _ => (z =? 48)%N && ((x =? 120) || (x =? 88))%N
  | _ => false
  end.

(** [parseInt(s)] without a radix; [None] is [NaN]. *)
Definition parseInt (s : jsstring) : option Z :=
  let '(sg, s1) := take_sign (drop_while is_space s) in
  if has_hex_prefix s1 then
    let '(ds, _) := take_while is_hex_digit (drop 2 s1) in
    match ds with
    | [] => None
    | _ :: _ => Some (sg * hex_digits_val ds)
    end
  else
    let '(ds, _) := take_while is_digit s1 in
    match ds with
    | [] => None
    | _ :: _ => Some (sg * digits_val ds)
    end.

Definition num_of_int (o : option Z) : num :=
  match o with
  | Some z => of_Z z
  | None => NaN
  end.

(** The exponent part of a decimal literal: [e] or [E], an optional sign,
    at least one digit; anything else means no exponent. *)
Definition take_exponent (s : jsstring) : Z :=
  match s with
  | c :: s' =>
      if ((c =? 101) || (c =? 69))%N then
        let '(sg, s1) := take_sign s' in
        let '(ds, _) := take_while is_digit s1 in
        match ds with
        | [] => 0
        | _ => sg * digits_val ds
        end
      else 0
  | [] => 0
  end.

(** [parseFloat(s)]: the longest prefix that is a decimal literal. *)
Definition parseFloat (s : jsstring) : num :=
  let '(sg, s1) := take_sign (drop_while is_space s) in
  if is_prefix (str "Infinity") s1 then inf_of_sign sg
  else
    let '(ip, s2) := take_while is_digit s1 in
    let '(fp, s3) :=
      match s2 with
      | c :: t => if (c =? 46)%N then take_while is_digit t else ([], s2)
      | [] => ([], [])
      end in
    match ip ++ fp with
    | [] => NaN
    | ds =>
        Fin (inject_Z sg * (inject_Z (digits_val ds) / 10 ^ Z.of_nat (length fp))
             * 10 ^ take_exponent s3)%Q
    end.

(** An array element that may be [undefined], passed to a parser. *)
Definition parseInt_opt (o : option jsstring) : option Z :=
  match o with
  | Some s => parseInt s
  | None => None
  end.

Definition parseFloat_opt (o : option jsstring) : num :=
  match o with
  | Some s => parseFloat s
  | None => NaN
  end.

(** [parseTimestamp]: [HH:MM:SS.uuuuuu] to milliseconds since midnight. *)
Definition parseTimestamp (ts : jsstring) : num :=
  let parts := split (chr ":") ts in
  let h := parts !! 0%nat in
  let m := parts !! 1%nat in
  let s := parts !! 2%nat in
  nmul (nadd (nadd (nmul (num_of_int (parseInt_opt h)) (of_Z 3600))
                   (nmul (num_of_int (parseInt_opt m)) (of_Z 60)))
             (parseFloat_opt s))
       (of_Z 1000).

(** [parsePerfTimestamp]: the source multiplies by [1.0]. *)
Definition parsePerfTimestamp (ts : jsstring) : num :=
  nmul (parseFloat ts) (Fin 1).

(** ** Data model (types.ts) *)

(** [TraceLine]: one completed call.  [line_id] is the field [id]; [pid] is
    a number produced by [parseInt], [None] standing for [NaN]. *)
Record TraceLine : Type := mkTraceLine {
  line_id : nat;
  pid : option Z;
  timestamp : jsstring;
  timestampEpoch : num;
  syscall : jsstring;
  args : jsstring;
  result : jsstring;
  duration : num;
  userDiff : num;
  raw : jsstring
}.

(** [ParsedTrace] without its [stats] field.  The statistics are
    accumulated beside the events (a counter object indexed by call name,
    three sums over the finished array); they never feed back into the
    events or the process ids, and no property below reads them. *)
Record ParsedTrace : Type := mkParsedTrace {
  filename : jsstring;
  lines : list TraceLine;
  pids : list (option Z)
}.

Inductive DiffType : Type := TMatch | TMismatch | TInsert | TDelete | TGap.

(** [DiffRow]: [type] with the optional fields [a], [b], [timeDiff] and
    [userDiffDelta]; an absent field is [None]. *)
Record DiffRow : Type := mkDiffRow {
  type : DiffType;
  a : option TraceLine;
  b : option TraceLine;
  timeDiff : option num;
  userDiffDelta : option num
}.

(** ** Sets in insertion order and [Array.prototype.sort] *)

Definition set_add `{EqDecision A} (x : A) (l : list A) : list A :=
  if bool_decide (x ∈ l) then l else l ++ [x].

(** [Array.prototype.sort] is stable.  The comparator's result counts by its
    sign, [NaN] as zero.  [x] comes from in front of [l], so it stays in
    front of the elements it does not compare greater than. *)
Fixpoint insert_by {A} (cmp : A -> A -> num) (x : A) (l : list A) : list A :=
  match l with
  | [] => [x]
  | y :: l' =>
      if ngtb (cmp x y) (Fin 0) then y :: insert_by cmp x l' else x :: l
  end.

Fixpoint sort_by {A} (cmp : A -> A -> num) (l : list A) : list A :=
  match l with
  | [] => []
  | x :: l' => insert_by cmp x (sort_by cmp l')
  end.

Definition pid_cmp (x y : option Z) : num :=
  nsub (num_of_int x) (num_of_int y).

Definition line_cmp (x y : TraceLine) : num :=
  nsub (timestampEpoch x) (timestampEpoch y).

(** [content.split('\n')] with the index [forEach] passes along. *)
Definition indexed_lines (content : jsstring) : list (nat * jsstring) :=
  imap (fun i l => (i, l)) (split 10%N content).

(** ** parsePerfTrace *)

Definition perfRegex : regex :=
  rseq [ RCap (rseq [RPlus greedy is_digit; RLit (chr "."); RPlus greedy is_digit]);
         RPlus greedy is_space; RLit (chr "("); RStar greedy is_space;
         RCap (RPlus greedy is_digit_or_dot);
         RPlus greedy is_space; rlits "ms):"; RPlus greedy is_space;
         RCap (RPlus lazy is_dot); RLit (chr "/"); RCap (RPlus greedy is_digit);
         RPlus greedy is_space; RCap (RPlus greedy is_word);
         RLit (chr "("); RCap (RStar greedy is_dot); RLit (chr ")");
         RPlus greedy is_space; RLit (chr "="); RPlus greedy is_space;
         RCap (RStar greedy is_dot); REnd ].

Record PerfState : Type := mkPerfState {
  p_lines : list TraceLine;
  p_uniquePids : list (option Z);
  p_pidLastEndTime : gmap (option Z) num;
  p_globalStartTime : num;
  p_hasSetStartTime : bool
}.

Definition perf_init : PerfState :=
  mkPerfState [] [] ∅ (Fin 0) false.

(** The body of the [forEach] callback. *)
Definition perf_step (st : PerfState) (il : nat * jsstring) : PerfState :=
  let '(index, rawLine) := il in
  let trimmed := trim rawLine in
  match trimmed with
  | [] => st
  | _ :: _ =>
    match match_at_start perfRegex trimmed with
    | None => st
    | Some m =>
      let tsStr := group 1 m in
      let durationMs := parseFloat (group 2 m) in
      let pid := parseInt (group 4 m) in
      let syscall := group 5 m in
      let args := group 6 m in
      let result := group 7 m in
      let currentEpoch := parsePerfTimestamp tsStr in
      let durationSec := ndiv durationMs (of_Z 1000) in
      let globalStartTime :=
        if p_hasSetStartTime st then p_globalStartTime st else currentEpoch in
      let prevEnd := or_else (p_pidLastEndTime st !! pid) currentEpoch in
      let userDiff := nmax (Fin 0) (nsub currentEpoch prevEnd) in
      let line :=
        {| line_id := index; pid := pid; timestamp := tsStr;
           timestampEpoch := nsub currentEpoch globalStartTime;
           syscall := syscall; args := args; result := result;
           duration := durationSec;
           userDiff := ndiv userDiff (of_Z 1000);
           raw := rawLine |} in
      {| p_lines := p_lines st ++ [line];
         p_uniquePids := set_add pid (p_uniquePids st);
         p_pidLastEndTime :=
           <[pid := nadd currentEpoch durationMs]> (p_pidLastEndTime st);
         p_globalStartTime := globalStartTime;
         p_hasSetStartTime := true |}
    end
  end.

Definition perf_run (content : jsstring) : PerfState :=
  fold_left perf_step (indexed_lines content) perf_init.

Definition parsePerfTrace (content filename : jsstring) : ParsedTrace :=
  let st := perf_run content in
  {| filename := filename;
     lines := p_lines st;
     pids := sort_by pid_cmp (p_uniquePids st) |}.

(** ** parseStrace *)

Definition pidRegex : regex :=
  rseq [ rlits "[pid"; RPlus greedy is_space; RCap (RPlus greedy is_digit);
         RLit (chr "]"); RPlus greedy is_space; RCap (RStar greedy is_dot) ].

Definition timeRegex : regex :=
  rseq [ RCap (rseq [RPlus greedy is_digit; RLit (chr ":");
                     RPlus greedy is_digit; RLit (chr ":");
                     RPlus greedy is_digit; RLit (chr ".");
                     RPlus greedy is_digit]);
         RPlus greedy is_space; RCap (RStar greedy is_dot) ].

Definition resumeRegex : regex :=
  rseq [ rlits "<..."; RPlus greedy is_space; RCap (RPlus greedy is_word);
         RPlus greedy is_space; rlits "resumed>"; RCap (RStar greedy is_dot) ].

(** Not anchored. *)
Definition endRegex : regex :=
  rseq [ RCap (RStar greedy is_dot); RLit (chr ")"); RPlus greedy is_space;
         RLit (chr "="); RPlus greedy is_space; RCap (RPlus lazy is_dot);
         RPlus greedy is_space; RLit (chr "<");
         RCap (RPlus greedy is_digit_or_dot); RLit (chr ">") ].

Definition unfinishedRegex : regex :=
  rseq [ RCap (RPlus greedy is_word); RLit (chr "("); RCap (RStar greedy is_dot);
         RPlus greedy is_space; rlits "<unfinished ...>" ].

Definition standardRegex : regex :=
  rseq [ RCap (RPlus greedy is_word); RLit (chr "("); RCap (RStar greedy is_dot);
         RLit (chr ")"); RPlus greedy is_space; RLit (chr "=");
         RPlus greedy is_space; RCap (RPlus lazy is_dot);
         RPlus greedy is_space; RLit (chr "<");
         RCap (RPlus greedy is_digit_or_dot); RLit (chr ">") ].

(** A value of the [pendingCalls] map. *)
Record Pending : Type := mkPending {
  timestampStr : jsstring;
  startEpoch : num;
  pend_syscall : jsstring;
  startArgs : jsstring;
  rawStart : jsstring
}.

Record StraceState : Type := mkStraceState {
  s_lines : list TraceLine;
  s_uniquePids : list (option Z);
  s_pidLastEndTime : gmap (option Z) num;
  s_pendingCalls : gmap (option Z) Pending;
  s_globalStartTime : num;
  s_hasSetStartTime : bool
}.

Definition strace_init : StraceState :=
  mkStraceState [] [] ∅ ∅ (Fin 0) false.

(** Step 1 of the callback: the optional [[pid N]] prefix. *)
Definition split_pid (trimmed : jsstring) : option Z * jsstring :=
  match match_at_start pidRegex trimmed with
  | Some m => (parseInt (group 1 m), group 2 m)
  | None => (Some 0, trimmed)
  end.

(** Case A with a pending record of the same call name. *)
Definition complete_resumed (st : StraceState) (index : nat) (rawLine : jsstring)
    (pid : option Z) (currentEpoch : num) (syscallName resumeRest : jsstring)
    (pending : Pending) : StraceState :=
  let fullRaw := rawStart pending ++ str " ... " ++ rawLine in
  match match_anywhere endRegex resumeRest with
  | None => st
  | Some em =>
      let extraArgs := group 1 em in
      let result := group 2 em in
      let duration := parseFloat (group 3 em) in
      let fullArgs := trim (startArgs pending ++ extraArgs) in
      let prevEnd := or_else (s_pidLastEndTime st !! pid) (startEpoch pending) in
      let userDiff := nmax (Fin 0) (nsub (startEpoch pending) prevEnd) in
      let line :=
        {| line_id := index; pid := pid; timestamp := timestampStr pending;
           timestampEpoch := nsub (startEpoch pending) (s_globalStartTime st);
           syscall := syscallName; args := fullArgs; result := result;
           duration := duration;
           userDiff := ndiv userDiff (of_Z 1000);
           raw := fullRaw |} in
      {| s_lines := s_lines st ++ [line];
         s_uniquePids := s_uniquePids st;
         s_pidLastEndTime := <[pid := currentEpoch]> (s_pidLastEndTime st);
         s_pendingCalls := delete pid (s_pendingCalls st);
         s_globalStartTime := s_globalStartTime st;
         s_hasSetStartTime := s_hasSetStartTime st |}
  end.

(** Step 3 of the callback: the body after the timestamp.  [st] already has
    the process id, the start time and the last end time recorded. *)
Definition strace_body (st : StraceState) (index : nat) (rawLine : jsstring)
    (pid : option Z) (tsStr : jsstring) (currentEpoch : num) (body : jsstring)
    : StraceState :=
  match match_at_start resumeRegex body with
  | Some rm =>
      let syscallName := group 1 rm in
      let resumeRest := group 2 rm in
      match s_pendingCalls st !! pid with
      | Some pending =>
          if str_eqb (pend_syscall pending) syscallName
          then complete_resumed st index rawLine pid currentEpoch
                 syscallName resumeRest pending
          else st
      | None => st
      end
  | None =>
    match match_at_start unfinishedRegex body with
    | Some um =>
        {| s_lines := s_lines st;
           s_uniquePids := s_uniquePids st;
           s_pidLastEndTime := s_pidLastEndTime st;
           s_pendingCalls :=
             <[pid := {| timestampStr := tsStr; startEpoch := currentEpoch;
                         pend_syscall := group 1 um; startArgs := group 2 um;
                         rawStart := rawLine |}]> (s_pendingCalls st);
           s_globalStartTime := s_globalStartTime st;
           s_hasSetStartTime := s_hasSetStartTime st |}
    | None =>
      match match_at_start standardRegex body with
      | Some sm =>
          let syscall := group 1 sm in
          let args := group 2 sm in
          let result := group 3 sm in
          let duration := parseFloat (group 4 sm) in
          let prevEnd := or_else (s_pidLastEndTime st !! pid) currentEpoch in
          let userDiff := nmax (Fin 0) (nsub currentEpoch prevEnd) in
          let line :=
            {| line_id := index; pid := pid; timestamp := tsStr;
               timestampEpoch := nsub currentEpoch (s_globalStartTime st);
               syscall := syscall; args := args; result := result;
               duration := duration;
               userDiff := ndiv userDiff (of_Z 1000);
               raw := rawLine |} in
          {| s_lines := s_lines st ++ [line];
             s_uniquePids := s_uniquePids st;
             s_pidLastEndTime :=
               <[pid := nadd currentEpoch (nmul duration (of_Z 1000))]>
                 (s_pidLastEndTime st);
             s_pendingCalls := s_pendingCalls st;
             s_globalStartTime := s_globalStartTime st;
             s_hasSetStartTime := s_hasSetStartTime st |}
      | None => st
      end
    end
  end.

(** The body of the [forEach] callback. *)
Definition strace_step (st : StraceState) (il : nat * jsstring) : StraceState :=
  let '(index, rawLine) := il in
  let trimmed := trim rawLine in
  match trimmed with
  | [] => st
  | _ :: _ =>
    let '(pid, rest) := split_pid trimmed in
    let st1 :=
      {| s_lines := s_lines st;
         s_uniquePids := set_add pid (s_uniquePids st);
         s_pidLastEndTime := s_pidLastEndTime st;
         s_pendingCalls := s_pendingCalls st;
         s_globalStartTime := s_globalStartTime st;
         s_hasSetStartTime := s_hasSetStartTime st |} in
    match match_at_start timeRegex rest with
    | None => st1
    | Some tm =>
        let tsStr := group 1 tm in
        let body := group 2 tm in
        let currentEpoch := parseTimestamp tsStr in
        let st2 :=
          {| s_lines := s_lines st1;
             s_uniquePids := s_uniquePids st1;
             s_pidLastEndTime :=
               match s_pidLastEndTime st1 !! pid with
               | Some _ => s_pidLastEndTime st1
               | None => <[pid := currentEpoch]> (s_pidLastEndTime st1)
               end;
             s_pendingCalls := s_pendingCalls st1;
             s_globalStartTime :=
               if s_hasSetStartTime st1 then s_globalStartTime st1
               else currentEpoch;
             s_hasSetStartTime := true |} in
        strace_body st2 index rawLine pid tsStr currentEpoch body
    end
  end.

Definition strace_run (content : jsstring) : StraceState :=
  fold_left strace_step (indexed_lines content) strace_init.

Definition parseStrace (content filename : jsstring) : ParsedTrace :=
  let st := strace_run content in
  {| filename := filename;
     lines := sort_by line_cmp (s_lines st);
     pids := sort_by pid_cmp (s_uniquePids st) |}.

Inductive TraceMode : Type := ModeStrace | ModePerf.

Definition parseTrace (content filename : jsstring) (mode : TraceMode)
    : ParsedTrace :=
  match mode with
  | ModePerf => parsePerfTrace content filename
  | ModeStrace => parseStrace content filename
  end.

(** ** Alignment helpers *)

(** [row[j]] for a read the loop bounds keep inside the array. *)
Definition rd (row : list Z) (j : nat) : Z := default 0 (row !! j).

(** The body of the inner loop of [levenshtein] at column [j] of line [i]:
    the state is the array [row] and the variable [prev]. *)
Definition lev_inner (a b : jsstring) (i : nat) (st : list Z * Z) (j : nat)
    : list Z * Z :=
  let '(row, prev) := st in
  let val :=
    if bool_decide (b !! (i - 1)%nat = a !! (j - 1)%nat)
    then rd row (j - 1)
    else Z.min (rd row (j - 1) + 1) (Z.min (prev + 1) (rd row j + 1)) in
  (<[(j - 1)%nat := prev]> row, val).

(** The body of the outer loop. *)
Definition lev_outer (a b : jsstring) (row : list Z) (i : nat) : list Z :=
  let '(row', prev) :=
    fold_left (lev_inner a b i) (seq 1 (length a)) (row, Z.of_nat i) in
  <[length a := prev]> row'.

Definition levenshtein (a b : jsstring) : Z :=
  if str_eqb a b then 0
  else if (length a =? 0)%nat then Z.of_nat (length b)
  else if (length b =? 0)%nat then Z.of_nat (length a)
  else
    let alen := length a in
    let blen := length b in
    if ((40 <? alen) || (40 <? blen))%nat
    then Z.abs (Z.of_nat alen - Z.of_nat blen) + 5
    else
      let row := map Z.of_nat (seq 0 (alen + 1)) in
      rd (fold_left (lev_outer a b) (seq 1 blen) row) alen.

(** The first quoted string that contains a slash.  Not anchored. *)
Definition pathRegex : regex :=
  rseq [ RLit 34%N;
         RCap (rseq [RStar greedy is_not_quote; RLit (chr "/");
                     RStar greedy is_not_quote]);
         RLit 34%N ].

(** [parts[parts.length - k]] of a non-empty array. *)
Definition from_end (parts : list jsstring) (k : nat) : jsstring :=
  default [] (parts !! (length parts - k)%nat).

(** The prefix loop of [getArgSimilarity]: [idxs] are the indices still to
    visit; a mismatch breaks out. *)
Fixpoint common_loop (a b : jsstring) (idxs : list nat) (common : Z) : Z :=
  match idxs with
  | [] => common
  | i :: idxs' =>
      if bool_decide (a !! i = b !! i)
      then common_loop a b idxs' (common + 1)
      else common
  end.

Definition getArgSimilarity (a b : jsstring) : num :=
  if str_eqb a b then Fin 1
  else if bool_decide (a = []) || bool_decide (b = []) then Fin 0
  else
    match match_anywhere pathRegex a, match_anywhere pathRegex b with
    | Some matchA, Some matchB =>
        let partsA := split (chr "/") (group 1 matchA) in
        let partsB := split (chr "/") (group 1 matchB) in
        let fileA := from_end partsA 1 in
        let fileB := from_end partsB 1 in
        if str_eqb fileA fileB && (0 <? length fileA)%nat then
          let dirA := if (1 <? length partsA)%nat then from_end partsA 2 else [] in
          let dirB := if (1 <? length partsB)%nat then from_end partsB 2 else [] in
          if str_eqb dirA dirB then Fin 1 else Fin (9 # 10)
        else
          let dist := levenshtein fileA fileB in
          if (dist <=? 2) && (3 <? length fileA)%nat then Fin (7 # 10)
          else Fin (2 # 10)
    | _, _ =>
        let minLen := Nat.min (length a) (length b) in
        let maxLen := Nat.max (length a) (length b) in
        if (maxLen =? 0)%nat then Fin 1
        else
          let checkLen := Nat.min minLen 30 in
          let common := common_loop a b (seq 0 checkLen) 0 in
          let prefixScore :=
            ndiv (of_Z common) (of_Z (Z.of_nat (Nat.max checkLen 1))) in
          let lenScore :=
            ndiv (of_Z (Z.of_nat minLen)) (of_Z (Z.of_nat maxLen)) in
          nadd (nmul prefixScore (Fin (7 # 10))) (nmul lenScore (Fin (3 # 10)))
    end.

Definition SCORE_MATCH : num := of_Z 10.
Definition SCORE_APPROX : num := of_Z 6.
Definition SCORE_MISMATCH : num := of_Z (-10).
Definition SCORE_GAP : num := of_Z (-4).
Definition MAX_ARG_BONUS : num := of_Z 5.

Definition calculateScore (x y : TraceLine) : num :=
  if str_eqb (syscall x) (syscall y) then
    let argScore := nmul (getArgSimilarity (args x) (args y)) MAX_ARG_BONUS in
    nadd SCORE_MATCH argScore
  else
    let dist := levenshtein (syscall x) (syscall y) in
    if (dist <=? 3) || includes (syscall x) (syscall y)
       || includes (syscall y) (syscall x)
    then
      let argScore :=
        nmul (getArgSimilarity (args x) (args y))
             (ndiv MAX_ARG_BONUS (of_Z 2)) in
      nadd SCORE_APPROX argScore
    else SCORE_MISMATCH.

(** ** alignTraces *)

(** What running a piece of the source can end in: a value, a [TypeError]
    (a field read on [undefined]), or an exhausted iteration budget of a
    [while] loop. *)
Inductive outcome (A : Type) : Type :=
| Ok (x : A)
| TypeError
| OutOfFuel.
Arguments Ok {A} x.
Arguments TypeError {A}.
Arguments OutOfFuel {A}.

(** [list[i]]: [undefined] outside the array. *)
Definition at_index {A} (l : list A) (i : Z) : option A :=
  if i <? 0 then None else l !! Z.to_nat i.

(** The two maps of the dynamic program; the key [`${i},${j}`] is the
    pair [(i, j)]. *)
Record DP : Type := mkDP {
  scores : gmap (Z * Z) num;
  directions : gmap (Z * Z) Z
}.

Definition getScore (i j : Z) (scores : gmap (Z * Z) num) : num :=
  if (i =? 0) && (j =? 0) then of_Z 0
  else if i =? 0 then nmul (of_Z j) SCORE_GAP
  else if j =? 0 then nmul (of_Z i) SCORE_GAP
  else default NInf (scores !! (i, j)).

(** [val !== -Infinity ? val + d : -Infinity] *)
Definition step_from (val d : num) : num :=
  if negb (neqb val NInf) then nadd val d else NInf.

(** The values [j] of [for (let j = startJ; j <= endJ; j++)].  Both bounds
    are integers, or [NaN] when the centre is; a [NaN] bound fails the
    loop test at once. *)
Definition j_range (startJ endJ : num) : list Z :=
  match startJ, endJ with
  | Fin lo, Fin hi =>
      map (fun k => Qfloor lo + Z.of_nat k)
          (seq 0 (Z.to_nat (Qfloor hi - Qfloor lo + 1)))
  | _, _ => []
  end.

Section Align.
Variables listA listB : list TraceLine.

Let n : Z := Z.of_nat (length listA).
Let m : Z := Z.of_nat (length listB).

Definition band_K : Z := Z.max 200 (Z.abs (n - m) + 100).

Definition band_center (i : Z) : num :=
  nfloor (nmul (of_Z i) (ndiv (of_Z m) (of_Z n))).

Definition band_startJ (i : Z) : num :=
  nmax (of_Z 0) (nsub (band_center i) (of_Z band_K)).

Definition band_endJ (i : Z) : num :=
  nmin (of_Z m) (nadd (band_center i) (of_Z band_K)).

(** The three candidate scores of cell [(i, j)]. *)
Definition score_left (i j : Z) (st : DP) : num :=
  if 0 <? j then step_from (getScore i (j - 1) (scores st)) SCORE_GAP
  else NInf.

Definition score_up (i j : Z) (st : DP) : num :=
  if 0 <? i then step_from (getScore (i - 1) j (scores st)) SCORE_GAP
  else NInf.

Definition score_diag (i j : Z) (st : DP) : outcome num :=
  if (0 <? i) && (0 <? j) then
    let val := getScore (i - 1) (j - 1) (scores st) in
    if negb (neqb val NInf) then
      match at_index listA (i - 1), at_index listB (j - 1) with
      | Some x, Some y => Ok (nadd val (calculateScore x y))
      | _, _ => TypeError
      end
    else Ok NInf
  else Ok NInf.

(** "Choose max": left first, up if strictly better, the diagonal if at
    least as good. *)
Definition choose_max (scoreLeft scoreUp scoreDiag : num) : num * Z :=
  let '(maxScore, dir) := (scoreLeft, 3) in
  let '(maxScore, dir) :=
    if ngtb scoreUp maxScore then (scoreUp, 2) else (maxScore, dir) in
  if ngeb scoreDiag maxScore then (scoreDiag, 1) else (maxScore, dir).

(** The body of the inner [for] loop at cell [(i, j)]. *)
Definition dp_cell (i : Z) (st : DP) (j : Z) : outcome DP :=
  if (i =? 0) && (j =? 0) then
    Ok {| scores := <[(0, 0) := of_Z 0]> (scores st);
          directions := directions st |}
  else
    match score_diag i j st with
    | Ok scoreDiag =>
        let '(maxScore, dir) :=
          choose_max (score_left i j st) (score_up i j st) scoreDiag in
        if ngtb maxScore NInf then
          Ok {| scores := <[(i, j) := maxScore]> (scores st);
                directions := <[(i, j) := dir]> (directions st) |}
        else Ok st
    | TypeError => TypeError
    | OutOfFuel => OutOfFuel
    end.

(** A [for] loop whose body may throw. *)
Fixpoint for_each {St I} (body : St -> I -> outcome St) (l : list I) (st : St)
    : outcome St :=
  match l with
  | [] => Ok st
  | x :: l' =>
      match body st x with
      | Ok st' => for_each body l' st'
      | TypeError => TypeError
      | OutOfFuel => OutOfFuel
      end
  end.

Definition dp_row (st : DP) (i : Z) : outcome DP :=
  for_each (dp_cell i) (j_range (band_startJ i) (band_endJ i)) st.

(** The rows [0 .. n]. *)
Definition dp_rows : list Z := map Z.of_nat (seq 0 (length listA + 1)).

Definition dp_fill : outcome DP :=
  for_each dp_row dp_rows (mkDP ∅ ∅).

Definition row_match (x y : TraceLine) : DiffRow :=
  {| type := TMatch; a := Some x; b := Some y;
     timeDiff := Some (nsub (duration x) (duration y));
     userDiffDelta := Some (nsub (userDiff x) (userDiff y)) |}.

Definition row_mismatch (x y : option TraceLine) : DiffRow :=
  {| type := TMismatch; a := x; b := y;
     timeDiff := None; userDiffDelta := None |}.

Definition row_delete (x : option TraceLine) : DiffRow :=
  {| type := TDelete; a := x; b := None;
     timeDiff := None; userDiffDelta := None |}.

Definition row_insert (y : option TraceLine) : DiffRow :=
  {| type := TInsert; a := None; b := y;
     timeDiff := None; userDiffDelta := None |}.

(** The traceback [while] loop, one iteration per unit of [fuel]. *)
Fixpoint traceback (dirs : gmap (Z * Z) Z) (fuel : nat) (i j : Z)
    (rows : list DiffRow) : outcome (list DiffRow) :=
  if negb ((0 <? i) || (0 <? j)) then Ok rows
  else
    match fuel with
    | O => OutOfFuel
    | S fuel' =>
        match dirs !! (i, j) with
        | None =>
            if (0 <? i) && (0 <? j) then
              traceback dirs fuel' (i - 1) (j - 1)
                (row_mismatch (at_index listA (i - 1))
                              (at_index listB (j - 1)) :: rows)
            else if 0 <? i then
              traceback dirs fuel' (i - 1) j
                (row_delete (at_index listA (i - 1)) :: rows)
            else if 0 <? j then
              traceback dirs fuel' i (j - 1)
                (row_insert (at_index listB (j - 1)) :: rows)
            else Ok rows
        | Some dir =>
            if dir =? 1 then
              match at_index listA (i - 1), at_index listB (j - 1) with
              | Some x, Some y =>
                  if ngtb (calculateScore x y) (of_Z 0)
                  then traceback dirs fuel' (i - 1) (j - 1)
                         (row_match x y :: rows)
                  else traceback dirs fuel' (i - 1) (j - 1)
                         (row_mismatch (Some x) (Some y) :: rows)
              | _, _ => TypeError
              end
            else if dir =? 2 then
              traceback dirs fuel' (i - 1) j
                (row_delete (at_index listA (i - 1)) :: rows)
            else if dir =? 3 then
              traceback dirs fuel' i (j - 1)
                (row_insert (at_index listB (j - 1)) :: rows)
            else traceback dirs fuel' i j rows
        end
    end.

(** [alignTraces] on the two [lines] arrays, with an iteration budget
    for the traceback. *)
Definition align_lines (fuel : nat) : outcome (list DiffRow) :=
  match dp_fill with
  | Ok st => traceback (directions st) fuel n m []
  | TypeError => TypeError
  | OutOfFuel => OutOfFuel
  end.

End Align.

(** The traceback makes at most [n + m] iterations when every recorded
    direction moves; that is the budget [alignTraces] runs with. *)
Definition alignTraces (traceA traceB : ParsedTrace) : outcome (list DiffRow) :=
  align_lines (lines traceA) (lines traceB)
    (length (lines traceA) + length (lines traceB)).

(** ** Specification-side definitions *)

(** What a successful match of [r] says: [r] consumed [w], leaving [rest],
    and closed the groups [caps], in order. *)
Fixpoint matches (r : regex) (w rest : jsstring) (caps : list jsstring) : Prop :=
  match r with
  | REmp => w = [] ∧ caps = []
  | RLit c => w = [c] ∧ caps = []
  | RSet p => (∃ x, w = [x] ∧ p x = true) ∧ caps = []
  | RStar _ p => forallb p w = true ∧ caps = []
  | RPlus _ p => w ≠ [] ∧ forallb p w = true ∧ caps = []
  | RCap r1 => ∃ caps1, matches r1 w rest caps1 ∧ caps = caps1 ++ [w]
  | RCat r1 r2 =>
      ∃ w1 w2 c1 c2, w = w1 ++ w2 ∧ caps = c1 ++ c2 ∧
        matches r1 w1 (w2 ++ rest) c1 ∧ matches r2 w2 rest c2
  | REnd => w = [] ∧ rest = [] ∧ caps = []
  end.

(** The edit-distance table: [lev_tab a b i j] is the distance between the
    first [i] units of [b] and the first [j] units of [a], by the classic
    recurrence (insert, delete and substitute cost 1 each). *)
Fixpoint lev_tab (a b : jsstring) (i : nat) : nat -> Z :=
  match i with
  | O => fun j => Z.of_nat j
  | S i' =>
      let prev := lev_tab a b i' in
      fix row (j : nat) : Z :=
        match j with
        | O => Z.of_nat (S i')
        | S j' =>
            if bool_decide (b !! i' = a !! j') then prev j'
            else Z.min (prev j' + 1) (Z.min (row j' + 1) (prev (S j') + 1))
        end
  end.

(** The text a timestamp pattern accepts: [\d+:\d+:\d+\.\d+]. *)
Definition clock_text (ts : jsstring) : Prop :=
  ∃ d1 d2 d3 d4,
    ts = d1 ++ [chr ":"] ++ d2 ++ [chr ":"] ++ d3 ++ [chr "."] ++ d4 ∧
    d1 ≠ [] ∧ forallb is_digit d1 = true ∧
    d2 ≠ [] ∧ forallb is_digit d2 = true ∧
    d3 ≠ [] ∧ forallb is_digit d3 = true ∧
    d4 ≠ [] ∧ forallb is_digit d4 = true.


(** Strict order of two process ids; [NaN] is below and above nothing. *)
Definition pid_lt (x y : option Z) : Prop :=
  match x, y with
  | Some p, Some q => p < q
  | _, _ => False
  end.

(** [k x <= k y] on a numeric sort key. *)
Definition key_le {A} (k : A -> num) (x y : A) : Prop :=
  nleb (k x) (k y) = true.

Definition is_fin (x : num) : Prop := ∃ q, x = Fin q.

(** The process id [parseStrace] attributes to a raw line. *)
Definition line_pid (raw : jsstring) : option Z := (split_pid (trim raw)).1.

(** Does a raw line match the grammar of variant B? *)
Definition perf_recognized (raw : jsstring) : bool :=
  match match_at_start perfRegex (trim raw) with
  | Some _ => true
  | None => false
  end.

(** The grammar variant of variant A a raw line matches, tested in the
    order [parseStrace] tests them. *)
Inductive LineKind : Type := KResumed | KUnfinished | KStandard | KNone.

Definition body_kind (body : jsstring) : LineKind :=
  match match_at_start resumeRegex body with
  | Some _ => KResumed
  | None =>
      match match_at_start unfinishedRegex body with
      | Some _ => KUnfinished
      | None =>
          match match_at_start standardRegex body with
          | Some _ => KStandard
          | None => KNone
          end
      end
  end.

Definition strace_kind (raw : jsstring) : LineKind :=
  match trim raw with
  | [] => KNone
  | _ :: _ =>
      match match_at_start timeRegex (split_pid (trim raw)).2 with
      | None => KNone
      | Some tm => body_kind (group 2 tm)
      end
  end.

Definition is_standard (raw : jsstring) : bool :=
  match strace_kind raw with
  | KStandard => true
  | _ => false
  end.

Definition strace_recognized (raw : jsstring) : bool :=
  match strace_kind raw with
  | KNone => false
  | _ => true
  end.

Definition recognized (mode : TraceMode) : jsstring -> bool :=
  match mode with
  | ModePerf => perf_recognized
  | ModeStrace => strace_recognized
  end.

(** The three parts of the event invariant of the data model. *)
Definition per_pid_ordered (t : ParsedTrace) : Prop :=
  ∀ p : option Z,
    StronglySorted (key_le timestampEpoch)
      (filter (λ e, pid e = p) (lines t)).

Definition durations_nonneg (t : ParsedTrace) : Prop :=
  Forall (λ e, nonneg (duration e)) (lines t).

Definition idle_gaps_nonneg (t : ParsedTrace) : Prop :=
  Forall (λ e, nonneg (userDiff e)) (lines t).

(** A duration is a number that is not negative, or [NaN]. *)
Definition duration_ok (x : num) : Prop := x = NaN ∨ nonneg x.

(** What the loop of [parseStrace] keeps true of the events so far. *)
Definition strace_event_ok (e : TraceLine) : Prop :=
  is_fin (timestampEpoch e) ∧ duration_ok (duration e) ∧ nonneg (userDiff e).

Definition strace_inv (st : StraceState) : Prop :=
  is_fin (s_globalStartTime st) ∧
  (∀ p pd, s_pendingCalls st !! p = Some pd -> is_fin (startEpoch pd)) ∧
  Forall strace_event_ok (s_lines st).

Definition perf_event_ok (e : TraceLine) : Prop :=
  duration_ok (duration e) ∧ nonneg (userDiff e).

(** Steps 1 and 2 of the callback of [parseStrace] on a raw line: the
    process id, the timestamp text and the body, when the line has them. *)
Definition envelope (raw : jsstring) : option (option Z * jsstring * jsstring) :=
  match trim raw with
  | [] => None
  | _ :: _ =>
      match match_at_start timeRegex (split_pid (trim raw)).2 with
      | Some tm => Some (line_pid raw, group 1 tm, group 2 tm)
      | None => None
      end
  end.

(** An unfinished line: process id, timestamp text, call name and partial
    argument text. *)
Definition as_unfinished (raw : jsstring)
    : option (option Z * jsstring * jsstring * jsstring) :=
  match envelope raw with
  | Some (p, ts, body) =>
      match match_at_start resumeRegex body with
      | Some _ => None
      | None =>
          match match_at_start unfinishedRegex body with
          | Some um => Some (p, ts, group 1 um, group 2 um)
          | None => None
          end
      end
  | None => None
  end.

(** A resumed line: process id, timestamp text, call name and the text
    after [resumed>]. *)
Definition as_resumed (raw : jsstring)
    : option (option Z * jsstring * jsstring * jsstring) :=
  match envelope raw with
  | Some (p, ts, body) =>
      match match_at_start resumeRegex body with
      | Some rm => Some (p, ts, group 1 rm, group 2 rm)
      | None => None
      end
  | None => None
  end.

(** Does a raw line replace or remove a pending record of process [p] with
    call name [name]?  An unfinished line of [p] replaces it; a resumed line
    of [p] with that name and a well-formed completion removes it. *)
Definition disturbs (p : option Z) (name : jsstring) (raw : jsstring) : bool :=
  match as_unfinished raw with
  | Some (p', _, _, _) => bool_decide (p' = p)
  | None =>
      match as_resumed raw with
      | Some (p', _, name', rest) =>
          bool_decide (p' = p) && str_eqb name name' &&
          bool_decide (is_Some (match_anywhere endRegex rest))
      | None => false
      end
  end.

(** The loop of [parseStrace] from line number [k] on. *)
Fixpoint run_from (k : nat) (ls : list jsstring) (st : StraceState) : StraceState :=
  match ls with
  | [] => st
  | raw :: ls' => run_from (S k) ls' (strace_step st (k, raw))
  end.

(** The two-line example of the specification: a read that is cut in two. *)
Definition example_unfinished : jsstring :=
  str "10:00:00.000000 read(3, <unfinished ...>".

Definition example_resumed : jsstring :=
  str "10:00:00.050000 <... read resumed> " ++ [34%N] ++ str "data" ++ [34%N]
  ++ str ", 4) = 4 <0.050000>".

Definition example_content : jsstring :=
  example_unfinished ++ [10%N] ++ example_resumed.

(** Two variant-B lines half a second apart. *)
Definition example_perf : jsstring :=
  str "1000.000000 ( 1.000 ms): app/42 openat(3) = 3" ++ [10%N]
  ++ str "1000.500000 ( 2.000 ms): app/42 openat(3) = 3".

(** The events of trace A, respectively B, that a diff sequence carries, in
    order: the [a] of match, mismatch and delete rows, the [b] of match,
    mismatch and insert rows. *)
Definition a_event (r : DiffRow) : option TraceLine :=
  match type r with
  | TMatch | TMismatch | TDelete => a r
  | _ => None
  end.

Definition b_event (r : DiffRow) : option TraceLine :=
  match type r with
  | TMatch | TMismatch | TInsert => b r
  | _ => None
  end.

Definition a_side (rows : list DiffRow) : list TraceLine := omap a_event rows.
Definition b_side (rows : list DiffRow) : list TraceLine := omap b_event rows.

(** A row is one of the four shapes of the data model. *)
Definition row_wf (r : DiffRow) : Prop :=
  match type r with
  | TMatch =>
      is_Some (a r) ∧ is_Some (b r) ∧ is_Some (timeDiff r) ∧
      is_Some (userDiffDelta r)
  | TMismatch => is_Some (a r) ∧ is_Some (b r)
  | TInsert => a r = None ∧ is_Some (b r)
  | TDelete => is_Some (a r) ∧ b r = None
  | TGap => False
  end.

(** Every recorded direction is 1, 2 or 3 and has a cell to move to. *)
Definition dirs_ok (dirs : gmap (Z * Z) Z) : Prop :=
  ∀ i j d, dirs !! (i, j) = Some d ->
    (d = 1 ∧ 0 < i ∧ 0 < j) ∨ (d = 2 ∧ 0 < i) ∨ (d = 3 ∧ 0 < j).

(** One move of the traceback from cell [(i, j)]: the direction it reads
    (or none, the fallback), the cell it moves to, and the row it adds at
    the front of the rows. *)
Inductive tb_moved (listA listB : list TraceLine) (dirs : gmap (Z * Z) Z)
    (i j : Z) : Z -> Z -> DiffRow -> Prop :=
| moved_diag x y r :
    0 < i -> 0 < j ->
    at_index listA (i - 1) = Some x -> at_index listB (j - 1) = Some y ->
    (dirs !! (i, j) = Some 1 ∧
     r = if ngtb (calculateScore x y) (of_Z 0) then row_match x y
         else row_mismatch (Some x) (Some y)) ∨
    (dirs !! (i, j) = None ∧ r = row_mismatch (Some x) (Some y)) ->
    tb_moved listA listB dirs i j (i - 1) (j - 1) r
| moved_up x :
    0 < i -> at_index listA (i - 1) = Some x ->
    dirs !! (i, j) = Some 2 ∨ (dirs !! (i, j) = None ∧ j <= 0) ->
    tb_moved listA listB dirs i j (i - 1) j (row_delete (Some x))
| moved_left y :
    0 < j -> at_index listB (j - 1) = Some y ->
    dirs !! (i, j) = Some 3 ∨ (dirs !! (i, j) = None ∧ i <= 0) ->
    tb_moved listA listB dirs i j i (j - 1) (row_insert (Some y)).

(** The rows of a whole traceback from cell [(i, j)] down to the origin. *)
Inductive tb_path (listA listB : list TraceLine) (dirs : gmap (Z * Z) Z)
    : Z -> Z -> list DiffRow -> Prop :=
| path_origin : tb_path listA listB dirs 0 0 []
| path_move i j i' j' r rows :
    tb_moved listA listB dirs i j i' j' r ->
    tb_path listA listB dirs i' j' rows ->
    tb_path listA listB dirs i j (rows ++ [r]).

(** The best total a path to cell [(a, b)] can reach when no pair scores
    above 15: [min a b] diagonal steps and [|a - b|] gap steps. *)
Definition diag_bound (a b : Z) : Z := 15 * Z.min a b - 4 * Z.abs (a - b).

(** [x] is unreachable or a number of at most [z]. *)
Definition below (x : num) (z : Z) : Prop :=
  x = NInf ∨ ∃ q, x = Fin q ∧ (q <= inject_Z z)%Q.

Definition scores_bounded (sc : gmap (Z * Z) num) : Prop :=
  ∀ a b v, sc !! (a, b) = Some v ->
    0 <= a ∧ 0 <= b ∧ ∃ q, v = Fin q ∧ (q <= inject_Z (diag_bound a b))%Q.

(** Cell [(a, a)] holds the score [15 a] and the diagonal direction. *)
Definition diag_done (st : DP) (a : Z) : Prop :=
  (∃ q, scores st !! (a, a) = Some (Fin q) ∧ (q == inject_Z (15 * a))%Q) ∧
  directions st !! (a, a) = Some 1.

(** A row of a self-alignment as the specification describes it: a match
    whose two deltas are zero. *)
Definition zero_delta (o : option num) : Prop := ∃ d, o = Some d ∧ is_zero d.

Definition match_without_delta (r : DiffRow) : Prop :=
  type r = TMatch ∧ zero_delta (timeDiff r) ∧ zero_delta (userDiffDelta r).

Definition self_alignment_claim (t : ParsedTrace) : Prop :=
  ∃ rows, alignTraces t t = Ok rows ∧
          length rows = length (lines t) ∧
          Forall match_without_delta rows.

(** The full, unbanded dynamic program of the specification: entry
    [(i, j)] is the best total score of a global alignment of the first [i]
    events of A with the first [j] events of B, where a diagonal step scores
    the pair and a horizontal or a vertical step costs the gap penalty. *)
Fixpoint full_dp_table (listA listB : list TraceLine) (i : nat) : nat -> num :=
  match i with
  | O => fun j => nmul (of_Z (Z.of_nat j)) SCORE_GAP
  | S i' =>
      let prev := full_dp_table listA listB i' in
      fix row (j : nat) : num :=
        match j with
        | O => nmul (of_Z (Z.of_nat (S i'))) SCORE_GAP
        | S j' =>
            match listA !! i', listB !! j' with
            | Some x, Some y =>
                nmax (nadd (prev j') (calculateScore x y))
                     (nmax (nadd (row j') SCORE_GAP) (nadd (prev (S j')) SCORE_GAP))
            | _, _ => NaN
            end
        end
  end.

Definition full_dp_optimum (listA listB : list TraceLine) : num :=
  full_dp_table listA listB (length listA) (length listB).

(** The score of a diff sequence: the pair score of every match and
    mismatch row, the gap penalty of every insert and delete row. *)
Definition row_score (r : DiffRow) : num :=
  match type r with
  | TMatch | TMismatch =>
      match a r, b r with
      | Some x, Some y => calculateScore x y
      | _, _ => NaN
      end
  | TInsert | TDelete => SCORE_GAP
  | TGap => NaN
  end.

Definition rows_score (rows : list DiffRow) : num :=
  fold_left (λ acc r, nadd acc (row_score r)) rows (of_Z 0).

(** The table entry at integer coordinates. *)
Definition table_at (listA listB : list TraceLine) (a b : Z) : num :=
  full_dp_table listA listB (Z.to_nat a) (Z.to_nat b).

(** The direction recorded at cell [(a, b)] is a step of the full table. *)
Definition dir_step (listA listB : list TraceLine) (dirs : gmap (Z * Z) Z)
    (a b : Z) : Prop :=
  ∃ d, dirs !! (a, b) = Some d ∧
    ((d = 1 ∧ 0 < a ∧ 0 < b ∧
      ∀ x y, at_index listA (a - 1) = Some x -> at_index listB (b - 1) = Some y ->
        num_eqv (table_at listA listB a b)
          (nadd (table_at listA listB (a - 1) (b - 1)) (calculateScore x y))) ∨
     (d = 2 ∧ 0 < a ∧
      num_eqv (table_at listA listB a b)
        (nadd (table_at listA listB (a - 1) b) SCORE_GAP)) ∨
     (d = 3 ∧ 0 < b ∧
      num_eqv (table_at listA listB a b)
        (nadd (table_at listA listB a (b - 1)) SCORE_GAP))).

(** Cell [(a, b)] has been computed and agrees with the full table. *)
Definition cell_done (listA listB : list TraceLine) (st : DP) (a b : Z) : Prop :=
  num_eqv (getScore a b (scores st)) (table_at listA listB a b) ∧
  ((a, b) ≠ (0, 0) -> dir_step listA listB (directions st) a b).

(** Cell [(a, b)] either records a step of the full table, or records
    nothing and lies on the border, where the fallback of the traceback is
    the only step there is. *)
Definition dir_fair (listA listB : list TraceLine) (dirs : gmap (Z * Z) Z)
    (a b : Z) : Prop :=
  dir_step listA listB dirs a b ∨ (dirs !! (a, b) = None ∧ (a = 0 ∨ b = 0)).

(** Two short variant-A traces that differ by one call. *)
Definition example_trace_a : ParsedTrace :=
  parseStrace
    (str "10:00:00.000000 open(1) = 3 <0.1>" ++ [10%N]
     ++ str "10:00:00.100000 read(3) = 3 <0.1>" ++ [10%N]
     ++ str "10:00:00.200000 close(3) = 0 <0.1>") (str "a.log").

Definition example_trace_b : ParsedTrace :=
  parseStrace
    (str "10:00:00.000000 open(1) = 3 <0.1>" ++ [10%N]
     ++ str "10:00:00.100000 mmap(3) = 3 <0.1>" ++ [10%N]
     ++ str "10:00:00.150000 read(3) = 3 <0.1>" ++ [10%N]
     ++ str "10:00:00.200000 close(3) = 0 <0.1>") (str "b.log").

(** Every event of a variant-B parse is stored relative to the first one. *)
Definition relative_to_first (ls : list TraceLine) : Prop :=
  match ls with
  | [] => True
  | e0 :: _ =>
      Forall (λ e, timestampEpoch e =
                   nsub (parsePerfTimestamp (timestamp e))
                        (parsePerfTimestamp (timestamp e0))) ls
  end.

Definition perf_start_inv (st : PerfState) : Prop :=
  match p_lines st with
  | [] => p_hasSetStartTime st = false
  | e0 :: _ =>
      p_hasSetStartTime st = true ∧
      p_globalStartTime st = parsePerfTimestamp (timestamp e0)
  end ∧ relative_to_first (p_lines st).

(** * Statistics, process-id selection, chart and row filter

    The [stats] field of the two parsers (services/traceService) and the
    pure state computations of the components that consume a parsed trace
    (App, PidSelector, DiffViewer). *)

(** ** The call counters of a parse *)

(** A value of [syscallCounts]: [{ count, totalDuration }]. *)
Record CallInfo : Type := mkCallInfo {
  count : Z;
  totalDuration : num
}.

(** The property names [Object.prototype] defines.  [syscallCounts] starts
    as the object literal [{}], so reading one of these names on it finds
    the inherited value, a function or an object, which is truthy. *)
Definition proto_keys : list jsstring :=
  map str [ "constructor"; "hasOwnProperty"; "isPrototypeOf";
            "propertyIsEnumerable"; "toLocaleString"; "toString"; "valueOf";
            "__proto__"; "__defineGetter__"; "__defineSetter__";
            "__lookupGetter__"; "__lookupSetter__" ]%string.

(** The own properties of [syscallCounts]: their values, and their names in
    the order they were created. *)
Record Counts : Type := mkCounts {
  c_info : gmap jsstring CallInfo;
  c_order : list jsstring
}.

Definition counts_empty : Counts := mkCounts ∅ [].

(** The "Stats" block that follows every [lines.push(line)]:
    create the entry when [!syscallCounts[syscall]], then increment
    [count] and add to [totalDuration].  For a name of [proto_keys] the
    test finds the inherited value, no own property is created, and the two
    updates land on that inherited value: [syscallCounts] itself stays
    as it is. *)
Definition count_call (c : Counts) (syscall : jsstring) (duration : num) : Counts :=
  match c_info c !! syscall with
  | Some info =>
      {| c_info := <[syscall := {| count := count info + 1;
                                   totalDuration := nadd (totalDuration info) duration |}]>
                     (c_info c);
         c_order := c_order c |}
  | None =>
      if bool_decide (syscall ∈ proto_keys) then c
      else
        {| c_info := <[syscall := {| count := 0 + 1;
                                     totalDuration := nadd (Fin 0) duration |}]>
                       (c_info c);
           c_order := c_order c ++ [syscall] |}
  end.

(** What the callback of [parsePerfTrace] does to [syscallCounts] on one
    line: the path to its "Stats" block. *)
Definition perf_count_step (c : Counts) (il : nat * jsstring) : Counts :=
  let '(_, rawLine) := il in
  let trimmed := trim rawLine in
  match trimmed with
  | [] => c
  | _ :: _ =>
    match match_at_start perfRegex trimmed with
    | None => c
    | Some m =>
      let durationMs := parseFloat (group 2 m) in
      let syscall := group 5 m in
      let durationSec := ndiv durationMs (of_Z 1000) in
      count_call c syscall durationSec
    end
  end.

Definition perf_counts (content : jsstring) : Counts :=
  fold_left perf_count_step (indexed_lines content) counts_empty.

(** What the callback of [parseStrace] does to [syscallCounts] on one
    line, in the loop state [st] the line is read in: the paths to the two
    "Stats" blocks, of a completed resumed call and of a standard call. *)
Definition strace_count_step (st : StraceState) (c : Counts) (il : nat * jsstring)
    : Counts :=
  let '(_, rawLine) := il in
  let trimmed := trim rawLine in
  match trimmed with
  | [] => c
  | _ :: _ =>
    let '(pid, rest) := split_pid trimmed in
    match match_at_start timeRegex rest with
    | None => c
    | Some tm =>
      let body := group 2 tm in
      match match_at_start resumeRegex body with
      | Some rm =>
          let syscallName := group 1 rm in
          let resumeRest := group 2 rm in
          match s_pendingCalls st !! pid with
          | Some pending =>
              if str_eqb (pend_syscall pending) syscallName then
                match match_anywhere endRegex resumeRest with
                | Some em => count_call c syscallName (parseFloat (group 3 em))
                | None => c
                end
              else c
          | None => c
          end
      | None =>
        match match_at_start unfinishedRegex body with
        | Some _ => c
        | None =>
          match match_at_start standardRegex body with
          | Some sm => count_call c (group 1 sm) (parseFloat (group 4 sm))
          | None => c
          end
        end
      end
    end
  end.

(** The loop of [parseStrace] with its counters. *)
Definition strace_run_counts (content : jsstring) : StraceState * Counts :=
  fold_left (λ acc il, (strace_step acc.1 il, strace_count_step acc.1 acc.2 il))
            (indexed_lines content) (strace_init, counts_empty).

Definition strace_counts (content : jsstring) : Counts :=
  (strace_run_counts content).2.

(** ** The totals *)

(** [TraceStats] *)
Record TraceStats : Type := mkTraceStats {
  totalLines : nat;
  totalWallTime : num;
  totalSysTime : num;
  totalUserTime : num;
  syscallCounts : Counts
}.

(** [lines.reduce((acc, l) => acc + f(l), 0)] *)
Definition sum_of (f : TraceLine -> num) (ls : list TraceLine) : num :=
  fold_left (λ acc l, nadd acc (f l)) ls (Fin 0).

(** The closing statements shared by the two parsers, on the finished
    [lines] array. *)
Definition make_stats (ls : list TraceLine) (counts : Counts) : TraceStats :=
  let totalSysTime := sum_of duration ls in
  let totalUserTime := sum_of userDiff ls in
  let totalWallTime :=
    match last ls with
    | Some l => nadd (ndiv (timestampEpoch l) (of_Z 1000)) (duration l)
    | None => Fin 0
    end in
  {| totalLines := length ls;
     totalWallTime := totalWallTime;
     totalSysTime := totalSysTime;
     totalUserTime := totalUserTime;
     syscallCounts := counts |}.

(** The [stats] field of the object [parsePerfTrace] returns. *)
Definition parsePerfTrace_stats (content : jsstring) : TraceStats :=
  make_stats (p_lines (perf_run content)) (perf_counts content).

(** The [stats] field of the object [parseStrace] returns; the array is
    sorted before the totals are taken. *)
Definition parseStrace_stats (content : jsstring) : TraceStats :=
  make_stats (sort_by line_cmp (s_lines (strace_run content)))
             (strace_counts content).

Definition parseTrace_stats (content : jsstring) (mode : TraceMode) : TraceStats :=
  match mode with
  | ModePerf => parsePerfTrace_stats content
  | ModeStrace => parseStrace_stats content
  end.

(** ** Sets of the components *)

(** [new Set(iterable)] *)
Definition set_of `{EqDecision A} (l : list A) : list A :=
  fold_left (λ s x, set_add x s) l [].

(** [set.has(x)] and [set.delete(x)] *)
Definition set_has `{EqDecision A} (x : A) (s : list A) : bool :=
  bool_decide (x ∈ s).

Definition set_delete `{EqDecision A} (x : A) (s : list A) : list A :=
  List.filter (λ y, negb (bool_decide (y = x))) s.

(** ** App: the process ids of the loaded traces and their selection *)

(** The memo [allPids]; a trace that is not loaded is [None]. *)
Definition allPids (traceA traceB : option ParsedTrace) : list (option Z) :=
  let set0 : list (option Z) := [] in
  let set1 :=
    match traceA with
    | Some t => fold_left (λ s p, set_add p s) (pids t) set0
    | None => set0
    end in
  let set2 :=
    match traceB with
    | Some t => fold_left (λ s p, set_add p s) (pids t) set1
    | None => set1
    end in
  sort_by pid_cmp set2.

(** The effect that follows a change of [allPids]: select them all. *)
Definition select_on_load (all selectedPids : list (option Z)) : list (option Z) :=
  if (0 <? length all)%nat then set_of all else selectedPids.

Definition handlePidToggle (selectedPids : list (option Z)) (pid : option Z)
    : list (option Z) :=
  let newSet := set_of selectedPids in
  if set_has pid newSet then set_delete pid newSet else set_add pid newSet.

Definition handlePidToggleAll (all : list (option Z)) (select : bool)
    : list (option Z) :=
  if select then set_of all else set_of [].

(** ** PidSelector *)

(** The component renders nothing for at most one process id. *)
Definition pid_selector_shown (all : list (option Z)) : bool :=
  negb (length all <=? 1)%nat.

Definition allSelected (all selectedPids : list (option Z)) : bool :=
  forallb (λ pid, set_has pid selectedPids) all.

(** A click on the "Select All" / "Deselect All" button, wired to
    [handlePidToggleAll] by App. *)
Definition click_toggle_all (all selectedPids : list (option Z)) : list (option Z) :=
  handlePidToggleAll all (negb (allSelected all selectedPids)).

(** ** App: the chart *)

(** [Object.keys] lists the array-index names in ascending order first, then
    the other names in creation order.  An array index is the canonical
    decimal text of an integer below [2^32 - 1]. *)
Definition is_array_index (s : jsstring) : bool :=
  match s with
  | [] => false
  | c :: t =>
      forallb is_digit s && (negb (c =? 48)%N || bool_decide (t = []))
      && (digits_val s <=? 4294967294)
  end.

Definition object_keys (c : Counts) : list jsstring :=
  sort_by (λ x y, of_Z (digits_val x - digits_val y))
          (List.filter is_array_index (c_order c))
  ++ List.filter (λ s, negb (is_array_index s)) (c_order c).

(** [counts[syscall] || { count: 0, totalDuration: 0 }] for a name that is
    an own property of one of the two counter objects (never a name of
    [proto_keys]). *)
Definition info_or_zero (c : Counts) (syscall : jsstring) : CallInfo :=
  default {| count := 0; totalDuration := Fin 0 |} (c_info c !! syscall).

(** An element of [chartData]. *)
Record ChartRow : Type := mkChartRow {
  name : jsstring;
  timeA : num;
  timeB : num;
  countA : Z;
  countB : Z;
  delta : num
}.

Definition chart_row (sa sb : TraceStats) (syscall : jsstring) : ChartRow :=
  let infoA := info_or_zero (syscallCounts sa) syscall in
  let infoB := info_or_zero (syscallCounts sb) syscall in
  {| name := syscall;
     timeA := totalDuration infoA;
     timeB := totalDuration infoB;
     countA := count infoA;
     countB := count infoB;
     delta := nsub (totalDuration infoB) (totalDuration infoA) |}.

(** The memo [chartData], from the [stats] of the two traces; [None] is a
    trace that is not loaded. *)
Definition chartData (statsA statsB : option TraceStats) : list ChartRow :=
  match statsA, statsB with
  | Some sa, Some sb =>
      let allSyscalls :=
        set_of (object_keys (syscallCounts sa) ++ object_keys (syscallCounts sb)) in
      let data := map (chart_row sa sb) allSyscalls in
      take 10 (sort_by (λ x y, nsub (nabs (delta y)) (nabs (delta x))) data)
  | _, _ => []
  end.

(** ** DiffViewer: the rows on display *)

(** [r.a?.pid ?? 0] *)
Definition pid_or_zero (l : option TraceLine) : option Z :=
  match l with
  | Some x => pid x
  | None => Some 0
  end.

(** The callback of the first [filter] of [displayRows]. *)
Definition pid_filter (selectedPids : list (option Z)) (r : DiffRow) : bool :=
  let pidA := pid_or_zero (a r) in
  let pidB := pid_or_zero (b r) in
  let showA := match a r with Some _ => set_has pidA selectedPids | None => false end in
  let showB := match b r with Some _ => set_has pidB selectedPids | None => false end in
  match type r with
  | TInsert => showB
  | TDelete => showA
  | _ => showA || showB
  end.

(** [(l?.duration || 0) > 0.001] *)
Definition slow_side (l : option TraceLine) : bool :=
  ngtb (or_else (duration <$> l) (Fin 0)) (Fin (1 # 1000)).

Definition slow_filter (r : DiffRow) : bool := slow_side (a r) || slow_side (b r).

(** The memo [displayRows]. *)
Definition displayRows (diffRows : list DiffRow) (selectedPids : list (option Z))
    (filterSlow : bool) : list DiffRow :=
  let pidFiltered := List.filter (pid_filter selectedPids) diffRows in
  if negb filterSlow then take 1000 pidFiltered
  else take 1000 (List.filter slow_filter pidFiltered).

(** [l?.pid && l.pid > 0] *)
Definition has_pid (l : option TraceLine) : bool :=
  match l with
  | Some x =>
      match pid x with
      | Some p => negb (p =? 0) && (0 <? p)
      | None => false
      end
  | None => false
  end.

(** The memo [showPid]. *)
Definition showPid (diffRows : list DiffRow) : bool :=
  existsb (λ r, has_pid (a r) || has_pid (b r)) diffRows.

(** The note under the rows, when there is one: the number of rows it
    reports hidden. *)
Definition hidden_note (diffRows : list DiffRow) (filterSlow : bool) : option Z :=
  if (1000 <? length diffRows)%nat && negb filterSlow
  then Some (Z.of_nat (length diffRows) - 1000)
  else None.

(** ** Specification-side definitions for the properties of the rest *)

(** The test that decides between a match and a mismatch row: the two call
    names are equal, within edit distance 3, or one contains the other. *)
Definition similar_names (x y : TraceLine) : bool :=
  str_eqb (syscall x) (syscall y)
  || (levenshtein (syscall x) (syscall y) <=? 3)
  || includes (syscall x) (syscall y)
  || includes (syscall y) (syscall x).

(** A row exactly as the traceback builds it. *)
Definition row_as_built (r : DiffRow) : Prop :=
  match type r with
  | TMatch =>
      ∃ x y, r = row_match x y ∧ similar_names x y = true
  | TMismatch => ∃ x y, r = row_mismatch (Some x) (Some y)
  | TInsert => ∃ y, r = row_insert (Some y)
  | TDelete => ∃ x, r = row_delete (Some x)
  | TGap => False
  end.

(** The rows that pair an event of A with an event of B, and the rows
    that carry one event only. *)
Definition is_pair_row (r : DiffRow) : bool :=
  match type r with TMatch | TMismatch => true | _ => false end.

Definition is_delete_row (r : DiffRow) : bool :=
  match type r with TDelete => true | _ => false end.

Definition is_insert_row (r : DiffRow) : bool :=
  match type r with TInsert => true | _ => false end.

Definition count_rows (p : DiffRow -> bool) (rows : list DiffRow) : nat :=
  length (List.filter p rows).

(** Where an event comes from: the line of the input its [id] points at is
    its [raw] text, or, for a resumed call, the end of its [raw] text after
    an earlier line and the separator. *)
Definition from_line (ls : list jsstring) (e : TraceLine) : Prop :=
  ∃ rawLine, ls !! line_id e = Some rawLine ∧
    (raw e = rawLine ∨
     ∃ k start, (k < line_id e)%nat ∧ ls !! k = Some start ∧
                raw e = start ++ str " ... " ++ rawLine).

(** The events with a given call name. *)
Definition events_named (name : jsstring) (ls : list TraceLine) : list TraceLine :=
  filter (λ e, syscall e = name) ls.

(** The counters after the Stats blocks of a sequence of pushed events. *)
Definition counts_of (ls : list TraceLine) : Counts :=
  fold_left (λ c e, count_call c (syscall e) (duration e)) ls counts_empty.

(** The entry the counters hold for a call name after a sequence of pushed
    events. *)
Definition info_of (name : jsstring) (ls : list TraceLine) : option CallInfo :=
  if bool_decide (name ∈ proto_keys) then None
  else
    match events_named name ls with
    | [] => None
    | evs => Some {| count := Z.of_nat (length evs);
                     totalDuration := sum_of duration evs |}
    end.

(** The names listed are the names that have an entry, each once. *)
Definition counts_wf (c : Counts) : Prop :=
  NoDup (c_order c) ∧ ∀ k, k ∈ c_order c ↔ is_Some (c_info c !! k).

(** A number that is finite and not negative. *)
Definition fin_nonneg (x : num) : Prop := ∃ q, x = Fin q ∧ (0 <= q)%Q.

(** A duration as the parsers produce it: [NaN], or finite and not negative. *)
Definition parsed_duration (x : num) : Prop := x = NaN ∨ fin_nonneg x.

(** An end time as the parsers record it: [NaN] or finite. *)
Definition end_time_ok (x : num) : Prop := x = NaN ∨ is_fin x.

Definition event_times_ok (e : TraceLine) : Prop :=
  parsed_duration (duration e) ∧ fin_nonneg (userDiff e).

Definition strace_times_inv (st : StraceState) : Prop :=
  (∀ p pd, s_pendingCalls st !! p = Some pd -> is_fin (startEpoch pd)) ∧
  (∀ p v, s_pidLastEndTime st !! p = Some v -> end_time_ok v) ∧
  Forall event_times_ok (s_lines st).

Definition perf_times_inv (st : PerfState) : Prop :=
  (∀ p v, p_pidLastEndTime st !! p = Some v -> end_time_ok v) ∧
  Forall event_times_ok (p_lines st).

(** The map of last end times has an entry exactly for the process ids of
    the events so far. *)
Definition perf_ends_inv (st : PerfState) : Prop :=
  ∀ p, p_pidLastEndTime st !! p = None ↔ Forall (λ e, pid e ≠ p) (p_lines st).

(** Every event that is the first of its process id has no idle gap. *)
Definition first_of_pid_no_gap (ls : list TraceLine) : Prop :=
  ∀ before e after, ls = before ++ e :: after ->
    Forall (λ e', pid e' ≠ pid e) before -> is_zero (userDiff e).

(** A trace that is loaded: the text of a file, its name and the mode it
    was parsed in. *)
Definition load (f : option (jsstring * jsstring * TraceMode)) : option ParsedTrace :=
  (λ '(content, filename, mode), parseTrace content filename mode) <$> f.

(** All the bars, sorted, before the cut to ten. *)
Definition chart_sorted (sa sb : TraceStats) : list ChartRow :=
  sort_by (λ x y, nsub (nabs (delta y)) (nabs (delta x)))
    (map (chart_row sa sb)
       (set_of (object_keys (syscallCounts sa) ++ object_keys (syscallCounts sb)))).

(** A bar is at least as large as another: [|delta|] compares [>=]. *)
Definition bar_ge (r1 r2 : ChartRow) : Prop :=
  nleb (nabs (delta r2)) (nabs (delta r1)) = true.

(** The row shows an event whose process id is selected. *)
Definition shows_selected (selectedPids : list (option Z)) (r : DiffRow) : Prop :=
  ∃ e, (a r = Some e ∨ b r = Some e) ∧ pid e ∈ selectedPids.

(** The row shows an event that took more than a millisecond. *)
Definition shows_slow (r : DiffRow) : Prop :=
  ∃ e q, (a r = Some e ∨ b r = Some e) ∧
         (duration e = Fin q ∧ (1 # 1000 < q)%Q ∨ duration e = PInf).

(** A log in which no line carries a [[pid N]] prefix. *)
Definition no_pid_prefix (content : jsstring) : Prop :=
  ∀ rawLine, rawLine ∈ split 10%N content ->
             match_at_start pidRegex (trim rawLine) = None.

(** The timestamp text of the first line that has one. *)
Definition first_stamp (ls : list jsstring) : option jsstring :=
  match omap envelope ls with
  | (_, ts, _) :: _ => Some ts
  | [] => None
  end.

(** The event is stored relative to the time [ts0] denotes. *)
Definition relative_to (ts0 : jsstring) (e : TraceLine) : Prop :=
  timestampEpoch e = nsub (parseTimestamp (timestamp e)) (parseTimestamp ts0).

Definition strace_origin_inv (ls : list jsstring) (st : StraceState) : Prop :=
  match first_stamp ls with
  | Some ts0 =>
      s_hasSetStartTime st = true ∧ s_globalStartTime st = parseTimestamp ts0 ∧
      Forall (relative_to ts0) (s_lines st)
  | None => s_hasSetStartTime st = false ∧ s_lines st = []
  end ∧
  ∀ p pd, s_pendingCalls st !! p = Some pd ->
          startEpoch pd = parseTimestamp (timestampStr pd).

(** An event without its [raw] text, and a pending call without its. *)
Definition forget_raw (e : TraceLine) : TraceLine :=
  {| line_id := line_id e; pid := pid e; timestamp := timestamp e;
     timestampEpoch := timestampEpoch e; syscall := syscall e; args := args e;
     result := result e; duration := duration e; userDiff := userDiff e;
     raw := [] |}.

Definition forget_start (pd : Pending) : Pending :=
  {| timestampStr := timestampStr pd; startEpoch := startEpoch pd;
     pend_syscall := pend_syscall pd; startArgs := startArgs pd;
     rawStart := [] |}.

(** Two loop states that differ in raw texts only. *)
Definition perf_same (s1 s2 : PerfState) : Prop :=
  map forget_raw (p_lines s1) = map forget_raw (p_lines s2) ∧
  p_uniquePids s1 = p_uniquePids s2 ∧
  p_pidLastEndTime s1 = p_pidLastEndTime s2 ∧
  p_globalStartTime s1 = p_globalStartTime s2 ∧
  p_hasSetStartTime s1 = p_hasSetStartTime s2.

Definition strace_same (s1 s2 : StraceState) : Prop :=
  map forget_raw (s_lines s1) = map forget_raw (s_lines s2) ∧
  s_uniquePids s1 = s_uniquePids s2 ∧
  s_pidLastEndTime s1 = s_pidLastEndTime s2 ∧
  forget_start <$> s_pendingCalls s1 = forget_start <$> s_pendingCalls s2 ∧
  s_globalStartTime s1 = s_globalStartTime s2 ∧
  s_hasSetStartTime s1 = s_hasSetStartTime s2.

(** Two inputs with the same lines up to leading and trailing white space. *)
Definition same_trimmed (c1 c2 : jsstring) : Prop :=
  map trim (split 10%N c1) = map trim (split 10%N c2).

(** Line ends turned from LF to CR LF. *)
Definition crlf (content : jsstring) : jsstring :=
  flat_map (λ c, if (c =? 10)%N then [13%N; 10%N] else [c]) content.

(** The lines of an input after its line ends are turned to CR LF: every
    line but the last ends in a carriage return. *)
Fixpoint add_cr (ls : list jsstring) : list jsstring :=
  match ls with
  | [] => []
  | l :: ls' =>
      match ls' with
      | [] => [l]
      | _ :: _ => (l ++ [13%N]) :: add_cr ls'
      end
  end.

(** Nothing of [p] at the head of [rest]: a run of [p] ends here. *)
Definition stops (p : N -> bool) (rest : jsstring) : Prop :=
  match rest with
  | [] => True
  | c :: _ => p c = false
  end.

(** White space inside a line. *)
Definition is_blank (c : N) : bool := is_space c && is_dot c.

(** A unit of a result text: no line terminator, no [<], no [=]. *)
Definition is_result_unit (c : N) : bool :=
  is_dot c && negb (c =? 60)%N && negb (c =? 61)%N.

(** A text that neither starts nor ends with white space. *)
Definition tight (s : jsstring) : Prop :=
  stops is_space s ∧ ∀ x, last s = Some x -> is_space x = false.

(** A standard line of variant A, in its parts: the four digit runs of the
    timestamp, the call name, the argument text, the result text, the
    duration text, and the white space between them. *)
Record StandardLine : Type := mkStandardLine {
  sl_hours : jsstring;
  sl_minutes : jsstring;
  sl_seconds : jsstring;
  sl_fraction : jsstring;
  sl_gap0 : jsstring;
  sl_name : jsstring;
  sl_args : jsstring;
  sl_gap1 : jsstring;
  sl_gap2 : jsstring;
  sl_result : jsstring;
  sl_gap3 : jsstring;
  sl_duration : jsstring
}.

Definition sl_stamp (l : StandardLine) : jsstring :=
  sl_hours l ++ 58%N :: sl_minutes l ++ 58%N :: sl_seconds l ++ 46%N :: sl_fraction l.

Definition sl_body (l : StandardLine) : jsstring :=
  sl_name l ++ 40%N :: sl_args l ++ 41%N :: sl_gap1 l ++ 61%N :: sl_gap2 l
  ++ sl_result l ++ sl_gap3 l ++ 60%N :: sl_duration l ++ [62%N].

(** [H:M:S.F name(args) = result <duration>] *)
Definition sl_text (l : StandardLine) : jsstring :=
  sl_stamp l ++ sl_gap0 l ++ sl_body l.

Definition digits (d : jsstring) : Prop := d ≠ [] ∧ forallb is_digit d = true.
Definition blanks (w : jsstring) : Prop := w ≠ [] ∧ forallb is_blank w = true.

(** The parts are what they are called: digits in the timestamp, a word
    for the name, no line terminator in the arguments, a result without
    [<] and [=] that neither starts nor ends with white space, digits and
    dots for the duration; and the line is not an unfinished one. *)
Definition sl_wf (l : StandardLine) : Prop :=
  digits (sl_hours l) ∧ digits (sl_minutes l) ∧ digits (sl_seconds l) ∧
  digits (sl_fraction l) ∧ blanks (sl_gap0 l) ∧
  (sl_name l ≠ [] ∧ forallb is_word (sl_name l) = true) ∧
  forallb is_dot (sl_args l) = true ∧
  blanks (sl_gap1 l) ∧ blanks (sl_gap2 l) ∧
  (sl_result l ≠ [] ∧ forallb is_result_unit (sl_result l) = true ∧
   tight (sl_result l)) ∧
  blanks (sl_gap3 l) ∧
  (sl_duration l ≠ [] ∧ forallb is_digit_or_dot (sl_duration l) = true) ∧
  includes (sl_text l) (str "<unfinished ...>") = false.

(** A unit of a process name: no line terminator and no [/]. *)
Definition is_name_unit (c : N) : bool := is_dot c && negb (c =? 47)%N.

(** A unit of a result text of a perf line: no line terminator, no [=]. *)
Definition is_value_unit (c : N) : bool := is_dot c && negb (c =? 61)%N.

(** A line of a perf trace, in its parts: the two digit runs of the
    timestamp, the duration text, the process name, the digits of the
    process id, the call name, the argument text, the result text, and
    the white space between them. *)
Record PerfLine : Type := mkPerfLine {
  pl_seconds : jsstring;
  pl_fraction : jsstring;
  pl_gap0 : jsstring;
  pl_gap1 : jsstring;
  pl_duration : jsstring;
  pl_gap2 : jsstring;
  pl_gap3 : jsstring;
  pl_process : jsstring;
  pl_pid : jsstring;
  pl_gap4 : jsstring;
  pl_name : jsstring;
  pl_args : jsstring;
  pl_gap5 : jsstring;
  pl_gap6 : jsstring;
  pl_result : jsstring
}.

Definition pl_stamp (l : PerfLine) : jsstring :=
  pl_seconds l ++ 46%N :: pl_fraction l.

(** [S.F ( duration ms): process/pid name(args) = result] *)
Definition pl_text (l : PerfLine) : jsstring :=
  pl_seconds l ++ 46%N :: pl_fraction l ++ pl_gap0 l ++ 40%N :: pl_gap1 l
  ++ pl_duration l ++ pl_gap2 l ++ str "ms):" ++ pl_gap3 l
  ++ pl_process l ++ 47%N :: pl_pid l ++ pl_gap4 l ++ pl_name l
  ++ 40%N :: pl_args l ++ 41%N :: pl_gap5 l ++ 61%N :: pl_gap6 l ++ pl_result l.

(** The parts are what they are called: digits in the timestamp and the
    process id, digits and dots for the duration, a process name without
    [/] that does not start with white space, a word for the call name, no
    line terminator in the arguments, and a result without [=] that
    neither starts nor ends with white space.  The white space after the
    opening parenthesis may be missing. *)
Definition pl_wf (l : PerfLine) : Prop :=
  digits (pl_seconds l) ∧ digits (pl_fraction l) ∧ blanks (pl_gap0 l) ∧
  forallb is_blank (pl_gap1 l) = true ∧
  (pl_duration l ≠ [] ∧ forallb is_digit_or_dot (pl_duration l) = true) ∧
  blanks (pl_gap2 l) ∧ blanks (pl_gap3 l) ∧
  (pl_process l ≠ [] ∧ forallb is_name_unit (pl_process l) = true ∧
   stops is_space (pl_process l)) ∧
  digits (pl_pid l) ∧ blanks (pl_gap4 l) ∧
  (pl_name l ≠ [] ∧ forallb is_word (pl_name l) = true) ∧
  forallb is_dot (pl_args l) = true ∧
  blanks (pl_gap5 l) ∧ blanks (pl_gap6 l) ∧
  (pl_result l ≠ [] ∧ forallb is_value_unit (pl_result l) = true ∧
   tight (pl_result l)).

(** [edits a b n]: [n] changes of one unit each (a unit put in, taken out
    or replaced by another) turn [a] into [b].  A script is read from the
    end of the two strings. *)
Inductive edits : jsstring -> jsstring -> nat -> Prop :=
| edits_nil : edits [] [] 0
| edits_keep x a b n : edits a b n -> edits (a ++ [x]) (b ++ [x]) n
| edits_replace x y a b n : edits a b n -> edits (a ++ [x]) (b ++ [y]) (S n)
| edits_delete x a b n : edits a b n -> edits (a ++ [x]) b (S n)
| edits_insert y a b n : edits a b n -> edits a (b ++ [y]) (S n).

(** ** The range in which the numbers of the embedding are those of the code *)

(** A number in the safe range: finite, not negative and below 2^53.  A
    timestamp or a duration whose text denotes such a value is a finite
    number in the code as well. *)
Definition safe_number (x : num) : bool :=
  match x with
  | Fin q => Qle_bool 0 q && negb (Qle_bool 9007199254740992 q)
  | _ => false
  end.

(** A process id in the safe range: an integer from 0 to 2^53 - 1, which
    [parseInt] returns exactly, so that two such ids are the same key of a
    [Map] or a [Set] only when they are the same integer. *)
Definition safe_pid (p : option Z) : bool :=
  match p with
  | Some z => (0 <=? z) && (z <? 9007199254740992)
  | None => false
  end.

(** The time a line of the input denotes, when the parser of the mode
    reads one from it: [parseTimestamp] of the timestamp text of a
    variant-A line, [parsePerfTimestamp] of group 1 of a variant-B line. *)
Definition line_stamp (mode : TraceMode) (rawLine : jsstring) : option num :=
  match mode with
  | ModeStrace => (λ '(_, ts, _), parseTimestamp ts) <$> envelope rawLine
  | ModePerf =>
      (λ m, parsePerfTimestamp (group 1 m)) <$> match_at_start perfRegex (trim rawLine)
  end.

(** Every timestamp of the input is in the safe range. *)
Definition stamps_safe (mode : TraceMode) (content : jsstring) : bool :=
  forallb safe_number (omap (line_stamp mode) (split 10%N content)).

(** Every listed process id is in the safe range. *)
Definition pids_safe (t : ParsedTrace) : bool := forallb safe_pid (pids t).

(** Every duration is a number in the safe range. *)
Definition durations_safe (t : ParsedTrace) : bool :=
  forallb (λ e, safe_number (duration e)) (lines t).

(** The events in the order the parser pushes them: the array [lines] as
    the loop leaves it, before [parseStrace] sorts it ([parsePerfTrace]
    does not sort). *)
Definition pushed_events (content : jsstring) (mode : TraceMode) : list TraceLine :=
  match mode with
  | ModeStrace => s_lines (strace_run content)
  | ModePerf => p_lines (perf_run content)
  end.

(** ** The matcher is sound *)

Lemma star_greedy_sound {A} p s (k : jsstring -> option A) r :
  star_greedy p s k = Some r ->
  ∃ w rest, s = w ++ rest ∧ forallb p w = true ∧ k rest = Some r.
Proof.
  revert r. induction s as [|c s IH]; simpl; intros r H.
  - exists [], []. auto.
  - destruct (p c) eqn:Hp.
    + destruct (star_greedy p s k) as [r'|] eqn:Hs.
      * inversion H; subst r'. destruct (IH r eq_refl) as (w & rest & -> & Hw & Hk).
        exists (c :: w), rest. simpl. rewrite Hp, Hw. auto.
      * exists [], (c :: s). auto.
    + exists [], (c :: s). auto.
Qed.

Lemma star_lazy_sound {A} p s (k : jsstring -> option A) r :
  star_lazy p s k = Some r ->
  ∃ w rest, s = w ++ rest ∧ forallb p w = true ∧ k rest = Some r.
Proof.
  revert r. induction s as [|c s IH]; simpl; intros r H.
  - destruct (k []) eqn:Hk; [|discriminate].
    exists [], []. split; [done|]. split; [done|]. congruence.
  - destruct (k (c :: s)) eqn:Hk.
    + exists [], (c :: s). split; [done|]. split; [done|]. congruence.
    + destruct (p c) eqn:Hp; [|discriminate].
      destruct (IH r H) as (w & rest & -> & Hw & Hk').
      exists (c :: w), rest. simpl. rewrite Hp, Hw. auto.
Qed.

Lemma star_sound {A} g p s (k : jsstring -> option A) r :
  star g p s k = Some r ->
  ∃ w rest, s = w ++ rest ∧ forallb p w = true ∧ k rest = Some r.
Proof. destruct g; [apply star_greedy_sound | apply star_lazy_sound]. Qed.

Lemma rmatch_sound {A} r : ∀ s caps (k : jsstring -> list jsstring -> option A) res,
  rmatch r s caps k = Some res ->
  ∃ w rest c, s = w ++ rest ∧ matches r w rest c ∧ k rest (caps ++ c) = Some res.
Proof.
  induction r as [|c|p|g p|g p|r1 IH|r1 IH1 r2 IH2|]; simpl; intros s caps k res H.
  - exists [], s, []. rewrite !app_nil_r. done.
  - destruct s as [|x s]; [discriminate|].
    destruct (N.eqb_spec x c); [subst x|discriminate].
    exists [c], s, []. rewrite !app_nil_r. done.
  - destruct s as [|x s]; [discriminate|].
    destruct (p x) eqn:Hp; [|discriminate].
    exists [x], s, []. rewrite !app_nil_r. repeat split; eauto.
  - apply star_sound in H as (w & rest & -> & Hw & Hk).
    exists w, rest, []. rewrite !app_nil_r. done.
  - destruct s as [|x s]; [discriminate|].
    destruct (p x) eqn:Hp; [|discriminate].
    apply star_sound in H as (w & rest & -> & Hw & Hk).
    exists (x :: w), rest, []. rewrite !app_nil_r. simpl. rewrite Hp, Hw. done.
  - apply IH in H as (w & rest & c & -> & Hm & Hk).
    exists w, rest, (c ++ [w]). split; [done|]. split; [by exists c|].
    rewrite length_app in Hk.
    replace (length w + length rest - length rest)%nat with (length w) in Hk by lia.
    rewrite take_app_length in Hk. by rewrite app_assoc.
  - apply IH1 in H as (w1 & rest1 & c1 & -> & Hm1 & Hk).
    apply IH2 in Hk as (w2 & rest & c2 & -> & Hm2 & Hk).
    exists (w1 ++ w2), rest, (c1 ++ c2). rewrite <- app_assoc. split; [done|].
    split; [by exists w1, w2, c1, c2|]. by rewrite app_assoc.
  - destruct s; [|discriminate]. exists [], [], []. rewrite !app_nil_r. done.
Qed.

Lemma match_at_start_sound r s caps :
  match_at_start r s = Some caps ->
  ∃ w rest, s = w ++ rest ∧ matches r w rest caps.
Proof.
  unfold match_at_start. intros H.
  apply rmatch_sound in H as (w & rest & c & -> & Hm & Hk).
  simpl in Hk. inversion Hk; subst. eauto.
Qed.

Lemma match_anywhere_sound r s caps :
  match_anywhere r s = Some caps ->
  ∃ pre w rest, s = pre ++ w ++ rest ∧ matches r w rest caps.
Proof.
  induction s as [|x s IH]; simpl; intros H.
  - destruct (match_at_start r []) eqn:E; [|discriminate]. inversion H; subst.
    apply match_at_start_sound in E as (w & rest & -> & Hm). exists [], w, rest. auto.
  - destruct (match_at_start r (x :: s)) eqn:E.
    + inversion H; subst. apply match_at_start_sound in E as (w & rest & -> & Hm).
      exists [], w, rest. auto.
    + destruct (IH H) as (pre & w & rest & -> & Hm). exists (x :: pre), w, rest. auto.
Qed.

(** ** Edit distance *)

Lemma lev_tab_0_l a b j : lev_tab a b 0 j = Z.of_nat j.
Proof. done. Qed.

Lemma lev_tab_0_r a b i : lev_tab a b i 0 = Z.of_nat i.
Proof. by destruct i. Qed.

Lemma lev_tab_S a b i j :
  lev_tab a b (S i) (S j) =
  if bool_decide (b !! i = a !! j) then lev_tab a b i j
  else Z.min (lev_tab a b i j + 1)
             (Z.min (lev_tab a b (S i) j + 1) (lev_tab a b i (S j) + 1)).
Proof. done. Qed.

Lemma lev_tab_sym a b : ∀ i j, lev_tab a b i j = lev_tab b a j i.
Proof.
  induction i as [|i IHi]; intros j.
  - by rewrite lev_tab_0_l, lev_tab_0_r.
  - induction j as [|j IHj].
    + by rewrite lev_tab_0_l, lev_tab_0_r.
    + rewrite !lev_tab_S, <- IHj, !IHi.
      destruct (bool_decide_reflect (b !! i = a !! j)) as [E|E].
      * rewrite bool_decide_true; done.
      * rewrite bool_decide_false by congruence. lia.
Qed.

Lemma lev_tab_nonneg a b : ∀ i j, 0 <= lev_tab a b i j.
Proof.
  induction i as [|i IHi]; intros j.
  - rewrite lev_tab_0_l. lia.
  - induction j as [|j IHj].
    + rewrite lev_tab_0_r. lia.
    + rewrite lev_tab_S. specialize (IHi j) as H1. specialize (IHi (S j)) as H2.
      case_bool_decide; lia.
Qed.

Lemma lev_tab_zero a b : ∀ i j,
  (i <= length b)%nat -> (j <= length a)%nat ->
  lev_tab a b i j = 0 -> i = j ∧ take i b = take j a.
Proof.
  induction i as [|i IHi]; intros j Hi Hj H.
  - rewrite lev_tab_0_l in H. assert (j = 0%nat) as -> by lia. done.
  - destruct j as [|j].
    + rewrite lev_tab_0_r in H. lia.
    + rewrite lev_tab_S in H.
      pose proof (lev_tab_nonneg a b i j).
      pose proof (lev_tab_nonneg a b (S i) j).
      pose proof (lev_tab_nonneg a b i (S j)).
      case_bool_decide as E; [|lia].
      destruct (IHi j) as [-> Ht]; [lia..|done|].
      split; [done|].
      destruct (lookup_lt_is_Some_2 b j) as [x Hx]; [lia|].
      rewrite (take_S_r b j x) by done.
      rewrite Hx in E. symmetry in E.
      rewrite (take_S_r a j x) by done. by rewrite Ht.
Qed.

(** The array after line [i] of the outer loop holds line [i] of the table. *)
Definition lev_row_ok (a b : jsstring) (i : nat) (row : list Z) : Prop :=
  length row = S (length a) ∧
  ∀ k, (k <= length a)%nat -> row !! k = Some (lev_tab a b i k).

Lemma rd_lookup (row : list Z) k v : row !! k = Some v -> rd row k = v.
Proof. unfold rd. by intros ->. Qed.

Lemma lev_inner_loop a b i row : ∀ n,
  lev_row_ok a b i row -> (n <= length a)%nat ->
  ∃ row', fold_left (lev_inner a b (S i)) (seq 1 n) (row, Z.of_nat (S i))
          = (row', lev_tab a b (S i) n) ∧
    length row' = S (length a) ∧
    ∀ k, (k <= length a)%nat ->
      row' !! k = Some (if (k <? n)%nat then lev_tab a b (S i) k
                        else lev_tab a b i k).
Proof.
  intros n [Hlen Hrow]. induction n as [|n IH]; intros Hn.
  - exists row. cbn [seq fold_left]. split; [by rewrite lev_tab_0_r|].
    split; [done|]. intros k Hk. by apply Hrow.
  - destruct IH as (row' & Hf & Hl & Hr); [lia|].
    rewrite seq_S, fold_left_app, Hf. cbn [fold_left lev_inner].
    replace (1 + n - 1)%nat with n by lia. replace (S i - 1)%nat with i by lia.
    replace (1 + n)%nat with (S n) by lia.
    eexists. split; [|split].
    + f_equal. rewrite lev_tab_S.
      rewrite (rd_lookup row' n (lev_tab a b i n)).
      2:{ rewrite Hr by lia. by rewrite (proj2 (Nat.ltb_ge n n)) by lia. }
      rewrite (rd_lookup row' (S n) (lev_tab a b i (S n))).
      2:{ rewrite Hr by lia. by rewrite (proj2 (Nat.ltb_ge (S n) n)) by lia. }
      done.
    + by rewrite length_insert.
    + intros k Hk. destruct (decide (k = n)) as [->|Hne].
      * rewrite list_lookup_insert_eq by lia.
        by rewrite (proj2 (Nat.ltb_lt n (S n))) by lia.
      * rewrite list_lookup_insert_ne by done. rewrite Hr by done.
        destruct (Nat.ltb_spec k n), (Nat.ltb_spec k (S n)); try done; lia.
Qed.

Lemma lev_outer_ok a b i row :
  lev_row_ok a b i row -> lev_row_ok a b (S i) (lev_outer a b row (S i)).
Proof.
  intros Hok. unfold lev_outer.
  destruct (lev_inner_loop a b i row (length a) Hok) as (row' & Hf & Hl & Hr); [lia|].
  rewrite Hf. split.
  - by rewrite length_insert.
  - intros k Hk. destruct (decide (k = length a)) as [->|Hne].
    + by rewrite list_lookup_insert_eq by lia.
    + rewrite list_lookup_insert_ne by done. rewrite Hr by done.
      by rewrite (proj2 (Nat.ltb_lt k (length a))) by lia.
Qed.

Lemma lev_outer_loop a b : ∀ n,
  lev_row_ok a b n
    (fold_left (lev_outer a b) (seq 1 n) (map Z.of_nat (seq 0 (length a + 1)))).
Proof.
  induction n as [|n IH].
  - simpl. split.
    + rewrite length_map, length_seq. lia.
    + intros k Hk. rewrite list_lookup_fmap, lookup_seq_lt by lia. done.
  - rewrite seq_S, fold_left_app. simpl. by apply lev_outer_ok.
Qed.

(** [levenshtein] computes the table entry once the shortcuts are passed. *)
Lemma levenshtein_table a b :
  a ≠ b -> a ≠ [] -> b ≠ [] ->
  (length a <= 40)%nat -> (length b <= 40)%nat ->
  levenshtein a b = lev_tab a b (length b) (length a).
Proof.
  intros Hab Ha Hb Hla Hlb. unfold levenshtein, str_eqb.
  rewrite bool_decide_false by done.
  destruct (Nat.eqb_spec (length a) 0) as [E|_]; [by destruct a|].
  destruct (Nat.eqb_spec (length b) 0) as [E|_]; [by destruct b|].
  rewrite (proj2 (Nat.ltb_ge _ _) Hla), (proj2 (Nat.ltb_ge _ _) Hlb). cbn [orb].
  apply rd_lookup.
  destruct (lev_outer_loop a b (length b)) as [_ H].
  by apply H.
Qed.

Lemma levenshtein_refl x : levenshtein x x = 0.
Proof. unfold levenshtein, str_eqb. by rewrite bool_decide_true. Qed.

Lemma levenshtein_sym x y : levenshtein x y = levenshtein y x.
Proof.
  destruct (decide (x = y)) as [->|Hne]; [done|].
  unfold levenshtein, str_eqb.
  rewrite !bool_decide_false by congruence.
  destruct (Nat.eqb_spec (length x) 0) as [Ex|Ex],
           (Nat.eqb_spec (length y) 0) as [Ey|Ey].
  - destruct x, y; done.
  - done.
  - done.
  - rewrite (orb_comm (40 <? length y)%nat).
    destruct ((40 <? length x)%nat || (40 <? length y)%nat) eqn:Hlong.
    + lia.
    + apply orb_false_elim in Hlong as [Hx Hy].
      apply Nat.ltb_ge in Hx, Hy.
      pose proof (levenshtein_table x y) as Hxy.
      pose proof (levenshtein_table y x) as Hyx.
      unfold levenshtein, str_eqb in Hxy, Hyx.
      rewrite !bool_decide_false in Hxy, Hyx by congruence.
      rewrite (proj2 (Nat.eqb_neq _ _) Ex), (proj2 (Nat.eqb_neq _ _) Ey) in Hxy, Hyx.
      rewrite (proj2 (Nat.ltb_ge _ _) Hx), (proj2 (Nat.ltb_ge _ _) Hy) in Hxy, Hyx.
      cbn [orb] in Hxy, Hyx.
      rewrite Hxy, Hyx; try done; try (by destruct x); try (by destruct y).
      apply lev_tab_sym.
Qed.

Lemma levenshtein_zero x y : levenshtein x y = 0 -> x = y.
Proof.
  intros H. destruct (decide (x = y)) as [|Hne]; [done|]. exfalso.
  destruct (decide (x = [])) as [->|Hx].
  { unfold levenshtein, str_eqb in H. rewrite bool_decide_false in H by done.
    simpl in H. destruct y; [done|]. simpl in H. lia. }
  destruct (decide (y = [])) as [->|Hy].
  { unfold levenshtein, str_eqb in H. rewrite bool_decide_false in H by done.
    destruct x; [done|]. simpl in H. lia. }
  destruct (decide (length x <= 40 ∧ length y <= 40)%nat) as [[Hlx Hly]|Hlong].
  - rewrite levenshtein_table in H by done.
    apply lev_tab_zero in H as [Hl Ht]; [|lia..].
    rewrite !firstn_all in Ht. congruence.
  - unfold levenshtein, str_eqb in H. rewrite bool_decide_false in H by done.
    destruct (Nat.eqb_spec (length x) 0) as [E|_]; [by destruct x|].
    destruct (Nat.eqb_spec (length y) 0) as [E|_]; [by destruct y|].
    destruct ((40 <? length x)%nat || (40 <? length y)%nat) eqn:Hl; [lia|].
    apply orb_false_elim in Hl as [H1 H2]. apply Nat.ltb_ge in H1, H2. lia.
Qed.

(** C6: the edit distance is symmetric, it is zero on identical strings,
    and it is zero only on identical strings. *)
Theorem levenshtein_symmetric_and_zero_iff_equal (x y : jsstring) :
  levenshtein x y = levenshtein y x ∧
  levenshtein x x = 0 ∧
  (levenshtein x y = 0 -> x = y).
Proof.
  split; [apply levenshtein_sym|]. split; [apply levenshtein_refl|].
  apply levenshtein_zero.
Qed.

(** C7, as stated, fails: two identical strings of 41 units have distance 0,
    not [abs (41 - 41) + 5]; the equality test comes before the length test. *)
Lemma levenshtein_long_identical_not_shortcut :
  ¬ (∀ a b : jsstring,
       (40 < length a)%nat ∨ (40 < length b)%nat ->
       levenshtein a b = Z.abs (Z.of_nat (length a) - Z.of_nat (length b)) + 5).
Proof.
  intros H. specialize (H (repeat 97%N 41) (repeat 97%N 41)).
  rewrite levenshtein_refl in H.
  assert (40 < length (repeat 97%N 41))%nat as Hl by (vm_compute; lia).
  specialize (H (or_introl Hl)). vm_compute in H. discriminate.
Qed.

(** C7, amended: for two different, non-empty strings of which one is longer
    than 40 units, the distance returned is [abs (lenA - lenB) + 5]. *)
Theorem levenshtein_long_shortcut (a b : jsstring) :
  a ≠ b -> a ≠ [] -> b ≠ [] ->
  (40 < length a)%nat ∨ (40 < length b)%nat ->
  levenshtein a b = Z.abs (Z.of_nat (length a) - Z.of_nat (length b)) + 5.
Proof.
  intros Hab Ha Hb Hlong. unfold levenshtein, str_eqb.
  rewrite bool_decide_false by done.
  destruct (Nat.eqb_spec (length a) 0) as [E|_]; [by destruct a|].
  destruct (Nat.eqb_spec (length b) 0) as [E|_]; [by destruct b|].
  replace ((40 <? length a)%nat || (40 <? length b)%nat) with true; [done|].
  symmetry. apply orb_true_iff.
  destruct Hlong as [H|H]; [left|right]; by apply Nat.ltb_lt.
Qed.

Lemma levenshtein_long_shortcut_witness :
  repeat 97%N 41 ≠ [98%N] ∧ repeat 97%N 41 ≠ [] ∧ [98%N] ≠ [] ∧
  ((40 < length (repeat 97%N 41))%nat ∨ (40 < length [98%N])%nat) ∧
  levenshtein (repeat 97%N 41) [98%N] = 45.
Proof.
  assert (H1 : repeat 97%N 41 ≠ [98%N]) by (vm_compute; discriminate).
  assert (H2 : repeat 97%N 41 ≠ []) by (vm_compute; discriminate).
  assert (H3 : [98%N] ≠ []) by discriminate.
  assert (H4 : (40 < length (repeat 97%N 41))%nat ∨ (40 < length [98%N])%nat)
    by (left; vm_compute; lia).
  split; [exact H1|]. split; [exact H2|]. split; [exact H3|]. split; [exact H4|].
  exact (levenshtein_long_shortcut _ _ H1 H2 H3 H4).
Defined.

(** ** Character classes and the number parsers *)

Ltac decide_cmp :=
  repeat match goal with
  | |- context [(?x <=? ?y)%N] =>
      first [ rewrite (proj2 (N.leb_le x y)) by lia
            | rewrite (proj2 (N.leb_gt x y)) by lia ]
  | |- context [(?x =? ?y)%N] =>
      first [ rewrite (proj2 (N.eqb_eq x y)) by lia
            | rewrite (proj2 (N.eqb_neq x y)) by lia ]
  end.

Lemma is_digit_spec c : is_digit c = true ↔ (48 <= c <= 57)%N.
Proof.
  unfold is_digit. rewrite andb_true_iff, !N.leb_le. done.
Qed.

Lemma is_digit_or_dot_spec c :
  is_digit_or_dot c = true ↔ (48 <= c <= 57)%N ∨ c = 46%N.
Proof.
  unfold is_digit_or_dot. rewrite orb_true_iff, is_digit_spec, N.eqb_eq. done.
Qed.

Lemma digit_is_digit_or_dot c : is_digit c = true -> is_digit_or_dot c = true.
Proof. intros H. unfold is_digit_or_dot. by rewrite H. Qed.

Lemma digits_are_digit_or_dot s :
  forallb is_digit s = true -> forallb is_digit_or_dot s = true.
Proof.
  induction s as [|c s IH]; [done|]. simpl. rewrite !andb_true_iff.
  intros [H1 H2]. split; [by apply digit_is_digit_or_dot | by apply IH].
Qed.

Lemma dd_not_space c : is_digit_or_dot c = true -> is_space c = false.
Proof.
  rewrite is_digit_or_dot_spec. intros H. unfold is_space.
  destruct H as [H| ->]; [decide_cmp|]; done.
Qed.

Lemma dd_not_sign c :
  is_digit_or_dot c = true -> (c =? 45)%N = false ∧ (c =? 43)%N = false.
Proof.
  rewrite is_digit_or_dot_spec. intros H.
  destruct H as [H| ->]; [decide_cmp|]; done.
Qed.

Lemma dd_not_exp c :
  is_digit_or_dot c = true -> ((c =? 101) || (c =? 69))%N = false.
Proof.
  rewrite is_digit_or_dot_spec. intros H.
  destruct H as [H| ->]; [decide_cmp|]; done.
Qed.

Lemma dd_not_colon c : is_digit_or_dot c = true -> (c =? 58)%N = false.
Proof.
  rewrite is_digit_or_dot_spec. intros H.
  destruct H as [H| ->]; [decide_cmp|]; done.
Qed.

Lemma dd_not_infinity s :
  forallb is_digit_or_dot s = true -> is_prefix (str "Infinity") s = false.
Proof.
  destruct s as [|c s]; [reflexivity|].
  cbn [forallb]. rewrite andb_true_iff.
  intros [H _]. apply is_digit_or_dot_spec in H.
  change (str "Infinity") with (73%N :: str "nfinity"). cbn [is_prefix].
  destruct H as [H| ->]; [by decide_cmp|reflexivity].
Qed.

Lemma digit_not_hex_mark c :
  is_digit c = true -> ((c =? 120) || (c =? 88))%N = false.
Proof. rewrite is_digit_spec. intros H. by decide_cmp. Qed.

Lemma drop_while_head p c s : p c = false -> drop_while p (c :: s) = c :: s.
Proof. intros H. simpl. by rewrite H. Qed.

Lemma take_while_split p s :
  ∃ w rest, take_while p s = (w, rest) ∧ s = w ++ rest ∧ forallb p w = true.
Proof.
  induction s as [|c s (w & rest & E & -> & Hw)]; simpl.
  - by exists [], [].
  - destruct (p c) eqn:Hc.
    + rewrite E. exists (c :: w), rest. simpl. by rewrite Hc, Hw.
    + by exists [], (c :: w ++ rest).
Qed.

Lemma take_while_all p s : forallb p s = true -> take_while p s = (s, []).
Proof.
  induction s as [|c s IH]; [done|]. simpl. rewrite andb_true_iff.
  intros [-> H]. by rewrite IH.
Qed.

Lemma take_while_stop p w c rest :
  forallb p w = true -> p c = false ->
  take_while p (w ++ c :: rest) = (w, c :: rest).
Proof.
  intros Hw Hc. induction w as [|x w IH]; simpl.
  - by rewrite Hc.
  - simpl in Hw. apply andb_true_iff in Hw as [-> Hw]. by rewrite IH.
Qed.

Lemma digit_val_nonneg c : is_digit c = true -> 0 <= digit_val c.
Proof. rewrite is_digit_spec. unfold digit_val. lia. Qed.

Lemma digits_fold_nonneg ds : ∀ acc,
  0 <= acc -> forallb is_digit ds = true ->
  0 <= fold_left (λ acc d, 10 * acc + digit_val d) ds acc.
Proof.
  induction ds as [|d ds IH]; simpl; intros acc Ha H; [done|].
  apply andb_true_iff in H as [Hd H]. apply IH; [|done].
  pose proof (digit_val_nonneg d Hd). lia.
Qed.

Lemma digits_val_nonneg ds : forallb is_digit ds = true -> 0 <= digits_val ds.
Proof. intros H. by apply digits_fold_nonneg. Qed.

(** [parseInt] on a capture of [\d+]. *)
Lemma parseInt_digits ds :
  ds ≠ [] -> forallb is_digit ds = true ->
  parseInt ds = Some (digits_val ds) ∧ 0 <= digits_val ds.
Proof.
  intros Hne Hds. split; [|by apply digits_val_nonneg].
  destruct ds as [|c ds]; [done|]. pose proof Hds as Hall.
  simpl in Hds. apply andb_true_iff in Hds as [Hc Hds].
  unfold parseInt.
  rewrite drop_while_head by (by apply dd_not_space, digit_is_digit_or_dot).
  unfold take_sign.
  destruct (dd_not_sign c) as [-> ->]; [by apply digit_is_digit_or_dot|].
  assert (has_hex_prefix (c :: ds) = false) as ->.
  { destruct ds as [|x ds]; [done|]. simpl.
    simpl in Hds. apply andb_true_iff in Hds as [Hx _].
    rewrite (digit_not_hex_mark x Hx). apply andb_false_r. }
  rewrite take_while_all by done. f_equal. lia.
Qed.
Lemma drop_while_dd s :
  forallb is_digit_or_dot s = true -> drop_while is_space s = s.
Proof.
  destruct s as [|c s]; [done|]. cbn [forallb]. rewrite andb_true_iff.
  intros [H _]. by apply drop_while_head, dd_not_space.
Qed.

Lemma take_sign_dd s : forallb is_digit_or_dot s = true -> take_sign s = (1, s).
Proof.
  destruct s as [|c s]; [done|]. cbn [forallb]. rewrite andb_true_iff.
  intros [H _]. unfold take_sign. by destruct (dd_not_sign c H) as [-> ->].
Qed.

Lemma take_exponent_dd s : forallb is_digit_or_dot s = true -> take_exponent s = 0.
Proof.
  destruct s as [|c s]; [done|]. cbn [forallb]. rewrite andb_true_iff.
  intros [H _]. unfold take_exponent. by rewrite (dd_not_exp c H).
Qed.

Lemma decimal_nonneg dv k e :
  0 <= dv -> (0 <= inject_Z 1 * (inject_Z dv / 10 ^ k) * 10 ^ e)%Q.
Proof.
  intros H. apply Qmult_le_0_compat; [apply Qmult_le_0_compat|].
  - done.
  - unfold Qdiv. apply Qmult_le_0_compat.
    + change 0%Q with (inject_Z 0). by rewrite <- Zle_Qle.
    + apply Qinv_le_0_compat, Qpower_0_le. done.
  - apply Qpower_0_le. done.
Qed.

Lemma parseFloat_dd s :
  forallb is_digit_or_dot s = true ->
  (parseFloat s = NaN ∧ ∀ c s', s = c :: s' -> is_digit c = false) ∨
  (∃ q, parseFloat s = Fin q ∧ (0 <= q)%Q).
Proof.
  intros Hs. unfold parseFloat.
  rewrite (drop_while_dd s Hs), (take_sign_dd s Hs), (dd_not_infinity s Hs).
  destruct (take_while_split is_digit s) as (ip & s2 & E & -> & Hip).
  rewrite E. rewrite forallb_app in Hs. apply andb_true_iff in Hs as [_ Hs2].
  assert (∃ fp s3,
    match s2 with
    | c :: t => if (c =? 46)%N then take_while is_digit t else ([], s2)
    | [] => ([], [])
    end = (fp, s3) ∧ forallb is_digit fp = true ∧
    forallb is_digit_or_dot s3 = true) as (fp & s3 & -> & Hfp & Hs3).
  { destruct s2 as [|c t]; [by exists [], []|].
    destruct (c =? 46)%N; [|by exists [], (c :: t)].
    destruct (take_while_split is_digit t) as (fp & s3 & Et & -> & Hfp).
    exists fp, s3. split; [done|]. split; [done|].
    cbn [forallb] in Hs2. apply andb_true_iff in Hs2 as [_ Hs2].
    rewrite forallb_app in Hs2. by apply andb_true_iff in Hs2 as [_ ?]. }
  rewrite (take_exponent_dd s3 Hs3).
  destruct (ip ++ fp) as [|d ds] eqn:Eds.
  - left. split; [done|]. intros c s' Hc.
    apply app_eq_nil in Eds as [-> ->]. simpl in Hc. subst s2.
    simpl in E. destruct (is_digit c); [|done].
    by destruct (take_while is_digit s').
  - right. eexists. split; [done|]. apply decimal_nonneg.
    apply digits_val_nonneg. rewrite <- Eds, forallb_app. by rewrite Hip, Hfp.
Qed.

Lemma parseFloat_unsigned s :
  forallb is_digit_or_dot s = true ->
  parseFloat s = NaN ∨ ∃ q, parseFloat s = Fin q ∧ (0 <= q)%Q.
Proof. intros H. destruct (parseFloat_dd s H) as [[? _]|?]; auto. Qed.

Lemma parseFloat_leading_digit c s :
  is_digit c = true -> forallb is_digit_or_dot s = true ->
  ∃ q, parseFloat (c :: s) = Fin q ∧ (0 <= q)%Q.
Proof.
  intros Hc Hs.
  destruct (parseFloat_dd (c :: s)) as [[_ H]|?]; [|by rewrite (H c s) in Hc|done].
  cbn [forallb]. by rewrite (digit_is_digit_or_dot c Hc), Hs.
Qed.

Lemma split_no_sep sep w :
  forallb (λ c, negb (c =? sep)%N) w = true -> split sep w = [w].
Proof.
  induction w as [|c w IH]; [done|]. cbn [forallb split].
  rewrite andb_true_iff, negb_true_iff. intros [-> H]. by rewrite IH.
Qed.

Lemma split_app_sep sep w rest :
  forallb (λ c, negb (c =? sep)%N) w = true ->
  split sep (w ++ sep :: rest) = w :: split sep rest.
Proof.
  induction w as [|c w IH].
  - intros _. cbn [app split]. by rewrite N.eqb_refl.
  - cbn [forallb app split]. rewrite andb_true_iff, negb_true_iff.
    intros [-> H]. by rewrite IH.
Qed.

Lemma dd_no_colon w :
  forallb is_digit_or_dot w = true ->
  forallb (λ c, negb (c =? 58)%N) w = true.
Proof.
  induction w as [|c w IH]; [done|]. cbn [forallb]. rewrite !andb_true_iff.
  intros [H1 H2]. by rewrite (dd_not_colon c H1), IH.
Qed.

Lemma parseTimestamp_clock ts : clock_text ts -> ∃ q, parseTimestamp ts = Fin q.
Proof.
  intros (d1 & d2 & d3 & d4 & -> & N1 & H1 & N2 & H2 & N3 & H3 & N4 & H4).
  unfold parseTimestamp. change (chr ":") with 58%N. change (chr ".") with 46%N.
  cbn [app].
  rewrite split_app_sep by (by apply dd_no_colon, digits_are_digit_or_dot).
  rewrite split_app_sep by (by apply dd_no_colon, digits_are_digit_or_dot).
  rewrite split_no_sep.
  2:{ apply dd_no_colon. rewrite forallb_app. cbn [forallb].
      by rewrite !digits_are_digit_or_dot. }
  cbn [lookup list_lookup parseInt_opt parseFloat_opt].
  destruct (parseInt_digits d1 N1 H1) as [-> _].
  destruct (parseInt_digits d2 N2 H2) as [-> _].
  destruct d3 as [|c d3]; [done|]. cbn [forallb] in H3.
  apply andb_true_iff in H3 as [Hc H3]. cbn [app].
  destruct (parseFloat_leading_digit c (d3 ++ 46%N :: d4) Hc) as (q & -> & _).
  { rewrite forallb_app. cbn [forallb]. by rewrite !digits_are_digit_or_dot. }
  eexists. reflexivity.
Qed.

(** ** What the patterns of the parsers capture *)

Lemma matches_rlits s w rest caps :
  matches (rlits s) w rest caps -> w = str s ∧ caps = [].
Proof.
  unfold rlits. generalize (str s). intros l. revert w caps.
  induction l as [|c l IH]; intros w caps; cbn [foldr matches].
  - done.
  - intros (w1 & w2 & c1 & c2 & -> & -> & [-> ->] & H).
    apply IH in H as [-> ->]. done.
Qed.

Ltac destruct_matches H :=
  cbn [matches rseq] in H;
  repeat match goal with
  | H : ∃ _, _ |- _ => destruct H
  | H : _ ∧ _ |- _ => destruct H
  | H : matches (rlits _) _ _ _ |- _ => apply matches_rlits in H
  end; subst.

Lemma timeRegex_shape s caps :
  match_at_start timeRegex s = Some caps ->
  ∃ ts body, caps = [ts; body] ∧ clock_text ts.
Proof.
  intros H. apply match_at_start_sound in H as (w & rest & -> & Hm).
  unfold timeRegex in Hm. destruct_matches Hm.
  eexists _, _. split; [reflexivity|].
  eexists _, _, _, _. split; [reflexivity|]. done.
Qed.

Lemma pidRegex_shape s caps :
  match_at_start pidRegex s = Some caps ->
  ∃ ds rest, caps = [ds; rest] ∧ ds ≠ [] ∧ forallb is_digit ds = true.
Proof.
  intros H. apply match_at_start_sound in H as (w & rest & -> & Hm).
  unfold pidRegex in Hm. destruct_matches Hm.
  eexists _, _. split; [reflexivity|]. done.
Qed.

Lemma resumeRegex_shape s caps :
  match_at_start resumeRegex s = Some caps -> ∃ name rest, caps = [name; rest].
Proof.
  intros H. apply match_at_start_sound in H as (w & rest & -> & Hm).
  unfold resumeRegex in Hm. destruct_matches Hm.
  eexists _, _. reflexivity.
Qed.

Lemma standardRegex_shape s caps :
  match_at_start standardRegex s = Some caps ->
  ∃ name args res dur,
    caps = [name; args; res; dur] ∧ forallb is_digit_or_dot dur = true.
Proof.
  intros H. apply match_at_start_sound in H as (w & rest & -> & Hm).
  unfold standardRegex in Hm. destruct_matches Hm.
  eexists _, _, _, _. split; [reflexivity|]. done.
Qed.

Lemma endRegex_shape s caps :
  match_anywhere endRegex s = Some caps ->
  ∃ extra res dur, caps = [extra; res; dur] ∧ forallb is_digit_or_dot dur = true.
Proof.
  intros H. apply match_anywhere_sound in H as (pre & w & rest & -> & Hm).
  unfold endRegex in Hm. destruct_matches Hm.
  eexists _, _, _. split; [reflexivity|]. done.
Qed.

Lemma perfRegex_shape s caps :
  match_at_start perfRegex s = Some caps ->
  ∃ d1 d2 dur proc pd name args res,
    caps = [d1 ++ [chr "."] ++ d2; dur; proc; pd; name; args; res] ∧
    d1 ≠ [] ∧ forallb is_digit d1 = true ∧ forallb is_digit d2 = true ∧
    forallb is_digit_or_dot dur = true ∧
    pd ≠ [] ∧ forallb is_digit pd = true.
Proof.
  intros H. apply match_at_start_sound in H as (w & rest & -> & Hm).
  unfold perfRegex in Hm. destruct_matches Hm.
  eexists _, _, _, _, _, _, _, _. split; [reflexivity|]. done.
Qed.

Lemma parsePerfTimestamp_decimal d1 d2 :
  d1 ≠ [] -> forallb is_digit d1 = true -> forallb is_digit d2 = true ->
  ∃ q, parsePerfTimestamp (d1 ++ [chr "."] ++ d2) = Fin q.
Proof.
  intros N1 H1 H2. unfold parsePerfTimestamp.
  destruct d1 as [|c d1]; [done|]. cbn [forallb] in H1.
  apply andb_true_iff in H1 as [Hc H1]. cbn [app].
  destruct (parseFloat_leading_digit c (d1 ++ chr "." :: d2) Hc) as (q & -> & _).
  { rewrite forallb_app. cbn [forallb]. by rewrite !digits_are_digit_or_dot. }
  eexists. reflexivity.
Qed.

Lemma split_pid_some trimmed :
  ∃ z, (split_pid trimmed).1 = Some z ∧ 0 <= z.
Proof.
  unfold split_pid. destruct (match_at_start pidRegex trimmed) as [m|] eqn:E.
  - apply pidRegex_shape in E as (ds & rest & -> & Hne & Hds).
    destruct (parseInt_digits ds Hne Hds) as [Hp Hz].
    exists (digits_val ds). by rewrite <- Hp.
  - by exists 0.
Qed.

(** ** Insertion-ordered sets, the stable sort and the line loop *)

Lemma set_add_elem `{EqDecision A} (x y : A) l :
  y ∈ set_add x l ↔ y = x ∨ y ∈ l.
Proof.
  unfold set_add. case_bool_decide as E.
  - split; [auto|]. intros [->|?]; done.
  - rewrite elem_of_app, list_elem_of_singleton. tauto.
Qed.

Lemma set_add_NoDup `{EqDecision A} (x : A) l : NoDup l -> NoDup (set_add x l).
Proof.
  intros H. unfold set_add. case_bool_decide as E; [done|].
  apply NoDup_app. split; [done|]. split; [|apply NoDup_singleton].
  intros y Hy Hx. apply list_elem_of_singleton in Hx. by subst.
Qed.

Lemma insert_by_perm {A} (cmp : A -> A -> num) x l : insert_by cmp x l ≡ₚ x :: l.
Proof.
  induction l as [|y l IH]; cbn [insert_by]; [done|].
  destruct (ngtb (cmp x y) (Fin 0)); [|done].
  rewrite IH. apply Permutation_swap.
Qed.

Lemma sort_by_perm {A} (cmp : A -> A -> num) l : sort_by cmp l ≡ₚ l.
Proof.
  induction l as [|x l IH]; cbn [sort_by]; [done|]. by rewrite insert_by_perm, IH.
Qed.

Lemma key_order {A} (k : A -> num) (x y : A) :
  is_fin (k x) -> is_fin (k y) ->
  if ngtb (nsub (k x) (k y)) (Fin 0)
  then key_le k y x else key_le k x y.
Proof.
  intros [p Hp] [q Hq]. unfold key_le. rewrite Hp, Hq. simpl.
  destruct (Qle_bool (p + - q) 0) eqn:E; simpl.
  - apply Qle_bool_iff. apply Qle_bool_iff in E. lra.
  - apply Qle_bool_iff. destruct (Qlt_le_dec 0 (p + - q)) as [H|H]; [lra|].
    apply Qle_bool_iff in H. congruence.
Qed.

Lemma key_le_trans {A} (k : A -> num) (x y z : A) :
  is_fin (k x) -> is_fin (k y) -> is_fin (k z) ->
  key_le k x y -> key_le k y z -> key_le k x z.
Proof.
  intros [p Hp] [q Hq] [r Hr]. unfold key_le. rewrite Hp, Hq, Hr. simpl.
  rewrite !Qle_bool_iff. lra.
Qed.

Lemma insert_by_sorted {A} (k : A -> num) x l :
  is_fin (k x) -> Forall (λ y, is_fin (k y)) l ->
  StronglySorted (key_le k) l ->
  StronglySorted (key_le k) (insert_by (λ x y, nsub (k x) (k y)) x l).
Proof.
  intros Hx Hl Hs. induction l as [|y l IH]; cbn [insert_by].
  - apply StronglySorted_cons. split; [done|constructor].
  - apply Forall_cons in Hl as [Hy Hl].
    apply StronglySorted_cons in Hs as [Hyl Hs].
    pose proof (key_order k x y Hx Hy) as Ho.
    destruct (ngtb (nsub (k x) (k y)) (Fin 0)).
    + apply StronglySorted_cons. split; [|by apply IH].
      rewrite insert_by_perm. by apply Forall_cons.
    + apply StronglySorted_cons. split; [|by apply StronglySorted_cons].
      apply Forall_cons. split; [done|].
      rewrite Forall_forall in Hyl, Hl |- *. intros z Hz.
      apply (key_le_trans k x y z); auto.
Qed.

Lemma sort_by_sorted {A} (k : A -> num) l :
  Forall (λ y, is_fin (k y)) l ->
  StronglySorted (key_le k) (sort_by (λ x y, nsub (k x) (k y)) l).
Proof.
  induction l as [|x l IH]; cbn [sort_by]; intros H; [constructor|].
  apply Forall_cons in H as [Hx Hl].
  apply insert_by_sorted; [done| |by apply IH].
  by rewrite sort_by_perm.
Qed.

Lemma indexed_lines_snoc (ls : list jsstring) x :
  imap (λ i l, (i, l)) (ls ++ [x]) = imap (λ i l, (i, l)) ls ++ [(length ls, x)].
Proof. rewrite imap_app. simpl. by rewrite Nat.add_0_r. Qed.

(** Invariants of a [forEach] over the lines of the input. *)
Lemma lines_loop_ind {St} (step : St -> nat * jsstring -> St)
    (P : nat -> St -> Prop) (init : St) (ls : list jsstring) :
  P 0%nat init ->
  (∀ k st raw, ls !! k = Some raw -> P k st -> P (S k) (step st (k, raw))) ->
  P (length ls) (fold_left step (imap (λ i l, (i, l)) ls) init).
Proof.
  intros H0. induction ls as [|x ls IH] using rev_ind; intros Hstep; [done|].
  rewrite indexed_lines_snoc, fold_left_app, length_app. simpl.
  rewrite Nat.add_1_r. apply Hstep.
  - by rewrite lookup_app_r, Nat.sub_diag.
  - apply IH. intros k st raw Hk. apply Hstep.
    by rewrite lookup_app_l by (by eapply lookup_lt_Some).
Qed.

(** ** parseStrace: the process-id list *)

Lemma strace_body_pids st index rawLine p ts cur body :
  s_uniquePids (strace_body st index rawLine p ts cur body) = s_uniquePids st.
Proof.
  unfold strace_body, complete_resumed. repeat case_match; done.
Qed.

Lemma strace_step_pids st index raw :
  s_uniquePids (strace_step st (index, raw)) =
  match trim raw with
  | [] => s_uniquePids st
  | _ :: _ => set_add (line_pid raw) (s_uniquePids st)
  end.
Proof.
  unfold strace_step, line_pid. destruct (trim raw) as [|c t] eqn:E; [done|].
  destruct (split_pid (c :: t)) as [p rest]. cbn [fst].
  destruct (match_at_start timeRegex rest); [|done].
  by rewrite strace_body_pids.
Qed.

Lemma strace_run_pids content :
  let u := s_uniquePids (strace_run content) in
  NoDup u ∧
  (∀ p, p ∈ u -> ∃ z, p = Some z) ∧
  (∀ raw, raw ∈ split 10%N content -> trim raw ≠ [] -> line_pid raw ∈ u).
Proof.
  unfold strace_run, indexed_lines. set (ls := split 10%N content).
  cut (let st := fold_left strace_step (imap (λ i l, (i, l)) ls) strace_init in
       NoDup (s_uniquePids st) ∧ (∀ p, p ∈ s_uniquePids st -> ∃ z, p = Some z) ∧
       (∀ j raw, (j < length ls)%nat -> ls !! j = Some raw -> trim raw ≠ [] ->
                 line_pid raw ∈ s_uniquePids st)).
  { intros (H1 & H2 & H3). split; [done|]. split; [done|].
    intros raw Hraw Hne. apply list_elem_of_lookup in Hraw as [j Hj].
    apply (H3 j); [by eapply lookup_lt_Some|done..]. }
  apply (lines_loop_ind strace_step (λ k st,
    NoDup (s_uniquePids st) ∧ (∀ p, p ∈ s_uniquePids st -> ∃ z, p = Some z) ∧
    (∀ j raw, (j < k)%nat -> ls !! j = Some raw -> trim raw ≠ [] ->
              line_pid raw ∈ s_uniquePids st))).
  - split; [constructor|]. split; [by intros p Hp; inversion Hp|]. intros; lia.
  - intros k st raw Hk (H1 & H2 & H3). rewrite strace_step_pids.
    destruct (trim raw) as [|c t] eqn:E.
    + split; [done|]. split; [done|]. intros j raw' Hj Hl Hne.
      destruct (decide (j = k)) as [->|]; [congruence|]. apply (H3 j); [lia|done..].
    + split; [by apply set_add_NoDup|]. split.
      * intros p Hp. apply set_add_elem in Hp as [->|Hp]; [|by apply H2].
        destruct (split_pid_some (trim raw)) as (z & Hz & _). by exists z.
      * intros j raw' Hj Hl Hne. apply set_add_elem.
        destruct (decide (j = k)) as [->|]; [left; congruence|].
        right. apply (H3 j); [lia|done..].
Qed.

Lemma sorted_pids_strict (l : list (option Z)) :
  NoDup l -> (∀ p, p ∈ l -> ∃ z, p = Some z) ->
  StronglySorted (key_le num_of_int) l -> StronglySorted pid_lt l.
Proof.
  induction l as [|x l IH]; intros Hnd Hs Hsort; [constructor|].
  apply NoDup_cons in Hnd as [Hx Hnd].
  apply StronglySorted_cons in Hsort as [Hxl Hsort].
  apply StronglySorted_cons. split.
  - rewrite Forall_forall in Hxl |- *. intros y Hy.
    destruct (Hs x) as [a ->]; [left|]. destruct (Hs y) as [b ->]; [by right|].
    specialize (Hxl _ Hy). unfold key_le in Hxl. simpl in Hxl.
    apply Qle_bool_iff in Hxl. rewrite <- Zle_Qle in Hxl. simpl.
    assert (a ≠ b) by (intros ->; done). lia.
  - apply IH; [done| |done]. intros p Hp. apply Hs. by right.
Qed.

Lemma sort_pids_strict (u : list (option Z)) :
  NoDup u -> (∀ p, p ∈ u -> ∃ z, p = Some z) ->
  StronglySorted pid_lt (sort_by pid_cmp u) ∧ NoDup (sort_by pid_cmp u).
Proof.
  intros Hnd Hs.
  assert (NoDup (sort_by pid_cmp u)) as Hnd' by (by rewrite sort_by_perm).
  split; [|done]. apply sorted_pids_strict; [done| |].
  - intros p Hp. apply Hs. by rewrite sort_by_perm in Hp.
  - apply (sort_by_sorted num_of_int). apply Forall_forall. intros p Hp.
    destruct (Hs p Hp) as [z ->]. by eexists.
Qed.


(** ** Lines that match no grammar variant *)

Lemma perf_step_unrecognized st i raw :
  perf_recognized raw = false -> perf_step st (i, raw) = st.
Proof.
  unfold perf_recognized, perf_step. intros H.
  destruct (trim raw); [done|]. by destruct (match_at_start perfRegex _).
Qed.

Lemma perf_step_recognized st i raw :
  perf_recognized raw = true ->
  ∃ e, p_lines (perf_step st (i, raw)) = p_lines st ++ [e] ∧ line_id e = i.
Proof.
  unfold perf_recognized, perf_step. intros H.
  destruct (trim raw) as [|c t] eqn:E.
  - by vm_compute in H.
  - destruct (match_at_start perfRegex (c :: t)); [|done]. by eexists.
Qed.

Lemma strace_step_lines st i raw :
  match strace_kind raw with
  | KNone | KUnfinished => s_lines (strace_step st (i, raw)) = s_lines st
  | KStandard =>
      ∃ e, s_lines (strace_step st (i, raw)) = s_lines st ++ [e] ∧ line_id e = i
  | KResumed =>
      s_lines (strace_step st (i, raw)) = s_lines st ∨
      ∃ e, s_lines (strace_step st (i, raw)) = s_lines st ++ [e] ∧ line_id e = i
  end.
Proof.
  unfold strace_kind, strace_step. destruct (trim raw) as [|c t] eqn:E; [done|].
  destruct (split_pid (c :: t)) as [p rest]. cbn [snd].
  destruct (match_at_start timeRegex rest) as [tm|]; [|done].
  unfold body_kind, strace_body, complete_resumed.
  destruct (match_at_start resumeRegex (group 2 tm)).
  { cbn [s_pendingCalls]. repeat case_match; eauto. }
  destruct (match_at_start unfinishedRegex (group 2 tm)); [done|].
  destruct (match_at_start standardRegex (group 2 tm)); [|done].
  by eexists.
Qed.

Lemma filter_take_S {A} (P : A -> bool) (l : list A) k x :
  l !! k = Some x ->
  length (List.filter P (take (S k) l)) =
  (length (List.filter P (take k l)) + if P x then 1 else 0)%nat.
Proof.
  intros H. rewrite (take_S_r l k x H), List.filter_app, length_app. simpl.
  by destruct (P x).
Qed.

Lemma perf_run_count content :
  length (p_lines (perf_run content)) =
  length (List.filter perf_recognized (split 10%N content)).
Proof.
  unfold perf_run, indexed_lines. set (ls := split 10%N content).
  pose proof (lines_loop_ind perf_step (λ k st,
    length (p_lines st) = length (List.filter perf_recognized (take k ls)))
    perf_init ls) as H.
  cbn beta in H. rewrite firstn_all in H. apply H; clear H.
  - done.
  - intros k st raw Hk IH. rewrite (filter_take_S _ _ _ _ Hk), <- IH.
    destruct (perf_recognized raw) eqn:E.
    + destruct (perf_step_recognized st k raw E) as (e & -> & _).
      by rewrite length_app.
    + rewrite perf_step_unrecognized by done. lia.
Qed.

Lemma kind_flags raw :
  (is_standard raw, strace_recognized raw) =
  match strace_kind raw with
  | KStandard => (true, true)
  | KNone => (false, false)
  | _ => (false, true)
  end.
Proof. unfold is_standard, strace_recognized. by destruct (strace_kind raw). Qed.

Lemma strace_run_count content :
  (length (List.filter is_standard (split 10%N content))
   <= length (s_lines (strace_run content))
   <= length (List.filter strace_recognized (split 10%N content)))%nat.
Proof.
  unfold strace_run, indexed_lines. set (ls := split 10%N content).
  pose proof (lines_loop_ind strace_step (λ k st,
    (length (List.filter is_standard (take k ls)) <= length (s_lines st)
     <= length (List.filter strace_recognized (take k ls)))%nat)
    strace_init ls) as H.
  cbn beta in H. rewrite firstn_all in H. apply H; clear H.
  - simpl. lia.
  - intros k st raw Hk IH. rewrite !(filter_take_S _ _ _ _ Hk).
    pose proof (strace_step_lines st k raw) as H.
    pose proof (kind_flags raw) as F.
    destruct (strace_kind raw); injection F as -> ->.
    + destruct H as [-> | (e & -> & _)]; rewrite ?length_app; cbn [length]; lia.
    + rewrite H. lia.
    + destruct H as (e & -> & _). rewrite length_app. cbn [length]. lia.
    + rewrite H. lia.
Qed.

Lemma filter_length_le {A} (P : A -> bool) (l : list A) :
  (length (List.filter P l) <= length l)%nat.
Proof.
  induction l as [|x l IH]; simpl; [lia|]. destruct (P x); simpl; lia.
Qed.

(** C9: neither parser has a failure path: a line that matches no grammar
    variant of the selected format adds no event and the loop goes on to
    the next line, so the event sequence has at most one event per
    recognized line (none for an input without one).  Variant B has exactly
    one event per recognized line; variant A at least one per standard
    line. *)
Theorem parse_skips_unrecognized_lines (content filename : jsstring) :
  (∀ st i raw, perf_recognized raw = false -> perf_step st (i, raw) = st) ∧
  (∀ st i raw, strace_recognized raw = false ->
     s_lines (strace_step st (i, raw)) = s_lines st) ∧
  (∀ mode,
     (length (lines (parseTrace content filename mode))
      <= length (List.filter (recognized mode) (split 10%N content))
      <= length (split 10%N content))%nat) ∧
  length (lines (parsePerfTrace content filename)) =
    length (List.filter perf_recognized (split 10%N content)) ∧
  (length (List.filter is_standard (split 10%N content))
   <= length (lines (parseStrace content filename)))%nat.
Proof.
  split; [apply perf_step_unrecognized|]. split.
  { intros st i raw H. pose proof (strace_step_lines st i raw) as Hs.
    unfold strace_recognized in H. by destruct (strace_kind raw). }
  pose proof (perf_run_count content) as Hp.
  pose proof (strace_run_count content) as Hs.
  assert (length (lines (parseStrace content filename))
          = length (s_lines (strace_run content))) as Hsl.
  { cbn [parseStrace lines]. by rewrite sort_by_perm. }
  split; [|split].
  - intros mode. split; [|apply filter_length_le].
    destruct mode; cbn [parseTrace recognized].
    + rewrite Hsl. lia.
    + cbn [parsePerfTrace lines]. lia.
  - done.
  - rewrite Hsl. lia.
Qed.

(** ** The event invariant of the data model *)

Lemma clamp_nonneg y :
  y ≠ NaN -> nonneg (ndiv (nmax (Fin 0) y) (of_Z 1000)).
Proof.
  intros Hy. destruct y as [| |r|]; [done|reflexivity| |reflexivity].
  unfold nonneg. cbn [nmax nltb].
  destruct (Qle_bool r 0) eqn:E; cbn [negb]; [reflexivity|].
  cbn [ndiv of_Z nleb].
  change (Qeq_bool (inject_Z 1000) 0) with false. cbn iota.
  apply Qle_bool_iff. destruct (Qlt_le_dec 0 r) as [H|H].
  - apply Qle_shift_div_l; [reflexivity|]. lra.
  - apply Qle_bool_iff in H. congruence.
Qed.

Lemma or_else_not_nan o cur : cur ≠ NaN -> or_else o cur ≠ NaN.
Proof.
  intros H. unfold or_else. destruct o as [x|]; [|done].
  destruct (truthy x) eqn:E; [|done]. by destruct x.
Qed.

Lemma idle_gap_nonneg cur o :
  is_fin cur ->
  nonneg (ndiv (nmax (Fin 0) (nsub cur (or_else o cur))) (of_Z 1000)).
Proof.
  intros [q ->]. apply clamp_nonneg.
  pose proof (or_else_not_nan o (Fin q)) as H.
  destruct (or_else o (Fin q)); [by destruct H|done..].
Qed.

Lemma duration_of_capture dur :
  forallb is_digit_or_dot dur = true -> duration_ok (parseFloat dur).
Proof.
  intros H. destruct (parseFloat_unsigned dur H) as [->|(q & -> & Hq)].
  - by left.
  - right. by apply Qle_bool_iff.
Qed.

Lemma duration_ms_ok x : duration_ok x -> duration_ok (ndiv x (of_Z 1000)).
Proof.
  intros [->|H]; [by left|]. right.
  destruct x as [| |q|]; [done|done| |reflexivity].
  unfold nonneg in *. cbn [ndiv of_Z nleb] in *.
  change (Qeq_bool (inject_Z 1000) 0) with false. cbn iota.
  apply Qle_bool_iff. apply Qle_bool_iff in H.
  apply Qle_shift_div_l; [reflexivity|]. lra.
Qed.

Lemma fin_sub x y : is_fin x -> is_fin y -> is_fin (nsub x y).
Proof. intros [p ->] [q ->]. by eexists. Qed.

Lemma strace_step_inv st i raw : strace_inv st -> strace_inv (strace_step st (i, raw)).
Proof.
  intros (Hg & Hp & Hl). unfold strace_step.
  destruct (trim raw) as [|c t]; [done|].
  destruct (split_pid (c :: t)) as [p rest].
  destruct (match_at_start timeRegex rest) as [tm|] eqn:Et; [|done].
  apply timeRegex_shape in Et as (ts & body & -> & Hts).
  change (group 1 [ts; body]) with ts. change (group 2 [ts; body]) with body.
  destruct (parseTimestamp_clock ts Hts) as [q Hq].
  set (st2 := mkStraceState _ _ _ _ _ _).
  assert (strace_inv st2) as (Hg2 & Hp2 & Hl2).
  { split; [|done]. cbn. destruct (s_hasSetStartTime st); [done|by exists q]. }
  assert (is_fin (parseTimestamp ts)) as Hcur by (by exists q).
  clearbody st2. clear Hg Hp Hl.
  unfold strace_body.
  destruct (match_at_start resumeRegex body) as [rm|].
  { destruct (s_pendingCalls st2 !! p) as [pd|] eqn:Epd; [|done].
    destruct (str_eqb _ _); [|done].
    unfold complete_resumed.
    destruct (match_anywhere endRegex (group 2 rm)) as [em|] eqn:Ee; [|done].
    apply endRegex_shape in Ee as (extra & res & dur & -> & Hdur).
    change (group 3 [extra; res; dur]) with dur.
    split; [done|]. split.
    - cbn. intros p' pd' H. apply lookup_delete_Some in H as [_ H]. by eapply Hp2.
    - cbn [s_lines]. apply Forall_app. split; [done|]. apply Forall_singleton.
      split; [|split]; cbn.
      + apply fin_sub; [by eapply Hp2|done].
      + by apply duration_of_capture.
      + apply idle_gap_nonneg. by eapply Hp2. }
  destruct (match_at_start unfinishedRegex body) as [um|].
  { split; [done|]. split; [|done]. cbn. intros p' pd' H.
    apply lookup_insert_Some in H as [[_ <-]|[_ H]]; [done|by eapply Hp2]. }
  destruct (match_at_start standardRegex body) as [sm|] eqn:Es; [|done].
  apply standardRegex_shape in Es as (name & ar & res & dur & -> & Hdur).
  change (group 4 [name; ar; res; dur]) with dur.
  split; [done|]. split; [done|].
  cbn [s_lines]. apply Forall_app. split; [done|]. apply Forall_singleton.
  split; [|split]; cbn.
  - by apply fin_sub.
  - by apply duration_of_capture.
  - by apply idle_gap_nonneg.
Qed.

Lemma strace_run_inv content : strace_inv (strace_run content).
Proof.
  unfold strace_run, indexed_lines.
  apply (lines_loop_ind strace_step (λ _ st, strace_inv st)).
  - split; [by eexists|]. split; [|constructor]. intros p pd H.
    unfold strace_init in H. cbn [s_pendingCalls] in H.
    by rewrite lookup_empty in H.
  - intros k st raw _. apply strace_step_inv.
Qed.

Lemma perf_step_inv st i raw :
  Forall perf_event_ok (p_lines st) ->
  Forall perf_event_ok (p_lines (perf_step st (i, raw))).
Proof.
  intros Hl. unfold perf_step. destruct (trim raw) as [|c t]; [done|].
  destruct (match_at_start perfRegex (c :: t)) as [m|] eqn:Em; [|done].
  apply perfRegex_shape in Em
    as (d1 & d2 & dur & proc & pd & name & ar & res & -> & N1 & H1 & H2 & Hd & _).
  cbn [p_lines]. apply Forall_app. split; [done|]. apply Forall_singleton.
  split; cbn.
  - apply duration_ms_ok. by apply duration_of_capture.
  - apply idle_gap_nonneg. destruct (parsePerfTimestamp_decimal d1 d2) as [q Hq]; [done..|].
    by exists q.
Qed.

Lemma perf_run_inv content :
  Forall perf_event_ok (p_lines (perf_run content)) ∧
  StronglySorted lt (map line_id (p_lines (perf_run content))).
Proof.
  unfold perf_run, indexed_lines.
  cut (Forall perf_event_ok
         (p_lines (fold_left perf_step (imap (λ i l, (i, l)) (split 10%N content)) perf_init)) ∧
       Forall (λ e, (line_id e < length (split 10%N content))%nat)
         (p_lines (fold_left perf_step (imap (λ i l, (i, l)) (split 10%N content)) perf_init)) ∧
       StronglySorted lt
         (map line_id (p_lines (fold_left perf_step (imap (λ i l, (i, l)) (split 10%N content)) perf_init)))).
  { tauto. }
  apply (lines_loop_ind perf_step (λ k st,
    Forall perf_event_ok (p_lines st) ∧
    Forall (λ e, (line_id e < k)%nat) (p_lines st) ∧
    StronglySorted lt (map line_id (p_lines st)))).
  - repeat split; constructor.
  - intros k st raw _ (H1 & H2 & H3). split; [by apply perf_step_inv|].
    destruct (perf_recognized raw) eqn:E.
    + destruct (perf_step_recognized st k raw E) as (e & -> & He). split.
      * apply Forall_app. split.
        -- eapply Forall_impl; [done|]. cbn. lia.
        -- apply Forall_singleton. lia.
      * rewrite map_app. apply StronglySorted_app. split; [|split; [done|]].
        -- intros x y Hx Hy. cbn in Hy. apply list_elem_of_singleton in Hy as ->.
           apply list_elem_of_fmap in Hx as (e' & -> & He').
           rewrite Forall_forall in H2. specialize (H2 _ He'). lia.
        -- cbn. apply StronglySorted_cons. split; constructor.
    + rewrite perf_step_unrecognized by done. split; [|done].
      eapply Forall_impl; [done|]. cbn. lia.
Qed.


Lemma StronglySorted_filter_keep {A} (R : A -> A -> Prop) (P : A -> Prop)
    `{∀ x, Decision (P x)} (l : list A) :
  StronglySorted R l -> StronglySorted R (filter P l).
Proof.
  induction l as [|x l IH]; intros Hs; [constructor|].
  apply StronglySorted_cons in Hs as [Hx Hs].
  rewrite filter_cons. destruct (decide (P x)); [|by apply IH].
  apply StronglySorted_cons. split; [|by apply IH].
  rewrite Forall_forall in Hx |- *. intros y Hy.
  apply list_elem_of_filter in Hy as [_ Hy]. by apply Hx.
Qed.

(** C8, as stated, fails twice.  Variant B keeps the input order, so two
    lines of one process with decreasing timestamps give events out of
    start-time order; and a duration text without a digit, like [<.>],
    parses to [NaN], which is not [>= 0]. *)
Lemma event_invariant_fails :
  ¬ per_pid_ordered
      (parsePerfTrace
         (str "2.0 ( 1.0 ms): a/1 f() = 0" ++ [10%N] ++
          str "1.0 ( 1.0 ms): a/1 f() = 0") []) ∧
  ¬ durations_nonneg (parseStrace (str "10:00:00.000000 read(3) = 4 <.>") []).
Proof.
  split.
  - intros H. specialize (H (Some 1)). vm_compute in H.
    apply StronglySorted_cons in H as [H _].
    apply Forall_cons in H as [H _]. discriminate.
  - intros H. vm_compute in H. apply Forall_cons in H as [H _]. discriminate.
Qed.

(** C8, amended: the variant-A parser returns its events sorted by relative
    start time, hence in non-decreasing start order for each process id,
    when every timestamp of the input is in the safe range; the variant-B
    parser returns them in input-line order; in both, every duration is
    [>= 0] or [NaN], and every idle gap is [>= 0] when every timestamp of
    the input is in the safe range.  The numbers of the embedding never
    overflow, so its proof does not need the range; the code needs it: a
    timestamp that overflows to [Infinity] gives a relative start and an
    idle gap of [NaN]. *)
Theorem parsed_events_invariant (content filename : jsstring) :
  (stamps_safe ModeStrace content = true ->
   StronglySorted (key_le timestampEpoch) (lines (parseStrace content filename)) ∧
   per_pid_ordered (parseStrace content filename)) ∧
  StronglySorted lt (map line_id (lines (parsePerfTrace content filename))) ∧
  (∀ mode,
     Forall (λ e, duration_ok (duration e)) (lines (parseTrace content filename mode)) ∧
     (stamps_safe mode content = true ->
      idle_gaps_nonneg (parseTrace content filename mode))).
Proof.
  destruct (strace_run_inv content) as (_ & _ & Hl).
  destruct (perf_run_inv content) as [Hp Hid].
  assert (StronglySorted (key_le timestampEpoch)
            (lines (parseStrace content filename))) as Hsorted.
  { cbn [parseStrace lines]. apply (sort_by_sorted timestampEpoch).
    eapply Forall_impl; [done|]. by intros e (H & _). }
  split; [|split; [done|]].
  - intros _. split; [done|]. intros p. by apply StronglySorted_filter_keep.
  - intros [|]; unfold idle_gaps_nonneg; cbn [parseTrace parseStrace parsePerfTrace lines].
    + rewrite sort_by_perm. split; [|intros _]; (eapply Forall_impl; [done|]);
        by intros e (_ & H1 & H2).
    + split; [|intros _]; (eapply Forall_impl; [done|]); by intros e (H1 & H2).
Qed.

Lemma parsed_events_invariant_witness :
  (stamps_safe ModeStrace
     (str "10:00:01.000000 read(3) = 4 <0.1>" ++ [10%N]
      ++ str "10:00:00.000000 open(1) = 3 <0.1>") = true ∧
   map syscall
     (lines (parseStrace
               (str "10:00:01.000000 read(3) = 4 <0.1>" ++ [10%N]
                ++ str "10:00:00.000000 open(1) = 3 <0.1>") []))
     = [str "open"; str "read"] ∧
   StronglySorted (key_le timestampEpoch)
     (lines (parseStrace
               (str "10:00:01.000000 read(3) = 4 <0.1>" ++ [10%N]
                ++ str "10:00:00.000000 open(1) = 3 <0.1>") [])) ∧
   idle_gaps_nonneg
     (parseStrace
        (str "10:00:01.000000 read(3) = 4 <0.1>" ++ [10%N]
         ++ str "10:00:00.000000 open(1) = 3 <0.1>") [])) ∧
  (stamps_safe ModePerf example_perf = true ∧
   idle_gaps_nonneg (parsePerfTrace example_perf [])).
Proof.
  set (c := str "10:00:01.000000 read(3) = 4 <0.1>" ++ [10%N]
            ++ str "10:00:00.000000 open(1) = 3 <0.1>").
  assert (stamps_safe ModeStrace c = true) as H1 by (vm_compute; reflexivity).
  assert (stamps_safe ModePerf example_perf = true) as H2 by (vm_compute; reflexivity).
  split.
  - split; [exact H1|]. split; [vm_compute; reflexivity|].
    destruct (parsed_events_invariant c []) as (Hs & _ & Hm).
    split; [exact (proj1 (Hs H1))|]. exact (proj2 (Hm ModeStrace) H1).
  - split; [exact H2|].
    destruct (parsed_events_invariant example_perf []) as (_ & _ & Hm).
    exact (proj2 (Hm ModePerf) H2).
Defined.

(** ** parseStrace: unfinished and resumed lines *)

Lemma envelope_step st i raw p ts body :
  envelope raw = Some (p, ts, body) ->
  strace_step st (i, raw) =
  strace_body
    {| s_lines := s_lines st;
       s_uniquePids := set_add p (s_uniquePids st);
       s_pidLastEndTime :=
         match s_pidLastEndTime st !! p with
         | Some _ => s_pidLastEndTime st
         | None => <[p := parseTimestamp ts]> (s_pidLastEndTime st)
         end;
       s_pendingCalls := s_pendingCalls st;
       s_globalStartTime :=
         if s_hasSetStartTime st then s_globalStartTime st else parseTimestamp ts;
       s_hasSetStartTime := true |}
    i raw p ts (parseTimestamp ts) body.
Proof.
  unfold envelope, strace_step, line_pid.
  destruct (trim raw) as [|c t]; [done|].
  destruct (split_pid (c :: t)) as [p' rest]. cbn [fst snd].
  destruct (match_at_start timeRegex rest); [|done].
  intros [= -> <- <-]. done.
Qed.

Lemma no_envelope_step st i raw :
  envelope raw = None ->
  s_lines (strace_step st (i, raw)) = s_lines st ∧
  s_pendingCalls (strace_step st (i, raw)) = s_pendingCalls st ∧
  s_globalStartTime (strace_step st (i, raw)) = s_globalStartTime st ∧
  s_hasSetStartTime (strace_step st (i, raw)) = s_hasSetStartTime st.
Proof.
  unfold envelope, strace_step, line_pid.
  destruct (trim raw) as [|c t]; [done|].
  destruct (split_pid (c :: t)) as [p' rest]. cbn [fst snd].
  destruct (match_at_start timeRegex rest); done.
Qed.

Lemma unfinished_step st i raw p ts name partial :
  as_unfinished raw = Some (p, ts, name, partial) ->
  s_lines (strace_step st (i, raw)) = s_lines st ∧
  s_pendingCalls (strace_step st (i, raw)) !! p =
    Some {| timestampStr := ts; startEpoch := parseTimestamp ts;
            pend_syscall := name; startArgs := partial; rawStart := raw |} ∧
  s_hasSetStartTime (strace_step st (i, raw)) = true.
Proof.
  unfold as_unfinished. destruct (envelope raw) as [[[p' ts'] body]|] eqn:E; [|done].
  destruct (match_at_start resumeRegex body) eqn:Er; [done|].
  destruct (match_at_start unfinishedRegex body) as [um|] eqn:Eu; [|done].
  intros [= -> -> <- <-]. rewrite (envelope_step _ _ _ _ _ _ E).
  unfold strace_body. rewrite Er, Eu. cbn.
  by rewrite lookup_insert_eq.
Qed.

Lemma resumed_step st i raw p ts name rest pd em :
  as_resumed raw = Some (p, ts, name, rest) ->
  s_pendingCalls st !! p = Some pd ->
  pend_syscall pd = name ->
  match_anywhere endRegex rest = Some em ->
  s_hasSetStartTime st = true ->
  s_lines (strace_step st (i, raw)) = s_lines st ++
    [ {| line_id := i; pid := p; timestamp := timestampStr pd;
         timestampEpoch := nsub (startEpoch pd) (s_globalStartTime st);
         syscall := name;
         args := trim (startArgs pd ++ group 1 em);
         result := group 2 em;
         duration := parseFloat (group 3 em);
         userDiff :=
           ndiv (nmax (Fin 0)
                   (nsub (startEpoch pd)
                      (or_else
                         (match s_pidLastEndTime st !! p with
                          | Some _ => s_pidLastEndTime st
                          | None => <[p := parseTimestamp ts]> (s_pidLastEndTime st)
                          end !! p)
                         (startEpoch pd))))
                (of_Z 1000);
         raw := rawStart pd ++ str " ... " ++ raw |} ].
Proof.
  unfold as_resumed. destruct (envelope raw) as [[[p' ts'] body]|] eqn:E; [|done].
  destruct (match_at_start resumeRegex body) as [rm|] eqn:Er; [|done].
  intros [= -> -> <- <-] Hpd Hname Hem Hset. rewrite (envelope_step _ _ _ _ _ _ E).
  unfold strace_body. rewrite Er. cbn [s_pendingCalls]. rewrite Hpd.
  unfold str_eqb. rewrite bool_decide_true by done.
  unfold complete_resumed. rewrite Hem. cbn. by rewrite Hset.
Qed.

Lemma resumed_orphan_step st i raw p ts name rest :
  as_resumed raw = Some (p, ts, name, rest) ->
  (s_pendingCalls st !! p = None ∨
   ∃ pd, s_pendingCalls st !! p = Some pd ∧ pend_syscall pd ≠ name) ->
  s_lines (strace_step st (i, raw)) = s_lines st.
Proof.
  unfold as_resumed. destruct (envelope raw) as [[[p' ts'] body]|] eqn:E; [|done].
  destruct (match_at_start resumeRegex body) as [rm|] eqn:Er; [|done].
  intros [= -> -> <- <-] H. rewrite (envelope_step _ _ _ _ _ _ E).
  unfold strace_body. rewrite Er. cbn [s_pendingCalls].
  destruct H as [->|(pd & -> & Hne)]; [done|].
  unfold str_eqb. by rewrite bool_decide_false.
Qed.

Lemma quiet_step st i raw p name pd :
  disturbs p name raw = false ->
  s_pendingCalls st !! p = Some pd -> pend_syscall pd = name ->
  s_pendingCalls (strace_step st (i, raw)) !! p = Some pd.
Proof.
  unfold disturbs, as_unfinished, as_resumed. intros Hd Hpd Hname.
  destruct (envelope raw) as [[[p' ts'] body]|] eqn:E.
  2:{ by destruct (no_envelope_step st i raw E) as (_ & -> & _). }
  rewrite (envelope_step _ _ _ _ _ _ E). unfold strace_body.
  destruct (match_at_start resumeRegex body) as [rm|] eqn:Er.
  - cbn [s_pendingCalls].
    destruct (s_pendingCalls st !! p') as [pd'|] eqn:Epd'; [|done].
    destruct (str_eqb (pend_syscall pd') (group 1 rm)) eqn:Eeq; [|done].
    unfold complete_resumed.
    destruct (match_anywhere endRegex (group 2 rm)) eqn:Ee; [|done].
    cbn [s_pendingCalls]. destruct (decide (p' = p)) as [->|Hne].
    + exfalso. rewrite Hpd in Epd'. injection Epd' as <-.
      apply bool_decide_eq_true in Eeq. rewrite Hname in Eeq. subst name.
      rewrite bool_decide_true in Hd by done. unfold str_eqb in Hd.
      rewrite bool_decide_true in Hd by done.
      rewrite bool_decide_true in Hd by done. done.
    + by rewrite lookup_delete_ne.
  - destruct (match_at_start unfinishedRegex body) as [um|] eqn:Eu.
    + apply bool_decide_eq_false in Hd. cbn [s_pendingCalls].
      by rewrite lookup_insert_ne.
    + by destruct (match_at_start standardRegex body).
Qed.

Lemma start_time_step st i raw :
  s_hasSetStartTime st = true ->
  s_hasSetStartTime (strace_step st (i, raw)) = true ∧
  s_globalStartTime (strace_step st (i, raw)) = s_globalStartTime st.
Proof.
  intros H. destruct (envelope raw) as [[[p ts] body]|] eqn:E.
  2:{ destruct (no_envelope_step st i raw E) as (_ & _ & -> & ->). done. }
  rewrite (envelope_step _ _ _ _ _ _ E). rewrite H.
  unfold strace_body, complete_resumed. repeat case_match; done.
Qed.

Lemma fold_run_from k ls st :
  fold_left strace_step (imap (λ i l, ((k + i)%nat, l)) ls) st = run_from k ls st.
Proof.
  revert k st. induction ls as [|raw ls IH]; intros k st; [done|].
  cbn [imap fold_left run_from]. rewrite Nat.add_0_r, <- IH.
  f_equal. apply imap_ext. intros i x _. cbn. f_equal. lia.
Qed.

Lemma strace_run_run_from content :
  strace_run content = run_from 0 (split 10%N content) strace_init.
Proof. unfold strace_run, indexed_lines. by rewrite <- fold_run_from. Qed.

Lemma run_from_app k l1 l2 st :
  run_from k (l1 ++ l2) st = run_from (k + length l1) l2 (run_from k l1 st).
Proof.
  revert k st. induction l1 as [|x l1 IH]; intros k st; cbn [app run_from length].
  - by rewrite Nat.add_0_r.
  - rewrite IH. f_equal. lia.
Qed.

Lemma step_lines_grow st i raw :
  s_lines (strace_step st (i, raw)) = s_lines st ∨
  ∃ e, s_lines (strace_step st (i, raw)) = s_lines st ++ [e] ∧ line_id e = i.
Proof.
  pose proof (strace_step_lines st i raw) as H.
  destruct (strace_kind raw); eauto.
Qed.

Lemma run_from_ids_below k ls st :
  Forall (λ e, (line_id e < k)%nat) (s_lines st) ->
  Forall (λ e, (line_id e < k + length ls)%nat) (s_lines (run_from k ls st)).
Proof.
  revert k st. induction ls as [|raw ls IH]; intros k st H; cbn [run_from length].
  - by rewrite Nat.add_0_r.
  - replace (k + S (length ls))%nat with (S k + length ls)%nat by lia.
    apply IH. destruct (step_lines_grow st k raw) as [->|(e & -> & He)].
    + eapply Forall_impl; [done|]. cbn. lia.
    + apply Forall_app. split; [|apply Forall_singleton; lia].
      eapply Forall_impl; [done|]. cbn. lia.
Qed.

Lemma run_from_lines_grow k ls st :
  ∃ new, s_lines (run_from k ls st) = s_lines st ++ new ∧
         Forall (λ e, (k <= line_id e)%nat) new.
Proof.
  revert k st. induction ls as [|raw ls IH]; intros k st; cbn [run_from].
  - exists []. by rewrite app_nil_r.
  - destruct (IH (S k) (strace_step st (k, raw))) as (new & -> & Hnew).
    assert (Forall (λ e, (k <= line_id e)%nat) new) as Hnew'.
    { eapply Forall_impl; [done|]. cbn. lia. }
    destruct (step_lines_grow st k raw) as [->|(e & -> & He)].
    + by exists new.
    + exists (e :: new). rewrite <- app_assoc. split; [done|].
      apply Forall_cons. split; [lia|done].
Qed.

Lemma run_from_start_time k ls st :
  s_hasSetStartTime st = true ->
  s_hasSetStartTime (run_from k ls st) = true ∧
  s_globalStartTime (run_from k ls st) = s_globalStartTime st.
Proof.
  revert k st. induction ls as [|raw ls IH]; intros k st H; cbn [run_from]; [done|].
  destruct (start_time_step st k raw H) as [H1 H2].
  destruct (IH (S k) _ H1) as [H3 H4]. split; [done|]. by rewrite H4.
Qed.

Lemma run_from_quiet k ls st p name pd :
  Forall (λ raw, disturbs p name raw = false) ls ->
  s_pendingCalls st !! p = Some pd -> pend_syscall pd = name ->
  s_pendingCalls (run_from k ls st) !! p = Some pd.
Proof.
  revert k st. induction ls as [|raw ls IH]; intros k st Hq Hpd Hn; cbn [run_from]; [done|].
  apply Forall_cons in Hq as [Hraw Hq]. apply IH; [done| |done].
  by apply (quiet_step st k raw p name).
Qed.

Lemma filter_none {A} (P : A -> Prop) `{∀ x, Decision (P x)} (l : list A) :
  Forall (λ x, ¬ P x) l -> filter P l = [].
Proof.
  induction l as [|x l IH]; intros H'; [done|].
  apply Forall_cons in H' as [Hx H']. rewrite filter_cons.
  destruct (decide (P x)); [done|]. by apply IH.
Qed.

(** C4, as stated, fails twice.  A second unfinished line of the same
    process replaces the pending record, so the later resumed line finds
    another call name and no event comes out; and the argument text is the
    concatenation after [trim], not the concatenation itself. *)
Lemma resumed_pair_counterexample :
  (let u := str "10:00:00.000000 read(3, <unfinished ...>" in
   let w := str "10:00:00.010000 write(1, <unfinished ...>" in
   let r := str "10:00:00.050000 <... read resumed> 4) = 4 <0.050000>" in
   as_unfinished u = Some (Some 0, str "10:00:00.000000", str "read", str "3,") ∧
   as_resumed r = Some (Some 0, str "10:00:00.050000", str "read", str " 4) = 4 <0.050000>") ∧
   lines (parseStrace (u ++ [10%N] ++ w ++ [10%N] ++ r) []) = []) ∧
  (let u := str "10:00:00.000000 read( <unfinished ...>" in
   let r := str "10:00:00.050000 <... read resumed> 3) = 4 <0.050000>" in
   as_unfinished u = Some (Some 0, str "10:00:00.000000", str "read", []) ∧
   as_resumed r = Some (Some 0, str "10:00:00.050000", str "read", str " 3) = 4 <0.050000>") ∧
   match_anywhere endRegex (str " 3) = 4 <0.050000>") = Some [str " 3"; str "4"; str "0.050000"] ∧
   map args (lines (parseStrace (u ++ [10%N] ++ r) [])) = [str "3"] ∧
   str "3" ≠ [] ++ str " 3").
Proof.
  split; cbv zeta.
  - split; [by vm_compute|]. split; by vm_compute.
  - split; [by vm_compute|]. split; [by vm_compute|]. split; [by vm_compute|].
    split; by vm_compute.
Qed.

(** C4, amended: when an unfinished line of a process is followed by a
    resumed line of the same process and call name, no line in between
    replaces or removes the pending record, the text after [resumed>] has
    the form [rest) = result <duration>], and every process id of the
    input is in the safe range, exactly one event comes from the two
    lines: no event has the index of the unfinished line and one has the
    index of the resumed line.  It carries the stored call name, the
    timestamp of the unfinished line, the trimmed concatenation of the two
    argument fragments, the duration in the angle brackets, and both raw
    lines joined by the separator.  A resumed line without a pending
    record, or with another call name pending, adds no event.  The process
    ids of the embedding are exact integers, so its proof does not need
    the range; the code needs it: two process ids above 2^53 can be one
    key of its map of pending calls. *)
Theorem resumed_call_reconstruction
    (content filename : jsstring) (before mid after : list jsstring)
    (u r : jsstring) (p : option Z)
    (ts_u ts_r name partial rest : jsstring) (em : list jsstring) :
  pids_safe (parseStrace content filename) = true ->
  split 10%N content = before ++ [u] ++ mid ++ [r] ++ after ->
  as_unfinished u = Some (p, ts_u, name, partial) ->
  as_resumed r = Some (p, ts_r, name, rest) ->
  match_anywhere endRegex rest = Some em ->
  Forall (λ raw, disturbs p name raw = false) mid ->
  (∃ e,
     filter (λ x, line_id x = length before ∨
                  line_id x = (length before + 1 + length mid)%nat)
       (lines (parseStrace content filename)) = [e] ∧
     line_id e = (length before + 1 + length mid)%nat ∧
     pid e = p ∧ syscall e = name ∧ timestamp e = ts_u ∧
     timestampEpoch e =
       nsub (parseTimestamp ts_u) (s_globalStartTime (strace_run content)) ∧
     args e = trim (partial ++ group 1 em) ∧
     result e = group 2 em ∧
     duration e = parseFloat (group 3 em) ∧
     raw e = u ++ str " ... " ++ r) ∧
  (∀ st i raw' p' ts' name' rest',
     as_resumed raw' = Some (p', ts', name', rest') ->
     s_pendingCalls st !! p' = None ∨
     (∃ pd, s_pendingCalls st !! p' = Some pd ∧ pend_syscall pd ≠ name') ->
     s_lines (strace_step st (i, raw')) = s_lines st).
Proof.
  intros _ Hsplit Hu Hr Hem Hmid. split; [|apply resumed_orphan_step].
  set (idx := (length before + 1 + length mid)%nat).
  assert (strace_run content =
          run_from (S idx) after
            (strace_step
               (run_from (length before + 1) mid
                  (strace_step (run_from 0 before strace_init) (length before, u)))
               (idx, r))) as Hrun.
  { rewrite strace_run_run_from, Hsplit, !run_from_app. cbn [run_from length].
    rewrite !Nat.add_0_l. unfold idx. f_equal. lia. }
  set (st1 := run_from 0 before strace_init) in *.
  destruct (unfinished_step st1 (length before) u p ts_u name partial Hu)
    as (Hl_u & Hp_u & Hs_u).
  set (st_u := strace_step st1 (length before, u)) in *.
  set (st_m := run_from (length before + 1) mid st_u) in *.
  assert (s_pendingCalls st_m !! p = Some
            {| timestampStr := ts_u; startEpoch := parseTimestamp ts_u;
               pend_syscall := name; startArgs := partial; rawStart := u |}) as Hp_m.
  { by apply (run_from_quiet _ _ _ p name). }
  destruct (run_from_start_time (length before + 1) mid st_u Hs_u) as [Hs_m Hg_m].
  fold st_m in Hs_m, Hg_m.
  pose proof (resumed_step st_m idx r p ts_r name rest _ em
                Hr Hp_m eq_refl Hem Hs_m) as Hl_r.
  cbn [timestampStr startEpoch startArgs rawStart] in Hl_r.
  destruct (start_time_step st_m idx r Hs_m) as [Hs_r Hg_r].
  set (st_r := strace_step st_m (idx, r)) in *.
  destruct (run_from_start_time (S idx) after st_r Hs_r) as [_ Hg_f].
  destruct (run_from_lines_grow (S idx) after st_r) as (new & Hl_f & Hnew).
  assert (Forall (λ e, (line_id e < idx)%nat) (s_lines st_m)) as Hbelow.
  { pose proof (run_from_ids_below 0 (before ++ [u] ++ mid) strace_init) as H.
    rewrite !run_from_app in H. cbn [run_from length] in H.
    rewrite !Nat.add_0_l in H. rewrite !length_app in H. cbn [length] in H.
    fold st1 st_u st_m in H.
    replace (length before + (1 + length mid))%nat with idx in H by (unfold idx; lia).
    apply H. constructor. }
  assert (Forall (λ e, line_id e ≠ length before) (s_lines st_m)) as Hnot_u.
  { destruct (run_from_lines_grow (length before + 1) mid st_u) as (new_m & Hl_m & Hnew_m).
    fold st_m in Hl_m. rewrite Hl_m, Hl_u. apply Forall_app. split.
    - pose proof (run_from_ids_below 0 before strace_init) as H.
      rewrite Nat.add_0_l in H. fold st1 in H.
      eapply Forall_impl; [apply H; constructor|]. cbn. lia.
    - eapply Forall_impl; [exact Hnew_m|]. cbn. lia. }
  match type of Hl_r with _ = _ ++ [?x] => set (e := x) in * end.
  exists e. rewrite Hrun, Hg_f, Hg_r.
  split; [|by repeat split].
  apply Permutation_singleton_r. cbn [parseStrace lines].
  rewrite sort_by_perm, Hrun, Hl_f, Hl_r, !filter_app.
  rewrite (filter_none _ (s_lines st_m)).
  2:{ apply Forall_forall. intros x Hx. rewrite Forall_forall in Hbelow, Hnot_u.
      specialize (Hbelow x Hx). specialize (Hnot_u x Hx). cbn in *. fold idx. lia. }
  rewrite (filter_none _ new).
  2:{ eapply Forall_impl; [done|]. cbn. fold idx. lia. }
  rewrite app_nil_r. cbn [app]. rewrite filter_cons.
  rewrite decide_True; [done|]. right. done.
Qed.

Lemma resumed_call_reconstruction_witness :
  pids_safe (parseStrace example_content []) = true ∧
  split 10%N example_content
    = [] ++ [example_unfinished] ++ [] ++ [example_resumed] ++ [] ∧
  as_unfinished example_unfinished
    = Some (Some 0, str "10:00:00.000000", str "read", str "3,") ∧
  as_resumed example_resumed
    = Some (Some 0, str "10:00:00.050000", str "read",
            [32%N; 34%N] ++ str "data" ++ [34%N] ++ str ", 4) = 4 <0.050000>") ∧
  match_anywhere endRegex
      ([32%N; 34%N] ++ str "data" ++ [34%N] ++ str ", 4) = 4 <0.050000>")
    = Some [[32%N; 34%N] ++ str "data" ++ [34%N] ++ str ", 4"; str "4";
            str "0.050000"] ∧
  Forall (λ raw, disturbs (Some 0) (str "read") raw = false) [] ∧
  ∃ e,
    filter (λ x, line_id x = 0%nat ∨ line_id x = 1%nat)
      (lines (parseStrace example_content [])) = [e] ∧
    syscall e = str "read" ∧
    timestamp e = str "10:00:00.000000" ∧
    args e = str "3, " ++ [34%N] ++ str "data" ++ [34%N] ++ str ", 4" ∧
    duration e = parseFloat (str "0.050000") ∧
    raw e = example_unfinished ++ str " ... " ++ example_resumed.
Proof.
  assert (H0 : pids_safe (parseStrace example_content []) = true)
    by (vm_compute; reflexivity).
  assert (H1 : split 10%N example_content
    = [] ++ [example_unfinished] ++ [] ++ [example_resumed] ++ [])
    by (vm_compute; reflexivity).
  assert (H2 : as_unfinished example_unfinished
    = Some (Some 0, str "10:00:00.000000", str "read", str "3,"))
    by (vm_compute; reflexivity).
  assert (H3 : as_resumed example_resumed
    = Some (Some 0, str "10:00:00.050000", str "read",
            [32%N; 34%N] ++ str "data" ++ [34%N] ++ str ", 4) = 4 <0.050000>"))
    by (vm_compute; reflexivity).
  assert (H4 : match_anywhere endRegex
      ([32%N; 34%N] ++ str "data" ++ [34%N] ++ str ", 4) = 4 <0.050000>")
    = Some [[32%N; 34%N] ++ str "data" ++ [34%N] ++ str ", 4"; str "4";
            str "0.050000"])
    by (vm_compute; reflexivity).
  assert (H5 : Forall (λ raw, disturbs (Some 0) (str "read") raw = false) [])
    by constructor.
  split; [exact H0|].
  split; [exact H1|]. split; [exact H2|]. split; [exact H3|].
  split; [exact H4|]. split; [exact H5|].
  destruct (resumed_call_reconstruction example_content [] [] [] []
              example_unfinished example_resumed (Some 0) _ _ _ _ _ _
              H0 H1 H2 H3 H4 H5) as [(e & He & _ & _ & Hn & Ht & _ & Ha & _ & Hd & Hr) _].
  exists e. split; [exact He|]. split; [exact Hn|]. split; [exact Ht|].
  split; [|split; [exact Hd|exact Hr]].
  rewrite Ha. vm_compute. reflexivity.
Defined.

(** ** parsePerfTrace: the timestamp *)

Lemma num_eqv_refl x : num_eqv x x.
Proof. destruct x; simpl; try done. Qed.

Lemma parsePerfTimestamp_unscaled ts :
  num_eqv (parsePerfTimestamp ts) (parseFloat ts).
Proof.
  unfold parsePerfTimestamp. destruct (parseFloat ts) as [| |q|]; simpl; try done.
  ring.
Qed.

Lemma perf_step_start st i raw :
  perf_start_inv st -> perf_start_inv (perf_step st (i, raw)).
Proof.
  intros [Hs Hr]. unfold perf_step. destruct (trim raw) as [|c t]; [done|].
  destruct (match_at_start perfRegex (c :: t)) as [m|]; [|done].
  unfold perf_start_inv, relative_to_first in *. cbn [p_lines p_hasSetStartTime p_globalStartTime].
  destruct (p_lines st) as [|e0 ls] eqn:E.
  - rewrite Hs. cbn [app]. split; [done|]. by apply Forall_singleton.
  - destruct Hs as [-> ->]. cbn [app]. split; [done|].
    rewrite app_comm_cons. apply Forall_app. split; [done|].
    by apply Forall_singleton.
Qed.

Lemma perf_run_start content : relative_to_first (p_lines (perf_run content)).
Proof.
  unfold perf_run, indexed_lines.
  apply (lines_loop_ind perf_step (λ _ st, perf_start_inv st)).
  - done.
  - intros k st raw _. apply perf_step_start.
Qed.

(** C1: [parsePerfTimestamp] returns the number its text denotes, without
    the factor 1000: on two lines stamped 1000.0 and 1000.5 the second
    event is stored at relative start 0.5, where the conversion to
    milliseconds gives 500.  The other half holds: every event is stored
    relative to the first accepted line. *)
Theorem perf_timestamp_is_not_scaled :
  (∀ ts, num_eqv (parsePerfTimestamp ts) (parseFloat ts)) ∧
  ¬ num_eqv (parsePerfTimestamp (str "1000.500000"))
      (nmul (parseFloat (str "1000.500000")) (of_Z 1000)) ∧
  (∃ e1 e2,
     lines (parsePerfTrace example_perf []) = [e1; e2] ∧
     num_eqv (timestampEpoch e1) (Fin 0) ∧
     num_eqv (timestampEpoch e2) (Fin (1 # 2)) ∧
     ¬ num_eqv (timestampEpoch e2) (Fin 500)) ∧
  (∀ content filename,
     relative_to_first (lines (parsePerfTrace content filename))).
Proof.
  split; [apply parsePerfTimestamp_unscaled|]. split; [|split].
  - vm_compute. discriminate.
  - eexists _, _. split; [vm_compute; reflexivity|].
    cbn [timestampEpoch]. split; [|split]; vm_compute; congruence.
  - intros content filename. apply perf_run_start.
Qed.

(** ** alignTraces: the fill never throws and the traceback ends at the origin *)

Lemma for_each_ind {St I} (body : St -> I -> outcome St) (P : list I -> St -> Prop)
    (l : list I) (st : St) :
  P [] st ->
  (∀ pre x post s, l = pre ++ x :: post -> P pre s ->
     ∃ s', body s x = Ok s' ∧ P (pre ++ [x]) s') ->
  ∃ s', for_each body l st = Ok s' ∧ P l s'.
Proof.
  intros H0 Hstep.
  cut (∀ post pre s, l = pre ++ post -> P pre s ->
         ∃ s', for_each body post s = Ok s' ∧ P l s').
  { intros H. by apply (H l [] st). }
  induction post as [|x post IH]; intros pre s Hl Hp.
  - rewrite app_nil_r in Hl. subst. by exists s.
  - destruct (Hstep pre x post s Hl Hp) as (s' & Hb & Hp').
    cbn [for_each]. rewrite Hb. apply (IH (pre ++ [x])); [|done].
    by rewrite <- app_assoc.
Qed.

Lemma j_range_elem lo hi j :
  j ∈ j_range (Fin lo) (Fin hi) ↔ Qfloor lo <= j <= Qfloor hi.
Proof.
  unfold j_range. rewrite list_elem_of_fmap. split.
  - intros (k & -> & Hk). apply elem_of_seq in Hk. lia.
  - intros H. exists (Z.to_nat (j - Qfloor lo)). split; [lia|].
    apply elem_of_seq. lia.
Qed.

Lemma j_range_fin lo hi j :
  j ∈ j_range lo hi -> ∃ a b, lo = Fin a ∧ hi = Fin b.
Proof.
  destruct lo as [| |a|], hi as [| |b|]; cbn [j_range]; try (by intros H; inversion H).
  by exists a, b.
Qed.

Lemma nmax_zero_fin y lo : nmax (of_Z 0) y = Fin lo -> 0 <= Qfloor lo.
Proof.
  destruct y as [| |q|]; cbn [nmax of_Z nltb]; try done.
  - intros [= <-]. done.
  - destruct (Qle_bool q (inject_Z 0)) eqn:E; cbn [negb]; intros [= <-]; [done|].
    change 0 with (Qfloor (inject_Z 0)). apply Qfloor_resp_le.
    destruct (Qlt_le_dec (inject_Z 0) q) as [H|H]; [lra|].
    apply Qle_bool_iff in H. congruence.
Qed.

Lemma nmin_bound_fin mz y hi : nmin (of_Z mz) y = Fin hi -> Qfloor hi <= mz.
Proof.
  rewrite <- (Qfloor_Z mz) at 2.
  destruct y as [| |q|]; cbn [nmin of_Z nltb]; try done.
  - destruct (Qle_bool (inject_Z mz) q) eqn:E; cbn [negb]; intros [= <-]; [done|].
    apply Qfloor_resp_le.
    destruct (Qlt_le_dec q (inject_Z mz)) as [H|H]; [lra|].
    apply Qle_bool_iff in H. congruence.
  - intros [= <-]. done.
Qed.

Lemma at_index_in {A} (l : list A) i :
  0 <= i < Z.of_nat (length l) -> ∃ x, at_index l i = Some x.
Proof.
  intros H. unfold at_index. rewrite (proj2 (Z.ltb_ge i 0)) by lia.
  apply lookup_lt_is_Some_2. lia.
Qed.

Lemma ngtb_ninf x : ngtb x NInf = true -> x ≠ NInf.
Proof. by destruct x. Qed.

Lemma choose_max_dir L U D mx d :
  choose_max L U D = (mx, d) -> ngtb mx NInf = true ->
  (d = 1 ∧ mx = D) ∨ (d = 2 ∧ mx = U) ∨ (d = 3 ∧ mx = L).
Proof.
  unfold choose_max. destruct (ngtb U L), (ngeb D _); intros [= <- <-]; auto.
Qed.

Lemma take_at_index {A} (l : list A) i x :
  0 < i -> at_index l (i - 1) = Some x ->
  take (Z.to_nat i) l = take (Z.to_nat (i - 1)) l ++ [x].
Proof.
  intros Hi H. unfold at_index in H. rewrite (proj2 (Z.ltb_ge (i - 1) 0)) in H by lia.
  replace (Z.to_nat i) with (S (Z.to_nat (i - 1))) by lia.
  by apply take_S_r.
Qed.

Section AlignFacts.
Variables listA listB : list TraceLine.
Let n : Z := Z.of_nat (length listA).
Let m : Z := Z.of_nat (length listB).

Lemma band_range i j :
  j ∈ j_range (band_startJ listA listB i) (band_endJ listA listB i) ->
  0 <= j <= m.
Proof.
  intros H. destruct (j_range_fin _ _ _ H) as (lo & hi & Hlo & Hhi).
  rewrite Hlo, Hhi in H. apply j_range_elem in H.
  apply nmax_zero_fin in Hlo. apply nmin_bound_fin in Hhi. subst m. lia.
Qed.

Lemma dp_rows_elem i : i ∈ dp_rows listA ↔ 0 <= i <= n.
Proof.
  unfold dp_rows. rewrite list_elem_of_fmap. split.
  - intros (k & -> & Hk). apply elem_of_seq in Hk. subst n. lia.
  - intros H. exists (Z.to_nat i). split; [lia|]. apply elem_of_seq. subst n. lia.
Qed.

Lemma score_diag_ok i j st :
  0 <= i <= n -> 0 <= j <= m -> ∃ v, score_diag listA listB i j st = Ok v.
Proof.
  intros Hi Hj. unfold score_diag.
  destruct ((0 <? i) && (0 <? j)) eqn:E; [|by eexists].
  apply andb_true_iff in E as [Ei Ej]. apply Z.ltb_lt in Ei, Ej.
  destruct (negb _); [|by eexists].
  destruct (at_index_in listA (i - 1)) as [x ->]; [subst n; lia|].
  destruct (at_index_in listB (j - 1)) as [y ->]; [subst m; lia|].
  by eexists.
Qed.

Lemma score_diag_ninf i j st :
  ¬ (0 < i ∧ 0 < j) -> score_diag listA listB i j st = Ok NInf.
Proof.
  intros H. unfold score_diag.
  destruct (Z.ltb_spec 0 i), (Z.ltb_spec 0 j); cbn [andb]; try done. lia.
Qed.

Lemma dp_cell_dirs i j st :
  0 <= i <= n -> 0 <= j <= m -> dirs_ok (directions st) ->
  ∃ st', dp_cell listA listB i st j = Ok st' ∧ dirs_ok (directions st').
Proof.
  intros Hi Hj Hd. unfold dp_cell.
  destruct ((i =? 0) && (j =? 0)); [by eexists|].
  destruct (score_diag_ok i j st Hi Hj) as [D HD]. rewrite HD.
  destruct (choose_max _ _ D) as [mx d] eqn:Ec.
  destruct (ngtb mx NInf) eqn:Em; [|by eexists].
  eexists. split; [done|]. cbn [directions].
  intros i' j' d' H. apply lookup_insert_Some in H as [[[= <- <-] <-]|[_ H]]; [|by apply Hd].
  destruct (choose_max_dir _ _ _ _ _ Ec Em) as [[-> ->]|[[-> ->]|[-> ->]]].
  - left. split; [done|]. destruct (decide (0 < i ∧ 0 < j)) as [|Hn]; [done|].
    rewrite (score_diag_ninf i j st Hn) in HD. by injection HD as <-.
  - right; left. split; [done|]. unfold score_up in Em.
    destruct (Z.ltb_spec 0 i); done.
  - right; right. split; [done|]. unfold score_left in Em.
    destruct (Z.ltb_spec 0 j); done.
Qed.

Lemma dp_row_dirs i st :
  0 <= i <= n -> dirs_ok (directions st) ->
  ∃ st', dp_row listA listB st i = Ok st' ∧ dirs_ok (directions st').
Proof.
  intros Hi Hd. unfold dp_row.
  apply (for_each_ind _ (λ _ s, dirs_ok (directions s))); [done|].
  intros pre j post s Hl Hs. apply dp_cell_dirs; [done| |done].
  apply (band_range i). rewrite Hl. apply elem_of_app. right. left.
Qed.

Lemma dp_fill_dirs :
  ∃ st, dp_fill listA listB = Ok st ∧ dirs_ok (directions st).
Proof.
  unfold dp_fill.
  apply (for_each_ind _ (λ _ s, dirs_ok (directions s))).
  - intros i j d H. cbn in H. by rewrite lookup_empty in H.
  - intros pre i post s Hl Hs. apply dp_row_dirs; [|done].
    apply dp_rows_elem. rewrite Hl. apply elem_of_app. right. left.
Qed.


Lemma traceback_done dirs fuel rows :
  traceback listA listB dirs fuel 0 0 rows = Ok rows.
Proof. by destruct fuel. Qed.

Lemma traceback_step dirs fuel i j rows :
  0 < i ∨ 0 < j ->
  traceback listA listB dirs (S fuel) i j rows =
  match dirs !! (i, j) with
  | None =>
      if (0 <? i) && (0 <? j) then
        traceback listA listB dirs fuel (i - 1) (j - 1)
          (row_mismatch (at_index listA (i - 1)) (at_index listB (j - 1)) :: rows)
      else if 0 <? i then
        traceback listA listB dirs fuel (i - 1) j
          (row_delete (at_index listA (i - 1)) :: rows)
      else if 0 <? j then
        traceback listA listB dirs fuel i (j - 1)
          (row_insert (at_index listB (j - 1)) :: rows)
      else Ok rows
  | Some dir =>
      if dir =? 1 then
        match at_index listA (i - 1), at_index listB (j - 1) with
        | Some x, Some y =>
            if ngtb (calculateScore x y) (of_Z 0)
            then traceback listA listB dirs fuel (i - 1) (j - 1) (row_match x y :: rows)
            else traceback listA listB dirs fuel (i - 1) (j - 1)
                   (row_mismatch (Some x) (Some y) :: rows)
        | _, _ => TypeError
        end
      else if dir =? 2 then
        traceback listA listB dirs fuel (i - 1) j
          (row_delete (at_index listA (i - 1)) :: rows)
      else if dir =? 3 then
        traceback listA listB dirs fuel i (j - 1)
          (row_insert (at_index listB (j - 1)) :: rows)
      else traceback listA listB dirs fuel i j rows
  end.
Proof.
  intros H. cbn [traceback].
  replace ((0 <? i) || (0 <? j)) with true; [done|].
  symmetry. apply orb_true_iff. rewrite !Z.ltb_lt. done.
Qed.

Lemma traceback_moves dirs i j :
  dirs_ok dirs -> 0 <= i <= n -> 0 <= j <= m -> 0 < i ∨ 0 < j ->
  ∃ i' j' r, tb_moved listA listB dirs i j i' j' r ∧
    ∀ fuel rows,
      traceback listA listB dirs (S fuel) i j rows =
      traceback listA listB dirs fuel i' j' (r :: rows).
Proof.
  intros Hd Hi Hj Hpos.
  assert (0 < i -> ∃ x, at_index listA (i - 1) = Some x) as HA.
  { intros ?. apply at_index_in. subst n. lia. }
  assert (0 < j -> ∃ y, at_index listB (j - 1) = Some y) as HB.
  { intros ?. apply at_index_in. subst m. lia. }
  destruct (dirs !! (i, j)) as [d|] eqn:Ed.
  - destruct (Hd i j d Ed) as [(-> & H1 & H2)|[(-> & H1)|(-> & H1)]].
    + destruct (HA H1) as [x Hx]. destruct (HB H2) as [y Hy].
      eexists (i - 1), (j - 1), _. split.
      * eapply (moved_diag _ _ _ _ _ x y); [done..|]. left. split; [done|reflexivity].
      * intros fuel rows. rewrite traceback_step, Ed by done.
        cbn [Z.eqb Pos.eqb]. rewrite Hx, Hy.
        by destruct (ngtb (calculateScore x y) (of_Z 0)).
    + destruct (HA H1) as [x Hx].
      exists (i - 1), j, (row_delete (Some x)). split; [constructor; auto|].
      intros fuel rows. rewrite traceback_step, Ed by done.
      cbn [Z.eqb Pos.eqb]. by rewrite Hx.
    + destruct (HB H1) as [y Hy].
      exists i, (j - 1), (row_insert (Some y)). split; [constructor; auto|].
      intros fuel rows. rewrite traceback_step, Ed by done.
      cbn [Z.eqb Pos.eqb]. by rewrite Hy.
  - destruct (Z.ltb_spec 0 i) as [H1|H1], (Z.ltb_spec 0 j) as [H2|H2].
    + destruct (HA H1) as [x Hx]. destruct (HB H2) as [y Hy].
      exists (i - 1), (j - 1), (row_mismatch (Some x) (Some y)).
      split; [eapply (moved_diag _ _ _ _ _ x y); auto|].
      intros fuel rows. rewrite traceback_step, Ed by done.
      rewrite (proj2 (Z.ltb_lt 0 i)), (proj2 (Z.ltb_lt 0 j)) by done.
      cbn [andb]. by rewrite Hx, Hy.
    + destruct (HA H1) as [x Hx].
      exists (i - 1), j, (row_delete (Some x)). split; [constructor; auto|].
      intros fuel rows. rewrite traceback_step, Ed by done.
      rewrite (proj2 (Z.ltb_lt 0 i)), (proj2 (Z.ltb_ge 0 j)) by done.
      cbn [andb]. by rewrite Hx.
    + destruct (HB H2) as [y Hy].
      exists i, (j - 1), (row_insert (Some y)). split; [constructor; auto|].
      intros fuel rows. rewrite traceback_step, Ed by done.
      rewrite (proj2 (Z.ltb_ge 0 i)), (proj2 (Z.ltb_lt 0 j)) by done.
      cbn [andb]. by rewrite Hy.
    + lia.
Qed.

Lemma tb_moved_bounds dirs i j i' j' r :
  tb_moved listA listB dirs i j i' j' r ->
  0 <= i <= n -> 0 <= j <= m ->
  0 <= i' <= n ∧ 0 <= j' <= m ∧ i' + j' <= i + j - 1.
Proof. intros H Hi Hj. destruct H; lia. Qed.

(** The traceback returns within [i + j] iterations, and its rows form a
    path to the origin. *)
Lemma traceback_ok dirs :
  dirs_ok dirs ->
  ∀ k i j, 0 <= i <= n -> 0 <= j <= m -> i + j <= Z.of_nat k ->
  ∃ new,
    (∀ fuel rows, (k <= fuel)%nat ->
       traceback listA listB dirs fuel i j rows = Ok (new ++ rows)) ∧
    tb_path listA listB dirs i j new.
Proof.
  intros Hd. induction k as [|k IH]; intros i j Hi Hj Hk.
  - assert (i = 0) as -> by lia. assert (j = 0) as -> by lia.
    exists []. split; [|constructor]. intros fuel rows _. apply traceback_done.
  - destruct (decide (0 < i ∨ 0 < j)) as [Hpos|Hz].
    2:{ assert (i = 0) as -> by lia. assert (j = 0) as -> by lia.
        exists []. split; [|constructor]. intros fuel rows _. apply traceback_done. }
    destruct (traceback_moves dirs i j Hd Hi Hj Hpos) as (i' & j' & r & Hm & Hstep).
    destruct (tb_moved_bounds _ _ _ _ _ _ Hm Hi Hj) as (Hi' & Hj' & Hk').
    destruct (IH i' j' Hi' Hj') as (new & Hrun & Hpath); [lia|].
    exists (new ++ [r]). split; [|by econstructor].
    intros fuel rows Hf. destruct fuel as [|fuel]; [lia|].
    rewrite Hstep, Hrun by lia. by rewrite <- app_assoc.
Qed.

Lemma tb_path_sides dirs i j rows :
  tb_path listA listB dirs i j rows -> 0 <= i -> 0 <= j ->
  a_side rows = take (Z.to_nat i) listA ∧
  b_side rows = take (Z.to_nat j) listB ∧
  Forall row_wf rows.
Proof.
  induction 1 as [|i j i' j' r rows Hm Hp IH]; intros Hi Hj; [done|].
  assert (0 <= i' ∧ 0 <= j') as [Hi' Hj'] by (destruct Hm; lia).
  destruct (IH Hi' Hj') as (Ha & Hb & Hwf).
  unfold a_side, b_side in *. rewrite !omap_app, Ha, Hb.
  assert (∀ r', row_wf r' -> Forall row_wf (rows ++ [r'])) as Hadd.
  { intros r' W. apply Forall_app. split; [done|]. by apply Forall_singleton. }
  destruct Hm as [x y r H1 H2 Hx Hy Hr|x H1 Hx _|y H1 Hy _].
  - rewrite (take_at_index listA i x), (take_at_index listB j y) by done.
    destruct Hr as [[_ ->]|[_ ->]]; [destruct (ngtb _ _)|];
      (split; [done|]; split; [done|]; apply Hadd; cbn; eauto 10).
  - rewrite (take_at_index listA i x) by done. cbn. rewrite app_nil_r.
    split; [done|]. split; [done|]. apply Hadd. cbn. eauto.
  - rewrite (take_at_index listB j y) by done. cbn. rewrite app_nil_r.
    split; [done|]. split; [done|]. apply Hadd. cbn. eauto.
Qed.

(** [alignTraces] returns: the fill succeeds, and the traceback follows a
    path from [(n, m)] whatever the budget beyond [n + m]. *)
Lemma align_lines_path :
  ∃ st rows,
    dp_fill listA listB = Ok st ∧
    (∀ fuel, (length listA + length listB <= fuel)%nat ->
       align_lines listA listB fuel = Ok rows) ∧
    tb_path listA listB (directions st) n m rows.
Proof.
  destruct dp_fill_dirs as (st & Hfill & Hd).
  destruct (traceback_ok (directions st) Hd (length listA + length listB)%nat n m)
    as (rows & Hrun & Hpath); [subst n m; lia..|].
  exists st, rows. split; [done|]. split; [|done].
  intros fuel Hf. unfold align_lines. rewrite Hfill.
  fold n m. rewrite (Hrun fuel []) by done. by rewrite app_nil_r.
Qed.

End AlignFacts.

(** C3: every row of the diff sequence is a match, a mismatch, an insert or
    a delete of the data model, and the a-side events of the rows, in
    order, are exactly sequence A, the b-side events exactly sequence B. *)
Theorem align_rows_reconstruct_inputs (traceA traceB : ParsedTrace) :
  ∃ rows,
    alignTraces traceA traceB = Ok rows ∧
    (∀ fuel, (length (lines traceA) + length (lines traceB) <= fuel)%nat ->
       align_lines (lines traceA) (lines traceB) fuel = Ok rows) ∧
    Forall row_wf rows ∧
    a_side rows = lines traceA ∧
    b_side rows = lines traceB.
Proof.
  destruct (align_lines_path (lines traceA) (lines traceB))
    as (st & rows & _ & Hall & Hpath).
  destruct (tb_path_sides _ _ _ _ _ _ Hpath) as (Ha & Hb & Hwf); [lia..|].
  exists rows. split; [by apply Hall|]. split; [done|]. split; [done|].
  rewrite Nat2Z.id, firstn_all in Ha, Hb. done.
Qed.

(** ** The pairwise score is a number of at most 15 *)

Lemma inject_Z_nonzero z : z ≠ 0 -> Qeq_bool (inject_Z z) 0 = false.
Proof.
  intros H. destruct (Qeq_bool (inject_Z z) 0) eqn:E; [|done].
  apply Qeq_bool_eq in E. unfold Qeq in E. simpl in E. lia.
Qed.

Lemma ratio_unit (c d : Z) :
  0 <= c <= d -> 0 < d ->
  ∃ q, ndiv (of_Z c) (of_Z d) = Fin q ∧ (0 <= q <= 1)%Q.
Proof.
  intros Hc Hd. unfold ndiv, of_Z. rewrite inject_Z_nonzero by lia.
  eexists. split; [done|].
  assert (0 < inject_Z d)%Q as Hpos.
  { change 0%Q with (inject_Z 0). rewrite <- Zlt_Qlt. done. }
  split.
  - apply Qle_shift_div_l; [done|]. rewrite Qmult_0_l.
    change 0%Q with (inject_Z 0). rewrite <- Zle_Qle. lia.
  - apply Qle_shift_div_r; [done|]. rewrite Qmult_1_l. rewrite <- Zle_Qle. lia.
Qed.

Lemma common_loop_bounds a b idxs c :
  c <= common_loop a b idxs c <= c + Z.of_nat (length idxs).
Proof.
  revert c. induction idxs as [|i idxs IH]; intros c; cbn [common_loop length].
  - lia.
  - case_bool_decide; [|lia]. specialize (IH (c + 1)). lia.
Qed.

Lemma getArgSimilarity_unit a b :
  ∃ q, getArgSimilarity a b = Fin q ∧ (0 <= q <= 1)%Q.
Proof.
  unfold getArgSimilarity.
  destruct (str_eqb a b); [by exists 1%Q|].
  destruct (bool_decide (a = []) || bool_decide (b = [])) eqn:Ee; [by exists 0%Q|].
  apply orb_false_elim in Ee as [Ea Eb].
  apply bool_decide_eq_false in Ea, Eb.
  assert (∃ q,
    (let minLen := Nat.min (length a) (length b) in
     let maxLen := Nat.max (length a) (length b) in
     if (maxLen =? 0)%nat then Fin 1
     else
       let checkLen := Nat.min minLen 30 in
       let common := common_loop a b (seq 0 checkLen) 0 in
       let prefixScore := ndiv (of_Z common) (of_Z (Z.of_nat (Nat.max checkLen 1))) in
       let lenScore := ndiv (of_Z (Z.of_nat minLen)) (of_Z (Z.of_nat maxLen)) in
       nadd (nmul prefixScore (Fin (7 # 10))) (nmul lenScore (Fin (3 # 10))))
    = Fin q ∧ (0 <= q <= 1)%Q) as Hblend.
  { cbv zeta. destruct (Nat.eqb_spec (Nat.max (length a) (length b)) 0) as [E|E];
      [by exists 1%Q|].
    pose proof (common_loop_bounds a b (seq 0 (Nat.min (Nat.min (length a) (length b)) 30)) 0) as Hc.
    rewrite length_seq in Hc.
    destruct (ratio_unit
                (common_loop a b (seq 0 (Nat.min (Nat.min (length a) (length b)) 30)) 0)
                (Z.of_nat (Nat.max (Nat.min (Nat.min (length a) (length b)) 30) 1)))
      as (p & -> & Hp); [lia..|].
    destruct (ratio_unit (Z.of_nat (Nat.min (length a) (length b)))
                (Z.of_nat (Nat.max (length a) (length b))))
      as (l & -> & Hl); [lia..|].
    cbn [nmul nadd]. eexists. split; [done|]. lra. }
  destruct (match_anywhere pathRegex a) as [ma|]; [|exact Hblend].
  destruct (match_anywhere pathRegex b) as [mb|]; [|exact Hblend].
  destruct (str_eqb _ _ && _).
  - destruct (str_eqb _ _); [by exists 1%Q|]. exists (9 # 10)%Q. split; [done|]. lra.
  - destruct (_ && _); [exists (7 # 10)%Q|exists (2 # 10)%Q]; (split; [done|lra]).
Qed.

Lemma getArgSimilarity_same a : getArgSimilarity a a = Fin 1.
Proof. unfold getArgSimilarity, str_eqb. by rewrite bool_decide_true. Qed.

Lemma calculateScore_le x y :
  ∃ q, calculateScore x y = Fin q ∧ (q <= 15)%Q.
Proof.
  unfold calculateScore.
  destruct (getArgSimilarity_unit (args x) (args y)) as (s & -> & Hs).
  unfold SCORE_MATCH, SCORE_APPROX, SCORE_MISMATCH, MAX_ARG_BONUS, of_Z.
  change (ndiv (Fin (inject_Z 5)) (Fin (inject_Z 2))) with (Fin (inject_Z 5 / inject_Z 2)).
  change (inject_Z 5 / inject_Z 2)%Q with (5 # 2)%Q.
  change (inject_Z 10) with 10%Q. change (inject_Z 5) with 5%Q.
  change (inject_Z 6) with 6%Q. change (inject_Z 2) with 2%Q.
  change (inject_Z (-10)) with (-10)%Q.
  destruct (str_eqb (syscall x) (syscall y)).
  - cbn [nadd nmul]. eexists. split; [done|]. lra.
  - destruct (_ || _).
    + cbn [nadd nmul]. eexists. split; [done|]. lra.
    + eexists. split; [done|]. lra.
Qed.

Lemma calculateScore_same x :
  ∃ q, calculateScore x x = Fin q ∧ (q == 15)%Q.
Proof.
  unfold calculateScore, str_eqb. rewrite bool_decide_true by done.
  rewrite getArgSimilarity_same. eexists. split; [reflexivity|]. reflexivity.
Qed.

(** ** The band *)

Lemma startJ_value c K :
  ∃ lo, nmax (of_Z 0) (nsub (of_Z c) (of_Z K)) = Fin lo ∧
        Qfloor lo = Z.max 0 (c - K).
Proof.
  unfold of_Z. cbn [nsub nneg nadd nmax nltb].
  assert (inject_Z c + - inject_Z K == inject_Z (c - K))%Q as E.
  { unfold Z.sub. rewrite inject_Z_plus, inject_Z_opp. reflexivity. }
  destruct (Qle_bool (inject_Z c + - inject_Z K) (inject_Z 0)) eqn:Hle; cbn [negb].
  - exists (inject_Z 0). split; [done|]. rewrite Qfloor_Z.
    apply Qle_bool_iff in Hle. rewrite E, <- Zle_Qle in Hle. lia.
  - eexists. split; [done|]. rewrite E, Qfloor_Z.
    destruct (Z.le_gt_cases (c - K) 0) as [H|H]; [|lia].
    exfalso. assert (Qle_bool (inject_Z c + - inject_Z K) (inject_Z 0) = true); [|congruence].
    apply Qle_bool_iff. by rewrite E, <- Zle_Qle.
Qed.

Lemma endJ_value mz c K :
  ∃ hi, nmin (of_Z mz) (nadd (of_Z c) (of_Z K)) = Fin hi ∧
        Qfloor hi = Z.min mz (c + K).
Proof.
  unfold of_Z. cbn [nadd nmin nltb].
  assert (inject_Z c + inject_Z K == inject_Z (c + K))%Q as E.
  { by rewrite inject_Z_plus. }
  destruct (Qle_bool (inject_Z mz) (inject_Z c + inject_Z K)) eqn:Hle; cbn [negb].
  - exists (inject_Z mz). split; [done|]. rewrite Qfloor_Z.
    apply Qle_bool_iff in Hle. rewrite E, <- Zle_Qle in Hle. lia.
  - eexists. split; [done|]. rewrite E, Qfloor_Z.
    destruct (Z.le_gt_cases mz (c + K)) as [H|H]; [|lia].
    exfalso. assert (Qle_bool (inject_Z mz) (inject_Z c + inject_Z K) = true); [|congruence].
    apply Qle_bool_iff. by rewrite E, <- Zle_Qle.
Qed.

(** The columns of line [i] when the centre is the integer [c]. *)
Lemma band_columns listA listB i c j :
  band_center listA listB i = of_Z c ->
  (j ∈ j_range (band_startJ listA listB i) (band_endJ listA listB i) ↔
   Z.max 0 (c - band_K listA listB) <= j
     <= Z.min (Z.of_nat (length listB)) (c + band_K listA listB)).
Proof.
  intros Hc. unfold band_startJ, band_endJ. rewrite Hc.
  destruct (startJ_value c (band_K listA listB)) as (lo & -> & <-).
  destruct (endJ_value (Z.of_nat (length listB)) c (band_K listA listB)) as (hi & -> & <-).
  apply j_range_elem.
Qed.

Lemma band_center_self listA i :
  listA ≠ [] -> band_center listA listA i = of_Z i.
Proof.
  intros Hne. unfold band_center, of_Z. cbn [ndiv].
  rewrite (inject_Z_nonzero).
  2:{ destruct listA; [done|]. cbn [length]. lia. }
  cbn [nmul nfloor]. unfold of_Z. f_equal. f_equal.
  assert (inject_Z i * (inject_Z (Z.of_nat (length listA)) / inject_Z (Z.of_nat (length listA)))
          == inject_Z i)%Q as ->; [|apply Qfloor_Z].
  field. intros H. unfold Qeq in H. simpl in H.
  destruct listA; [done|]. cbn [length] in H. lia.
Qed.

Lemma band_has_diagonal listA i :
  0 < i <= Z.of_nat (length listA) ->
  i ∈ j_range (band_startJ listA listA i) (band_endJ listA listA i).
Proof.
  intros Hi. apply (band_columns listA listA i i).
  - apply band_center_self. intros ->. cbn [length] in Hi. lia.
  - unfold band_K. lia.
Qed.

(** ** Aligning a trace against itself *)

Lemma below_mono x z z' : below x z -> z <= z' -> below x z'.
Proof.
  intros [->|(q & -> & Hq)] Hz; [by left|]. right. exists q. split; [done|].
  rewrite Zle_Qle in Hz. lra.
Qed.

Lemma step_from_gap_below x z : below x z -> below (step_from x SCORE_GAP) (z - 4).
Proof.
  intros [->|(q & -> & Hq)]; [by left|]. right. unfold step_from, SCORE_GAP, of_Z.
  cbn [neqb negb nadd]. eexists. split; [done|].
  unfold Z.sub. rewrite inject_Z_plus. change (inject_Z (-4)) with (-4)%Q.
  change (inject_Z (- (4))) with (-4)%Q. lra.
Qed.

Lemma getScore_below sc a b :
  scores_bounded sc -> 0 <= a -> 0 <= b -> below (getScore a b sc) (diag_bound a b).
Proof.
  intros Hb Ha Hb'. unfold getScore.
  destruct (Z.eqb_spec a 0) as [->|Hna]; cbn [andb].
  - destruct (Z.eqb_spec b 0) as [->|Hnb].
    + right. exists 0%Q. split; [done|]. done.
    + right. unfold SCORE_GAP, of_Z. cbn [nmul]. eexists. split; [done|].
      rewrite <- inject_Z_mult, <- Zle_Qle. unfold diag_bound. lia.
  - destruct (Z.eqb_spec b 0) as [->|Hnb].
    + right. unfold SCORE_GAP, of_Z. cbn [nmul]. eexists. split; [done|].
      rewrite <- inject_Z_mult, <- Zle_Qle. unfold diag_bound. lia.
    + destruct (sc !! (a, b)) as [v|] eqn:E; [|by left].
      destruct (Hb a b v E) as (_ & _ & q & -> & Hq). right. by exists q.
Qed.

Lemma choose_max_below L U D z mx d :
  choose_max L U D = (mx, d) -> below L z -> below U z -> below D z -> below mx z.
Proof.
  unfold choose_max. destruct (ngtb U L), (ngeb D _); intros [= <- <-]; auto.
Qed.

Lemma dp_cell_frame listA listB i j st st' :
  dp_cell listA listB i st j = Ok st' ->
  ∀ key, key ≠ (i, j) ->
    scores st' !! key = scores st !! key ∧
    directions st' !! key = directions st !! key.
Proof.
  unfold dp_cell. intros H key Hk.
  destruct ((i =? 0) && (j =? 0)) eqn:E0.
  - apply andb_true_iff in E0 as [Ei Ej]. apply Z.eqb_eq in Ei, Ej. subst.
    injection H as <-. cbn. by rewrite lookup_insert_ne.
  - destruct (score_diag listA listB i j st) as [D| |]; [|done..].
    destruct (choose_max _ _ D) as [mx d].
    destruct (ngtb mx NInf); injection H as <-; [|done].
    cbn. by rewrite !lookup_insert_ne.
Qed.

Section SelfAlign.
Variable listA : list TraceLine.
Let n : Z := Z.of_nat (length listA).

Lemma score_left_below i j st :
  scores_bounded (scores st) -> 0 <= i -> 0 <= j ->
  below (score_left i j st) (diag_bound i (j - 1) - 4).
Proof.
  intros Hb Hi Hj. unfold score_left.
  destruct (Z.ltb_spec 0 j); [|by left].
  apply step_from_gap_below, getScore_below; [done|lia..].
Qed.

Lemma score_up_below i j st :
  scores_bounded (scores st) -> 0 <= i -> 0 <= j ->
  below (score_up i j st) (diag_bound (i - 1) j - 4).
Proof.
  intros Hb Hi Hj. unfold score_up.
  destruct (Z.ltb_spec 0 i); [|by left].
  apply step_from_gap_below, getScore_below; [done|lia..].
Qed.

Lemma score_diag_below i j st :
  scores_bounded (scores st) -> 0 <= i <= n -> 0 <= j <= n ->
  ∃ D, score_diag listA listA i j st = Ok D ∧ below D (diag_bound i j).
Proof.
  intros Hb Hi Hj. unfold score_diag.
  destruct (Z.ltb_spec 0 i) as [Hi'|]; [|exists NInf; split; [done|by left]].
  destruct (Z.ltb_spec 0 j) as [Hj'|]; [|exists NInf; split; [done|by left]].
  cbn [andb].
  destruct (getScore_below (scores st) (i - 1) (j - 1) Hb) as [->|(q & -> & Hq)]; [lia..| |].
  { exists NInf. split; [done|by left]. }
  cbn [neqb negb].
  destruct (at_index_in listA (i - 1)) as [x ->]; [subst n; lia|].
  destruct (at_index_in listA (j - 1)) as [y ->]; [subst n; lia|].
  destruct (calculateScore_le x y) as (s & -> & Hs).
  eexists. split; [done|]. right. eexists. split; [done|].
  assert (inject_Z (diag_bound i j) == inject_Z (diag_bound (i - 1) (j - 1)) + 15)%Q as ->; [|lra].
  change 15%Q with (inject_Z 15). rewrite <- inject_Z_plus.
  apply inject_Z_injective. unfold diag_bound. lia.
Qed.

Lemma dp_cell_bounded i j st :
  scores_bounded (scores st) -> 0 <= i <= n -> 0 <= j <= n ->
  ∃ st', dp_cell listA listA i st j = Ok st' ∧ scores_bounded (scores st').
Proof.
  intros Hb Hi Hj. unfold dp_cell.
  destruct ((i =? 0) && (j =? 0)) eqn:E0.
  { eexists. split; [done|]. cbn. intros a b v H.
    apply lookup_insert_Some in H as [[[= <- <-] <-]|[_ H]]; [|by apply Hb].
    split; [done|]. split; [done|]. exists 0%Q. done. }
  destruct (score_diag_below i j st Hb Hi Hj) as (D & -> & HD).
  destruct (choose_max _ _ D) as [mx d] eqn:Ec.
  destruct (ngtb mx NInf) eqn:Em; [|by eexists].
  eexists. split; [done|]. cbn. intros a b v H.
  apply lookup_insert_Some in H as [[[= <- <-] <-]|[_ H]]; [|by apply Hb].
  split; [lia|]. split; [lia|].
  assert (below mx (diag_bound i j)) as [->|?]; [|done|done].
  eapply choose_max_below; [done| | |done].
  - eapply below_mono; [apply score_left_below; [done|lia..]|]. unfold diag_bound. lia.
  - eapply below_mono; [apply score_up_below; [done|lia..]|]. unfold diag_bound. lia.
Qed.

Lemma dp_cell_diagonal i st :
  scores_bounded (scores st) -> 0 < i <= n ->
  (i = 1 ∨ diag_done st (i - 1)) ->
  ∃ st', dp_cell listA listA i st i = Ok st' ∧ diag_done st' i.
Proof.
  intros Hb Hi Hprev. unfold dp_cell.
  destruct (Z.eqb_spec i 0) as [|_]; [lia|]. cbn [andb].
  assert (∃ q, getScore (i - 1) (i - 1) (scores st) = Fin q ∧
               (q == inject_Z (15 * (i - 1)))%Q) as (q & Hq & Eq).
  { unfold getScore. destruct Hprev as [->|[(q & Hs & Eq) _]].
    - exists 0%Q. done.
    - destruct (Z.eqb_spec (i - 1) 0) as [E|_].
      + exists 0%Q. split; [done|]. rewrite E. done.
      + cbn [andb]. rewrite Hs. by exists q. }
  destruct (at_index_in listA (i - 1)) as [x Hx]; [subst n; lia|].
  destruct (calculateScore_same x) as (s & Hs & Es).
  assert (score_diag listA listA i i st = Ok (Fin (q + s))) as ->.
  { unfold score_diag. rewrite (proj2 (Z.ltb_lt 0 i)) by lia. cbn [andb].
    rewrite Hq. cbn [neqb negb]. by rewrite Hx, Hs. }
  assert (below (score_left i i st) (15 * i - 23)) as HL.
  { eapply below_mono; [apply score_left_below; [done|lia..]|]. unfold diag_bound. lia. }
  assert (below (score_up i i st) (15 * i - 23)) as HU.
  { eapply below_mono; [apply score_up_below; [done|lia..]|]. unfold diag_bound. lia. }
  assert (inject_Z (15 * i - 23) < q + s)%Q as Hgap.
  { rewrite Eq, Es. change 15%Q with (inject_Z 15). rewrite <- inject_Z_plus.
    rewrite <- Zlt_Qlt. lia. }
  assert (∀ y, below y (15 * i - 23) -> ngeb (Fin (q + s)) y = true) as Hge.
  { intros y [->|(l & -> & Hl)]; [done|]. cbn. apply Qle_bool_iff. lra. }
  assert (choose_max (score_left i i st) (score_up i i st) (Fin (q + s))
          = (Fin (q + s), 1)) as ->.
  { unfold choose_max. destruct (ngtb (score_up i i st) (score_left i i st)).
    - by rewrite (Hge _ HU).
    - by rewrite (Hge _ HL). }
  cbn [ngtb nltb]. eexists. split; [done|]. split.
  - exists (q + s)%Q. cbn. rewrite lookup_insert_eq. split; [done|].
    rewrite Eq, Es. change 15%Q with (inject_Z 15). rewrite <- inject_Z_plus.
    apply inject_Z_injective. lia.
  - cbn. by rewrite lookup_insert_eq.
Qed.

Lemma diag_done_frame i j st st' a :
  dp_cell listA listA i st j = Ok st' -> (i, j) ≠ (a, a) ->
  diag_done st a -> diag_done st' a.
Proof.
  intros H Hne [(q & Hs & Eq) Hd].
  destruct (dp_cell_frame _ _ _ _ _ _ H (a, a)) as [E1 E2]; [by intros E|].
  split; [exists q; split; [congruence|done]|congruence].
Qed.

Lemma dp_row_self i st :
  0 <= i <= n -> scores_bounded (scores st) ->
  (∀ a, 0 < a < i -> diag_done st a) ->
  ∃ st', dp_row listA listA st i = Ok st' ∧ scores_bounded (scores st') ∧
         (∀ a, 0 < a <= i -> diag_done st' a).
Proof.
  intros Hi Hb Hd. unfold dp_row.
  destruct (for_each_ind (dp_cell listA listA i)
    (λ pre s, scores_bounded (scores s) ∧ (∀ a, 0 < a < i -> diag_done s a) ∧
              (0 < i -> i ∈ pre -> diag_done s i))
    (j_range (band_startJ listA listA i) (band_endJ listA listA i)) st)
    as (st' & Hrun & Hb' & Hd' & Hi').
  - split; [done|]. split; [done|]. intros _ H. inversion H.
  - intros pre j post s Hl (Hbs & Hds & His).
    assert (0 <= j <= n) as Hj.
    { apply (band_range listA listA i). rewrite Hl. apply elem_of_app. right. left. }
    destruct (decide (j = i ∧ 0 < i)) as [[-> Hpos]|Hne].
    + destruct (dp_cell_diagonal i s Hbs) as (s' & Hc & Hdone); [lia| |].
      { destruct (decide (i = 1)); [by left|right]. apply Hds. lia. }
      destruct (dp_cell_bounded i i s Hbs Hi Hj) as (s'' & Hc' & Hbs').
      rewrite Hc in Hc'. injection Hc' as <-.
      exists s'. split; [done|]. split; [done|]. split; [|done].
      intros a Ha. eapply diag_done_frame; [done| |by apply Hds].
      intros [= ->]. lia.
    + destruct (dp_cell_bounded i j s Hbs Hi Hj) as (s' & Hc & Hbs').
      exists s'. split; [done|]. split; [done|]. split.
      * intros a Ha. eapply diag_done_frame; [done| |by apply Hds].
        intros [= -> _]. lia.
      * intros Hpos Hin. apply elem_of_app in Hin as [Hin|Hin].
        -- eapply diag_done_frame; [done| |by apply His].
           intros [= E]. apply Hne. by split.
        -- apply list_elem_of_singleton in Hin. exfalso. apply Hne. by split.
  - exists st'. split; [done|]. split; [done|]. intros a Ha.
    destruct (decide (a = i)) as [->|]; [|apply Hd'; lia].
    apply Hi'; [lia|]. apply band_has_diagonal. subst n. lia.
Qed.

Lemma dp_rows_split pre i post :
  dp_rows listA = pre ++ i :: post -> i = Z.of_nat (length pre) ∧ 0 <= i <= n.
Proof.
  intros H. assert (dp_rows listA !! length pre = Some i) as Hl.
  { rewrite H. by rewrite lookup_app_r, Nat.sub_diag. }
  unfold dp_rows in Hl. rewrite list_lookup_fmap in Hl.
  destruct (seq 0 (length listA + 1) !! length pre) as [k|] eqn:E; [|done].
  apply lookup_seq in E as [-> Hk]. injection Hl as <-. subst n. lia.
Qed.

Lemma dp_fill_self :
  ∃ st, dp_fill listA listA = Ok st ∧ ∀ a, 0 < a <= n -> diag_done st a.
Proof.
  unfold dp_fill.
  destruct (for_each_ind (dp_row listA listA)
    (λ pre s, scores_bounded (scores s) ∧
              ∀ a, 0 < a < Z.of_nat (length pre) -> diag_done s a)
    (dp_rows listA) (mkDP ∅ ∅)) as (st & Hrun & _ & Hd).
  - split.
    + intros a b v H. cbn in H. by rewrite lookup_empty in H.
    + cbn [length]. intros; lia.
  - intros pre i post s Hl (Hb & Hd).
    destruct (dp_rows_split pre i post Hl) as [-> Hi].
    destruct (dp_row_self _ s Hi Hb Hd) as (s' & Hr & Hb' & Hd').
    exists s'. split; [done|]. split; [done|]. intros a Ha.
    apply Hd'. rewrite length_app in Ha. cbn [length] in Ha. lia.
  - exists st. split; [done|]. intros a Ha. apply Hd.
    unfold dp_rows. rewrite length_map, length_seq. subst n. lia.
Qed.

End SelfAlign.

Lemma tb_path_self listA dirs :
  (∀ a, 0 < a <= Z.of_nat (length listA) -> dirs !! (a, a) = Some 1) ->
  ∀ i j rows, tb_path listA listA dirs i j rows ->
    i = j -> 0 <= i <= Z.of_nat (length listA) ->
    rows = map (λ e, row_match e e) (take (Z.to_nat i) listA).
Proof.
  intros Hd. induction 1 as [|i j i' j' r rows Hm Hp IH]; intros E Hi; [done|].
  subst j.
  assert (dirs !! (i, i) = Some 1) as H1.
  { apply Hd. destruct Hm; lia. }
  destruct Hm as [x y r Hi0 Hj0 Hx Hy Hr|x Hi0 Hx Hr|y Hj0 Hy Hr].
  - rewrite Hx in Hy. injection Hy as <-.
    rewrite (take_at_index listA i x) by done.
    rewrite map_app, <- IH by (done || lia). f_equal. cbn [map]. f_equal.
    destruct Hr as [[_ ->]|[Hn _]]; [|congruence].
    destruct (calculateScore_same x) as (s & -> & Es).
    cbn. replace (Qle_bool s (inject_Z 0)) with false; [done|].
    symmetry. destruct (Qle_bool s (inject_Z 0)) eqn:E; [|done].
    apply Qle_bool_iff in E. change (inject_Z 0) with 0%Q in E. lra.
  - destruct Hr as [Hr|[Hr _]]; congruence.
  - destruct Hr as [Hr|[Hr _]]; congruence.
Qed.

Lemma sub_self_zero x : is_fin x -> is_zero (nsub x x).
Proof. intros [q ->]. unfold is_zero. cbn. ring. Qed.

(** C2, as stated, fails: the event of [read(3) = 4 <.>] has duration [NaN],
    and the duration delta of its match row is [NaN - NaN], not zero. *)
Lemma self_alignment_nan_delta :
  ¬ self_alignment_claim (parseStrace (str "10:00:00.000000 read(3) = 4 <.>") []).
Proof.
  intros (rows & Hrun & _ & Hrows). vm_compute in Hrun. injection Hrun as <-.
  apply Forall_cons in Hrows as [(_ & (d & Hd & Hz) & _) _].
  cbn in Hd. injection Hd as <-. exact Hz.
Qed.

(** C2, amended: aligning a trace against itself gives one match row per
    event, pairing the event with itself; the duration delta of a row is
    zero when the event's duration is a finite number, and its idle-gap
    delta is zero when the event's idle gap is. *)
Theorem self_alignment_all_match (t : ParsedTrace) :
  ∃ rows,
    alignTraces t t = Ok rows ∧
    length rows = length (lines t) ∧
    rows = map (λ e, row_match e e) (lines t) ∧
    Forall (λ r,
      type r = TMatch ∧
      ∃ e, a r = Some e ∧ b r = Some e ∧
           (is_fin (duration e) -> zero_delta (timeDiff r)) ∧
           (is_fin (userDiff e) -> zero_delta (userDiffDelta r))) rows.
Proof.
  destruct (align_lines_path (lines t) (lines t)) as (st & rows & Hfill & Hall & Hpath).
  destruct (dp_fill_self (lines t)) as (st' & Hfill' & Hdiag).
  rewrite Hfill in Hfill'. injection Hfill' as <-.
  assert (rows = map (λ e, row_match e e) (lines t)) as ->.
  { assert (∀ a0, 0 < a0 <= Z.of_nat (length (lines t)) ->
              directions st !! (a0, a0) = Some 1) as Hone.
    { intros a0 Ha. by destruct (Hdiag a0 Ha) as [_ ?]. }
    rewrite (tb_path_self (lines t) (directions st) Hone _ _ rows Hpath eq_refl)
      by lia.
    by rewrite Nat2Z.id, firstn_all. }
  eexists. split; [by apply Hall|]. split; [by rewrite length_map|]. split; [done|].
  apply Forall_forall. intros r Hr. apply list_elem_of_fmap in Hr as (e & -> & _).
  split; [done|]. exists e. split; [done|]. split; [done|].
  split; intros Hf; eexists; (split; [done|]); by apply sub_self_zero.
Qed.

(** ** The banded table against the full table *)

Lemma num_eqv_sym x y : num_eqv x y -> num_eqv y x.
Proof. destruct x, y; simpl; try done. all: intros H; by symmetry. Qed.

Lemma num_eqv_trans x y z : num_eqv x y -> num_eqv y z -> num_eqv x z.
Proof. destruct x, y, z; simpl; try done. all: intros H1 H2; by rewrite H1. Qed.

Lemma nadd_eqv x x' y y' :
  num_eqv x x' -> num_eqv y y' -> num_eqv (nadd x y) (nadd x' y').
Proof.
  destruct x, x', y, y'; simpl; try done. all: intros H1 H2; by rewrite H1, H2.
Qed.

Lemma fin_eqv x y : num_eqv x y -> is_fin x -> is_fin y.
Proof. intros H [q ->]. destruct y; try done. by eexists. Qed.

Lemma nmax_fin a b : nmax (Fin a) (Fin b) = Fin a ∨ nmax (Fin a) (Fin b) = Fin b.
Proof. cbn [nmax nltb]. destruct (negb _); auto. Qed.

Lemma Qle_bool_false a b : Qle_bool a b = false -> (b < a)%Q.
Proof.
  intros H. destruct (Qlt_le_dec b a) as [|Hle]; [done|].
  apply Qle_bool_iff in Hle. congruence.
Qed.

Ltac split_Qle :=
  repeat match goal with
  | H : context [Qle_bool ?a ?b] |- _ =>
      lazymatch type of H with
      | Qle_bool _ _ = _ => fail
      | _ => destruct (Qle_bool a b) eqn:?; cbn [negb nleb nltb] in H
      end
  | |- context [Qle_bool ?a ?b] =>
      destruct (Qle_bool a b) eqn:?; cbn [negb nmax nltb]
  end;
  repeat match goal with
  | H : Qle_bool _ _ = true |- _ => apply Qle_bool_iff in H
  | H : Qle_bool _ _ = false |- _ => apply Qle_bool_false in H
  end.

(** On three numbers, choose_max returns their maximum. *)
Lemma choose_max_fin l u d l' u' d' mx dir :
  choose_max (Fin l) (Fin u) (Fin d) = (mx, dir) ->
  (l == l')%Q -> (u == u')%Q -> (d == d')%Q ->
  num_eqv mx (nmax (Fin d') (nmax (Fin l') (Fin u'))).
Proof.
  unfold choose_max, ngtb, ngeb. cbn [nltb nleb nmax].
  intros H El Eu Ed. split_Qle; injection H as <- <-; simpl; lra.
Qed.

Lemma choose_max_only_left l :
  choose_max (Fin l) NInf NInf = (Fin l, 3).
Proof. done. Qed.

Lemma choose_max_only_up u :
  choose_max NInf (Fin u) NInf = (Fin u, 2).
Proof. done. Qed.

Lemma gap_step z :
  num_eqv (nmul (of_Z z) SCORE_GAP) (nadd (nmul (of_Z (z - 1)) SCORE_GAP) SCORE_GAP).
Proof.
  unfold SCORE_GAP, of_Z. cbn [nmul nadd num_eqv].
  unfold Z.sub. rewrite inject_Z_plus. change (inject_Z (- (1))) with (-1)%Q.
  change (inject_Z (-4)) with (-4)%Q. ring.
Qed.

Lemma getScore_frame sc sc' a b :
  sc' !! (a, b) = sc !! (a, b) -> getScore a b sc' = getScore a b sc.
Proof. intros H. unfold getScore. by rewrite H. Qed.

Section FullBand.
Variables listA listB : list TraceLine.
Let n : Z := Z.of_nat (length listA).
Let m : Z := Z.of_nat (length listB).
Let T := table_at listA listB.

Lemma full_dp_table_S i j :
  full_dp_table listA listB (S i) (S j) =
  match listA !! i, listB !! j with
  | Some x, Some y =>
      nmax (nadd (full_dp_table listA listB i j) (calculateScore x y))
           (nmax (nadd (full_dp_table listA listB (S i) j) SCORE_GAP)
                 (nadd (full_dp_table listA listB i (S j)) SCORE_GAP))
  | _, _ => NaN
  end.
Proof. done. Qed.

Lemma table_row0 b : 0 <= b -> T 0 b = nmul (of_Z b) SCORE_GAP.
Proof.
  intros H. unfold T, table_at. change (Z.to_nat 0) with 0%nat.
  cbn [full_dp_table]. by rewrite Z2Nat.id.
Qed.

Lemma table_col0 a : 0 <= a -> T a 0 = nmul (of_Z a) SCORE_GAP.
Proof.
  intros H. unfold T, table_at. destruct (Z.to_nat a) as [|a'] eqn:E.
  - change (Z.to_nat 0) with 0%nat. cbn [full_dp_table]. by replace a with 0 by lia.
  - change (Z.to_nat 0) with 0%nat. cbn [full_dp_table]. by rewrite <- E, Z2Nat.id.
Qed.

Lemma table_inner a b x y :
  0 < a -> 0 < b ->
  at_index listA (a - 1) = Some x -> at_index listB (b - 1) = Some y ->
  T a b = nmax (nadd (T (a - 1) (b - 1)) (calculateScore x y))
               (nmax (nadd (T a (b - 1)) SCORE_GAP) (nadd (T (a - 1) b) SCORE_GAP)).
Proof.
  intros Ha Hb Hx Hy. unfold T, table_at.
  unfold at_index in Hx, Hy.
  rewrite (proj2 (Z.ltb_ge (a - 1) 0)) in Hx by lia.
  rewrite (proj2 (Z.ltb_ge (b - 1) 0)) in Hy by lia.
  replace (Z.to_nat a) with (S (Z.to_nat (a - 1))) by lia.
  replace (Z.to_nat b) with (S (Z.to_nat (b - 1))) by lia.
  rewrite full_dp_table_S. by rewrite Hx, Hy.
Qed.

Lemma full_dp_table_fin i j :
  (i <= length listA)%nat -> (j <= length listB)%nat ->
  is_fin (full_dp_table listA listB i j).
Proof.
  revert j. induction i as [|i IHi]; intros j Hi Hj.
  - cbn. by eexists.
  - induction j as [|j IHj].
    + cbn. by eexists.
    + rewrite full_dp_table_S.
      destruct (lookup_lt_is_Some_2 listA i) as [x ->]; [lia|].
      destruct (lookup_lt_is_Some_2 listB j) as [y ->]; [lia|].
      destruct (IHi j) as [p Hp]; [lia..|].
      destruct (IHi (S j)) as [u Hu]; [lia..|].
      destruct IHj as [l Hl]; [lia|].
      destruct (calculateScore_le x y) as (s & Hs & _).
      rewrite Hp, Hu, Hl, Hs.
      unfold SCORE_GAP, of_Z. cbn [nadd].
      destruct (nmax_fin (l + inject_Z (-4)) (u + inject_Z (-4))) as [->| ->];
        match goal with |- is_fin (nmax (Fin ?a) (Fin ?b)) =>
          destruct (nmax_fin a b) as [->| ->] end; by eexists.
Qed.

Lemma table_fin a b : 0 <= a <= n -> 0 <= b <= m -> is_fin (T a b).
Proof. intros Ha Hb. apply full_dp_table_fin; subst n m; lia. Qed.

Lemma cell_done_fin st a b :
  cell_done listA listB st a b -> 0 <= a <= n -> 0 <= b <= m ->
  ∃ g t, getScore a b (scores st) = Fin g ∧ T a b = Fin t ∧ (g == t)%Q.
Proof.
  intros [He _] Ha Hb. destruct (table_fin a b Ha Hb) as [t Ht].
  fold T in He. rewrite Ht in He.
  destruct (getScore a b (scores st)) as [| |g|]; try done. by exists g, t.
Qed.

Lemma cell_done_frame i j st st' a b :
  dp_cell listA listB i st j = Ok st' -> (a, b) ≠ (i, j) ->
  cell_done listA listB st a b -> cell_done listA listB st' a b.
Proof.
  intros H Hne [He Hd].
  destruct (dp_cell_frame _ _ _ _ _ _ H (a, b) Hne) as [E1 E2].
  split.
  - by rewrite (getScore_frame _ _ _ _ E1).
  - intros H0. destruct (Hd H0) as (d & Hl & Hs). exists d. split; [congruence|done].
Qed.

Lemma step_from_fin g : step_from (Fin g) SCORE_GAP = Fin (g + inject_Z (-4)).
Proof. done. Qed.

Lemma dp_cell_table i j st :
  0 <= i <= n -> 0 <= j <= m ->
  (0 < j -> cell_done listA listB st i (j - 1)) ->
  (0 < i -> cell_done listA listB st (i - 1) j) ->
  (0 < i -> 0 < j -> cell_done listA listB st (i - 1) (j - 1)) ->
  ∃ st', dp_cell listA listB i st j = Ok st' ∧ cell_done listA listB st' i j.
Proof.
  intros Hi Hj HL HU HD. unfold dp_cell.
  destruct (Z.eqb_spec i 0) as [Ei|Ei]; [destruct (Z.eqb_spec j 0) as [Ej|Ej]|]; cbn [andb].
  - subst. eexists. split; [done|]. split; [|done]. by compute.
  - (* line 0 *)
    subst i. assert (0 < j) as Hj' by lia.
    destruct (cell_done_fin st 0 (j - 1) (HL Hj')) as (g & t & Hg & Ht & Egt); [lia..|].
    rewrite (score_diag_ninf listA listB 0 j st) by lia.
    unfold score_left, score_up. rewrite (proj2 (Z.ltb_lt 0 j)) by done.
    rewrite (proj2 (Z.ltb_ge 0 0)) by lia. rewrite Hg, step_from_fin.
    rewrite choose_max_only_left. cbn [ngtb nltb].
    eexists. split; [done|]. split.
    + cbn [scores]. unfold getScore. cbn [Z.eqb andb].
      rewrite (proj2 (Z.eqb_neq j 0)) by lia. fold T. rewrite table_row0 by lia.
      apply num_eqv_refl.
    + intros _. exists 3. cbn [directions]. rewrite lookup_insert_eq. split; [done|].
      right; right. split; [done|]. split; [done|]. fold T.
      rewrite !table_row0 by lia. apply gap_step.
  - destruct (Z.eqb_spec j 0) as [Ej|Ej]; cbn [andb].
    + (* column 0 *)
      subst j. assert (0 < i) as Hi' by lia.
      destruct (cell_done_fin st (i - 1) 0 (HU Hi')) as (g & t & Hg & Ht & Egt); [lia..|].
      rewrite (score_diag_ninf listA listB i 0 st) by lia.
      unfold score_left, score_up. rewrite (proj2 (Z.ltb_lt 0 i)) by done.
      rewrite (proj2 (Z.ltb_ge 0 0)) by lia. rewrite Hg, step_from_fin.
      rewrite choose_max_only_up. cbn [ngtb nltb].
      eexists. split; [done|]. split.
      * cbn [scores]. unfold getScore. rewrite (proj2 (Z.eqb_neq i 0)) by lia.
        cbn [Z.eqb andb]. fold T. rewrite table_col0 by lia. apply num_eqv_refl.
      * intros _. exists 2. cbn [directions]. rewrite lookup_insert_eq. split; [done|].
        right; left. split; [done|]. split; [done|]. fold T.
        rewrite !table_col0 by lia. apply gap_step.
    + (* inner cell *)
      assert (0 < i) as Hi' by lia. assert (0 < j) as Hj' by lia.
      destruct (cell_done_fin st i (j - 1) (HL Hj')) as (gl & tl & Hgl & Htl & El); [lia..|].
      destruct (cell_done_fin st (i - 1) j (HU Hi')) as (gu & tu & Hgu & Htu & Eu); [lia..|].
      destruct (cell_done_fin st (i - 1) (j - 1) (HD Hi' Hj'))
        as (gd & td & Hgd & Htd & Ed); [lia..|].
      destruct (at_index_in listA (i - 1)) as [x Hx]; [subst n; lia|].
      destruct (at_index_in listB (j - 1)) as [y Hy]; [subst m; lia|].
      destruct (calculateScore_le x y) as (s & Hs & _).
      assert (score_diag listA listB i j st = Ok (Fin (gd + s))) as ->.
      { unfold score_diag. rewrite (proj2 (Z.ltb_lt 0 i)), (proj2 (Z.ltb_lt 0 j)) by done.
        cbn [andb]. rewrite Hgd. cbn [neqb negb]. by rewrite Hx, Hy, Hs. }
      unfold score_left, score_up.
      rewrite (proj2 (Z.ltb_lt 0 i)), (proj2 (Z.ltb_lt 0 j)) by done.
      rewrite Hgl, Hgu, !step_from_fin.
      destruct (choose_max _ _ _) as [mx d] eqn:Ec.
      pose proof (table_inner i j x y Hi' Hj' Hx Hy) as HT.
      rewrite Htl, Htu, Htd, Hs in HT. unfold SCORE_GAP, of_Z in HT. cbn [nadd] in HT.
      assert (num_eqv mx (T i j)) as Hmx.
      { rewrite HT. eapply choose_max_fin; [done|..].
        - by rewrite El.
        - by rewrite Eu.
        - by rewrite Ed. }
      assert (ngtb mx NInf = true) as Hpos.
      { destruct (table_fin i j Hi Hj) as [t Ht]. rewrite Ht in Hmx. by destruct mx. }
      rewrite Hpos. eexists. split; [done|]. split.
      * cbn [scores]. unfold getScore.
        rewrite (proj2 (Z.eqb_neq i 0)), (proj2 (Z.eqb_neq j 0)) by lia.
        cbn [andb]. rewrite lookup_insert_eq. done.
      * intros _. exists d. cbn [directions]. rewrite lookup_insert_eq. split; [done|].
        fold T.
        destruct (choose_max_dir _ _ _ _ _ Ec Hpos) as [[-> E]|[[-> E]|[-> E]]].
        -- left. split; [done|]. split; [done|]. split; [done|].
           intros x' y' Hx' Hy'. rewrite Hx in Hx'. rewrite Hy in Hy'.
           injection Hx' as <-. injection Hy' as <-.
           apply num_eqv_sym. rewrite E in Hmx. rewrite Htd, Hs.
           eapply num_eqv_trans; [|exact Hmx]. cbn. by rewrite Ed.
        -- right; left. split; [done|]. split; [done|].
           apply num_eqv_sym. rewrite E in Hmx. rewrite Htu.
           eapply num_eqv_trans; [|exact Hmx]. cbn. by rewrite Eu.
        -- right; right. split; [done|]. split; [done|].
           apply num_eqv_sym. rewrite E in Hmx. rewrite Htl.
           eapply num_eqv_trans; [|exact Hmx]. cbn. by rewrite El.
Qed.

End FullBand.

Lemma j_range_split lo hi pre j post :
  j_range (Fin lo) (Fin hi) = pre ++ j :: post ->
  j = Qfloor lo + Z.of_nat (length pre).
Proof.
  intros H. assert (j_range (Fin lo) (Fin hi) !! length pre = Some j) as Hl.
  { rewrite H. by rewrite lookup_app_r, Nat.sub_diag. }
  unfold j_range in Hl. rewrite list_lookup_fmap in Hl.
  destruct (seq 0 _ !! length pre) as [k|] eqn:E; [|done].
  apply lookup_seq in E as [-> Hk]. by injection Hl as <-.
Qed.

Lemma j_range_length lo hi :
  length (j_range (Fin lo) (Fin hi)) = Z.to_nat (Qfloor hi - Qfloor lo + 1).
Proof. unfold j_range. by rewrite length_map, length_seq. Qed.

Section FullBandFill.
Variables listA listB : list TraceLine.
Let n : Z := Z.of_nat (length listA).
Let m : Z := Z.of_nat (length listB).

Lemma band_center_value i :
  0 < n -> 0 <= i <= n ->
  ∃ c, band_center listA listB i = of_Z c ∧ 0 <= c <= m.
Proof.
  intros Hn Hi. unfold band_center, of_Z. cbn [ndiv].
  rewrite inject_Z_nonzero by (subst n; lia). cbn [nmul nfloor].
  eexists. split; [reflexivity|]. fold n m.
  assert (0 < inject_Z n)%Q as Hn'.
  { change 0%Q with (inject_Z 0). by rewrite <- Zlt_Qlt. }
  assert (0 <= inject_Z m / inject_Z n)%Q as Hr.
  { apply Qle_shift_div_l; [done|]. rewrite Qmult_0_l.
    change 0%Q with (inject_Z 0). rewrite <- Zle_Qle. subst m. lia. }
  split.
  - change 0 with (Qfloor (inject_Z 0)). apply Qfloor_resp_le.
    change (inject_Z 0) with 0%Q. apply Qmult_le_0_compat; [|done].
    change 0%Q with (inject_Z 0). rewrite <- Zle_Qle. lia.
  - apply Z.le_trans with (Qfloor (inject_Z m)); [|rewrite Qfloor_Z; lia].
    apply Qfloor_resp_le.
    apply Qle_trans with (inject_Z n * (inject_Z m / inject_Z n))%Q.
    + apply Qmult_le_compat_r; [|done]. rewrite <- Zle_Qle. lia.
    + assert (inject_Z n * (inject_Z m / inject_Z n) == inject_Z m)%Q as E.
      { field. lra. }
      rewrite E. apply Qle_refl.
Qed.

(** With at most 200 events in B the band of every line is the whole
    line, visited from column 0 to column [m]. *)
Lemma band_is_whole_line i :
  0 < n -> 0 <= i <= n -> m <= 200 ->
  ∃ lo hi, band_startJ listA listB i = Fin lo ∧ band_endJ listA listB i = Fin hi ∧
           Qfloor lo = 0 ∧ Qfloor hi = m.
Proof.
  intros Hn Hi Hm. destruct (band_center_value i Hn Hi) as (c & Hc & Hcm).
  unfold band_startJ, band_endJ. rewrite Hc.
  destruct (startJ_value c (band_K listA listB)) as (lo & -> & Hlo).
  destruct (endJ_value (Z.of_nat (length listB)) c (band_K listA listB)) as (hi & -> & Hhi).
  exists lo, hi. split; [done|]. split; [done|].
  rewrite Hlo, Hhi. fold m. unfold band_K. lia.
Qed.

Lemma dp_row_table i st :
  0 < n -> m <= 200 -> 0 <= i <= n ->
  (∀ a b, 0 <= a < i -> 0 <= b <= m -> cell_done listA listB st a b) ->
  ∃ st', dp_row listA listB st i = Ok st' ∧
         ∀ a b, 0 <= a <= i -> 0 <= b <= m -> cell_done listA listB st' a b.
Proof.
  intros Hn Hm Hi Hprev. unfold dp_row.
  destruct (band_is_whole_line i Hn Hi Hm) as (lo & hi & -> & -> & Hlo & Hhi).
  destruct (for_each_ind (dp_cell listA listB i)
    (λ pre s,
       (∀ a b, 0 <= a < i -> 0 <= b <= m -> cell_done listA listB s a b) ∧
       (∀ b, 0 <= b < Z.of_nat (length pre) -> cell_done listA listB s i b))
    (j_range (Fin lo) (Fin hi)) st) as (st' & Hrun & Hup & Hrow).
  - split; [done|]. cbn [length]. intros; lia.
  - intros pre j post s Hl (Hup & Hrow).
    pose proof (j_range_split lo hi pre j post Hl) as Ej. rewrite Hlo in Ej.
    assert (0 <= j <= m) as Hj.
    { assert (j ∈ j_range (Fin lo) (Fin hi)) as Hin.
      { rewrite Hl. apply elem_of_app. right. left. }
      apply j_range_elem in Hin. lia. }
    destruct (dp_cell_table listA listB i j s) as (s' & Hc & Hdone); [done|done|..].
    + intros ?. apply Hrow. lia.
    + intros ?. apply Hup; lia.
    + intros ? ?. apply Hup; lia.
    + exists s'. split; [done|]. split.
      * intros a b Ha Hb. eapply cell_done_frame; [done| |by apply Hup].
        intros [= -> _]. lia.
      * intros b Hb. rewrite length_app in Hb. cbn [length] in Hb.
        destruct (decide (b = j)) as [->|Hne]; [done|].
        eapply cell_done_frame; [done| |apply Hrow; lia].
        intros [= E]. done.
  - exists st'. split; [done|]. intros a b Ha Hb.
    destruct (decide (a = i)) as [->|]; [|apply Hup; lia].
    apply Hrow. rewrite j_range_length, Hlo, Hhi. lia.
Qed.

Lemma dp_fill_table :
  0 < n -> m <= 200 ->
  ∃ st, dp_fill listA listB = Ok st ∧
        ∀ a b, 0 <= a <= n -> 0 <= b <= m -> cell_done listA listB st a b.
Proof.
  intros Hn Hm. unfold dp_fill.
  destruct (for_each_ind (dp_row listA listB)
    (λ pre s, ∀ a b, 0 <= a < Z.of_nat (length pre) -> 0 <= b <= m ->
                     cell_done listA listB s a b)
    (dp_rows listA) (mkDP ∅ ∅)) as (st & Hrun & Hall).
  - cbn [length]. intros; lia.
  - intros pre i post s Hl Hprev.
    destruct (dp_rows_split listA pre i post Hl) as [-> Hi].
    destruct (dp_row_table _ s Hn Hm Hi Hprev) as (s' & Hr & Hd).
    exists s'. split; [done|]. intros a b Ha Hb. apply Hd; [|done].
    rewrite length_app in Ha. cbn [length] in Ha. lia.
  - exists st. split; [done|]. intros a b Ha Hb. apply Hall; [|done].
    unfold dp_rows. rewrite length_map, length_seq. subst n. lia.
Qed.

Lemma dp_fill_empty_A : listA = [] -> dp_fill listA listB = Ok (mkDP ∅ ∅).
Proof.
  intros E. unfold dp_fill, dp_rows. rewrite E. cbn [length Nat.add seq map for_each].
  unfold dp_row, band_startJ, band_endJ, band_center. cbn [length].
  change (Z.of_nat 0) with 0.
  assert (nmul (of_Z 0) (ndiv (of_Z (Z.of_nat (length listB))) (of_Z 0)) = NaN) as ->.
  { unfold of_Z. cbn [ndiv]. change (Qeq_bool (inject_Z 0) 0) with true. cbn iota.
    by destruct (Qsgn _). }
  done.
Qed.

(** Whatever the length of A, with at most 200 events in B the banded table
    agrees with the full table and every recorded direction is one of its
    steps. *)
Lemma dp_fill_full :
  m <= 200 ->
  ∃ st, dp_fill listA listB = Ok st ∧
    num_eqv (getScore n m (scores st)) (table_at listA listB n m) ∧
    ∀ a b, 0 <= a <= n -> 0 <= b <= m -> (a, b) ≠ (0, 0) ->
           dir_fair listA listB (directions st) a b.
Proof.
  intros Hm. destruct (decide (0 < n)) as [Hn|Hn].
  - destruct (dp_fill_table Hn Hm) as (st & Hrun & Hall).
    exists st. split; [done|]. split.
    + apply Hall; subst n m; lia.
    + intros a b Ha Hb Hne. left. by apply Hall.
  - assert (listA = []) as E by (destruct listA; [done|]; subst n; cbn [length] in Hn; lia).
    exists (mkDP ∅ ∅). split; [by apply dp_fill_empty_A|].
    assert (n = 0) as En by (subst n; rewrite E; done).
    rewrite En. split.
    + unfold getScore. cbn [Z.eqb andb scores].
      rewrite table_row0 by (subst m; lia).
      destruct (Z.eqb_spec m 0) as [->|_]; [by compute|apply num_eqv_refl].
    + intros a b Ha Hb Hne. right. cbn [directions]. rewrite lookup_empty.
      split; [done|]. left. lia.
Qed.

Lemma tb_path_score dirs :
  (∀ a b, 0 <= a <= n -> 0 <= b <= m -> (a, b) ≠ (0, 0) ->
          dir_fair listA listB dirs a b) ->
  ∀ i j rows, tb_path listA listB dirs i j rows ->
    0 <= i <= n -> 0 <= j <= m ->
    num_eqv (rows_score rows) (table_at listA listB i j).
Proof.
  intros Hfair. induction 1 as [|i j i' j' r rows Hm Hp IH]; intros Hi Hj.
  { by compute. }
  destruct (tb_moved_bounds _ _ _ _ _ _ _ _ Hm Hi Hj) as (Hi' & Hj' & _).
  specialize (IH Hi' Hj').
  unfold rows_score. rewrite fold_left_app. cbn [fold_left]. fold (rows_score rows).
  assert ((i, j) ≠ (0, 0)) as Hne by (destruct Hm; intros [= ? ?]; lia).
  specialize (Hfair i j Hi Hj Hne).
  destruct Hm as [x y r Hi0 Hj0 Hx Hy Hr|x Hi0 Hx Hr|y Hj0 Hy Hr].
  - assert (dirs !! (i, j) = Some 1 ∧ row_score r = calculateScore x y) as [Hd ->].
    { destruct Hr as [[Hd ->]|[Hd ->]].
      - split; [done|]. by destruct (ngtb _ _).
      - destruct Hfair as [(d & Hd' & _)|[_ ?]]; [congruence|lia]. }
    destruct Hfair as [(d & Hd' & Hs)|[Hd' _]]; [|congruence].
    rewrite Hd in Hd'. injection Hd' as <-.
    destruct Hs as [(_ & _ & _ & Hs)|[(? & _)|(? & _)]]; [|done..].
    apply num_eqv_sym. eapply num_eqv_trans; [by apply Hs|].
    apply nadd_eqv; [by apply num_eqv_sym|apply num_eqv_refl].
  - change (row_score (row_delete (Some x))) with SCORE_GAP.
    apply num_eqv_sym.
    assert (num_eqv (table_at listA listB i j)
              (nadd (table_at listA listB (i - 1) j) SCORE_GAP)) as Hs.
    { destruct Hr as [Hd|[Hd Hj0]].
      - destruct Hfair as [(d & Hd' & Hs)|[Hd' _]]; [|congruence].
        rewrite Hd in Hd'. injection Hd' as <-.
        by destruct Hs as [(? & _)|[(_ & _ & Hs)|(? & _)]].
      - assert (j = 0) as -> by lia.
        rewrite !(table_col0 listA listB) by lia. apply gap_step. }
    eapply num_eqv_trans; [exact Hs|].
    apply nadd_eqv; [by apply num_eqv_sym|apply num_eqv_refl].
  - change (row_score (row_insert (Some y))) with SCORE_GAP.
    apply num_eqv_sym.
    assert (num_eqv (table_at listA listB i j)
              (nadd (table_at listA listB i (j - 1)) SCORE_GAP)) as Hs.
    { destruct Hr as [Hd|[Hd Hi0]].
      - destruct Hfair as [(d & Hd' & Hs)|[Hd' _]]; [|congruence].
        rewrite Hd in Hd'. injection Hd' as <-.
        by destruct Hs as [(? & _)|[(? & _)|(_ & _ & Hs)]].
      - assert (i = 0) as -> by lia.
        rewrite !(table_row0 listA listB) by lia. apply gap_step. }
    eapply num_eqv_trans; [exact Hs|].
    apply nadd_eqv; [by apply num_eqv_sym|apply num_eqv_refl].
Qed.

End FullBandFill.

Lemma full_dp_optimum_table listA listB :
  full_dp_optimum listA listB =
  table_at listA listB (Z.of_nat (length listA)) (Z.of_nat (length listB)).
Proof. unfold full_dp_optimum, table_at. by rewrite !Nat2Z.id. Qed.

(** C5: for two event sequences of at most 50 events each, the score the
    banded table holds at [(n, m)], and the score of the diff sequence
    [alignTraces] returns, both equal the optimum of the full, unbanded
    dynamic program over the same sequences and scores. *)
Theorem banded_score_is_full_optimum (traceA traceB : ParsedTrace) :
  (length (lines traceA) <= 50)%nat ->
  (length (lines traceB) <= 50)%nat ->
  ∃ st rows,
    dp_fill (lines traceA) (lines traceB) = Ok st ∧
    alignTraces traceA traceB = Ok rows ∧
    num_eqv
      (getScore (Z.of_nat (length (lines traceA)))
                (Z.of_nat (length (lines traceB))) (scores st))
      (full_dp_optimum (lines traceA) (lines traceB)) ∧
    num_eqv (rows_score rows) (full_dp_optimum (lines traceA) (lines traceB)).
Proof.
  intros HA HB.
  destruct (dp_fill_full (lines traceA) (lines traceB)) as (st & Hfill & Hscore & Hfair);
    [lia|].
  destruct (align_lines_path (lines traceA) (lines traceB))
    as (st' & rows & Hfill' & Hall & Hpath).
  rewrite Hfill in Hfill'. injection Hfill' as <-.
  exists st, rows. split; [done|]. split; [by apply Hall|].
  rewrite full_dp_optimum_table. split; [done|].
  eapply tb_path_score; [done|done|lia..].
Qed.

Lemma banded_score_is_full_optimum_witness :
  (length (lines example_trace_a) <= 50)%nat ∧
  (length (lines example_trace_b) <= 50)%nat ∧
  ∃ st rows,
    dp_fill (lines example_trace_a) (lines example_trace_b) = Ok st ∧
    alignTraces example_trace_a example_trace_b = Ok rows ∧
    num_eqv
      (getScore (Z.of_nat (length (lines example_trace_a)))
                (Z.of_nat (length (lines example_trace_b))) (scores st))
      (full_dp_optimum (lines example_trace_a) (lines example_trace_b)) ∧
    num_eqv (rows_score rows)
      (full_dp_optimum (lines example_trace_a) (lines example_trace_b)).
Proof.
  assert (HA : (length (lines example_trace_a) <= 50)%nat) by (vm_compute; lia).
  assert (HB : (length (lines example_trace_b) <= 50)%nat) by (vm_compute; lia).
  split; [exact HA|]. split; [exact HB|].
  exact (banded_score_is_full_optimum example_trace_a example_trace_b HA HB).
Defined.

(** * Further properties of the scoring helpers *)

Lemma calculateScore_cases x y :
  ∃ q, calculateScore x y = Fin q ∧
    (if str_eqb (syscall x) (syscall y) then (10 <= q <= 15)%Q
     else if similar_names x y then (6 <= q <= 17 # 2)%Q
     else (q == -10)%Q).
Proof.
  unfold calculateScore, similar_names.
  destruct (getArgSimilarity_unit (args x) (args y)) as (s & -> & Hs).
  unfold SCORE_MATCH, SCORE_APPROX, SCORE_MISMATCH, MAX_ARG_BONUS, of_Z.
  change (ndiv (Fin (inject_Z 5)) (Fin (inject_Z 2))) with (Fin (inject_Z 5 / inject_Z 2)).
  change (inject_Z 5 / inject_Z 2)%Q with (5 # 2)%Q.
  change (inject_Z 10) with 10%Q. change (inject_Z 5) with 5%Q.
  change (inject_Z 6) with 6%Q. change (inject_Z 2) with 2%Q.
  change (inject_Z (-10)) with (-10)%Q.
  destruct (str_eqb (syscall x) (syscall y)).
  - cbn [nadd nmul]. eexists. split; [done|]. lra.
  - cbn [orb]. destruct (_ || _).
    + cbn [nadd nmul]. eexists. split; [done|]. lra.
    + eexists. split; [done|]. lra.
Qed.

Lemma calculateScore_positive x y :
  ngtb (calculateScore x y) (of_Z 0) = similar_names x y.
Proof.
  destruct (calculateScore_cases x y) as (q & E & H). rewrite E.
  unfold similar_names in *. unfold ngtb, nltb, of_Z.
  destruct (str_eqb (syscall x) (syscall y)); cbn [orb] in *.
  - apply negb_true_iff. destruct (Qle_bool q (inject_Z 0)) eqn:E1; [|done].
    apply Qle_bool_iff in E1. change (inject_Z 0) with 0%Q in E1. lra.
  - destruct (_ || _).
    + apply negb_true_iff. destruct (Qle_bool q (inject_Z 0)) eqn:E1; [|done].
      apply Qle_bool_iff in E1. change (inject_Z 0) with 0%Q in E1. lra.
    + apply negb_false_iff. apply Qle_bool_iff. change (inject_Z 0) with 0%Q. lra.
Qed.

(** X1: the pairwise score is a number in one of three bands: 10 to
    15 for equal call names, 6 to 8.5 for names that are similar (edit
    distance at most 3, or one contains the other), and exactly -10
    otherwise; it is positive exactly for equal or similar names. *)
Theorem calculateScore_bands (x y : TraceLine) :
  (∃ q, calculateScore x y = Fin q ∧
     (if str_eqb (syscall x) (syscall y) then (10 <= q <= 15)%Q
      else if similar_names x y then (6 <= q <= 17 # 2)%Q
      else (q == -10)%Q)) ∧
  ngtb (calculateScore x y) (of_Z 0) = similar_names x y.
Proof. split; [apply calculateScore_cases|apply calculateScore_positive]. Qed.

Lemma lev_tab_bounds a b : ∀ i j,
  Z.abs (Z.of_nat i - Z.of_nat j) <= lev_tab a b i j <= Z.max (Z.of_nat i) (Z.of_nat j).
Proof.
  induction i as [|i IHi]; intros j.
  - rewrite lev_tab_0_l. lia.
  - induction j as [|j IHj].
    + rewrite lev_tab_0_r. lia.
    + rewrite lev_tab_S. specialize (IHi j) as H1. specialize (IHi (S j)) as H2.
      case_bool_decide; lia.
Qed.

(** X2: the distance returned is never below the difference of the
    two lengths; for two strings of at most 40 units it is at most the
    longer length; and for two different strings of which one is longer than
    40 units it is above 3, so that such names never pass the closeness
    test of the score. *)
Theorem levenshtein_bounds (a b : jsstring) :
  Z.abs (Z.of_nat (length a) - Z.of_nat (length b)) <= levenshtein a b ∧
  ((length a <= 40)%nat -> (length b <= 40)%nat ->
   levenshtein a b <= Z.max (Z.of_nat (length a)) (Z.of_nat (length b))) ∧
  (a ≠ b -> ((40 < length a)%nat ∨ (40 < length b)%nat) -> 3 < levenshtein a b).
Proof.
  assert (a ≠ b -> a ≠ [] -> b ≠ [] ->
          ((40 < length a)%nat ∨ (40 < length b)%nat) ->
          levenshtein a b = Z.abs (Z.of_nat (length a) - Z.of_nat (length b)) + 5) as Hlong.
  { intros Hab Ha Hb Hl. unfold levenshtein, str_eqb.
    rewrite bool_decide_false by done.
    destruct (Nat.eqb_spec (length a) 0) as [E|_]; [by destruct a|].
    destruct (Nat.eqb_spec (length b) 0) as [E|_]; [by destruct b|].
    replace ((40 <? length a)%nat || (40 <? length b)%nat) with true; [done|].
    symmetry. apply orb_true_iff.
    destruct Hl as [H|H]; [left|right]; by apply Nat.ltb_lt. }
  assert (a = [] -> levenshtein a b = Z.of_nat (length b)) as Ha0.
  { intros ->. unfold levenshtein, str_eqb. case_bool_decide; [by subst|done]. }
  assert (b = [] -> levenshtein a b = Z.of_nat (length a)) as Hb0.
  { intros ->. unfold levenshtein, str_eqb. case_bool_decide; [by subst|].
    destruct a; done. }
  destruct (decide (a = b)) as [->|Hab].
  { rewrite levenshtein_refl. split; [lia|]. split; [lia|done]. }
  destruct (decide (a = [])) as [Ea|Ea].
  { rewrite Ha0 by done. subst a. cbn [length]. split; [lia|]. split; [lia|].
    intros _ [H|H]; [cbn in H; lia|lia]. }
  destruct (decide (b = [])) as [Eb|Eb].
  { rewrite Hb0 by done. subst b. cbn [length]. split; [lia|]. split; [lia|].
    intros _ [H|H]; [lia|cbn in H; lia]. }
  destruct (decide ((40 < length a)%nat ∨ (40 < length b)%nat)) as [Hl|Hs].
  - rewrite Hlong by done. split; [lia|]. split; [lia|]. lia.
  - rewrite levenshtein_table by (done || lia).
    pose proof (lev_tab_bounds a b (length b) (length a)).
    split; [lia|]. split; [lia|]. intros _ H'. tauto.
Qed.

Lemma common_loop_sym a b idxs c : common_loop a b idxs c = common_loop b a idxs c.
Proof.
  revert c. induction idxs as [|i idxs IH]; intros c; cbn [common_loop]; [done|].
  rewrite IH. destruct (bool_decide_reflect (a !! i = b !! i)) as [E|E].
  - by rewrite bool_decide_true.
  - rewrite bool_decide_false; [done|congruence].
Qed.

Lemma str_eqb_sym x y : str_eqb x y = str_eqb y x.
Proof.
  unfold str_eqb. destruct (bool_decide_reflect (x = y)) as [E|E].
  - by rewrite bool_decide_true.
  - rewrite bool_decide_false; [done|congruence].
Qed.

(** X3: the argument similarity is symmetric when one of the two
    texts has no quoted path, and not in general: the fuzzy file-name
    branch tests the length of the first file name only. *)
Theorem getArgSimilarity_symmetry :
  (∀ a b, match_anywhere pathRegex a = None ∨ match_anywhere pathRegex b = None ->
          getArgSimilarity a b = getArgSimilarity b a) ∧
  (∃ a b, getArgSimilarity a b = Fin (2 # 10) ∧ getArgSimilarity b a = Fin (7 # 10)).
Proof.
  split.
  - intros a b H. unfold getArgSimilarity.
    rewrite (str_eqb_sym b a), (orb_comm (bool_decide (b = []))).
    rewrite (Nat.min_comm (length b)), (Nat.max_comm (length b)).
    rewrite (common_loop_sym b a).
    destruct H as [-> | ->]; destruct (match_anywhere pathRegex _); done.
  - exists ([34%N] ++ str "/x/abc" ++ [34%N]), ([34%N] ++ str "/x/abcd" ++ [34%N]).
    split; by vm_compute.
Qed.

(** X4: the argument similarity is a number between 0 and 1; it is 1
    on identical texts and 0 when exactly one of two different texts is
    empty. *)
Theorem getArgSimilarity_range (a b : jsstring) :
  (∃ q, getArgSimilarity a b = Fin q ∧ (0 <= q <= 1)%Q) ∧
  getArgSimilarity a a = Fin 1 ∧
  (a ≠ b -> a = [] ∨ b = [] -> getArgSimilarity a b = Fin 0).
Proof.
  split; [apply getArgSimilarity_unit|]. split; [apply getArgSimilarity_same|].
  intros Hne H. unfold getArgSimilarity, str_eqb. rewrite bool_decide_false by done.
  destruct H as [-> | ->]; [done|]. by rewrite orb_true_r.
Qed.

(** * Further properties of the aligner *)

Lemma tb_path_built listA listB dirs i j rows :
  tb_path listA listB dirs i j rows -> Forall row_as_built rows.
Proof.
  induction 1 as [|i j i' j' r rows Hm Hp IH]; [done|].
  apply Forall_app. split; [done|]. apply Forall_singleton.
  destruct Hm as [x y r H1 H2 Hx Hy Hr|x H1 Hx _|y H1 Hy _].
  - destruct Hr as [[_ ->]|[_ ->]].
    + destruct (ngtb _ _) eqn:E.
      * exists x, y. split; [done|]. by rewrite <- calculateScore_positive.
      * by exists x, y.
    + by exists x, y.
  - by exists x.
  - by exists y.
Qed.

Lemma rows_count_sides rows :
  Forall row_wf rows ->
  length (a_side rows) = (count_rows is_pair_row rows + count_rows is_delete_row rows)%nat ∧
  length (b_side rows) = (count_rows is_pair_row rows + count_rows is_insert_row rows)%nat ∧
  length rows = (count_rows is_pair_row rows + count_rows is_delete_row rows
                 + count_rows is_insert_row rows)%nat.
Proof.
  unfold count_rows, a_side, b_side.
  induction 1 as [|r rows Hr Hrs IH]; [done|].
  destruct IH as (Ha & Hb & Hl).
  unfold row_wf in Hr. cbn [omap list_omap List.filter].
  unfold a_event, b_event, is_pair_row, is_delete_row, is_insert_row in *.
  destruct (type r).
  - destruct Hr as ([x Hx] & [y Hy] & _). rewrite Hx, Hy. cbn [length]. lia.
  - destruct Hr as ([x Hx] & [y Hy]). rewrite Hx, Hy. cbn [length]. lia.
  - destruct Hr as (Hx & [y Hy]). rewrite Hy. cbn [length]. lia.
  - destruct Hr as ([x Hx] & Hy). rewrite Hx. cbn [length]. lia.
  - done.
Qed.

Lemma align_rows_facts (traceA traceB : ParsedTrace) :
  ∃ rows,
    alignTraces traceA traceB = Ok rows ∧
    Forall row_wf rows ∧ Forall row_as_built rows ∧
    a_side rows = lines traceA ∧
    b_side rows = lines traceB.
Proof.
  destruct (align_lines_path (lines traceA) (lines traceB))
    as (st & rows & _ & Hall & Hpath).
  destruct (tb_path_sides _ _ _ _ _ _ Hpath) as (Ha & Hb & Hwf); [lia..|].
  exists rows. split; [by apply Hall|]. split; [done|].
  split; [by eapply tb_path_built|].
  rewrite Nat2Z.id, firstn_all in Ha, Hb. done.
Qed.

(** X5: the pair rows (match and mismatch) and the delete rows
    together number the events of A, the pair rows and the insert rows
    those of B; so the diff sequence has between [max n m] and [n + m]
    rows. *)
Theorem align_rows_count (traceA traceB : ParsedTrace) :
  ∃ rows,
    alignTraces traceA traceB = Ok rows ∧
    length (lines traceA) =
      (count_rows is_pair_row rows + count_rows is_delete_row rows)%nat ∧
    length (lines traceB) =
      (count_rows is_pair_row rows + count_rows is_insert_row rows)%nat ∧
    length rows =
      (count_rows is_pair_row rows + count_rows is_delete_row rows
       + count_rows is_insert_row rows)%nat ∧
    (Nat.max (length (lines traceA)) (length (lines traceB)) <= length rows
     <= length (lines traceA) + length (lines traceB))%nat.
Proof.
  destruct (align_rows_facts traceA traceB) as (rows & Hal & Hwf & _ & Ha & Hb).
  destruct (rows_count_sides rows Hwf) as (H1 & H2 & H3).
  rewrite Ha in H1. rewrite Hb in H2.
  exists rows. split; [done|]. split; [done|]. split; [done|]. split; [done|]. lia.
Qed.

(** X6: every match row pairs an event of A with an event of B whose
    call names are equal or similar, and carries the two deltas, A minus B,
    of duration and idle gap; no other row carries a delta, and no row is a
    gap row. *)
Theorem align_rows_as_built (traceA traceB : ParsedTrace) :
  ∃ rows,
    alignTraces traceA traceB = Ok rows ∧
    Forall row_as_built rows ∧
    (∀ r, r ∈ rows -> type r = TMatch ->
       ∃ x y, a r = Some x ∧ b r = Some y ∧
              x ∈ lines traceA ∧ y ∈ lines traceB ∧
              similar_names x y = true ∧
              timeDiff r = Some (nsub (duration x) (duration y)) ∧
              userDiffDelta r = Some (nsub (userDiff x) (userDiff y))) ∧
    (∀ r, r ∈ rows -> type r ≠ TMatch ->
       timeDiff r = None ∧ userDiffDelta r = None).
Proof.
  destruct (align_rows_facts traceA traceB) as (rows & Hal & Hwf & Hb & Has & Hbs).
  exists rows. split; [done|]. split; [done|]. split.
  - intros r Hr Ht. rewrite Forall_forall in Hb. specialize (Hb r Hr).
    unfold row_as_built in Hb. rewrite Ht in Hb.
    destruct Hb as (x & y & -> & Hs). exists x, y. cbn.
    split; [done|]. split; [done|]. split; [|split; [|done]].
    + rewrite <- Has. unfold a_side. apply list_elem_of_omap.
      exists (row_match x y). done.
    + rewrite <- Hbs. unfold b_side. apply list_elem_of_omap.
      exists (row_match x y). done.
  - intros r Hr Ht. rewrite Forall_forall in Hb. specialize (Hb r Hr).
    unfold row_as_built in Hb. destruct (type r) eqn:E; try done.
    + destruct Hb as (x & y & -> ). done.
    + destruct Hb as (y & -> ). done.
    + destruct Hb as (x & -> ). done.
Qed.

Lemma rows_all_insert rows :
  Forall row_as_built rows -> a_side rows = [] ->
  rows = map (λ y, row_insert (Some y)) (b_side rows).
Proof.
  unfold a_side, b_side. induction 1 as [|r rows Hr Hrs IH]; [done|].
  cbn [omap list_omap]. unfold row_as_built in Hr. unfold a_event at 1, b_event at 1.
  destruct (type r) eqn:E.
  - destruct Hr as (x & y & -> & _). done.
  - destruct Hr as (x & y & ->). done.
  - destruct Hr as (y & ->). cbn. intros H. by rewrite <- IH.
  - destruct Hr as (x & ->). done.
  - done.
Qed.

Lemma rows_all_delete rows :
  Forall row_as_built rows -> b_side rows = [] ->
  rows = map (λ x, row_delete (Some x)) (a_side rows).
Proof.
  unfold a_side, b_side. induction 1 as [|r rows Hr Hrs IH]; [done|].
  cbn [omap list_omap]. unfold row_as_built in Hr. unfold a_event at 1, b_event at 1.
  destruct (type r) eqn:E.
  - destruct Hr as (x & y & -> & _). done.
  - destruct Hr as (x & y & ->). done.
  - destruct Hr as (y & ->). done.
  - destruct Hr as (x & ->). cbn. intros H. by rewrite <- IH.
  - done.
Qed.

(** X7: against a trace without events the diff sequence is one
    insert row per event of B, respectively one delete row per event of A,
    in order. *)
Theorem align_with_empty_trace (traceA traceB : ParsedTrace) :
  (lines traceA = [] ->
   alignTraces traceA traceB = Ok (map (λ y, row_insert (Some y)) (lines traceB))) ∧
  (lines traceB = [] ->
   alignTraces traceA traceB = Ok (map (λ x, row_delete (Some x)) (lines traceA))).
Proof.
  destruct (align_rows_facts traceA traceB) as (rows & Hal & Hwf & Hb & Has & Hbs).
  split; intros E.
  - rewrite Hal. f_equal. rewrite <- Hbs. apply rows_all_insert; [done|]. by rewrite Has.
  - rewrite Hal. f_equal. rewrite <- Has. apply rows_all_delete; [done|]. by rewrite Hbs.
Qed.

(** * Further properties of the parsers *)

Lemma perf_step_pids st i rawLine :
  perf_recognized rawLine = true ->
  ∃ e z, p_lines (perf_step st (i, rawLine)) = p_lines st ++ [e] ∧
         p_uniquePids (perf_step st (i, rawLine)) = set_add (pid e) (p_uniquePids st) ∧
         line_id e = i ∧ raw e = rawLine ∧ pid e = Some z ∧ 0 <= z.
Proof.
  unfold perf_recognized, perf_step. intros H.
  destruct (trim rawLine) as [|c t] eqn:E; [by vm_compute in H|].
  destruct (match_at_start perfRegex (c :: t)) as [m|] eqn:Em; [|done].
  apply perfRegex_shape in Em
    as (d1 & d2 & dur & proc & pd & name & ar & res & -> & N1 & H1 & H2 & Hd & Np & Hp).
  destruct (parseInt_digits pd Np Hp) as [Hpi Hz].
  eexists _, (digits_val pd). cbn [p_lines p_uniquePids line_id raw pid].
  split; [reflexivity|]. split; [reflexivity|]. split; [done|]. split; [done|].
  split; [|done]. exact Hpi.
Qed.

Lemma perf_run_pids content :
  let st := perf_run content in
  NoDup (p_uniquePids st) ∧
  (∀ p, p ∈ p_uniquePids st ↔ ∃ e, e ∈ p_lines st ∧ pid e = p) ∧
  Forall (λ e, ∃ z, pid e = Some z ∧ 0 <= z) (p_lines st).
Proof.
  unfold perf_run, indexed_lines.
  apply (lines_loop_ind perf_step (λ _ st,
    NoDup (p_uniquePids st) ∧
    (∀ p, p ∈ p_uniquePids st ↔ ∃ e, e ∈ p_lines st ∧ pid e = p) ∧
    Forall (λ e, ∃ z, pid e = Some z ∧ 0 <= z) (p_lines st))).
  - split; [constructor|]. split; [|constructor].
    intros p. split; [by intros H; inversion H|]. intros (e & He & _). inversion He.
  - intros k st raw _ (Hnd & Hiff & Hz).
    destruct (perf_recognized raw) eqn:E.
    + destruct (perf_step_pids st k raw E) as (e & z & -> & -> & _ & _ & Hp & Hz').
      split; [by apply set_add_NoDup|]. split.
      * intros p. rewrite set_add_elem, Hiff. split.
        -- intros [->|(e' & He' & <-)].
           ++ exists e. split; [|done]. apply elem_of_app. right. by left.
           ++ exists e'. split; [|done]. apply elem_of_app. by left.
        -- intros (e' & He' & <-). apply elem_of_app in He' as [He'|He'].
           ++ right. by exists e'.
           ++ apply list_elem_of_singleton in He' as ->. by left.
      * apply Forall_app. split; [done|]. apply Forall_singleton. by exists z.
    + by rewrite perf_step_unrecognized.
Qed.

Lemma pid_number_nonneg z : 0 <= z -> nonneg (num_of_int (Some z)).
Proof.
  intros H. unfold nonneg. cbn [num_of_int of_Z nleb]. apply Qle_bool_iff.
  change 0%Q with (inject_Z 0). by rewrite <- Zle_Qle.
Qed.

(** X8: the process-id list of the variant-B parser is strictly increasing
    and holds exactly the process ids that the events carry; each is a
    number that is not negative (so never [NaN]). *)
Theorem parsePerfTrace_pids_are_event_pids (content filename : jsstring) :
  StronglySorted pid_lt (pids (parsePerfTrace content filename)) ∧
  NoDup (pids (parsePerfTrace content filename)) ∧
  (∀ p, p ∈ pids (parsePerfTrace content filename) ↔
        ∃ e, e ∈ lines (parsePerfTrace content filename) ∧ pid e = p) ∧
  (∀ p, p ∈ pids (parsePerfTrace content filename) -> nonneg (num_of_int p)).
Proof.
  destruct (perf_run_pids content) as (Hnd & Hiff & Hz).
  assert (∀ p, p ∈ p_uniquePids (perf_run content) -> ∃ z, p = Some z ∧ 0 <= z) as Hsome.
  { intros p Hp. apply Hiff in Hp as (e & He & <-).
    rewrite Forall_forall in Hz. by apply Hz. }
  destruct (sort_pids_strict _ Hnd) as [Hsorted Hnd'].
  { intros p Hp. destruct (Hsome p Hp) as (z & -> & _). by exists z. }
  cbn [parsePerfTrace pids lines].
  split; [done|]. split; [done|]. split.
  - intros p. rewrite sort_by_perm. apply Hiff.
  - intros p. rewrite sort_by_perm. intros Hp.
    destruct (Hsome p Hp) as (z & -> & Hz0). by apply pid_number_nonneg.
Qed.

(** What one round of the callback of [parseStrace] adds to the events
    and to the pending calls. *)
Lemma strace_step_event st i rawLine :
  s_lines (strace_step st (i, rawLine)) = s_lines st ∨
  ∃ e, s_lines (strace_step st (i, rawLine)) = s_lines st ++ [e] ∧
       line_id e = i ∧ pid e = line_pid rawLine ∧ trim rawLine ≠ [] ∧
       (raw e = rawLine ∨
        ∃ pd, s_pendingCalls st !! pid e = Some pd ∧
              raw e = rawStart pd ++ str " ... " ++ rawLine).
Proof.
  unfold strace_step, line_pid. destruct (trim rawLine) as [|c t] eqn:E; [by left|].
  destruct (split_pid (c :: t)) as [p rest]. cbn [fst].
  destruct (match_at_start timeRegex rest) as [tm|]; [|by left].
  unfold strace_body, complete_resumed. cbn [s_pendingCalls s_lines].
  destruct (match_at_start resumeRegex (group 2 tm)).
  { destruct (s_pendingCalls st !! p) as [pd|] eqn:Ep; [|by left].
    destruct (str_eqb _ _); [|by left].
    destruct (match_anywhere endRegex _); [|by left].
    right. eexists. cbn [s_lines line_id pid raw]. split; [reflexivity|].
    split; [done|]. split; [done|]. split; [done|]. right. by exists pd. }
  destruct (match_at_start unfinishedRegex (group 2 tm)); [by left|].
  destruct (match_at_start standardRegex (group 2 tm)); [|by left].
  right. eexists. cbn [s_lines line_id pid raw]. split; [reflexivity|].
  split; [done|]. split; [done|]. split; [done|]. by left.
Qed.

Lemma strace_step_pending st i rawLine p pd :
  s_pendingCalls (strace_step st (i, rawLine)) !! p = Some pd ->
  s_pendingCalls st !! p = Some pd ∨ rawStart pd = rawLine.
Proof.
  unfold strace_step. destruct (trim rawLine) as [|c t] eqn:E; [by left|].
  destruct (split_pid (c :: t)) as [p' rest].
  destruct (match_at_start timeRegex rest) as [tm|]; [|by left].
  unfold strace_body, complete_resumed. cbn [s_pendingCalls s_lines].
  destruct (match_at_start resumeRegex (group 2 tm)).
  { destruct (s_pendingCalls st !! p') as [pd'|] eqn:Ep; [|by left].
    destruct (str_eqb _ _); [|by left].
    destruct (match_anywhere endRegex _); [|by left].
    cbn [s_pendingCalls]. intros H. apply lookup_delete_Some in H as [_ H]. by left. }
  destruct (match_at_start unfinishedRegex (group 2 tm)).
  { cbn [s_pendingCalls]. intros H. apply lookup_insert_Some in H as [[_ <-]|[_ H]].
    - by right.
    - by left. }
  destruct (match_at_start standardRegex (group 2 tm)); by left.
Qed.

Lemma strace_run_sources content :
  let ls := split 10%N content in
  let st := strace_run content in
  Forall (from_line ls) (s_lines st) ∧
  StronglySorted lt (map line_id (s_lines st)) ∧
  Forall (λ e, pid e ∈ s_uniquePids st ∧ ∃ z, pid e = Some z ∧ 0 <= z) (s_lines st).
Proof.
  unfold strace_run, indexed_lines. set (ls := split 10%N content). cbv zeta.
  cut (let st := fold_left strace_step (imap (λ i l, (i, l)) ls) strace_init in
       (Forall (from_line ls) (s_lines st) ∧
        Forall (λ e, (line_id e < length ls)%nat) (s_lines st) ∧
        (∀ p pd, s_pendingCalls st !! p = Some pd ->
           ∃ k, (k < length ls)%nat ∧ ls !! k = Some (rawStart pd)) ∧
        StronglySorted lt (map line_id (s_lines st)) ∧
        Forall (λ e, pid e ∈ s_uniquePids st ∧ ∃ z, pid e = Some z ∧ 0 <= z)
          (s_lines st))).
  { cbv zeta. tauto. }
  apply (lines_loop_ind strace_step (λ K st,
    Forall (from_line ls) (s_lines st) ∧
    Forall (λ e, (line_id e < K)%nat) (s_lines st) ∧
    (∀ p pd, s_pendingCalls st !! p = Some pd ->
       ∃ k, (k < K)%nat ∧ ls !! k = Some (rawStart pd)) ∧
    StronglySorted lt (map line_id (s_lines st)) ∧
    Forall (λ e, pid e ∈ s_uniquePids st ∧ ∃ z, pid e = Some z ∧ 0 <= z)
      (s_lines st))).
  - split; [constructor|]. split; [constructor|]. split; [|split; constructor].
    intros p pd H. unfold strace_init in H. cbn [s_pendingCalls] in H.
    by rewrite lookup_empty in H.
  - intros K st rawLine HK (Hsrc & Hid & Hpend & Hsort & Hpid).
    assert (∀ p pd, s_pendingCalls (strace_step st (K, rawLine)) !! p = Some pd ->
              ∃ k, (k < S K)%nat ∧ ls !! k = Some (rawStart pd)) as Hpend'.
    { intros p pd H. apply strace_step_pending in H as [H| ->].
      - destruct (Hpend p pd H) as (k & Hk & Hl). exists k. split; [lia|done].
      - exists K. split; [lia|done]. }
    assert (∀ p, p ∈ s_uniquePids st -> p ∈ s_uniquePids (strace_step st (K, rawLine)))
      as Hmono.
    { intros p Hp. rewrite strace_step_pids. destruct (trim rawLine); [done|].
      apply set_add_elem. by right. }
    destruct (strace_step_event st K rawLine) as [->|(e & -> & He & Hp & Hne & Hraw)].
    + split; [done|]. split; [|split; [done|split; [done|]]].
      * eapply Forall_impl; [exact Hid|]. cbn. lia.
      * eapply Forall_impl; [exact Hpid|]. cbn. intros e [H1 H2]. split; [by apply Hmono|done].
    + split; [|split; [|split; [done|split]]].
      * apply Forall_app. split; [done|]. apply Forall_singleton.
        exists rawLine. rewrite He. split; [done|].
        destruct Hraw as [->|(pd & Hpd & ->)]; [by left|right].
        destruct (Hpend _ _ Hpd) as (k & Hk & Hl). by exists k, (rawStart pd).
      * apply Forall_app. split.
        -- eapply Forall_impl; [exact Hid|]. cbn. lia.
        -- apply Forall_singleton. lia.
      * rewrite map_app. apply StronglySorted_app. split; [|split; [done|]].
        -- intros x y Hx Hy. cbn in Hy. apply list_elem_of_singleton in Hy as ->.
           apply list_elem_of_fmap in Hx as (e' & -> & He').
           rewrite Forall_forall in Hid. specialize (Hid _ He'). lia.
        -- cbn. apply StronglySorted_cons. split; constructor.
      * apply Forall_app. split.
        -- eapply Forall_impl; [exact Hpid|]. cbn. intros e' [H1 H2].
           split; [by apply Hmono|done].
        -- apply Forall_singleton. rewrite Hp, strace_step_pids. split.
           ++ destruct (trim rawLine); [done|]. apply set_add_elem. by left.
           ++ apply split_pid_some.
Qed.

Lemma perf_run_sources content :
  Forall (λ e, split 10%N content !! line_id e = Some (raw e))
         (p_lines (perf_run content)).
Proof.
  unfold perf_run, indexed_lines. set (ls := split 10%N content).
  apply (lines_loop_ind perf_step (λ _ st,
    Forall (λ e, ls !! line_id e = Some (raw e)) (p_lines st))).
  - constructor.
  - intros K st rawLine HK IH.
    destruct (perf_recognized rawLine) eqn:E.
    + destruct (perf_step_pids st K rawLine E) as (e & z & -> & _ & He & Hr & _).
      apply Forall_app. split; [done|]. apply Forall_singleton. by rewrite He, Hr.
    + by rewrite perf_step_unrecognized.
Qed.

(** X9: every event points back at its input line: its [id] is the index
    of a line of the input and its [raw] text is that line, untrimmed, or,
    for a resumed call of variant A, an earlier line, the separator and
    that line.  No two events share an [id]. *)
Theorem event_source_lines (content filename : jsstring) (mode : TraceMode) :
  Forall (from_line (split 10%N content)) (lines (parseTrace content filename mode)) ∧
  NoDup (map line_id (lines (parseTrace content filename mode))) ∧
  Forall (λ e, split 10%N content !! line_id e = Some (raw e))
         (lines (parsePerfTrace content filename)).
Proof.
  pose proof (perf_run_sources content) as Hp.
  destruct (strace_run_sources content) as (Hs & Hsort & _).
  destruct (perf_run_inv content) as [_ Hpsort].
  assert (∀ l : list nat, StronglySorted lt l -> NoDup l) as Hnd.
  { induction 1 as [|x l Hl IH Hx]; constructor; [|done].
    intros Hin. rewrite Forall_forall in Hx. specialize (Hx _ Hin). lia. }
  split; [|split; [|done]].
  - destruct mode; cbn [parseTrace parseStrace parsePerfTrace lines].
    + by rewrite sort_by_perm.
    + eapply Forall_impl; [exact Hp|]. intros e He. exists (raw e). split; [done|by left].
  - destruct mode; cbn [parseTrace parseStrace parsePerfTrace lines].
    + rewrite sort_by_perm. by apply Hnd.
    + by apply Hnd.
Qed.

(** X10: every event carries a process id that is listed in [pids] and is
    a number that is not negative (so never [NaN]). *)
Theorem parsed_event_pids_listed (content filename : jsstring) (mode : TraceMode) :
  Forall (λ e, pid e ∈ pids (parseTrace content filename mode) ∧
               nonneg (num_of_int (pid e)))
         (lines (parseTrace content filename mode)).
Proof.
  destruct mode; cbn [parseTrace parseStrace parsePerfTrace lines pids].
  - destruct (strace_run_sources content) as (_ & _ & H).
    apply Forall_forall. intros e He. rewrite sort_by_perm in He.
    rewrite Forall_forall in H. destruct (H e He) as [H1 (z & Ez & Hz)].
    split; [by rewrite sort_by_perm|]. rewrite Ez. by apply pid_number_nonneg.
  - destruct (perf_run_pids content) as (_ & Hiff & Hz).
    apply Forall_forall. intros e He. split.
    + rewrite sort_by_perm. apply Hiff. by exists e.
    + rewrite Forall_forall in Hz. destruct (Hz e He) as (z & Ez & Hz0).
      rewrite Ez. by apply pid_number_nonneg.
Qed.

(** * The statistics of a parse *)

Lemma perf_count_step_event c i rawLine st :
  perf_count_step c (i, rawLine) =
  match drop (length (p_lines st)) (p_lines (perf_step st (i, rawLine))) with
  | [] => c
  | e :: _ => count_call c (syscall e) (duration e)
  end.
Proof.
  unfold perf_count_step, perf_step. destruct (trim rawLine) as [|ch t].
  { by rewrite drop_all. }
  destruct (match_at_start perfRegex (ch :: t)) as [m|].
  - cbn [p_lines]. rewrite drop_app_length. done.
  - by rewrite drop_all.
Qed.

Lemma counts_of_snoc ls e :
  counts_of (ls ++ [e]) = count_call (counts_of ls) (syscall e) (duration e).
Proof. unfold counts_of. by rewrite fold_left_app. Qed.

Lemma perf_counts_events content :
  perf_counts content = counts_of (p_lines (perf_run content)).
Proof.
  unfold perf_counts, perf_run, indexed_lines.
  generalize (split 10%N content). intros ls.
  induction ls as [|x ls IH] using rev_ind; [done|].
  rewrite indexed_lines_snoc, !fold_left_app. cbn [fold_left].
  rewrite IH.
  set (st := fold_left perf_step (imap (λ i l, (i, l)) ls) perf_init).
  rewrite (perf_count_step_event _ _ _ st).
  destruct (perf_recognized x) eqn:E.
  - destruct (perf_step_pids st (length ls) x E) as (e & z & -> & _).
    rewrite drop_app_length. by rewrite counts_of_snoc.
  - rewrite perf_step_unrecognized by done. by rewrite drop_all.
Qed.

Lemma strace_count_step_event c i rawLine st :
  strace_count_step st c (i, rawLine) =
  match drop (length (s_lines st)) (s_lines (strace_step st (i, rawLine))) with
  | [] => c
  | e :: _ => count_call c (syscall e) (duration e)
  end.
Proof.
  unfold strace_count_step, strace_step. destruct (trim rawLine) as [|ch t].
  { by rewrite drop_all. }
  destruct (split_pid (ch :: t)) as [p rest].
  destruct (match_at_start timeRegex rest) as [tm|]; [|by rewrite drop_all].
  unfold strace_body, complete_resumed. cbn [s_pendingCalls s_lines].
  destruct (match_at_start resumeRegex (group 2 tm)).
  { destruct (s_pendingCalls st !! p) as [pd|]; [|by rewrite drop_all].
    destruct (str_eqb _ _); [|by rewrite drop_all].
    destruct (match_anywhere endRegex _); [|by rewrite drop_all].
    cbn [s_lines]. by rewrite drop_app_length. }
  destruct (match_at_start unfinishedRegex (group 2 tm)); [by rewrite drop_all|].
  destruct (match_at_start standardRegex (group 2 tm)); [|by rewrite drop_all].
  cbn [s_lines]. by rewrite drop_app_length.
Qed.

Lemma strace_run_counts_events content :
  strace_run_counts content =
  (strace_run content, counts_of (s_lines (strace_run content))).
Proof.
  unfold strace_run_counts, strace_run, indexed_lines.
  generalize (split 10%N content). intros ls.
  induction ls as [|x ls IH] using rev_ind; [done|].
  rewrite indexed_lines_snoc, !fold_left_app. cbn [fold_left].
  rewrite IH. cbn [fst snd].
  set (st := fold_left strace_step (imap (λ i l, (i, l)) ls) strace_init).
  f_equal. rewrite (strace_count_step_event _ _ _ st).
  destruct (strace_step_event st (length ls) x) as [->|(e & -> & _)].
  - by rewrite drop_all.
  - rewrite drop_app_length. by rewrite counts_of_snoc.
Qed.

Lemma events_named_snoc name ls e :
  events_named name (ls ++ [e]) =
  events_named name ls ++ (if decide (syscall e = name) then [e] else []).
Proof.
  unfold events_named. rewrite filter_app. f_equal.
Qed.

Lemma sum_of_snoc f ls e : sum_of f (ls ++ [e]) = nadd (sum_of f ls) (f e).
Proof. unfold sum_of. by rewrite fold_left_app. Qed.

Lemma counts_of_info ls name : c_info (counts_of ls) !! name = info_of name ls.
Proof.
  induction ls as [|e ls IH] using rev_ind.
  { unfold info_of. cbn. rewrite lookup_empty. by case_bool_decide. }
  rewrite counts_of_snoc. unfold count_call.
  unfold info_of in *. rewrite events_named_snoc.
  destruct (decide (syscall e = name)) as [<-|Hne].
  - rewrite IH. destruct (bool_decide (syscall e ∈ proto_keys)) eqn:Hp.
    + cbn iota. by rewrite IH.
    + destruct (events_named (syscall e) ls) as [|e0 evs] eqn:Eev.
      * cbn [c_info]. rewrite lookup_insert_eq. done.
      * cbn [c_info]. rewrite lookup_insert_eq. cbn [app count totalDuration].
        f_equal. f_equal.
        -- cbn [length]. rewrite length_app. cbn [length]. lia.
        -- by rewrite app_comm_cons, sum_of_snoc.
  - rewrite app_nil_r.
    destruct (c_info (counts_of ls) !! syscall e) as [info|].
    + cbn [c_info]. by rewrite lookup_insert_ne.
    + destruct (bool_decide (syscall e ∈ proto_keys)); [done|].
      cbn [c_info]. by rewrite lookup_insert_ne.
Qed.

Lemma count_call_wf c name d : counts_wf c -> counts_wf (count_call c name d).
Proof.
  intros [Hnd Hiff]. unfold count_call.
  destruct (c_info c !! name) as [info|] eqn:E.
  - split; [done|]. cbn [c_info c_order]. intros k. rewrite Hiff.
    destruct (decide (k = name)) as [->|Hne].
    + rewrite lookup_insert_eq, E. split; eauto.
    + by rewrite lookup_insert_ne.
  - case_bool_decide; [done|]. unfold counts_wf. cbn [c_info c_order]. split.
    + apply NoDup_app. split; [done|]. split; [|apply NoDup_singleton].
      intros k Hk Hk'. apply list_elem_of_singleton in Hk' as ->.
      apply Hiff in Hk. rewrite E in Hk. by destruct Hk.
    + intros k. rewrite elem_of_app, list_elem_of_singleton, Hiff.
      destruct (decide (k = name)) as [->|Hne].
      * rewrite lookup_insert_eq. split; eauto.
      * rewrite lookup_insert_ne by done. split; [intros [?|?]; done|by left].
Qed.

Lemma counts_of_wf ls : counts_wf (counts_of ls).
Proof.
  induction ls as [|e ls IH] using rev_ind.
  - split; [constructor|]. intros k. cbn. rewrite lookup_empty. split.
    + intros H. inversion H.
    + intros [x H]. done.
  - rewrite counts_of_snoc. by apply count_call_wf.
Qed.

Lemma parse_counts content filename mode :
  ∃ pushed,
    syscallCounts (parseTrace_stats content mode) = counts_of pushed ∧
    pushed ≡ₚ lines (parseTrace content filename mode).
Proof.
  destruct mode; cbn [parseTrace_stats parseTrace parseStrace parsePerfTrace lines].
  - exists (s_lines (strace_run content)). split.
    + unfold parseStrace_stats, make_stats, strace_counts. cbn [syscallCounts].
      by rewrite strace_run_counts_events.
    + by rewrite sort_by_perm.
  - exists (p_lines (perf_run content)). split; [|done].
    unfold parsePerfTrace_stats, make_stats. cbn [syscallCounts].
    apply perf_counts_events.
Qed.

Lemma pushed_counts content mode :
  syscallCounts (parseTrace_stats content mode) = counts_of (pushed_events content mode).
Proof.
  destruct mode; cbn [parseTrace_stats pushed_events].
  - unfold parseStrace_stats, make_stats, strace_counts. cbn [syscallCounts].
    by rewrite strace_run_counts_events.
  - unfold parsePerfTrace_stats, make_stats. cbn [syscallCounts].
    apply perf_counts_events.
Qed.

Lemma pushed_perm content filename mode :
  pushed_events content mode ≡ₚ lines (parseTrace content filename mode).
Proof.
  destruct mode; cbn [parseTrace parseStrace parsePerfTrace lines pushed_events].
  - by rewrite sort_by_perm.
  - done.
Qed.

Lemma pushed_in_id_order content mode :
  StronglySorted lt (map line_id (pushed_events content mode)).
Proof.
  destruct mode; cbn [pushed_events].
  - by destruct (strace_run_sources content) as (_ & H & _).
  - by destruct (perf_run_inv content) as [_ H].
Qed.

Lemma events_named_perm name l l' :
  l ≡ₚ l' -> events_named name l ≡ₚ events_named name l'.
Proof. intros H. unfold events_named. by rewrite H. Qed.

(** X11: the call counters hold one entry per call name that occurs among
    the events and is not a property name of [Object.prototype]: its
    [count] is the number of events of that name and its [totalDuration]
    the sum of their durations, added up in the order the events were
    pushed, which is the order of their ids (the final sort of variant A
    may reorder them afterwards).  A name that no event carries has no
    entry, and neither has a name of [Object.prototype]. *)
Theorem syscall_counts_match_events (content filename : jsstring) (mode : TraceMode)
    (name : jsstring) :
  pushed_events content mode ≡ₚ lines (parseTrace content filename mode) ∧
  StronglySorted lt (map line_id (pushed_events content mode)) ∧
  match c_info (syscallCounts (parseTrace_stats content mode)) !! name with
  | Some info =>
      (name ∉ proto_keys) ∧
      0 < count info ∧
      count info =
        Z.of_nat (length (events_named name (lines (parseTrace content filename mode)))) ∧
      totalDuration info =
        sum_of duration (events_named name (pushed_events content mode))
  | None =>
      name ∈ proto_keys ∨
      events_named name (lines (parseTrace content filename mode)) = []
  end.
Proof.
  pose proof (pushed_perm content filename mode) as Hperm.
  split; [done|]. split; [apply pushed_in_id_order|].
  rewrite pushed_counts, counts_of_info. unfold info_of.
  pose proof (events_named_perm name _ _ Hperm) as Hev.
  case_bool_decide as Hp; [by left|].
  destruct (events_named name (pushed_events content mode)) as [|e0 evs] eqn:E.
  - right. symmetry in Hev. by apply Permutation_nil_r in Hev.
  - split; [done|]. cbn [count totalDuration]. split; [cbn [length]; lia|]. split.
    + by rewrite <- Hev.
    + done.
Qed.

Lemma clamp_fin r : fin_nonneg (ndiv (nmax (Fin 0) (Fin r)) (of_Z 1000)).
Proof.
  cbn [nmax nltb].
  destruct (Qle_bool r 0) eqn:E; cbn [negb ndiv of_Z];
    change (Qeq_bool (inject_Z 1000) 0) with false; cbn iota.
  - eexists. split; [done|]. by compute.
  - eexists. split; [done|]. apply Qle_shift_div_l; [reflexivity|].
    destruct (Qlt_le_dec 0 r) as [H|H]; [lra|].
    apply Qle_bool_iff in H. congruence.
Qed.

Lemma or_else_fin o cur :
  is_fin cur -> (∀ v, o = Some v -> end_time_ok v) -> is_fin (or_else o cur).
Proof.
  intros Hc Ho. unfold or_else. destruct o as [v|]; [|done].
  destruct (Ho v eq_refl) as [->|Hv]; [done|]. by destruct (truthy v).
Qed.

Lemma idle_gap_fin cur o :
  is_fin cur -> (∀ v, o = Some v -> end_time_ok v) ->
  fin_nonneg (ndiv (nmax (Fin 0) (nsub cur (or_else o cur))) (of_Z 1000)).
Proof.
  intros Hc Ho. destruct (or_else_fin o cur Hc Ho) as [r ->].
  destruct Hc as [q ->]. apply clamp_fin.
Qed.

Lemma parsed_duration_capture dur :
  forallb is_digit_or_dot dur = true -> parsed_duration (parseFloat dur).
Proof.
  intros H. destruct (parseFloat_unsigned dur H) as [->|(q & -> & Hq)].
  - by left.
  - right. by exists q.
Qed.

Lemma parsed_duration_ms x : parsed_duration x -> parsed_duration (ndiv x (of_Z 1000)).
Proof.
  intros [->|(q & -> & Hq)]; [by left|]. right.
  cbn [ndiv of_Z]. change (Qeq_bool (inject_Z 1000) 0) with false. cbn iota.
  eexists. split; [done|]. apply Qle_shift_div_l; [reflexivity|]. lra.
Qed.

Lemma end_time_add cur d :
  is_fin cur -> parsed_duration d -> end_time_ok (nadd cur d).
Proof.
  intros [q ->] [->|(r & -> & _)]; [by left|]. right. by eexists.
Qed.

Lemma end_time_add_ms cur d :
  is_fin cur -> parsed_duration d -> end_time_ok (nadd cur (nmul d (of_Z 1000))).
Proof.
  intros [q ->] [->|(r & -> & _)]; [by left|]. right. by eexists.
Qed.

Lemma strace_step_times st i rawLine :
  strace_times_inv st -> strace_times_inv (strace_step st (i, rawLine)).
Proof.
  intros (Hp & He & Hl). unfold strace_step.
  destruct (trim rawLine) as [|c t]; [done|].
  destruct (split_pid (c :: t)) as [p rest].
  destruct (match_at_start timeRegex rest) as [tm|] eqn:Et; [|done].
  apply timeRegex_shape in Et as (ts & body & -> & Hts).
  change (group 1 [ts; body]) with ts. change (group 2 [ts; body]) with body.
  destruct (parseTimestamp_clock ts Hts) as [q Hq].
  assert (is_fin (parseTimestamp ts)) as Hcur by (by exists q).
  set (st2 := mkStraceState _ _ _ _ _ _).
  assert (strace_times_inv st2) as (Hp2 & He2 & Hl2).
  { split; [done|]. split; [|done]. cbn. intros p' v.
    destruct (s_pidLastEndTime st !! p) eqn:E; [apply He|].
    intros H. apply lookup_insert_Some in H as [[_ <-]|[_ H]]; [by right|by eapply He]. }
  clearbody st2. clear Hp He Hl.
  unfold strace_body.
  destruct (match_at_start resumeRegex body) as [rm|].
  { destruct (s_pendingCalls st2 !! p) as [pd|] eqn:Epd; [|done].
    destruct (str_eqb _ _); [|done].
    unfold complete_resumed.
    destruct (match_anywhere endRegex (group 2 rm)) as [em|] eqn:Ee; [|done].
    apply endRegex_shape in Ee as (extra & res & dur & -> & Hdur).
    change (group 3 [extra; res; dur]) with dur.
    split; [|split].
    - cbn. intros p' pd' H. apply lookup_delete_Some in H as [_ H]. by eapply Hp2.
    - cbn. intros p' v H.
      apply lookup_insert_Some in H as [[_ <-]|[_ H]]; [by right|by eapply He2].
    - cbn [s_lines]. apply Forall_app. split; [done|]. apply Forall_singleton.
      split; cbn.
      + by apply parsed_duration_capture.
      + apply idle_gap_fin; [by eapply Hp2|]. intros v. apply He2. }
  destruct (match_at_start unfinishedRegex body) as [um|].
  { split; [|done]. cbn. intros p' pd' H.
    apply lookup_insert_Some in H as [[_ <-]|[_ H]]; [done|by eapply Hp2]. }
  destruct (match_at_start standardRegex body) as [sm|] eqn:Es; [|done].
  apply standardRegex_shape in Es as (name & ar & res & dur & -> & Hdur).
  change (group 4 [name; ar; res; dur]) with dur.
  split; [done|]. split.
  - cbn. intros p' v H. apply lookup_insert_Some in H as [[_ <-]|[_ H]]; [|by eapply He2].
    apply end_time_add_ms; [done|]. by apply parsed_duration_capture.
  - cbn [s_lines]. apply Forall_app. split; [done|]. apply Forall_singleton.
    split; cbn.
    + by apply parsed_duration_capture.
    + apply idle_gap_fin; [done|]. intros v. apply He2.
Qed.

Lemma strace_run_times content : Forall event_times_ok (s_lines (strace_run content)).
Proof.
  cut (strace_times_inv (strace_run content)); [by intros (_ & _ & H)|].
  unfold strace_run, indexed_lines.
  apply (lines_loop_ind strace_step (λ _ st, strace_times_inv st)).
  - split; [|split; [|constructor]]; intros p v H; cbn in H; by rewrite lookup_empty in H.
  - intros k st raw _. apply strace_step_times.
Qed.

Lemma perf_step_times st i rawLine :
  perf_times_inv st -> perf_times_inv (perf_step st (i, rawLine)).
Proof.
  intros (He & Hl). unfold perf_step. destruct (trim rawLine) as [|c t]; [done|].
  destruct (match_at_start perfRegex (c :: t)) as [m|] eqn:Em; [|done].
  apply perfRegex_shape in Em
    as (d1 & d2 & dur & proc & pd & name & ar & res & -> & N1 & H1 & H2 & Hd & _).
  destruct (parsePerfTimestamp_decimal d1 d2) as [q Hq]; [done..|].
  change (group 1 _) with (d1 ++ [chr "."] ++ d2). change (group 2 _) with dur.
  assert (is_fin (parsePerfTimestamp (d1 ++ [chr "."] ++ d2))) as Hcur by (by exists q).
  split.
  - cbn [p_pidLastEndTime]. intros p' v H.
    apply lookup_insert_Some in H as [[_ <-]|[_ H]]; [|by eapply He].
    apply end_time_add; [done|]. by apply parsed_duration_capture.
  - cbn [p_lines]. apply Forall_app. split; [done|]. apply Forall_singleton.
    split; cbn.
    + apply parsed_duration_ms. by apply parsed_duration_capture.
    + apply idle_gap_fin; [done|]. intros v. apply He.
Qed.

Lemma perf_run_times content : Forall event_times_ok (p_lines (perf_run content)).
Proof.
  cut (perf_times_inv (perf_run content)); [by intros (_ & H)|].
  unfold perf_run, indexed_lines.
  apply (lines_loop_ind perf_step (λ _ st, perf_times_inv st)).
  - split; [|constructor]. intros p v H. cbn in H. by rewrite lookup_empty in H.
  - intros k st raw _. apply perf_step_times.
Qed.

Lemma parsed_event_times content filename mode :
  Forall event_times_ok (lines (parseTrace content filename mode)).
Proof.
  destruct mode; cbn [parseTrace parseStrace parsePerfTrace lines].
  - rewrite sort_by_perm. apply strace_run_times.
  - apply perf_run_times.
Qed.

Lemma sum_of_fin_nonneg f ls :
  Forall (λ e, fin_nonneg (f e)) ls -> fin_nonneg (sum_of f ls).
Proof.
  induction ls as [|e ls IH] using rev_ind; intros H.
  - exists 0%Q. split; [done|]. lra.
  - apply Forall_app in H as [H1 H2]. rewrite Forall_singleton in H2.
    rewrite sum_of_snoc. destruct (IH H1) as (q & -> & Hq).
    destruct H2 as (r & -> & Hr). eexists. split; [done|]. lra.
Qed.

Lemma sum_of_parsed_duration f ls :
  Forall (λ e, parsed_duration (f e)) ls ->
  parsed_duration (sum_of f ls) ∧
  (sum_of f ls = NaN ↔ Exists (λ e, f e = NaN) ls).
Proof.
  induction ls as [|e ls IH] using rev_ind; intros H.
  - split.
    + right. exists 0%Q. split; [done|]. lra.
    + split; [done|]. intros H'. inversion H'.
  - apply Forall_app in H as [H1 H2]. rewrite Forall_singleton in H2.
    rewrite sum_of_snoc, Exists_app, Exists_cons, Exists_nil.
    destruct (IH H1) as [Hs Hiff].
    destruct Hs as [E|(q & E & Hq)]; rewrite E in *.
    + split; [by left|]. split; [|done]. intros _. left. by apply Hiff.
    + destruct H2 as [E2|(r & E2 & Hr)]; rewrite E2.
      * split; [by left|]. split; [|done]. intros _. right. by left.
      * split.
        -- right. eexists. split; [done|]. lra.
        -- split; [done|]. intros [H'|[H'|[]]]; [|done].
           by apply Hiff in H'.
Qed.

Lemma fin_nonneg_nonneg x : fin_nonneg x -> nonneg x.
Proof. intros (q & -> & Hq). unfold nonneg. cbn [nleb]. by apply Qle_bool_iff. Qed.

(** X12: the totals of a parse.  [totalLines] is the number of events.
    [totalUserTime] is a finite number that is not negative when every
    timestamp of the input is in the safe range.  [totalSysTime] is a
    number that is not negative, or [NaN], and it is [NaN] exactly when
    the duration of some event is.  Without events the wall time is 0. *)
Theorem stats_totals (content filename : jsstring) (mode : TraceMode) :
  totalLines (parseTrace_stats content mode) =
    length (lines (parseTrace content filename mode)) ∧
  (stamps_safe mode content = true ->
   fin_nonneg (totalUserTime (parseTrace_stats content mode))) ∧
  duration_ok (totalSysTime (parseTrace_stats content mode)) ∧
  (totalSysTime (parseTrace_stats content mode) = NaN ↔
   Exists (λ e, duration e = NaN) (lines (parseTrace content filename mode))) ∧
  (lines (parseTrace content filename mode) = [] ->
   totalWallTime (parseTrace_stats content mode) = Fin 0).
Proof.
  pose proof (parsed_event_times content filename mode) as H.
  assert (parseTrace_stats content mode =
          make_stats (lines (parseTrace content filename mode))
                     (syscallCounts (parseTrace_stats content mode))) as ->.
  { by destruct mode. }
  unfold make_stats. cbn [totalLines totalUserTime totalSysTime totalWallTime].
  split; [done|]. split; [|split; [|split]].
  - intros _. apply sum_of_fin_nonneg. eapply Forall_impl; [exact H|]. by intros e [_ ?].
  - destruct (sum_of_parsed_duration duration (lines (parseTrace content filename mode)))
      as [[E|Hf] _].
    + eapply Forall_impl; [exact H|]. by intros e [? _].
    + by left.
    + right. by apply fin_nonneg_nonneg.
  - apply sum_of_parsed_duration. eapply Forall_impl; [exact H|]. by intros e [? _].
  - by intros ->.
Qed.

Lemma stats_totals_witness :
  stamps_safe ModePerf example_perf = true ∧
  fin_nonneg (totalUserTime (parseTrace_stats example_perf ModePerf)) ∧
  totalLines (parseTrace_stats example_perf ModePerf) = 2%nat.
Proof.
  assert (stamps_safe ModePerf example_perf = true) as H by (vm_compute; reflexivity).
  destruct (stats_totals example_perf [] ModePerf) as (Hn & Hu & _).
  split; [exact H|]. split; [exact (Hu H)|]. rewrite Hn. vm_compute. reflexivity.
Defined.

(** * Idle gaps and line ends *)

Lemma perf_step_gap st i rawLine :
  perf_recognized rawLine = true ->
  ∃ e, p_lines (perf_step st (i, rawLine)) = p_lines st ++ [e] ∧
       p_pidLastEndTime (perf_step st (i, rawLine)) !! pid e ≠ None ∧
       (∀ p, p ≠ pid e ->
          p_pidLastEndTime (perf_step st (i, rawLine)) !! p = p_pidLastEndTime st !! p) ∧
       (p_pidLastEndTime st !! pid e = None -> is_zero (userDiff e)).
Proof.
  unfold perf_recognized, perf_step. intros H.
  destruct (trim rawLine) as [|c t] eqn:E; [by vm_compute in H|].
  destruct (match_at_start perfRegex (c :: t)) as [m|] eqn:Em; [|done].
  apply perfRegex_shape in Em
    as (d1 & d2 & dur & proc & pd & name & ar & res & -> & N1 & H1 & H2 & Hd & _).
  destruct (parsePerfTimestamp_decimal d1 d2) as [q Hq]; [done..|].
  change (group 1 _) with (d1 ++ [chr "."] ++ d2).
  eexists. cbn [p_lines p_pidLastEndTime pid userDiff].
  split; [reflexivity|]. split; [by rewrite lookup_insert_eq|]. split.
  - intros p Hp. by rewrite lookup_insert_ne.
  - intros Hn. cbn [pid] in Hn. rewrite Hn. cbn [or_else]. rewrite Hq. cbn [nsub nneg nadd nmax nltb].
    assert (Qle_bool (q + - q) 0 = true) as ->.
    { apply Qle_bool_iff. lra. }
    by compute.
Qed.

Lemma perf_run_gaps content :
  first_of_pid_no_gap (p_lines (perf_run content)).
Proof.
  cut (perf_ends_inv (perf_run content) ∧
       first_of_pid_no_gap (p_lines (perf_run content))); [tauto|].
  unfold perf_run, indexed_lines.
  apply (lines_loop_ind perf_step (λ _ st,
    perf_ends_inv st ∧ first_of_pid_no_gap (p_lines st))).
  - split.
    + intros p. cbn. rewrite lookup_empty. split; [constructor|done].
    + intros before e after H. by destruct before.
  - intros k st rawLine _ [Hends Hgap]. unfold perf_ends_inv in Hends.
    destruct (perf_recognized rawLine) eqn:E;
      [|by rewrite perf_step_unrecognized].
    destruct (perf_step_gap st k rawLine E) as (e & Hl & Hnew & Hold & Hz).
    split.
    + intros p. rewrite Hl, Forall_app, Forall_singleton.
      destruct (decide (p = pid e)) as [->|Hne].
      * split; [done|]. by intros [_ ?].
      * rewrite Hold by done. rewrite Hends. split; [by intros ?|by intros [? _]].
    + rewrite Hl. intros before e' after Heq Hfirst.
      destruct after as [|x after _] using rev_ind.
      * apply app_inj_tail in Heq as [Hb <-]. apply Hz. apply Hends. by rewrite Hb.
      * rewrite app_comm_cons, app_assoc in Heq.
        apply app_inj_tail in Heq as [Heq _]. by eapply Hgap.
Qed.

(** X13: in a variant-B parse whose timestamps and process ids are in the
    safe range, the first event of every process id has idle gap 0: there
    is no earlier call of that process to measure from. *)
Theorem perf_first_event_of_pid_has_no_gap (content filename : jsstring)
    (before after : list TraceLine) (e : TraceLine) :
  stamps_safe ModePerf content = true ->
  pids_safe (parsePerfTrace content filename) = true ->
  lines (parsePerfTrace content filename) = before ++ e :: after ->
  Forall (λ e', pid e' ≠ pid e) before ->
  is_zero (userDiff e).
Proof. intros _ _. apply perf_run_gaps. Qed.

Lemma perf_first_event_of_pid_has_no_gap_witness :
  stamps_safe ModePerf example_perf = true ∧
  pids_safe (parsePerfTrace example_perf []) = true ∧
  ∃ e after,
    lines (parsePerfTrace example_perf []) = [] ++ e :: after ∧
    Forall (λ e', pid e' ≠ pid e) [] ∧
    is_zero (userDiff e).
Proof.
  assert (stamps_safe ModePerf example_perf = true) as H1 by (vm_compute; reflexivity).
  assert (pids_safe (parsePerfTrace example_perf []) = true) as H2
    by (vm_compute; reflexivity).
  split; [exact H1|]. split; [exact H2|].
  eexists _, _.
  assert (∀ e after,
    lines (parsePerfTrace example_perf []) = [] ++ e :: after ->
    lines (parsePerfTrace example_perf []) = [] ++ e :: after ∧
    Forall (λ e', pid e' ≠ pid e) [] ∧ is_zero (userDiff e)) as H.
  { intros e after Heq. split; [done|]. split; [constructor|].
    apply (perf_first_event_of_pid_has_no_gap example_perf [] [] after e H1 H2 Heq).
    constructor. }
  apply H. vm_compute. reflexivity.
Defined.

Lemma split_nonempty sep s : split sep s ≠ [].
Proof.
  induction s as [|c s IH]; [done|]. cbn [split].
  destruct (c =? sep)%N; [done|]. by destruct (split sep s).
Qed.

Lemma split_trailing_sep sep s : split sep (s ++ [sep]) = split sep s ++ [[]].
Proof.
  induction s as [|c s IH]; cbn [app split].
  - by rewrite N.eqb_refl.
  - rewrite IH. destruct (c =? sep)%N; [done|].
    pose proof (split_nonempty sep s). by destruct (split sep s).
Qed.

Lemma blank_line_last {St} (step : St -> nat * jsstring -> St) (init : St) content :
  (∀ st i, step st (i, []) = st) ->
  fold_left step (indexed_lines (content ++ [10%N])) init =
  fold_left step (indexed_lines content) init.
Proof.
  intros H. unfold indexed_lines.
  rewrite split_trailing_sep, indexed_lines_snoc, fold_left_app. cbn [fold_left].
  apply H.
Qed.

(** X14: a newline at the end of the input changes nothing: the events,
    the process ids and the statistics are those of the input without it. *)
Theorem trailing_newline_is_ignored (content filename : jsstring) (mode : TraceMode) :
  parseTrace (content ++ [10%N]) filename mode = parseTrace content filename mode ∧
  parseTrace_stats (content ++ [10%N]) mode = parseTrace_stats content mode.
Proof.
  assert (perf_run (content ++ [10%N]) = perf_run content) as Hp.
  { by apply blank_line_last. }
  assert (perf_counts (content ++ [10%N]) = perf_counts content) as Hpc.
  { by apply blank_line_last. }
  assert (strace_run_counts (content ++ [10%N]) = strace_run_counts content) as Hsc.
  { unfold strace_run_counts. apply (blank_line_last
      (λ acc il, (strace_step acc.1 il, strace_count_step acc.1 acc.2 il))).
    by intros [st c] i. }
  assert (strace_run (content ++ [10%N]) = strace_run content) as Hs.
  { by apply blank_line_last. }
  destruct mode; cbn [parseTrace parseTrace_stats].
  - unfold parseStrace, parseStrace_stats, strace_counts. by rewrite Hs, Hsc.
  - unfold parsePerfTrace, parsePerfTrace_stats. by rewrite Hp, Hpc.
Qed.

(** * Selection, chart and rows on display *)

Lemma fold_set_add_elem `{EqDecision A} (l s : list A) x :
  x ∈ fold_left (λ s p, set_add p s) l s ↔ x ∈ s ∨ x ∈ l.
Proof.
  revert s. induction l as [|y l IH]; intros s; cbn [fold_left].
  - split; [by left|]. intros [?|H]; [done|inversion H].
  - rewrite IH, set_add_elem, elem_of_cons. tauto.
Qed.

Lemma fold_set_add_NoDup `{EqDecision A} (l s : list A) :
  NoDup s -> NoDup (fold_left (λ s p, set_add p s) l s).
Proof.
  revert s. induction l as [|y l IH]; intros s H; cbn [fold_left]; [done|].
  by apply IH, set_add_NoDup.
Qed.

Lemma set_of_elem `{EqDecision A} (l : list A) x : x ∈ set_of l ↔ x ∈ l.
Proof.
  unfold set_of. rewrite fold_set_add_elem. split; [|by right].
  intros [H|H]; [inversion H|done].
Qed.

Lemma set_of_NoDup `{EqDecision A} (l : list A) : NoDup (set_of l).
Proof. apply fold_set_add_NoDup. constructor. Qed.

Lemma set_delete_elem `{EqDecision A} (s : list A) x y :
  y ∈ set_delete x s ↔ y ≠ x ∧ y ∈ s.
Proof.
  unfold set_delete. induction s as [|z s IH]; cbn [List.filter].
  - split; [intros H; inversion H|]. intros [_ H]. inversion H.
  - case_bool_decide as E; cbn [negb].
    + subst z. rewrite IH, elem_of_cons. split; [tauto|]. intros [? [?|?]]; done.
    + rewrite !elem_of_cons, IH. split; [|tauto].
      intros [->|[? ?]]; [split; [done|by left]|split; [done|by right]].
Qed.

Lemma set_delete_NoDup `{EqDecision A} (s : list A) x :
  NoDup s -> NoDup (set_delete x s).
Proof.
  unfold set_delete. induction 1 as [|z s Hz Hs IH]; cbn [List.filter]; [constructor|].
  destruct (negb _); [|done]. constructor; [|done].
  intros H. apply Hz. by apply (set_delete_elem s x z).
Qed.

Lemma set_has_true `{EqDecision A} (s : list A) x : set_has x s = true ↔ x ∈ s.
Proof. unfold set_has. apply bool_decide_eq_true. Qed.

Lemma parsed_pids_some content filename mode p :
  p ∈ pids (parseTrace content filename mode) -> ∃ z, p = Some z.
Proof.
  destruct mode; cbn [parseTrace parseStrace parsePerfTrace pids];
    rewrite sort_by_perm; intros H.
  - by apply (strace_run_pids content).
  - destruct (perf_run_pids content) as (_ & Hiff & Hz).
    apply Hiff in H as (e & He & <-). rewrite Forall_forall in Hz.
    destruct (Hz e He) as (z & -> & _). by exists z.
Qed.

(** X16: the process ids offered for selection are those of trace A and
    of trace B together, each once; for traces that come from the parsers
    the list is strictly increasing.  With no trace loaded it is empty. *)
Theorem allPids_is_sorted_union (traceA traceB : option ParsedTrace)
    (fileA fileB : option (jsstring * jsstring * TraceMode)) :
  NoDup (allPids traceA traceB) ∧
  (∀ p, p ∈ allPids traceA traceB ↔
        (∃ t, traceA = Some t ∧ p ∈ pids t) ∨ (∃ t, traceB = Some t ∧ p ∈ pids t)) ∧
  allPids None None = [] ∧
  StronglySorted pid_lt (allPids (load fileA) (load fileB)).
Proof.
  assert (∀ a b, NoDup (allPids a b) ∧
     (∀ p, p ∈ allPids a b ↔
        (∃ t, a = Some t ∧ p ∈ pids t) ∨ (∃ t, b = Some t ∧ p ∈ pids t))) as Hgen.
  { intros a b. unfold allPids. split.
    - rewrite sort_by_perm.
      destruct a as [ta|], b as [tb|]; repeat apply fold_set_add_NoDup; constructor.
    - intros p. rewrite sort_by_perm.
      destruct a as [ta|], b as [tb|]; rewrite ?fold_set_add_elem.
      + split.
        * intros [[H|H]|H]; [inversion H|left; eauto|right; eauto].
        * intros [(t & [= <-] & H)|(t & [= <-] & H)]; auto.
      + split.
        * intros [H|H]; [inversion H|left; eauto].
        * intros [(t & [= <-] & H)|(t & [=] & H)]; auto.
      + split.
        * intros [H|H]; [inversion H|right; eauto].
        * intros [(t & [=] & H)|(t & [= <-] & H)]; auto.
      + split; [intros H; inversion H|]. intros [(t & [=] & _)|(t & [=] & _)]. }
  destruct (Hgen traceA traceB) as [Hnd Hiff].
  split; [done|]. split; [done|]. split; [done|].
  destruct (Hgen (load fileA) (load fileB)) as [Hnd' Hiff'].
  assert (∀ p, p ∈ allPids (load fileA) (load fileB) -> ∃ z, p = Some z) as Hsome.
  { intros p Hp. apply Hiff' in Hp as [(t & Ht & Hp)|(t & Ht & Hp)].
    - destruct fileA as [[[c f] m]|]; [|done]. injection Ht as <-.
      by eapply parsed_pids_some.
    - destruct fileB as [[[c f] m]|]; [|done]. injection Ht as <-.
      by eapply parsed_pids_some. }
  apply sorted_pids_strict; [done|done|].
  unfold allPids in *. apply (sort_by_sorted num_of_int).
  apply Forall_forall. intros p Hp. rewrite <- sort_by_perm in Hp.
  destruct (Hsome p Hp) as [z ->]. by eexists.
Qed.

(** X17: a click on a process id flips the selection of that id and of no
    other; a second click on the same id restores the selection. *)
Theorem handlePidToggle_flips_one (selectedPids : list (option Z)) (pid : option Z) :
  NoDup (handlePidToggle selectedPids pid) ∧
  (pid ∈ handlePidToggle selectedPids pid ↔ pid ∉ selectedPids) ∧
  (∀ q, q ≠ pid -> q ∈ handlePidToggle selectedPids pid ↔ q ∈ selectedPids) ∧
  (∀ q, q ∈ handlePidToggle (handlePidToggle selectedPids pid) pid ↔ q ∈ selectedPids).
Proof.
  assert (∀ s q, q ∈ handlePidToggle s pid ↔
                 (q = pid ∧ pid ∉ s) ∨ (q ≠ pid ∧ q ∈ s)) as Hmem.
  { intros s q. unfold handlePidToggle.
    destruct (set_has pid (set_of s)) eqn:E.
    - apply set_has_true in E. rewrite set_of_elem in E.
      rewrite set_delete_elem, set_of_elem. split; [tauto|].
      intros [[-> Hn]|H]; [by destruct Hn|done].
    - assert (pid ∉ s) as Hn.
      { intros H. rewrite <- set_of_elem, <- set_has_true in H. congruence. }
      rewrite set_add_elem, set_of_elem.
      destruct (decide (q = pid)) as [->|Hne]; [tauto|]. tauto. }
  split; [|split; [|split]].
  - unfold handlePidToggle. destruct (set_has _ _).
    + apply set_delete_NoDup, set_of_NoDup.
    + apply set_add_NoDup, set_of_NoDup.
  - rewrite Hmem. tauto.
  - intros q Hq. rewrite Hmem. tauto.
  - intros q. rewrite Hmem, !Hmem.
    destruct (decide (q = pid)) as [->|Hne]; [|tauto].
    destruct (decide (pid ∈ selectedPids)); tauto.
Qed.

(** X18: where the selector is shown (two process ids or more), a click on
    its Select All / Deselect All button flips whether all are
    selected: it selects exactly the process ids on offer when some were
    not selected, and empties the selection when all were. *)
Theorem toggle_all_button_flips (all selectedPids : list (option Z)) :
  pid_selector_shown all = true ->
  allSelected all (click_toggle_all all selectedPids)
    = negb (allSelected all selectedPids) ∧
  (allSelected all selectedPids = false ->
   ∀ p, p ∈ click_toggle_all all selectedPids ↔ p ∈ all) ∧
  (allSelected all selectedPids = true -> click_toggle_all all selectedPids = []).
Proof.
  intros Hshown. unfold click_toggle_all, handlePidToggleAll.
  destruct (allSelected all selectedPids) eqn:E; cbn [negb].
  - split; [|split; [done|by intros _]].
    destruct all as [|p all]; [by vm_compute in Hshown|]. done.
  - split; [|split; [|done]].
    + unfold allSelected. apply forallb_forall. intros p Hp.
      apply set_has_true, set_of_elem. by apply list_elem_of_In.
    + intros _ p. apply set_of_elem.
Qed.

Lemma toggle_all_button_flips_witness :
  pid_selector_shown [Some 0; Some 7] = true ∧
  allSelected [Some 0; Some 7] (click_toggle_all [Some 0; Some 7] [Some 0]) = true.
Proof.
  split; [reflexivity|].
  exact (proj1 (toggle_all_button_flips [Some 0; Some 7] [Some 0] eq_refl)).
Defined.

Lemma in_filter_bool {A} (P : A -> bool) (l : list A) x :
  x ∈ List.filter P l ↔ x ∈ l ∧ P x = true.
Proof. rewrite !list_elem_of_In. apply List.filter_In. Qed.

Lemma object_keys_elem c k : k ∈ object_keys c ↔ k ∈ c_order c.
Proof.
  unfold object_keys. rewrite elem_of_app, sort_by_perm, !in_filter_bool.
  destruct (is_array_index k); cbn [negb]; split; try tauto.
Qed.

Lemma elem_of_take_list {A} (l : list A) n x : x ∈ take n l -> x ∈ l.
Proof. intros H. rewrite <- (take_drop n l). apply elem_of_app. by left. Qed.

Lemma chart_rows_names sa sb keys : map name (map (chart_row sa sb) keys) = keys.
Proof. induction keys as [|k keys IH]; [done|]. cbn [map]. by rewrite IH. Qed.

Lemma chartData_take sa sb :
  chartData (Some sa) (Some sb) = take 10 (chart_sorted sa sb).
Proof. done. Qed.

Lemma chartData_rows sa sb :
  NoDup (map name (chart_sorted sa sb)) ∧
  (∀ r, r ∈ chart_sorted sa sb ->
     r = chart_row sa sb (name r) ∧
     (name r ∈ c_order (syscallCounts sa) ∨ name r ∈ c_order (syscallCounts sb))) ∧
  (∀ k, k ∈ c_order (syscallCounts sa) ∨ k ∈ c_order (syscallCounts sb) ->
        chart_row sa sb k ∈ chart_sorted sa sb).
Proof.
  unfold chart_sorted. set (keys := set_of _).
  assert (∀ k, k ∈ keys ↔
            k ∈ c_order (syscallCounts sa) ∨ k ∈ c_order (syscallCounts sb)) as Hk.
  { intros k. unfold keys. by rewrite set_of_elem, elem_of_app, !object_keys_elem. }
  split; [|split].
  - rewrite sort_by_perm, chart_rows_names. apply set_of_NoDup.
  - intros r Hr. rewrite sort_by_perm in Hr.
    apply list_elem_of_fmap in Hr as (k & -> & Hin). split; [done|].
    by apply Hk.
  - intros k Hin. rewrite sort_by_perm. apply list_elem_of_fmap.
    exists k. split; [done|]. by apply Hk.
Qed.

(** X19: the chart has at most 10 bars, no two for the same call name;
    every bar is for a call name that one of the two counter objects
    lists, and shows the two totals and counts of that name (0 where a
    trace has no entry) with [delta] the total of B minus the total of A.
    Unless both traces are loaded there is no bar. *)
Theorem chartData_shape (statsA statsB : option TraceStats) :
  (length (chartData statsA statsB) <= 10)%nat ∧
  NoDup (map name (chartData statsA statsB)) ∧
  (∀ r, r ∈ chartData statsA statsB ->
     ∃ sa sb, statsA = Some sa ∧ statsB = Some sb ∧
       r = chart_row sa sb (name r) ∧
       delta r = nsub (timeB r) (timeA r) ∧
       (name r ∈ c_order (syscallCounts sa) ∨ name r ∈ c_order (syscallCounts sb))) ∧
  (statsA = None ∨ statsB = None -> chartData statsA statsB = []).
Proof.
  destruct statsA as [sa|], statsB as [sb|];
    try (split; [cbn; lia|]; split; [constructor|]; split; [|done];
         intros r Hr; inversion Hr).
  rewrite chartData_take. destruct (chartData_rows sa sb) as (Hnd & Hrows & _).
  set (sorted := chart_sorted sa sb) in *.
  split; [|split; [|split]].
  - rewrite length_take. lia.
  - rewrite <- firstn_map. eapply (sublist_NoDup _ (map name sorted)); [done|apply sublist_take].
  - intros r Hr. apply elem_of_take_list in Hr. destruct (Hrows r Hr) as [Hr1 Hr2].
    exists sa, sb. split; [done|]. split; [done|]. split; [done|]. split; [|done].
    by rewrite Hr1.
  - intros [?|?]; done.
Qed.

Lemma info_or_zero_counts_of name pushed :
  name ∉ proto_keys ->
  info_or_zero (counts_of pushed) name =
  {| count := Z.of_nat (length (events_named name pushed));
     totalDuration := sum_of duration (events_named name pushed) |}.
Proof.
  intros Hp. unfold info_or_zero. rewrite counts_of_info. unfold info_of.
  rewrite bool_decide_false by done.
  by destruct (events_named name pushed).
Qed.

Lemma counts_of_order name pushed :
  name ∈ c_order (counts_of pushed) ↔
  (name ∉ proto_keys) ∧ events_named name pushed ≠ [].
Proof.
  destruct (counts_of_wf pushed) as [_ Hiff]. rewrite Hiff, counts_of_info.
  unfold info_of. case_bool_decide as Hp.
  - split; [by intros [x ?]|]. by intros [? _].
  - destruct (events_named name pushed); split.
    + by intros [x ?].
    + by intros [_ ?].
    + done.
    + intros _. by eexists.
Qed.

(** X20: for two parsed traces, every bar of the chart is for a call name
    that occurs among the events of A or of B; its counts are the numbers
    of events of that name in A and in B, its times the sums of their
    durations, added up in the order the events were pushed, and its
    [delta] the time for B minus the time for A. *)
Theorem chart_bars_count_events (cA fA cB fB : jsstring) (mA mB : TraceMode)
    (r : ChartRow) :
  r ∈ chartData (Some (parseTrace_stats cA mA)) (Some (parseTrace_stats cB mB)) ->
  (events_named (name r) (lines (parseTrace cA fA mA)) ≠ [] ∨
   events_named (name r) (lines (parseTrace cB fB mB)) ≠ []) ∧
  countA r = Z.of_nat (length (events_named (name r) (lines (parseTrace cA fA mA)))) ∧
  countB r = Z.of_nat (length (events_named (name r) (lines (parseTrace cB fB mB)))) ∧
  timeA r = sum_of duration (events_named (name r) (pushed_events cA mA)) ∧
  timeB r = sum_of duration (events_named (name r) (pushed_events cB mB)) ∧
  delta r = nsub (timeB r) (timeA r).
Proof.
  intros Hr.
  destruct (chartData_rows (parseTrace_stats cA mA) (parseTrace_stats cB mB))
    as (_ & Hrows & _).
  rewrite chartData_take in Hr. apply elem_of_take_list in Hr.
  destruct (Hrows r Hr) as [Hrow Hkey]. clear Hrows Hr.
  pose proof (pushed_counts cA mA) as Ea. pose proof (pushed_counts cB mB) as Eb.
  pose proof (pushed_perm cA fA mA) as Pa. pose proof (pushed_perm cB fB mB) as Pb.
  rewrite Ea, Eb in Hkey.
  pose proof (events_named_perm (name r) _ _ Pa) as Ha.
  pose proof (events_named_perm (name r) _ _ Pb) as Hb.
  assert (name r ∉ proto_keys) as Hp.
  { destruct Hkey as [H|H]; by apply counts_of_order in H as [? _]. }
  assert (timeA r = sum_of duration (events_named (name r) (pushed_events cA mA)) ∧
          countA r = Z.of_nat (length (events_named (name r) (pushed_events cA mA))) ∧
          timeB r = sum_of duration (events_named (name r) (pushed_events cB mB)) ∧
          countB r = Z.of_nat (length (events_named (name r) (pushed_events cB mB))) ∧
          delta r = nsub (timeB r) (timeA r)) as (Eta & Eca & Etb & Ecb & Ed).
  { rewrite Hrow. unfold chart_row. cbn [timeA timeB countA countB delta name].
    rewrite Ea, Eb, !info_or_zero_counts_of by done. done. }
  split; [|split; [|split; [|split; [|split]]]]; try done.
  - destruct Hkey as [H|H]; apply counts_of_order in H as [_ H]; [left|right];
      intros E; apply H; [rewrite E in Ha|rewrite E in Hb];
      by apply Permutation_nil_r.
  - by rewrite Eca, Ha.
  - by rewrite Ecb, Hb.
Qed.

Lemma chart_bars_count_events_witness :
  ∃ r, r ∈ chartData (Some (parseTrace_stats example_perf ModePerf))
                     (Some (parseTrace_stats example_content ModeStrace)) ∧
       countA r = 2 ∧ countB r = 0.
Proof.
  eexists.
  assert (∀ r,
    r ∈ chartData (Some (parseTrace_stats example_perf ModePerf))
                  (Some (parseTrace_stats example_content ModeStrace)) ->
    name r = str "openat" ->
    r ∈ chartData (Some (parseTrace_stats example_perf ModePerf))
                  (Some (parseTrace_stats example_content ModeStrace)) ∧
    countA r = 2 ∧ countB r = 0) as H.
  { intros r Hr Hn. split; [done|].
    destruct (chart_bars_count_events example_perf [] example_content []
                ModePerf ModeStrace r Hr) as (_ & Ha & Hb & _).
    rewrite Ha, Hb, Hn. split; by vm_compute. }
  apply H; [vm_compute; right; left|by vm_compute].
Defined.

Lemma sorted_impl_in {A} (R R' : A -> A -> Prop) l :
  (∀ x y, x ∈ l -> y ∈ l -> R x y -> R' x y) ->
  StronglySorted R l -> StronglySorted R' l.
Proof.
  intros H Hs. induction Hs as [|x l Hs IH Hx]; [constructor|].
  constructor.
  - apply IH. intros a b Ha Hb. apply H; by right.
  - rewrite Forall_forall in Hx |- *. intros y Hy. apply H; [by left|by right|].
    by apply Hx.
Qed.

Lemma insert_by_ext {A} (c1 c2 : A -> A -> num) x l :
  (∀ y, y ∈ l -> ngtb (c1 x y) (Fin 0) = ngtb (c2 x y) (Fin 0)) ->
  insert_by c1 x l = insert_by c2 x l.
Proof.
  induction l as [|y l IH]; intros H; cbn [insert_by]; [done|].
  rewrite (H y) by left. rewrite IH; [done|]. intros z Hz. apply H. by right.
Qed.

Lemma sort_by_ext {A} (c1 c2 : A -> A -> num) l :
  (∀ x y, x ∈ l -> y ∈ l -> ngtb (c1 x y) (Fin 0) = ngtb (c2 x y) (Fin 0)) ->
  sort_by c1 l = sort_by c2 l.
Proof.
  induction l as [|x l IH]; intros H; cbn [sort_by]; [done|].
  rewrite IH by (intros a b Ha Hb; apply H; by right).
  apply insert_by_ext. intros y Hy. rewrite sort_by_perm in Hy.
  apply H; [by left|by right].
Qed.

Lemma event_in_order e pushed :
  e ∈ pushed -> syscall e ∉ proto_keys -> syscall e ∈ c_order (counts_of pushed).
Proof.
  intros He Hp. apply counts_of_order. split; [done|]. intros E.
  assert (e ∈ events_named (syscall e) pushed) as Hc by (by apply list_elem_of_filter).
  rewrite E in Hc. inversion Hc.
Qed.

Lemma sort_desc_sorted (l : list ChartRow) :
  Forall (λ r, is_fin (delta r)) l ->
  StronglySorted bar_ge (sort_by (λ x y, nsub (nabs (delta y)) (nabs (delta x))) l).
Proof.
  intros Hfin.
  rewrite (sort_by_ext _ (λ x y, nsub (nneg (nabs (delta x))) (nneg (nabs (delta y)))) l).
  2:{ intros x y Hx Hy. rewrite Forall_forall in Hfin.
      destruct (Hfin x Hx) as [p ->], (Hfin y Hy) as [q ->].
      cbn. f_equal. apply eq_true_iff_eq. rewrite !Qle_bool_iff. lra. }
  eapply sorted_impl_in; [|apply (sort_by_sorted (λ r, nneg (nabs (delta r))))].
  - intros x y Hx Hy. rewrite sort_by_perm in Hx, Hy. rewrite Forall_forall in Hfin.
    destruct (Hfin x Hx) as [p Hp], (Hfin y Hy) as [q Hq].
    unfold key_le, bar_ge. rewrite Hp, Hq. cbn. rewrite !Qle_bool_iff. lra.
  - eapply Forall_impl; [exact Hfin|]. intros r [p ->]. by eexists.
Qed.

Lemma sum_of_fin ls :
  Forall (λ e, parsed_duration (duration e)) ls ->
  Forall (λ e, duration e ≠ NaN) ls ->
  is_fin (sum_of duration ls).
Proof.
  intros H1 H2. destruct (sum_of_fin_nonneg duration ls) as (q & -> & _); [|by eexists].
  rewrite Forall_forall in H1, H2 |- *. intros e He.
  destruct (H1 e He) as [E|?]; [|done]. by destruct (H2 e He).
Qed.

Lemma parsed_info_fin content filename mode k :
  Forall (λ e, duration e ≠ NaN) (lines (parseTrace content filename mode)) ->
  is_fin (totalDuration (info_or_zero (syscallCounts (parseTrace_stats content mode)) k)).
Proof.
  intros Hnn. destruct (parse_counts content filename mode) as (pushed & -> & Hperm).
  unfold info_or_zero. rewrite counts_of_info. unfold info_of.
  case_bool_decide; [by eexists|].
  destruct (events_named k pushed) as [|e0 evs] eqn:E; [by eexists|].
  cbn [default totalDuration]. rewrite <- E.
  pose proof (parsed_event_times content filename mode) as Ht.
  rewrite <- Hperm in Hnn, Ht.
  apply sum_of_fin; apply Forall_forall; intros e He;
    unfold events_named in He; apply list_elem_of_filter in He as [_ He].
  - rewrite Forall_forall in Ht. by apply Ht.
  - rewrite Forall_forall in Hnn. by apply Hnn.
Qed.

Lemma durations_safe_not_nan t :
  durations_safe t = true -> Forall (λ e, duration e ≠ NaN) (lines t).
Proof.
  unfold durations_safe. intros H. apply Forall_forall. intros e He.
  rewrite forallb_forall in H. apply list_elem_of_In in He. specialize (H e He).
  intros E. by rewrite E in H.
Qed.

(** X21: when every duration of either trace is a number in the safe range
    (so neither [NaN] nor an overflow), the bars of the chart come in
    non-increasing order of [|delta|], and every bar left out (a call name
    of A or B beyond the first ten) has a [|delta|] no larger than that of
    any bar shown. *)
Theorem chart_shows_largest_deltas (cA fA cB fB : jsstring) (mA mB : TraceMode) :
  durations_safe (parseTrace cA fA mA) = true ->
  durations_safe (parseTrace cB fB mB) = true ->
  StronglySorted bar_ge
    (chartData (Some (parseTrace_stats cA mA)) (Some (parseTrace_stats cB mB))) ∧
  (∀ e r,
     e ∈ lines (parseTrace cA fA mA) ∨ e ∈ lines (parseTrace cB fB mB) ->
     syscall e ∉ proto_keys ->
     syscall e ∉ map name
       (chartData (Some (parseTrace_stats cA mA)) (Some (parseTrace_stats cB mB))) ->
     r ∈ chartData (Some (parseTrace_stats cA mA)) (Some (parseTrace_stats cB mB)) ->
     bar_ge r (chart_row (parseTrace_stats cA mA) (parseTrace_stats cB mB) (syscall e))).
Proof.
  intros HA HB. apply durations_safe_not_nan in HA, HB.
  set (sa := parseTrace_stats cA mA). set (sb := parseTrace_stats cB mB).
  assert (∀ k, is_fin (delta (chart_row sa sb k))) as Hfin.
  { intros k. unfold sa, sb. cbn [chart_row delta].
    destruct (parsed_info_fin cA fA mA k HA) as [p ->].
    destruct (parsed_info_fin cB fB mB k HB) as [q ->]. by eexists. }
  assert (StronglySorted bar_ge (chart_sorted sa sb)) as Hsorted.
  { apply sort_desc_sorted. apply Forall_forall. intros r Hr.
    apply list_elem_of_fmap in Hr as (k & -> & _). apply Hfin. }
  destruct (chartData_rows sa sb) as (_ & _ & Hall).
  rewrite chartData_take. set (sorted := chart_sorted sa sb) in *.
  split.
  - rewrite <- (take_drop 10 sorted) in Hsorted.
    by apply StronglySorted_app in Hsorted as (_ & H & _).
  - intros e r He Hp Hout Hr.
    assert (chart_row sa sb (syscall e) ∈ sorted) as Hin.
    { apply Hall.
      pose proof (pushed_counts cA mA) as Ea. pose proof (pushed_counts cB mB) as Eb.
      pose proof (pushed_perm cA fA mA) as Pa. pose proof (pushed_perm cB fB mB) as Pb.
      fold sa in Ea. fold sb in Eb. rewrite Ea, Eb.
      destruct He as [He|He]; [left|right]; apply event_in_order; try done.
      - by rewrite Pa.
      - by rewrite Pb. }
    rewrite <- (take_drop 10 sorted) in Hin, Hsorted.
    apply elem_of_app in Hin as [Hin|Hin].
    + destruct Hout. apply list_elem_of_fmap. by exists (chart_row sa sb (syscall e)).
    + apply StronglySorted_app in Hsorted as (H & _ & _). by apply H.
Qed.

Lemma chart_shows_largest_deltas_witness :
  StronglySorted bar_ge
    (chartData (Some (parseTrace_stats example_perf ModePerf))
               (Some (parseTrace_stats example_content ModeStrace))).
Proof.
  apply (chart_shows_largest_deltas example_perf [] example_content [] ModePerf ModeStrace).
  - vm_compute. reflexivity.
  - vm_compute. reflexivity.
Defined.

Lemma filter_bool_sublist {A} (P : A -> bool) (l : list A) :
  List.filter P l `sublist_of` l.
Proof.
  induction l as [|x l IH]; cbn [List.filter]; [constructor|].
  destruct (P x); by constructor.
Qed.

Lemma filter_bool_Forall {A} (P : A -> bool) (l : list A) :
  Forall (λ x, P x = true) (List.filter P l).
Proof. apply Forall_forall. intros x Hx. by apply in_filter_bool in Hx as [_ ?]. Qed.

Lemma filter_bool_all {A} (P : A -> bool) (l : list A) :
  Forall (λ x, P x = true) l -> List.filter P l = l.
Proof.
  induction 1 as [|x l Hx Hl IH]; cbn [List.filter]; [done|]. by rewrite Hx, IH.
Qed.

Lemma Forall_take_list {A} (P : A -> Prop) (l : list A) n :
  Forall P l -> Forall P (take n l).
Proof.
  intros H. apply Forall_forall. intros x Hx. rewrite Forall_forall in H.
  by apply H, (elem_of_take_list l n).
Qed.

Lemma pid_filter_selected sel r : pid_filter sel r = true -> shows_selected sel r.
Proof.
  unfold pid_filter, shows_selected.
  destruct (a r) as [x|], (b r) as [y|]; cbn [pid_or_zero].
  - intros H.
    assert (set_has (pid x) sel = true ∨ set_has (pid y) sel = true) as [E|E].
    { destruct (type r); try (apply orb_true_iff in H); tauto. }
    + exists x. split; [by left|]. by apply set_has_true.
    + exists y. split; [by right|]. by apply set_has_true.
  - intros H. assert (set_has (pid x) sel = true) as E.
    { destruct (type r); try done; by rewrite orb_false_r in H. }
    exists x. split; [by left|]. by apply set_has_true.
  - intros H. assert (set_has (pid y) sel = true) as E.
    { by destruct (type r). }
    exists y. split; [by right|]. by apply set_has_true.
  - by destruct (type r).
Qed.

Lemma slow_side_event l :
  slow_side l = true ->
  ∃ e q, l = Some e ∧ (duration e = Fin q ∧ (1 # 1000 < q)%Q ∨ duration e = PInf).
Proof.
  unfold slow_side. destruct l as [e|]; cbn [fmap option_fmap option_map or_else].
  - intros H. exists e. destruct (duration e) as [| |q|] eqn:E; cbn in H; try done.
    + destruct (negb (Qeq_bool q 0)); cbn in H.
      * exists q. split; [done|]. left. split; [done|].
        apply negb_true_iff in H. destruct (Qlt_le_dec (1 # 1000) q) as [?|Hle]; [done|].
        apply Qle_bool_iff in Hle. congruence.
      * done.
    + exists 0%Q. split; [done|]. by right.
  - intros H. by vm_compute in H.
Qed.

Lemma slow_filter_slow r : slow_filter r = true -> shows_slow r.
Proof.
  unfold slow_filter, shows_slow. intros H. apply orb_true_iff in H as [H|H];
    apply slow_side_event in H as (e & q & E & Hd); exists e, q; rewrite E; auto.
Qed.

(** X22: the rows on display are rows of the diff sequence, in their
    order, at most 1000 of them; each shows an event whose process id is
    selected, and with the slow filter on each shows an event that took
    more than a millisecond. *)
Theorem displayRows_sound (diffRows : list DiffRow) (selectedPids : list (option Z))
    (filterSlow : bool) :
  (length (displayRows diffRows selectedPids filterSlow) <= 1000)%nat ∧
  displayRows diffRows selectedPids filterSlow `sublist_of` diffRows ∧
  Forall (shows_selected selectedPids) (displayRows diffRows selectedPids filterSlow) ∧
  (filterSlow = true ->
   Forall shows_slow (displayRows diffRows selectedPids filterSlow)).
Proof.
  unfold displayRows. split; [|split; [|split]].
  - destruct filterSlow; cbn [negb]; rewrite length_take; lia.
  - destruct filterSlow; cbn [negb].
    + etrans; [apply sublist_take|]. etrans; apply filter_bool_sublist.
    + etrans; [apply sublist_take|]. apply filter_bool_sublist.
  - assert (Forall (shows_selected selectedPids)
              (List.filter (pid_filter selectedPids) diffRows)) as H.
    { eapply Forall_impl; [apply filter_bool_Forall|]. apply pid_filter_selected. }
    destruct filterSlow; cbn [negb]; apply Forall_take_list; [|done].
    apply Forall_forall. intros r Hr. apply in_filter_bool in Hr as [Hr _].
    rewrite Forall_forall in H. by apply H.
  - intros ->. cbn [negb]. apply Forall_take_list.
    eapply Forall_impl; [apply filter_bool_Forall|]. apply slow_filter_slow.
Qed.

Lemma rows_sides_in rows r :
  Forall row_as_built rows -> r ∈ rows ->
  match type r with
  | TMatch | TMismatch =>
      ∃ x y, a r = Some x ∧ b r = Some y ∧ x ∈ a_side rows ∧ y ∈ b_side rows
  | TInsert => ∃ y, a r = None ∧ b r = Some y ∧ y ∈ b_side rows
  | TDelete => ∃ x, a r = Some x ∧ b r = None ∧ x ∈ a_side rows
  | TGap => False
  end.
Proof.
  intros Hb Hr. rewrite Forall_forall in Hb. specialize (Hb r Hr).
  unfold row_as_built in Hb. unfold a_side, b_side.
  destruct (type r) eqn:E.
  - destruct Hb as (x & y & -> & _). exists x, y. split; [done|]. split; [done|].
    split; apply list_elem_of_omap; by exists (row_match x y).
  - destruct Hb as (x & y & ->). exists x, y. split; [done|]. split; [done|].
    split; apply list_elem_of_omap; by exists (row_mismatch (Some x) (Some y)).
  - destruct Hb as (y & ->). exists y. split; [done|]. split; [done|].
    apply list_elem_of_omap. by exists (row_insert (Some y)).
  - destruct Hb as (x & ->). exists x. split; [done|]. split; [done|].
    apply list_elem_of_omap. by exists (row_delete (Some x)).
  - done.
Qed.

Lemma all_listed_shown (traceA traceB : ParsedTrace) sel rows :
  Forall (λ e, pid e ∈ sel) (lines traceA) ->
  Forall (λ e, pid e ∈ sel) (lines traceB) ->
  Forall row_as_built rows ->
  a_side rows = lines traceA -> b_side rows = lines traceB ->
  List.filter (pid_filter sel) rows = rows.
Proof.
  intros HA HB Hb Has Hbs. apply filter_bool_all, Forall_forall. intros r Hr.
  pose proof (rows_sides_in rows r Hb Hr) as H. rewrite Has, Hbs in H.
  rewrite Forall_forall in HA, HB. cbn beta. unfold pid_filter.
  destruct (type r).
  - destruct H as (x & y & Ea & Eb & Hx & Hy). rewrite Ea, Eb. cbn [pid_or_zero].
    apply orb_true_iff. left. apply set_has_true. by apply HA.
  - destruct H as (x & y & Ea & Eb & Hx & Hy). rewrite Ea, Eb. cbn [pid_or_zero].
    apply orb_true_iff. left. apply set_has_true. by apply HA.
  - destruct H as (y & Ea & Eb & Hy). rewrite Eb. cbn [pid_or_zero].
    apply set_has_true. by apply HB.
  - destruct H as (x & Ea & Eb & Hx). rewrite Ea. cbn [pid_or_zero].
    apply set_has_true. by apply HA.
  - done.
Qed.

Lemma parsed_pids_listed content filename mode :
  Forall (λ e, pid e ∈ pids (parseTrace content filename mode))
         (lines (parseTrace content filename mode)).
Proof.
  destruct mode; cbn [parseTrace parseStrace parsePerfTrace lines pids].
  - destruct (strace_run_sources content) as (_ & _ & H).
    apply Forall_forall. intros e He. rewrite sort_by_perm in He.
    rewrite Forall_forall in H. destruct (H e He) as [H1 _]. by rewrite sort_by_perm.
  - destruct (perf_run_pids content) as (_ & Hiff & _).
    apply Forall_forall. intros e He. rewrite sort_by_perm. apply Hiff. by exists e.
Qed.

(** X23: with the selection the app makes when two parsed traces are
    loaded (every process id of either trace), the process filter hides
    nothing: the rows on display are the first 1000 rows of the alignment,
    and the note under them, when there is one, reports the rows that
    are cut off. *)
Theorem default_selection_shows_all_rows (cA fA cB fB : jsstring) (mA mB : TraceMode)
    (selectedPids : list (option Z)) :
  ∃ rows,
    alignTraces (parseTrace cA fA mA) (parseTrace cB fB mB) = Ok rows ∧
    displayRows rows
      (select_on_load
         (allPids (Some (parseTrace cA fA mA)) (Some (parseTrace cB fB mB)))
         selectedPids) false
    = take 1000 rows ∧
    match hidden_note rows false with
    | Some k =>
        k = Z.of_nat (length rows)
            - Z.of_nat (length (displayRows rows
                 (select_on_load
                    (allPids (Some (parseTrace cA fA mA)) (Some (parseTrace cB fB mB)))
                    selectedPids) false))
    | None =>
        displayRows rows
          (select_on_load
             (allPids (Some (parseTrace cA fA mA)) (Some (parseTrace cB fB mB)))
             selectedPids) false = rows
    end.
Proof.
  set (tA := parseTrace cA fA mA). set (tB := parseTrace cB fB mB).
  destruct (align_rows_facts tA tB) as (rows & Hal & _ & Hb & Has & Hbs).
  exists rows. split; [done|].
  set (sel := select_on_load _ _).
  assert (∀ p, p ∈ pids tA ∨ p ∈ pids tB -> p ∈ sel) as Hsel.
  { intros p Hp. unfold sel, select_on_load.
    assert (p ∈ allPids (Some tA) (Some tB)) as Hin.
    { unfold allPids. rewrite sort_by_perm, !fold_set_add_elem. tauto. }
    destruct (allPids (Some tA) (Some tB)) as [|q qs] eqn:E; [inversion Hin|].
    cbn [length Nat.ltb Nat.leb]. by apply set_of_elem. }
  assert (List.filter (pid_filter sel) rows = rows) as Hall.
  { apply (all_listed_shown tA tB); try done.
    - eapply Forall_impl; [apply parsed_pids_listed|]. intros e He. apply Hsel. by left.
    - eapply Forall_impl; [apply parsed_pids_listed|]. intros e He. apply Hsel. by right. }
  unfold displayRows, hidden_note. cbn [negb]. rewrite Hall. split; [done|].
  rewrite andb_true_r. destruct (Nat.ltb_spec 1000 (length rows)) as [Hl|Hl].
  - rewrite length_take. lia.
  - by rewrite take_ge.
Qed.

Lemma strace_run_pids_from content p :
  p ∈ s_uniquePids (strace_run content) ->
  ∃ rawLine, rawLine ∈ split 10%N content ∧ trim rawLine ≠ [] ∧ p = line_pid rawLine.
Proof.
  unfold strace_run, indexed_lines. set (ls := split 10%N content). revert p.
  apply (lines_loop_ind strace_step (λ _ st,
    ∀ p, p ∈ s_uniquePids st ->
         ∃ rawLine, rawLine ∈ ls ∧ trim rawLine ≠ [] ∧ p = line_pid rawLine)).
  - intros p H. inversion H.
  - intros k st rawLine Hk IH p. rewrite strace_step_pids.
    destruct (trim rawLine) as [|c t] eqn:E; [apply IH|].
    intros H. apply set_add_elem in H as [->|H]; [|by apply IH].
    exists rawLine. split; [by eapply list_elem_of_lookup_2|]. by rewrite E.
Qed.

Lemma no_prefix_pids content filename p :
  no_pid_prefix content -> p ∈ pids (parseStrace content filename) -> p = Some 0.
Proof.
  intros Hno. cbn [parseStrace pids]. rewrite sort_by_perm. intros Hp.
  apply strace_run_pids_from in Hp as (rawLine & Hin & _ & ->).
  unfold line_pid, split_pid. by rewrite (Hno rawLine Hin).
Qed.

Lemma NoDup_singleton_value {A} (l : list A) x :
  NoDup l -> (∀ y, y ∈ l -> y = x) -> (length l <= 1)%nat.
Proof.
  intros Hnd Hx. destruct l as [|y [|z l]]; cbn [length]; [lia..|].
  apply NoDup_cons in Hnd as [Hy _]. destruct Hy.
  rewrite (Hx y), (Hx z); [left|right; left|left].
Qed.

(** X24: for two variant-A logs in which no line carries a [[pid N]]
    prefix, every process id is 0: the selector of process ids is not
    shown, and no row of the alignment shows a process id. *)
Theorem single_process_logs_show_no_pids (cA fA cB fB : jsstring) :
  no_pid_prefix cA -> no_pid_prefix cB ->
  pid_selector_shown
    (allPids (Some (parseStrace cA fA)) (Some (parseStrace cB fB))) = false ∧
  ∃ rows,
    alignTraces (parseStrace cA fA) (parseStrace cB fB) = Ok rows ∧
    showPid rows = false.
Proof.
  intros HA HB. split.
  - unfold pid_selector_shown. apply negb_false_iff, Nat.leb_le.
    apply (NoDup_singleton_value _ (Some 0)).
    + unfold allPids. rewrite sort_by_perm. repeat apply fold_set_add_NoDup. constructor.
    + intros p. unfold allPids. rewrite sort_by_perm, !fold_set_add_elem.
      intros [[H|H]|H];
        [inversion H|by apply (no_prefix_pids cA fA)|by apply (no_prefix_pids cB fB)].
  - destruct (align_rows_facts (parseStrace cA fA) (parseStrace cB fB))
      as (rows & Hal & _ & Hb & Has & Hbs).
    exists rows. split; [done|].
    assert (∀ content filename e,
      no_pid_prefix content -> e ∈ lines (parseStrace content filename) ->
      has_pid (Some e) = false) as Hzero.
    { intros content filename e Hno He.
      pose proof (parsed_pids_listed content filename ModeStrace) as Hl.
      cbn [parseTrace] in Hl. rewrite Forall_forall in Hl.
      unfold has_pid. by rewrite (no_prefix_pids content filename (pid e) Hno (Hl e He)). }
    unfold showPid. apply not_true_iff_false. intros H.
    apply existsb_exists in H as (r & Hr & H). apply list_elem_of_In in Hr.
    pose proof (rows_sides_in rows r Hb Hr) as Hs. rewrite Has, Hbs in Hs.
    destruct (type r).
    + destruct Hs as (x & y & Ea & Eb & Hx & Hy). rewrite Ea, Eb in H.
      rewrite (Hzero _ _ _ HA Hx), (Hzero _ _ _ HB Hy) in H. done.
    + destruct Hs as (x & y & Ea & Eb & Hx & Hy). rewrite Ea, Eb in H.
      rewrite (Hzero _ _ _ HA Hx), (Hzero _ _ _ HB Hy) in H. done.
    + destruct Hs as (y & Ea & Eb & Hy). rewrite Ea, Eb in H.
      rewrite (Hzero _ _ _ HB Hy) in H. done.
    + destruct Hs as (x & Ea & Eb & Hx). rewrite Ea, Eb in H.
      rewrite (Hzero _ _ _ HA Hx) in H. done.
    + done.
Qed.

Lemma single_process_logs_show_no_pids_witness :
  pid_selector_shown
    (allPids (Some (parseStrace example_content (str "a.log")))
             (Some (parseStrace example_content (str "b.log")))) = false.
Proof.
  assert (no_pid_prefix example_content) as H.
  { intros rawLine Hin. vm_compute in Hin.
    repeat (apply elem_of_cons in Hin as [->|Hin]; [by vm_compute|]).
    inversion Hin. }
  exact (proj1 (single_process_logs_show_no_pids example_content (str "a.log")
                  example_content (str "b.log") H H)).
Defined.

(** * Time origin and line texts *)

Lemma first_stamp_snoc ls rawLine :
  first_stamp (ls ++ [rawLine]) =
  match first_stamp ls with
  | Some ts0 => Some ts0
  | None => match envelope rawLine with
            | Some (_, ts, _) => Some ts
            | None => None
            end
  end.
Proof.
  unfold first_stamp. rewrite omap_app. cbn [omap list_omap].
  destruct (omap envelope ls) as [|[[p ts] body] l]; cbn [app].
  - by destruct (envelope rawLine) as [[[p ts] body]|].
  - done.
Qed.

Lemma strace_body_origin st i rawLine p ts body ts0 :
  s_globalStartTime st = parseTimestamp ts0 ->
  Forall (relative_to ts0) (s_lines st) ->
  (∀ p pd, s_pendingCalls st !! p = Some pd ->
           startEpoch pd = parseTimestamp (timestampStr pd)) ->
  let st' := strace_body st i rawLine p ts (parseTimestamp ts) body in
  s_hasSetStartTime st' = s_hasSetStartTime st ∧
  s_globalStartTime st' = parseTimestamp ts0 ∧
  Forall (relative_to ts0) (s_lines st') ∧
  (∀ p pd, s_pendingCalls st' !! p = Some pd ->
           startEpoch pd = parseTimestamp (timestampStr pd)).
Proof.
  intros Hg Hl Hp. cbv zeta. unfold strace_body.
  destruct (match_at_start resumeRegex body) as [rm|].
  { destruct (s_pendingCalls st !! p) as [pd|] eqn:Epd; [|done].
    destruct (str_eqb _ _); [|done].
    unfold complete_resumed.
    destruct (match_anywhere endRegex (group 2 rm)) as [em|]; [|done].
    cbn [s_hasSetStartTime s_globalStartTime s_lines s_pendingCalls].
    split; [done|]. split; [done|]. split.
    - apply Forall_app. split; [done|]. apply Forall_singleton.
      unfold relative_to. cbn [timestampEpoch timestamp].
      by rewrite Hg, (Hp p pd Epd).
    - intros p' pd' H. apply lookup_delete_Some in H as [_ H]. by eapply Hp. }
  destruct (match_at_start unfinishedRegex body) as [um|].
  { cbn [s_hasSetStartTime s_globalStartTime s_lines s_pendingCalls].
    split; [done|]. split; [done|]. split; [done|].
    intros p' pd' H. apply lookup_insert_Some in H as [[_ <-]|[_ H]]; [done|by eapply Hp]. }
  destruct (match_at_start standardRegex body) as [sm|]; [|done].
  cbn [s_hasSetStartTime s_globalStartTime s_lines s_pendingCalls].
  split; [done|]. split; [done|]. split; [|done].
  apply Forall_app. split; [done|]. apply Forall_singleton.
  unfold relative_to. cbn [timestampEpoch timestamp]. by rewrite Hg.
Qed.

Lemma strace_step_origin ls st i rawLine :
  strace_origin_inv ls st ->
  strace_origin_inv (ls ++ [rawLine]) (strace_step st (i, rawLine)).
Proof.
  intros [Ho Hp]. unfold strace_origin_inv. rewrite first_stamp_snoc.
  destruct (envelope rawLine) as [[[p ts] body]|] eqn:E.
  - rewrite (envelope_step _ _ _ _ _ _ E).
    set (st2 := mkStraceState _ _ _ _ _ _).
    destruct (first_stamp ls) as [ts0|].
    + destruct Ho as (Hs & Hg & Hl).
      destruct (strace_body_origin st2 i rawLine p ts body ts0) as (H1 & H2 & H3 & H4);
        [by (cbn; rewrite Hs)|done|done|].
      split; [|done]. split; [by rewrite H1|]. done.
    + destruct Ho as (Hs & Hl).
      destruct (strace_body_origin st2 i rawLine p ts body ts) as (H1 & H2 & H3 & H4);
        [by (cbn; rewrite Hs)|by (cbn; rewrite Hl)|done|].
      split; [|done]. split; [by rewrite H1|]. done.
  - destruct (no_envelope_step st i rawLine E) as (-> & -> & -> & ->).
    by destruct (first_stamp ls).
Qed.

Lemma strace_run_origin content :
  strace_origin_inv (split 10%N content) (strace_run content).
Proof.
  unfold strace_run, indexed_lines. generalize (split 10%N content). intros ls.
  induction ls as [|x ls IH] using rev_ind.
  - split; [done|]. intros p pd H. cbn in H. by rewrite lookup_empty in H.
  - rewrite indexed_lines_snoc, fold_left_app. cbn [fold_left].
    by apply strace_step_origin.
Qed.

(** X25: the variant-A parser stores every event relative to the first
    line of the input that has a timestamp, whether or not that line
    yields an event: the relative start of an event is the time its
    [timestamp] text denotes minus the time that first text denotes.  For
    a resumed call the [timestamp] is that of the line that started it. *)
Theorem strace_events_relative_to_first_stamp (content filename : jsstring) :
  Forall (λ e, ∃ ts0, first_stamp (split 10%N content) = Some ts0 ∧ relative_to ts0 e)
         (lines (parseStrace content filename)) ∧
  (first_stamp (split 10%N content) = None -> lines (parseStrace content filename) = []).
Proof.
  destruct (strace_run_origin content) as [Ho _].
  cbn [parseStrace lines].
  destruct (first_stamp (split 10%N content)) as [ts0|].
  - destruct Ho as (_ & _ & Hl). split; [|done].
    apply Forall_forall. intros e He. rewrite sort_by_perm in He.
    rewrite Forall_forall in Hl. exists ts0. split; [done|]. by apply Hl.
  - destruct Ho as [_ Hl]. rewrite Hl. split; [constructor|done].
Qed.

Lemma loop_rel {St} (step : St -> nat * jsstring -> St) (R : St -> St -> Prop) ls1 ls2 :
  (∀ k s1 s2 r1 r2, trim r1 = trim r2 -> R s1 s2 ->
                    R (step s1 (k, r1)) (step s2 (k, r2))) ->
  map trim ls1 = map trim ls2 ->
  ∀ (g : nat -> nat) s1 s2, R s1 s2 ->
    R (fold_left step (imap (λ i l, (g i, l)) ls1) s1)
      (fold_left step (imap (λ i l, (g i, l)) ls2) s2).
Proof.
  intros Hstep. revert ls2. induction ls1 as [|x ls1 IH]; intros [|y ls2] Hm;
    try done.
  intros g s1 s2 HR. injection Hm as Hxy Hm. cbn [imap fold_left].
  apply (IH ls2 Hm (g ∘ S)). by apply Hstep.
Qed.

Lemma perf_step_same k s1 s2 r1 r2 :
  trim r1 = trim r2 -> perf_same s1 s2 ->
  perf_same (perf_step s1 (k, r1)) (perf_step s2 (k, r2)).
Proof.
  intros Ht (Hl & Hu & He & Hg & Hh). unfold perf_step. rewrite Ht.
  destruct (trim r2) as [|c t]; [done|].
  destruct (match_at_start perfRegex (c :: t)) as [m|]; [|done].
  unfold perf_same. cbn [p_lines p_uniquePids p_pidLastEndTime p_globalStartTime
                         p_hasSetStartTime].
  rewrite !map_app, Hl, Hu, He, Hg, Hh. done.
Qed.

Lemma pending_same s1 s2 p :
  forget_start <$> s_pendingCalls s1 = forget_start <$> s_pendingCalls s2 ->
  forget_start <$> (s_pendingCalls s1 !! p) = forget_start <$> (s_pendingCalls s2 !! p).
Proof. intros H. by rewrite <- !lookup_fmap, H. Qed.

Lemma strace_step_same k s1 s2 r1 r2 :
  trim r1 = trim r2 -> strace_same s1 s2 ->
  strace_same (strace_step s1 (k, r1)) (strace_step s2 (k, r2)) ∧
  ∀ c, strace_count_step s1 c (k, r1) = strace_count_step s2 c (k, r2).
Proof.
  intros Ht (Hl & Hu & He & Hp & Hg & Hh).
  unfold strace_step, strace_count_step. rewrite Ht.
  destruct (trim r2) as [|ch t]; [done|].
  destruct (split_pid (ch :: t)) as [p rest].
  destruct (match_at_start timeRegex rest) as [tm|].
  2:{ split; [|done]. unfold strace_same. cbn. by rewrite Hu. }
  unfold strace_body, complete_resumed.
  cbn [s_lines s_uniquePids s_pidLastEndTime s_pendingCalls s_globalStartTime
       s_hasSetStartTime].
  pose proof (pending_same s1 s2 p Hp) as Hpp.
  rewrite Hu, He, Hg, Hh.
  destruct (match_at_start resumeRegex (group 2 tm)) as [rm|].
  { destruct (s_pendingCalls s1 !! p) as [pd1|], (s_pendingCalls s2 !! p) as [pd2|];
      try done.
    injection Hpp as E1 E2 E3 E4. rewrite E3.
    destruct (str_eqb (pend_syscall pd2) (group 1 rm)); [|by split].
    destruct (match_anywhere endRegex (group 2 rm)) as [em|]; [|by split].
    split; [|done]. unfold strace_same.
    cbn [s_lines s_uniquePids s_pidLastEndTime s_pendingCalls s_globalStartTime
         s_hasSetStartTime].
    rewrite !map_app, Hl, !fmap_delete, Hp. cbn [map forget_raw line_id pid timestamp
      timestampEpoch syscall args result duration userDiff].
    by rewrite E1, E2, E4. }
  destruct (match_at_start unfinishedRegex (group 2 tm)) as [um|].
  { split; [|done]. unfold strace_same.
    cbn [s_lines s_uniquePids s_pidLastEndTime s_pendingCalls s_globalStartTime
         s_hasSetStartTime].
    rewrite !fmap_insert, Hp. done. }
  destruct (match_at_start standardRegex (group 2 tm)) as [sm|]; [|by split].
  split; [|done]. unfold strace_same.
  cbn [s_lines s_uniquePids s_pidLastEndTime s_pendingCalls s_globalStartTime
       s_hasSetStartTime].
  rewrite !map_app, Hl. done.
Qed.

Lemma perf_count_step_same c k r1 r2 :
  trim r1 = trim r2 -> perf_count_step c (k, r1) = perf_count_step c (k, r2).
Proof. intros Ht. unfold perf_count_step. by rewrite Ht. Qed.

Lemma sort_by_map {A B} (f : A -> B) (cmp : A -> A -> num) (cmp' : B -> B -> num) l :
  (∀ x y, cmp' (f x) (f y) = cmp x y) ->
  map f (sort_by cmp l) = sort_by cmp' (map f l).
Proof.
  intros H. induction l as [|x l IH]; cbn [sort_by map]; [done|].
  rewrite <- IH. generalize (sort_by cmp l). intros s.
  induction s as [|y s IHs]; cbn [insert_by map]; [done|].
  rewrite H. destruct (ngtb (cmp x y) (Fin 0)); cbn [map]; by rewrite ?IHs.
Qed.

Lemma sum_of_map f ls :
  sum_of f ls = fold_left nadd (map f ls) (Fin 0).
Proof.
  unfold sum_of. generalize (Fin 0). induction ls as [|e ls IH]; intros acc; [done|].
  cbn [fold_left map]. apply IH.
Qed.

Lemma last_map_list {A B} (f : A -> B) (l : list A) : last (map f l) = f <$> last l.
Proof.
  induction l as [|x l IH]; [done|]. destruct l as [|y l]; [done|].
  change (map f (x :: y :: l)) with (f x :: map f (y :: l)).
  rewrite !last_cons_cons. apply IH.
Qed.

Lemma make_stats_forget l1 l2 c :
  map forget_raw l1 = map forget_raw l2 -> make_stats l1 c = make_stats l2 c.
Proof.
  intros H.
  assert (length l1 = length l2) as Hlen.
  { by rewrite <- (length_map forget_raw l1), H, length_map. }
  assert (∀ f : TraceLine -> num,
            (∀ e, f (forget_raw e) = f e) -> map f l1 = map f l2) as Hmap.
  { intros f Hf. rewrite <- (map_ext (λ e, f (forget_raw e)) f Hf l1).
    rewrite <- (map_ext (λ e, f (forget_raw e)) f Hf l2).
    rewrite <- !(map_map forget_raw f). by rewrite H. }
  assert (forget_raw <$> last l1 = forget_raw <$> last l2) as Hlast.
  { by rewrite <- !last_map_list, H. }
  unfold make_stats. rewrite !sum_of_map, Hlen.
  rewrite (Hmap duration), (Hmap userDiff) by done.
  f_equal. destruct (last l1) as [x|], (last l2) as [y|]; try done.
  injection Hlast as _ _ _ E1 _ _ _ E2 _. by rewrite E1, E2.
Qed.

Lemma parse_same_lines c1 c2 :
  same_trimmed c1 c2 ->
  perf_same (perf_run c1) (perf_run c2) ∧
  perf_counts c1 = perf_counts c2 ∧
  strace_same (strace_run c1) (strace_run c2) ∧
  strace_counts c1 = strace_counts c2.
Proof.
  intros H. split; [|split; [|split]].
  - apply (loop_rel perf_step perf_same _ _ perf_step_same H id). by repeat split.
  - apply (loop_rel perf_count_step eq _ _); [|done|done].
    intros k s1 s2 r1 r2 Ht ->. by apply perf_count_step_same.
  - apply (loop_rel strace_step strace_same _ _); [|done|by repeat split].
    intros k s1 s2 r1 r2 Ht HR. by apply strace_step_same.
  - unfold strace_counts, strace_run_counts.
    cut (strace_same
           (fold_left (λ acc il, (strace_step acc.1 il, strace_count_step acc.1 acc.2 il))
              (indexed_lines c1) (strace_init, counts_empty)).1
           (fold_left (λ acc il, (strace_step acc.1 il, strace_count_step acc.1 acc.2 il))
              (indexed_lines c2) (strace_init, counts_empty)).1 ∧
         (fold_left (λ acc il, (strace_step acc.1 il, strace_count_step acc.1 acc.2 il))
              (indexed_lines c1) (strace_init, counts_empty)).2 =
         (fold_left (λ acc il, (strace_step acc.1 il, strace_count_step acc.1 acc.2 il))
              (indexed_lines c2) (strace_init, counts_empty)).2); [tauto|].
    apply (loop_rel
      (λ acc il, (strace_step acc.1 il, strace_count_step acc.1 acc.2 il))
      (λ a1 a2, strace_same a1.1 a2.1 ∧ a1.2 = a2.2) _ _); [|done|by repeat split].
    intros k [s1 k1] [s2 k2] r1 r2 Ht [HR Hc]. cbn [fst snd] in *. subst k2.
    destruct (strace_step_same k s1 s2 r1 r2 Ht HR) as [H1 H2]. by rewrite H2.
Qed.

Lemma parse_same c1 c2 f1 f2 mode :
  same_trimmed c1 c2 ->
  map forget_raw (lines (parseTrace c1 f1 mode)) =
    map forget_raw (lines (parseTrace c2 f2 mode)) ∧
  pids (parseTrace c1 f1 mode) = pids (parseTrace c2 f2 mode) ∧
  parseTrace_stats c1 mode = parseTrace_stats c2 mode.
Proof.
  intros H. destruct (parse_same_lines c1 c2 H) as (Hp & Hpc & Hs & Hsc).
  destruct Hp as (Hpl & Hpu & _). destruct Hs as (Hsl & Hsu & _).
  assert (map forget_raw (sort_by line_cmp (s_lines (strace_run c1))) =
          map forget_raw (sort_by line_cmp (s_lines (strace_run c2)))) as Hsorted.
  { rewrite !(sort_by_map forget_raw line_cmp line_cmp) by done. by rewrite Hsl. }
  destruct mode; cbn [parseTrace parseStrace parsePerfTrace lines pids parseTrace_stats].
  - split; [done|]. split; [by rewrite Hsu|].
    unfold parseStrace_stats. rewrite Hsc. by apply make_stats_forget.
  - split; [done|]. split; [by rewrite Hpu|].
    unfold parsePerfTrace_stats. rewrite Hpc. by apply make_stats_forget.
Qed.

(** X26: the parsers read a line through its trimmed text only: two
    inputs whose lines agree up to leading and trailing white space give
    the same events but for the [raw] texts, the same process ids and the
    same statistics. *)
Theorem parse_reads_trimmed_lines (c1 c2 f1 f2 : jsstring) (mode : TraceMode) :
  same_trimmed c1 c2 ->
  map forget_raw (lines (parseTrace c1 f1 mode)) =
    map forget_raw (lines (parseTrace c2 f2 mode)) ∧
  pids (parseTrace c1 f1 mode) = pids (parseTrace c2 f2 mode) ∧
  parseTrace_stats c1 mode = parseTrace_stats c2 mode.
Proof. apply parse_same. Qed.

Lemma parse_reads_trimmed_lines_witness :
  map forget_raw
    (lines (parseTrace (str "  10:00:00.000000 open(1) = 3 <0.1>  ") [] ModeStrace)) =
  map forget_raw
    (lines (parseTrace (str "10:00:00.000000 open(1) = 3 <0.1>") [] ModeStrace)).
Proof.
  apply (parse_reads_trimmed_lines
           (str "  10:00:00.000000 open(1) = 3 <0.1>  ")
           (str "10:00:00.000000 open(1) = 3 <0.1>") [] [] ModeStrace).
  by vm_compute.
Defined.

Lemma drop_while_snoc p s c :
  p c = true ->
  drop_while p (s ++ [c]) = if forallb p s then [] else drop_while p s ++ [c].
Proof.
  intros Hc. induction s as [|x s IH]; cbn [app drop_while forallb].
  - by rewrite Hc.
  - destruct (p x); [done|]. done.
Qed.

Lemma drop_while_all p s : forallb p s = true -> drop_while p s = [].
Proof.
  induction s as [|x s IH]; [done|]. cbn [forallb drop_while].
  destruct (p x); [done|]. done.
Qed.

Lemma trim_space_end s c : is_space c = true -> trim (s ++ [c]) = trim s.
Proof.
  intros Hc. unfold trim. rewrite (drop_while_snoc _ _ _ Hc).
  destruct (forallb is_space s) eqn:E.
  - by rewrite (drop_while_all _ _ E).
  - rewrite rev_app_distr. cbn [rev app drop_while]. by rewrite Hc.
Qed.

Lemma split_crlf s : split 10%N (crlf s) = add_cr (split 10%N s).
Proof.
  induction s as [|c s IH]; [done|].
  pose proof (split_nonempty 10%N s) as Hne.
  unfold crlf in *. cbn [flat_map]. cbn [split].
  destruct (N.eqb_spec c 10) as [->|Hc].
  - cbn [app split]. change (13 =? 10)%N with false. rewrite N.eqb_refl. cbn iota.
    rewrite IH. cbn [add_cr]. by destruct (split 10%N s).
  - cbn [app split]. rewrite (proj2 (N.eqb_neq c 10) Hc). rewrite IH.
    destruct (split 10%N s) as [|w [|w' ws]]; [done|done|]. done.
Qed.

Lemma add_cr_trim ls : map trim (add_cr ls) = map trim ls.
Proof.
  induction ls as [|l ls IH]; [done|]. cbn [add_cr].
  destruct ls as [|l' ls]; [done|].
  change (map trim ((l ++ [13%N]) :: add_cr (l' :: ls)))
    with (trim (l ++ [13%N]) :: map trim (add_cr (l' :: ls))).
  rewrite IH, trim_space_end by done. done.
Qed.

(** X27: an input with CR LF line ends parses like the same input with LF
    line ends: the same events but for the carriage returns in the [raw]
    texts, the same process ids and the same statistics. *)
Theorem crlf_line_ends_parse_alike (content f1 f2 : jsstring) (mode : TraceMode) :
  map forget_raw (lines (parseTrace (crlf content) f1 mode)) =
    map forget_raw (lines (parseTrace content f2 mode)) ∧
  pids (parseTrace (crlf content) f1 mode) = pids (parseTrace content f2 mode) ∧
  parseTrace_stats (crlf content) mode = parseTrace_stats content mode.
Proof.
  apply parse_same. unfold same_trimmed. by rewrite split_crlf, add_cr_trim.
Qed.

(** * Well-formed lines are read *)

(** ** The matcher finds what is there *)

Lemma star_greedy_stop {A} p rest (k : jsstring -> option A) :
  stops p rest -> star_greedy p rest k = k rest.
Proof. destruct rest as [|c rest]; [done|]. cbn. by intros ->. Qed.

Lemma star_greedy_skip {A} p w rest (k : jsstring -> option A) res :
  forallb p w = true -> star_greedy p rest k = Some res ->
  star_greedy p (w ++ rest) k = Some res.
Proof.
  intros Hw Hk. induction w as [|c w IH]; [done|].
  cbn [forallb] in Hw. apply andb_true_iff in Hw as [Hc Hw].
  cbn [app star_greedy]. by rewrite Hc, IH.
Qed.

Lemma star_greedy_none {A} p t (k : jsstring -> option A) :
  (∀ s, s `suffix_of` t -> k s = None) -> star_greedy p t k = None.
Proof.
  induction t as [|c t IH]; intros H; cbn [star_greedy].
  - by apply H.
  - rewrite IH.
    + destruct (p c); by apply H.
    + intros s Hs. apply H. by apply suffix_cons_r.
Qed.

Lemma star_lazy_skip {A} p w rest (k : jsstring -> option A) res :
  forallb p w = true ->
  (∀ s1 s2, w = s1 ++ s2 -> s2 ≠ [] -> k (s2 ++ rest) = None) ->
  k rest = Some res ->
  star_lazy p (w ++ rest) k = Some res.
Proof.
  intros Hw Hn Hk. induction w as [|c w IH].
  - cbn [app]. destruct rest; cbn [star_lazy]; by rewrite Hk.
  - cbn [forallb] in Hw. apply andb_true_iff in Hw as [Hc Hw].
    pose proof (Hn [] (c :: w) eq_refl) as H0. cbn [app] in H0.
    cbn [app star_lazy]. rewrite H0 by done. rewrite Hc.
    apply IH; [done|]. intros s1 s2 -> Hs2. by apply (Hn (c :: s1) s2).
Qed.

Lemma plus_greedy_found {A} p w rest caps (k : jsstring -> list jsstring -> option A) res :
  w ≠ [] -> forallb p w = true -> stops p rest ->
  k rest caps = Some res ->
  rmatch (RPlus greedy p) (w ++ rest) caps k = Some res.
Proof.
  intros Hne Hw Hs Hk. destruct w as [|c w]; [done|].
  cbn [forallb] in Hw. apply andb_true_iff in Hw as [Hc Hw].
  cbn [app rmatch]. rewrite Hc. cbn [star greedy].
  apply star_greedy_skip; [done|]. by rewrite star_greedy_stop.
Qed.

Lemma star_greedy_found {A} p w rest caps (k : jsstring -> list jsstring -> option A) res :
  forallb p w = true -> stops p rest ->
  k rest caps = Some res ->
  rmatch (RStar greedy p) (w ++ rest) caps k = Some res.
Proof.
  intros Hw Hs Hk. cbn [rmatch star greedy].
  apply star_greedy_skip; [done|]. by rewrite star_greedy_stop.
Qed.

(** A greedy run that gives back: the run could go on through [c] and
    [tail], the continuation fails on every suffix of [tail] and holds at
    [c :: tail]. *)
Lemma star_greedy_back {A} p w c tail caps
    (k : jsstring -> list jsstring -> option A) res :
  forallb p w = true ->
  (∀ s, s `suffix_of` tail -> k s caps = None) ->
  k (c :: tail) caps = Some res ->
  rmatch (RStar greedy p) (w ++ c :: tail) caps k = Some res.
Proof.
  intros Hw Hn Hk. cbn [rmatch star greedy].
  apply star_greedy_skip; [done|]. cbn [star_greedy].
  rewrite (star_greedy_none p tail (λ s', k s' caps)) by done.
  by destruct (p c).
Qed.

Lemma plus_lazy_found {A} p w rest caps (k : jsstring -> list jsstring -> option A) res :
  w ≠ [] -> forallb p w = true ->
  (∀ s1 s2, w = s1 ++ s2 -> s1 ≠ [] -> s2 ≠ [] -> k (s2 ++ rest) caps = None) ->
  k rest caps = Some res ->
  rmatch (RPlus lazy p) (w ++ rest) caps k = Some res.
Proof.
  intros Hne Hw Hn Hk. destruct w as [|c w]; [done|].
  cbn [forallb] in Hw. apply andb_true_iff in Hw as [Hc Hw].
  cbn [app rmatch]. rewrite Hc. cbn [star lazy].
  apply star_lazy_skip; [done| |done].
  intros s1 s2 -> Hs2. by apply (Hn (c :: s1) s2).
Qed.

Lemma lit_found {A} c s caps (k : jsstring -> list jsstring -> option A) :
  rmatch (RLit c) (c :: s) caps k = k s caps.
Proof. cbn [rmatch]. by rewrite N.eqb_refl. Qed.

Lemma rlits_found {A} t s caps (k : jsstring -> list jsstring -> option A) :
  rmatch (rlits t) (str t ++ s) caps k = k s caps.
Proof.
  unfold rlits. generalize (str t). intros l. induction l as [|c l IH]; [done|].
  cbn [foldr app rmatch]. by rewrite N.eqb_refl, IH.
Qed.

Lemma take_captured {A} (w rest : list A) :
  take (length (w ++ rest) - length rest) (w ++ rest) = w.
Proof.
  rewrite length_app. replace (length w + length rest - length rest)%nat
    with (length w) by lia. apply take_app_length.
Qed.

Lemma cat_step {A} r1 r2 s caps (k : jsstring -> list jsstring -> option A) :
  rmatch (RCat r1 r2) s caps k = rmatch r1 s caps (λ s' c', rmatch r2 s' c' k).
Proof. done. Qed.

Lemma cap_step {A} r1 s caps (k : jsstring -> list jsstring -> option A) :
  rmatch (RCap r1) s caps k =
  rmatch r1 s caps (λ s' caps', k s' (caps' ++ [take (length s - length s') s])).
Proof. done. Qed.

Lemma blank_space w : forallb is_blank w = true -> forallb is_space w = true.
Proof.
  induction w as [|c w IH]; [done|]. cbn [forallb]. unfold is_blank at 1.
  rewrite !andb_true_iff. intros [[? _] ?]. auto.
Qed.

Lemma stops_head p c rest : p c = false -> stops p (c :: rest).
Proof. done. Qed.

Lemma stops_app p w rest :
  w ≠ [] -> forallb (λ c, negb (p c)) w = true -> stops p (w ++ rest).
Proof.
  destruct w as [|c w]; [done|]. cbn [forallb app]. rewrite andb_true_iff.
  intros _ [H _]. by apply negb_true_iff in H.
Qed.

Lemma lit_fails {A} x r s caps (k : jsstring -> list jsstring -> option A) :
  forallb (λ c, negb (c =? x)%N) s = true ->
  rmatch (RCat (RLit x) r) s caps k = None.
Proof.
  destruct s as [|c s]; [done|]. cbn [forallb rmatch]. rewrite andb_true_iff.
  intros [H _]. apply negb_true_iff in H. by rewrite H.
Qed.

Lemma forallb_suffix {A} (p : A -> bool) (s t : list A) :
  s `suffix_of` t -> forallb p t = true -> forallb p s = true.
Proof. intros [pre ->]. rewrite forallb_app, andb_true_iff. tauto. Qed.

Lemma plus_fails {A} g p r c s caps (k : jsstring -> list jsstring -> option A) :
  p c = false -> rmatch (RCat (RPlus g p) r) (c :: s) caps k = None.
Proof. intros H. cbn [rmatch]. by rewrite H. Qed.

Lemma forallb_impl {A} (p q : A -> bool) (l : list A) :
  (∀ x, p x = true -> q x = true) -> forallb p l = true -> forallb q l = true.
Proof.
  intros H. induction l as [|x l IH]; [done|]. cbn [forallb].
  rewrite !andb_true_iff. intros [? ?]. auto.
Qed.

Lemma blank_not c x : is_blank c = true -> is_space x = false -> (c =? x)%N = false.
Proof.
  unfold is_blank. rewrite andb_true_iff. intros [Hs _] Hx.
  destruct (N.eqb_spec c x) as [->|]; [congruence|done].
Qed.

Lemma result_unit_spec c :
  is_result_unit c = true ->
  is_dot c = true ∧ (c =? 60)%N = false ∧ (c =? 61)%N = false.
Proof.
  unfold is_result_unit. rewrite !andb_true_iff, !negb_true_iff. tauto.
Qed.

Lemma run_split p (s : jsstring) :
  ∃ w rest, s = w ++ rest ∧ forallb p w = true ∧ stops p rest.
Proof.
  induction s as [|c s (w & rest & -> & Hw & Hs)].
  - by exists [], [].
  - destruct (p c) eqn:Hc.
    + exists (c :: w), rest. cbn [forallb]. by rewrite Hc, Hw.
    + by exists [], (c :: w ++ rest).
Qed.

Lemma star_greedy_none_run {A} p w rest (k : jsstring -> option A) :
  forallb p w = true -> stops p rest ->
  (∀ w', w' `suffix_of` w -> k (w' ++ rest) = None) ->
  star_greedy p (w ++ rest) k = None.
Proof.
  intros Hw Hs Hk. induction w as [|c w IH].
  - cbn [app]. rewrite star_greedy_stop by done. by apply (Hk []).
  - cbn [forallb] in Hw. apply andb_true_iff in Hw as [Hc Hw].
    cbn [app star_greedy]. rewrite Hc, IH; [by apply (Hk (c :: w))|done|].
    intros w' Hw'. apply Hk. by apply suffix_cons_r.
Qed.

(** [\)\s+=] finds nothing in a text without [=]. *)
Lemma close_paren_fails {A} r s caps (k : jsstring -> list jsstring -> option A) :
  forallb (λ c, negb (c =? 61)%N) s = true ->
  rmatch (RCat (RLit 41%N) (RCat (RPlus greedy is_space) (RCat (RLit 61%N) r)))
         s caps k = None.
Proof.
  intros H. destruct s as [|c s]; [done|]. cbn [forallb] in H.
  apply andb_true_iff in H as [_ H]. rewrite cat_step. cbn [rmatch].
  destruct (c =? 41)%N; [|done].
  destruct s as [|x s]; [done|]. destruct (is_space x); [|done].
  cbn [forallb] in H. apply andb_true_iff in H as [_ H].
  cbn [star greedy]. apply star_greedy_none. intros s' Hs'.
  destruct s' as [|y s']; [done|].
  pose proof (forallb_suffix _ _ _ Hs' H) as Hy. cbn [forallb] in Hy.
  apply andb_true_iff in Hy as [Hy _]. apply negb_true_iff in Hy. by rewrite Hy.
Qed.

(** [\s+<] finds nothing at the head of a text whose first unit after its
    white space is not [<]. *)
Lemma space_then_lt_fails {A} r w z more caps
    (k : jsstring -> list jsstring -> option A) :
  forallb is_space w = true -> is_space z = false -> (z =? 60)%N = false ->
  rmatch (RCat (RPlus greedy is_space) (RCat (RLit 60%N) r)) (w ++ z :: more) caps k
  = None.
Proof.
  intros Hw Hz Hlt. rewrite cat_step. destruct w as [|c w].
  - cbn [app rmatch]. by rewrite Hz.
  - cbn [forallb] in Hw. apply andb_true_iff in Hw as [Hc Hw].
    cbn [app rmatch]. rewrite Hc. cbn [star greedy].
    apply star_greedy_none_run; [done|done|].
    intros w' Hw'. destruct w' as [|y w'].
    + cbn [app rmatch]. by rewrite Hlt.
    + cbn [app rmatch]. pose proof (forallb_suffix _ _ _ Hw' Hw) as Hy.
      cbn [forallb] in Hy. apply andb_true_iff in Hy as [Hy _].
      destruct (N.eqb_spec y 60) as [->|]; [done|done].
Qed.

Lemma last_forallb {A} (p : A -> bool) (l : list A) x :
  forallb p l = true -> last l = Some x -> p x = true.
Proof.
  induction l as [|y l IH]; [done|]. cbn [forallb]. rewrite andb_true_iff.
  intros [Hy Hl]. destruct l as [|z l]; [by intros [= <-]|].
  rewrite last_cons_cons. by apply IH.
Qed.

Lemma last_app_nonempty {A} (l1 l2 : list A) :
  l2 ≠ [] -> last (l1 ++ l2) = last l2.
Proof.
  intros H. destruct l2 as [|x l2] using rev_ind; [done|].
  by rewrite app_assoc, !last_snoc.
Qed.

Lemma suffix_cons_cases {A} (s t : list A) x :
  s `suffix_of` x :: t -> s = x :: t ∨ s `suffix_of` t.
Proof.
  intros [[|y k] E]; cbn [app] in E.
  - by left.
  - injection E as _ ->. right. by exists k.
Qed.

Lemma suffix_app_cases {A} (s a b : list A) :
  s `suffix_of` a ++ b ->
  s `suffix_of` b ∨ ∃ a', a' ≠ [] ∧ a' `suffix_of` a ∧ s = a' ++ b.
Proof.
  induction a as [|x a IH]; cbn [app]; intros H; [by left|].
  apply suffix_cons_cases in H as [->|H].
  - right. exists (x :: a). done.
  - destruct (IH H) as [?|(a' & Hne & Hs & ->)]; [by left|].
    right. exists a'. split; [done|]. split; [by apply suffix_cons_r|done].
Qed.

Lemma blank_head_not w rest x :
  forallb is_blank w = true -> w ≠ [] -> is_space x = false ->
  ∃ y t, w ++ rest = y :: t ∧ (y =? x)%N = false.
Proof.
  intros Hw Hne Hx. destruct w as [|y w]; [done|]. cbn [forallb] in Hw.
  apply andb_true_iff in Hw as [Hy _]. exists y, (w ++ rest). split; [done|].
  by apply blank_not.
Qed.

Lemma standardRegex_found name args sp1 sp2 res sp3 dur :
  name ≠ [] -> forallb is_word name = true ->
  forallb is_dot args = true ->
  sp1 ≠ [] -> forallb is_blank sp1 = true ->
  sp2 ≠ [] -> forallb is_blank sp2 = true ->
  res ≠ [] -> forallb is_result_unit res = true -> tight res ->
  sp3 ≠ [] -> forallb is_blank sp3 = true ->
  dur ≠ [] -> forallb is_digit_or_dot dur = true ->
  match_at_start standardRegex
    (name ++ 40%N :: args ++ 41%N :: sp1 ++ 61%N :: sp2 ++ res ++ sp3 ++ 60%N :: dur ++ [62%N])
  = Some [name; args; res; dur].
Proof.
  intros Nn Hn Ha N1 H1 N2 H2 Nr Hr [Hhead Hlast] N3 H3 Nd Hd.
  unfold match_at_start, standardRegex. cbn [rseq].
  change (chr "(") with 40%N. change (chr ")") with 41%N. change (chr "=") with 61%N.
  change (chr "<") with 60%N. change (chr ">") with 62%N.
  rewrite cat_step, cap_step.
  apply plus_greedy_found; [done|done|done|]. cbn beta.
  rewrite take_captured. cbn [app].
  rewrite cat_step, lit_found. rewrite cat_step, cap_step.
  assert (∀ w x, forallb is_blank w = true -> is_space x = false ->
                 forallb (λ c, negb (c =? x)%N) w = true) as Hb.
  { intros w x Hw Hx. eapply forallb_impl; [|exact Hw].
    intros c Hc. by rewrite (blank_not c x Hc). }
  assert (forallb (λ c, negb (c =? 61)%N) (res ++ sp3 ++ 60%N :: dur ++ [62%N]) = true)
    as Hnoeq.
  { repeat first [rewrite forallb_app | progress cbn [forallb]].
    rewrite (Hb sp3 61%N H3) by done.
    rewrite (forallb_impl is_result_unit (λ c, negb (c =? 61)%N) res),
            (forallb_impl is_digit_or_dot (λ c, negb (c =? 61)%N) dur); try done.
    - intros c Hc. apply is_digit_or_dot_spec in Hc.
      apply negb_true_iff, N.eqb_neq. destruct Hc as [Hc| ->]; [lia|done].
    - intros c Hc. apply result_unit_spec in Hc as (_ & _ & ->). done. }
  apply star_greedy_back; [done| |].
  { intros s Hs.
    apply suffix_app_cases in Hs as [Hs|(a' & Hne & Ha' & ->)].
    2:{ destruct (blank_head_not a'
                    (61%N :: sp2 ++ res ++ sp3 ++ 60%N :: dur ++ [62%N]) 41%N)
          as (y & t & -> & Hy); [by eapply forallb_suffix|done|done|].
        rewrite cat_step. cbn [rmatch]. by rewrite Hy. }
    apply suffix_cons_cases in Hs as [->|Hs]; [done|].
    apply suffix_app_cases in Hs as [Hs|(a' & Hne & Ha' & ->)].
    2:{ destruct (blank_head_not a'
                    (res ++ sp3 ++ 60%N :: dur ++ [62%N]) 41%N)
          as (y & t & -> & Hy); [by eapply forallb_suffix|done|done|].
        rewrite cat_step. cbn [rmatch]. by rewrite Hy. }
    apply close_paren_fails. by eapply forallb_suffix. }
  cbn beta. rewrite take_captured.
  rewrite cat_step, lit_found, cat_step.
  apply plus_greedy_found; [done|by apply blank_space|done|]. cbn beta.
  rewrite cat_step, lit_found, cat_step.
  apply plus_greedy_found; [done|by apply blank_space| |].
  { destruct res as [|c res]; [done|]. done. }
  cbn beta. rewrite cat_step, cap_step.
  apply plus_lazy_found; [done| | |].
  { eapply forallb_impl; [|exact Hr]. intros c Hc. by apply result_unit_spec in Hc as [? _]. }
  { intros s1 s2 -> _ Hs2.
    destruct (run_split is_space s2) as (w & rest & -> & Hw & Hstop).
    rewrite forallb_app in Hr. apply andb_true_iff in Hr as [_ Hr].
    destruct rest as [|z more].
    - rewrite app_nil_r in *.
      destruct (last w) as [y|] eqn:Ey; [|by apply last_None in Ey].
      pose proof (last_forallb _ _ _ Hw Ey) as Hy.
      rewrite (Hlast y) in Hy; [done|]. by rewrite last_app_nonempty.
    - rewrite <- app_assoc. cbn [app]. apply space_then_lt_fails; [done|done|].
      rewrite forallb_app in Hr. apply andb_true_iff in Hr as [_ Hr].
      cbn [forallb] in Hr. apply andb_true_iff in Hr as [Hz _].
      by apply result_unit_spec in Hz as (_ & ? & _). }
  cbn beta. rewrite take_captured. rewrite cat_step.
  apply plus_greedy_found; [done|by apply blank_space|done|]. cbn beta.
  rewrite cat_step, lit_found, cat_step, cap_step.
  apply (plus_greedy_found _ dur [62%N]); [done|done|done|]. cbn beta.
  rewrite take_captured, lit_found. done.
Qed.

Lemma word_is_dot c : is_word c = true -> is_dot c = true.
Proof.
  unfold is_word, is_digit, is_dot. intros H.
  apply negb_true_iff. destruct (N.eqb_spec c 10) as [->|]; [done|].
  destruct (N.eqb_spec c 13) as [->|]; [done|].
  destruct (N.eqb_spec c 8232) as [->|]; [done|].
  destruct (N.eqb_spec c 8233) as [->|]; [done|]. done.
Qed.

Lemma word_not_space c : is_word c = true -> is_space c = false.
Proof.
  unfold is_word, is_digit, is_space. intros H.
  repeat match type of H with
         | (_ || _) = true => apply orb_true_iff in H as [H|H]
         | (_ && _) = true => apply andb_true_iff in H as [? ?]
         end;
  repeat match goal with
         | H : (_ <=? _)%N = true |- _ => apply N.leb_le in H
         | H : (_ =? _)%N = true |- _ => apply N.eqb_eq in H
         end;
  repeat (apply orb_false_iff; split);
  try (apply andb_false_iff; first [left; apply N.leb_gt; lia | right; apply N.leb_gt; lia]);
  try (apply N.eqb_neq; lia).
Qed.

Lemma digit_is_dot c : is_digit c = true -> is_dot c = true.
Proof.
  intros H. apply word_is_dot. unfold is_word. rewrite H. by rewrite !orb_true_r.
Qed.

Lemma dd_is_dot c : is_digit_or_dot c = true -> is_dot c = true.
Proof.
  unfold is_digit_or_dot. intros H. apply orb_true_iff in H as [H|H].
  - by apply digit_is_dot.
  - apply N.eqb_eq in H as ->. done.
Qed.

Lemma blank_is_dot w : forallb is_blank w = true -> forallb is_dot w = true.
Proof.
  apply forallb_impl. intros c. unfold is_blank. rewrite andb_true_iff. tauto.
Qed.

Lemma take_captured_eq {A} (s w rest : list A) :
  s = w ++ rest -> take (length s - length rest) s = w.
Proof. intros ->. apply take_captured. Qed.

Lemma star_greedy_all {A} p w caps (k : jsstring -> list jsstring -> option A) res :
  forallb p w = true -> k [] caps = Some res ->
  rmatch (RStar greedy p) w caps k = Some res.
Proof.
  intros Hw Hk. rewrite <- (app_nil_r w). by apply star_greedy_found.
Qed.

Lemma timeRegex_found d1 d2 d3 d4 sp0 body :
  d1 ≠ [] -> forallb is_digit d1 = true ->
  d2 ≠ [] -> forallb is_digit d2 = true ->
  d3 ≠ [] -> forallb is_digit d3 = true ->
  d4 ≠ [] -> forallb is_digit d4 = true ->
  sp0 ≠ [] -> forallb is_blank sp0 = true ->
  forallb is_dot body = true -> stops is_space body ->
  match_at_start timeRegex
    (d1 ++ 58%N :: d2 ++ 58%N :: d3 ++ 46%N :: d4 ++ sp0 ++ body)
  = Some [d1 ++ 58%N :: d2 ++ 58%N :: d3 ++ 46%N :: d4; body].
Proof.
  intros N1 H1 N2 H2 N3 H3 N4 H4 N0 H0 Hb Hs.
  unfold match_at_start, timeRegex. cbn [rseq].
  change (chr ":") with 58%N. change (chr ".") with 46%N.
  rewrite cat_step, cap_step.
  rewrite cat_step. apply plus_greedy_found; [done|done|done|]. cbn beta.
  rewrite cat_step, lit_found.
  rewrite cat_step. apply plus_greedy_found; [done|done|done|]. cbn beta.
  rewrite cat_step, lit_found.
  rewrite cat_step. apply plus_greedy_found; [done|done|done|]. cbn beta.
  rewrite cat_step, lit_found.
  apply plus_greedy_found; [done|done| |].
  { destruct sp0 as [|c sp0]; [done|]. cbn [forallb] in H0.
    apply andb_true_iff in H0 as [Hc _]. unfold is_blank in Hc.
    apply andb_true_iff in Hc as [Hc _]. cbn [app]. unfold stops.
    destruct (is_digit c) eqn:E; [|done].
    apply digit_is_digit_or_dot, dd_not_space in E. congruence. }
  cbn beta.
  rewrite (take_captured_eq _ (d1 ++ 58%N :: d2 ++ 58%N :: d3 ++ 46%N :: d4) (sp0 ++ body)).
  2:{ repeat (rewrite <- ?app_assoc; cbn [app]). done. }
  rewrite cat_step. apply plus_greedy_found; [done|by apply blank_space|done|]. cbn beta.
  rewrite cap_step. apply star_greedy_all; [done|].
  cbn [length]. rewrite Nat.sub_0_r, firstn_all. done.
Qed.

Lemma resumeRegex_not_found c s :
  (c =? 60)%N = false -> match_at_start resumeRegex (c :: s) = None.
Proof.
  intros H. unfold match_at_start, resumeRegex. cbn [rseq].
  change (rlits "<...") with (RCat (RLit 60%N) (rlits "...")).
  rewrite !cat_step. cbn [rmatch]. by rewrite H.
Qed.

Lemma pidRegex_not_found c s :
  (c =? 91)%N = false -> match_at_start pidRegex (c :: s) = None.
Proof.
  intros H. unfold match_at_start, pidRegex. cbn [rseq].
  change (rlits "[pid") with (RCat (RLit 91%N) (rlits "pid")).
  rewrite !cat_step. cbn [rmatch]. by rewrite H.
Qed.

Lemma is_prefix_app t s : is_prefix t (t ++ s) = true.
Proof. induction t as [|c t IH]; [done|]. cbn. by rewrite N.eqb_refl. Qed.

Lemma includes_app pre t post : includes (pre ++ t ++ post) t = true.
Proof.
  induction pre as [|c pre IH]; cbn [app].
  - destruct (t ++ post) eqn:E; cbn [includes]; rewrite <- E, is_prefix_app; done.
  - cbn [includes]. rewrite IH. apply orb_true_r.
Qed.

Lemma unfinishedRegex_not_found pre body :
  includes (pre ++ body) (str "<unfinished ...>") = false ->
  match_at_start unfinishedRegex body = None.
Proof.
  intros H. destruct (match_at_start unfinishedRegex body) as [caps|] eqn:E; [|done].
  apply match_at_start_sound in E as (w & rest & -> & Hm).
  unfold unfinishedRegex in Hm. destruct_matches Hm.
  match type of H with
  | includes (pre ++ (?a ++ ?b ++ ?c ++ ?d ++ ?t) ++ ?r) _ = false =>
      replace (pre ++ (a ++ b ++ c ++ d ++ t) ++ r)
        with ((pre ++ a ++ b ++ c ++ d) ++ t ++ r) in H
        by (repeat (rewrite <- ?app_assoc; cbn [app]); done)
  end.
  by rewrite includes_app in H.
Qed.

Lemma trim_tight c s :
  is_space c = false -> (∀ x, last (c :: s) = Some x -> is_space x = false) ->
  trim (c :: s) = c :: s.
Proof.
  intros Hc Hl. unfold trim. cbn [drop_while]. rewrite Hc.
  destruct (rev (c :: s)) as [|x r] eqn:E.
  { apply (f_equal (@length N)) in E. rewrite length_rev in E. done. }
  assert (last (c :: s) = Some x) as Hx.
  { rewrite <- (rev_involutive (c :: s)), E. cbn [rev]. apply last_snoc. }
  cbn [drop_while]. rewrite (Hl x Hx). by rewrite <- E, rev_involutive.
Qed.

Lemma last_app_singleton {A} (l : list A) x : last (l ++ [x]) = Some x.
Proof. apply last_snoc. Qed.

Lemma match_nonempty {A B} (s : list A) (x y : B) :
  s ≠ [] -> match s with [] => x | _ :: _ => y end = y.
Proof. by destruct s. Qed.

Lemma standard_line_step st i l :
  sl_wf l ->
  ∃ e, s_lines (strace_step st (i, sl_text l)) = s_lines st ++ [e] ∧
       line_id e = i ∧ pid e = Some 0 ∧ timestamp e = sl_stamp l ∧
       syscall e = sl_name l ∧ args e = sl_args l ∧ result e = sl_result l ∧
       duration e = parseFloat (sl_duration l) ∧ raw e = sl_text l.
Proof.
  intros ([N1 H1] & [N2 H2] & [N3 H3] & [N4 H4] & [N0 H0] & [Nn Hn] & Ha &
          [Ng1 Hg1] & [Ng2 Hg2] & (Nr & Hr & Htight) & [Ng3 Hg3] & [Nd Hd] & Hu).
  assert (∃ c t, sl_hours l = c :: t ∧ is_digit c = true) as (c & t & Eh & Hc).
  { destruct (sl_hours l) as [|c t]; [done|]. cbn [forallb] in H1.
    apply andb_true_iff in H1 as [? _]. by exists c, t. }
  assert (∃ c' t', sl_name l = c' :: t' ∧ is_word c' = true) as (c' & t' & En & Hc').
  { destruct (sl_name l) as [|c' t']; [done|]. cbn [forallb] in Hn.
    apply andb_true_iff in Hn as [? _]. by exists c', t'. }
  assert (trim (sl_text l) = sl_text l) as Ht.
  { unfold sl_text, sl_stamp. rewrite Eh. cbn [app]. apply trim_tight.
    - by apply dd_not_space, digit_is_digit_or_dot.
    - intros x Hx. unfold sl_body in Hx.
      match type of Hx with
      | last ?s = _ =>
          assert (s = (c :: t ++ 58%N :: sl_minutes l ++ 58%N :: sl_seconds l ++ 46%N
                 :: sl_fraction l ++ sl_gap0 l ++ sl_name l ++ 40%N :: sl_args l
                 ++ 41%N :: sl_gap1 l ++ 61%N :: sl_gap2 l ++ sl_result l
                 ++ sl_gap3 l ++ 60%N :: sl_duration l) ++ [62%N]) as Epre
      end.
      { repeat (rewrite <- ?app_assoc; cbn [app]). done. }
      rewrite Epre, last_snoc in Hx. by injection Hx as <-. }
  assert (forallb is_dot (sl_body l) = true) as Hbody.
  { unfold sl_body. repeat first [rewrite forallb_app | progress cbn [forallb]].
    rewrite (forallb_impl is_word is_dot _ word_is_dot Hn), Ha.
    rewrite (blank_is_dot _ Hg1), (blank_is_dot _ Hg2), (blank_is_dot _ Hg3).
    rewrite (forallb_impl is_digit_or_dot is_dot _ dd_is_dot Hd).
    rewrite (forallb_impl is_result_unit is_dot _
               (λ x Hx, proj1 (result_unit_spec x Hx)) Hr). done. }
  unfold strace_step. rewrite Ht.
  assert (split_pid (sl_text l) = (Some 0, sl_text l)) as Hsp.
  { unfold split_pid, sl_text, sl_stamp. rewrite Eh. cbn [app].
    rewrite pidRegex_not_found; [done|].
    apply is_digit_spec in Hc. apply N.eqb_neq. lia. }
  assert (sl_text l ≠ []) as Hne.
  { unfold sl_text, sl_stamp. by rewrite Eh. }
  rewrite (match_nonempty _ _ _ Hne), Hsp.
  assert (match_at_start timeRegex (sl_text l) = Some [sl_stamp l; sl_body l]) as ->.
  { unfold sl_text.
    replace (sl_stamp l ++ sl_gap0 l ++ sl_body l)
      with (sl_hours l ++ 58%N :: sl_minutes l ++ 58%N :: sl_seconds l ++ 46%N
              :: sl_fraction l ++ sl_gap0 l ++ sl_body l)
      by (unfold sl_stamp; repeat (rewrite <- ?app_assoc; cbn [app]); done).
    unfold sl_stamp. apply timeRegex_found; try done.
    unfold sl_body. rewrite En. cbn [app]. by apply word_not_space. }
  change (group 1 [sl_stamp l; sl_body l]) with (sl_stamp l).
  change (group 2 [sl_stamp l; sl_body l]) with (sl_body l).
  unfold strace_body.
  assert (match_at_start resumeRegex (sl_body l) = None) as ->.
  { unfold sl_body. rewrite En. cbn [app]. apply resumeRegex_not_found.
    destruct (N.eqb_spec c' 60) as [->|]; [done|done]. }
  rewrite (unfinishedRegex_not_found (sl_stamp l ++ sl_gap0 l)).
  2:{ rewrite <- app_assoc. exact Hu. }
  assert (match_at_start standardRegex (sl_body l)
          = Some [sl_name l; sl_args l; sl_result l; sl_duration l]) as ->.
  { unfold sl_body. by apply standardRegex_found. }
  eexists. cbn [s_lines]. split; [reflexivity|].
  cbn [line_id pid timestamp syscall args result duration raw]. done.
Qed.

(** X28: every well-formed standard line of a variant-A log yields an
    event: one line [H:M:S.F name(args) = result <duration>] at index [i]
    of the input, whatever the other lines are, gives an event with id
    [i], process id 0, that timestamp text, call name, argument text and
    result text, the duration its text denotes, and the line as raw
    text.  The arguments may hold any text without a line end; the result
    may hold spaces and parentheses, but no [<] and no [=]. *)
Theorem standard_line_yields_its_event (content filename : jsstring) (i : nat)
    (l : StandardLine) :
  sl_wf l ->
  split 10%N content !! i = Some (sl_text l) ->
  ∃ e, e ∈ lines (parseStrace content filename) ∧
       line_id e = i ∧ pid e = Some 0 ∧ timestamp e = sl_stamp l ∧
       syscall e = sl_name l ∧ args e = sl_args l ∧ result e = sl_result l ∧
       duration e = parseFloat (sl_duration l) ∧ raw e = sl_text l.
Proof.
  intros Hwf Hi. cbn [parseStrace lines].
  rewrite strace_run_run_from.
  rewrite <- (take_drop_middle _ _ _ Hi), run_from_app. cbn [run_from].
  assert (length (take i (split 10%N content)) = i) as ->.
  { rewrite length_take. apply lookup_lt_Some in Hi. lia. }
  cbn [Nat.add].
  destruct (standard_line_step (run_from 0 (take i (split 10%N content)) strace_init)
              i l Hwf) as (e & Hl & He).
  destruct (run_from_lines_grow (S i) (drop (S i) (split 10%N content))
              (strace_step (run_from 0 (take i (split 10%N content)) strace_init)
                 (i, sl_text l))) as (new & Hnew & _).
  exists e. split; [|done].
  rewrite sort_by_perm, Hnew, Hl. rewrite !elem_of_app. left. right. by left.
Qed.

Lemma standard_line_yields_its_event_witness :
  ∃ e, e ∈ lines (parseStrace
                    (str "21:55:34.211679 access(path, F_OK) = -1 ENOENT (No such file) <0.000046>")
                    []) ∧
       syscall e = str "access" ∧ args e = str "path, F_OK" ∧
       result e = str "-1 ENOENT (No such file)".
Proof.
  assert (sl_wf (mkStandardLine (str "21") (str "55") (str "34") (str "211679") (str " ")
                   (str "access") (str "path, F_OK") (str " ") (str " ")
                   (str "-1 ENOENT (No such file)") (str " ") (str "0.000046"))) as Hwf.
  { repeat split; try (by vm_compute).
    intros x Hx. vm_compute in Hx. injection Hx as <-. by vm_compute. }
  destruct (standard_line_yields_its_event
              (str "21:55:34.211679 access(path, F_OK) = -1 ENOENT (No such file) <0.000046>")
              [] 0 _ Hwf eq_refl)
    as (e & He & _ & _ & _ & Hn & Ha & Hr & _).
  exists e. done.
Defined.

Lemma blank_stops p w rest :
  w ≠ [] -> forallb is_blank w = true -> (∀ c, p c = true -> is_space c = false) ->
  stops p (w ++ rest).
Proof.
  intros Hne Hw Hp. destruct w as [|c w]; [done|]. cbn [forallb] in Hw.
  apply andb_true_iff in Hw as [Hc _]. unfold is_blank in Hc.
  apply andb_true_iff in Hc as [Hc _]. cbn [app]. unfold stops.
  destruct (p c) eqn:E; [|done]. apply Hp in E. congruence.
Qed.

Lemma head_stops (p q : N -> bool) w rest :
  w ≠ [] -> forallb q w = true -> (∀ c, q c = true -> p c = false) ->
  stops p (w ++ rest).
Proof.
  intros Hne Hw Hq. destruct w as [|c w]; [done|]. cbn [forallb] in Hw.
  apply andb_true_iff in Hw as [Hc _]. cbn [app]. unfold stops. by apply Hq.
Qed.

Lemma digit_not_space c : is_digit c = true -> is_space c = false.
Proof. intros H. by apply dd_not_space, digit_is_digit_or_dot. Qed.

Lemma perfRegex_found ti tf g0 g1 dur g2 g3 proc pidd g4 name args g5 g6 res :
  ti ≠ [] -> forallb is_digit ti = true ->
  tf ≠ [] -> forallb is_digit tf = true ->
  g0 ≠ [] -> forallb is_blank g0 = true ->
  forallb is_blank g1 = true ->
  dur ≠ [] -> forallb is_digit_or_dot dur = true ->
  g2 ≠ [] -> forallb is_blank g2 = true ->
  g3 ≠ [] -> forallb is_blank g3 = true ->
  proc ≠ [] -> forallb is_name_unit proc = true -> stops is_space proc ->
  pidd ≠ [] -> forallb is_digit pidd = true ->
  g4 ≠ [] -> forallb is_blank g4 = true ->
  name ≠ [] -> forallb is_word name = true ->
  forallb is_dot args = true ->
  g5 ≠ [] -> forallb is_blank g5 = true ->
  g6 ≠ [] -> forallb is_blank g6 = true ->
  res ≠ [] -> forallb is_value_unit res = true -> stops is_space res ->
  match_at_start perfRegex
    (ti ++ 46%N :: tf ++ g0 ++ 40%N :: g1 ++ dur ++ g2 ++ str "ms):" ++ g3
     ++ proc ++ 47%N :: pidd ++ g4 ++ name ++ 40%N :: args ++ 41%N :: g5
     ++ 61%N :: g6 ++ res)
  = Some [ti ++ 46%N :: tf; dur; proc; pidd; name; args; res].
Proof.
  intros Nti Hti Ntf Htf N0 H0 H1 Nd Hd N2 H2 N3 H3 Np Hp Sp Npi Hpi N4 H4
         Nn Hn Ha N5 H5 N6 H6 Nr Hr Sr.
  unfold match_at_start, perfRegex. cbn [rseq].
  change (chr "(") with 40%N. change (chr ")") with 41%N. change (chr "=") with 61%N.
  change (chr ".") with 46%N. change (chr "/") with 47%N.
  rewrite cat_step, cap_step.
  rewrite cat_step. apply plus_greedy_found; [done|done|done|]. cbn beta.
  rewrite cat_step, lit_found.
  apply plus_greedy_found; [done|done| |].
  { apply blank_stops; [done|done|]. apply digit_not_space. }
  cbn beta.
  rewrite (take_captured_eq _ (ti ++ 46%N :: tf)).
  2:{ repeat (rewrite <- ?app_assoc; cbn [app]). done. }
  rewrite cat_step. apply plus_greedy_found; [done|by apply blank_space|done|]. cbn beta.
  rewrite cat_step, lit_found.
  rewrite cat_step. apply star_greedy_found; [by apply blank_space| |].
  { eapply head_stops; [done|exact Hd|]. apply dd_not_space. }
  cbn beta. rewrite cat_step, cap_step.
  apply plus_greedy_found; [done|done| |].
  { apply blank_stops; [done|done|]. apply dd_not_space. }
  cbn beta. rewrite take_captured.
  rewrite cat_step. apply plus_greedy_found; [done|by apply blank_space|done|]. cbn beta.
  rewrite cat_step, rlits_found.
  rewrite cat_step. apply plus_greedy_found; [done|by apply blank_space| |].
  { destruct proc; [done|]. done. }
  cbn beta. rewrite cat_step, cap_step.
  apply plus_lazy_found; [done| | |].
  { eapply forallb_impl; [|exact Hp]. intros c. unfold is_name_unit.
    rewrite andb_true_iff. tauto. }
  { intros s1 s2 -> _ Hs2. rewrite forallb_app in Hp.
    apply andb_true_iff in Hp as [_ Hp]. destruct s2 as [|c s2]; [done|].
    cbn [forallb] in Hp. apply andb_true_iff in Hp as [Hc _].
    unfold is_name_unit in Hc. apply andb_true_iff in Hc as [_ Hc].
    apply negb_true_iff in Hc. cbn [app]. rewrite cat_step. cbn [rmatch].
    by rewrite Hc. }
  cbn beta. rewrite take_captured.
  rewrite cat_step, lit_found. rewrite cat_step, cap_step.
  apply plus_greedy_found; [done|done| |].
  { apply blank_stops; [done|done|]. apply digit_not_space. }
  cbn beta. rewrite take_captured.
  rewrite cat_step. apply plus_greedy_found; [done|by apply blank_space| |].
  { eapply head_stops; [done|exact Hn|]. apply word_not_space. }
  cbn beta. rewrite cat_step, cap_step.
  apply plus_greedy_found; [done|done|done|]. cbn beta. rewrite take_captured.
  rewrite cat_step, lit_found. rewrite cat_step, cap_step.
  assert (forallb (λ c, negb (c =? 61)%N) res = true) as Hnoeq.
  { eapply forallb_impl; [|exact Hr]. intros c. unfold is_value_unit.
    rewrite andb_true_iff. tauto. }
  apply star_greedy_back; [done| |].
  { intros s Hs.
    apply suffix_app_cases in Hs as [Hs|(a' & Hne & Ha' & ->)].
    2:{ destruct (blank_head_not a' (61%N :: g6 ++ res) 41%N)
          as (y & t & -> & Hy); [by eapply forallb_suffix|done|done|].
        rewrite cat_step. cbn [rmatch]. by rewrite Hy. }
    apply suffix_cons_cases in Hs as [->|Hs]; [done|].
    apply suffix_app_cases in Hs as [Hs|(a' & Hne & Ha' & ->)].
    2:{ destruct (blank_head_not a' res 41%N)
          as (y & t & -> & Hy); [by eapply forallb_suffix|done|done|].
        rewrite cat_step. cbn [rmatch]. by rewrite Hy. }
    apply close_paren_fails. by eapply forallb_suffix. }
  cbn beta. rewrite take_captured.
  rewrite cat_step, lit_found, cat_step.
  apply plus_greedy_found; [done|by apply blank_space|done|]. cbn beta.
  rewrite cat_step, lit_found, cat_step.
  apply plus_greedy_found; [done|by apply blank_space|done|]. cbn beta.
  rewrite cat_step, cap_step.
  apply star_greedy_all.
  { eapply forallb_impl; [|exact Hr]. intros c. unfold is_value_unit.
    rewrite andb_true_iff. tauto. }
  cbn [rmatch length]. rewrite Nat.sub_0_r, firstn_all. done.
Qed.

Lemma perf_line_step st i l :
  pl_wf l ->
  ∃ e, p_lines (perf_step st (i, pl_text l)) = p_lines st ++ [e] ∧
       line_id e = i ∧ pid e = parseInt (pl_pid l) ∧ timestamp e = pl_stamp l ∧
       syscall e = pl_name l ∧ args e = pl_args l ∧ result e = pl_result l ∧
       duration e = ndiv (parseFloat (pl_duration l)) (of_Z 1000) ∧
       raw e = pl_text l.
Proof.
  intros ([Ns Hs] & [Nf Hf] & [N0 H0] & H1 & [Nd Hd] & [N2 H2] & [N3 H3] &
          (Np & Hp & Sp) & [Npi Hpi] & [N4 H4] & [Nn Hn] & Ha & [N5 H5] &
          [N6 H6] & (Nr & Hr & [Sr Lr])).
  assert (∃ c t, pl_seconds l = c :: t ∧ is_digit c = true) as (c & t & Eh & Hc).
  { destruct (pl_seconds l) as [|c t]; [done|]. cbn [forallb] in Hs.
    apply andb_true_iff in Hs as [? _]. by exists c, t. }
  assert (trim (pl_text l) = pl_text l) as Ht.
  { unfold pl_text. rewrite Eh. cbn [app]. apply trim_tight.
    - by apply digit_not_space.
    - intros x Hx. apply Lr. rewrite <- Hx.
      match goal with
      | |- _ = last ?s =>
          assert (s = (c :: t ++ 46%N :: pl_fraction l ++ pl_gap0 l ++ 40%N :: pl_gap1 l
                 ++ pl_duration l ++ pl_gap2 l ++ str "ms):" ++ pl_gap3 l
                 ++ pl_process l ++ 47%N :: pl_pid l ++ pl_gap4 l ++ pl_name l
                 ++ 40%N :: pl_args l ++ 41%N :: pl_gap5 l ++ 61%N :: pl_gap6 l)
                 ++ pl_result l) as ->
      end.
      { repeat (rewrite <- ?app_assoc; cbn [app]). done. }
      by rewrite last_app_nonempty. }
  assert (pl_text l ≠ []) as Hne.
  { unfold pl_text. by rewrite Eh. }
  unfold perf_step. rewrite Ht, (match_nonempty _ _ _ Hne).
  assert (match_at_start perfRegex (pl_text l)
          = Some [pl_stamp l; pl_duration l; pl_process l; pl_pid l; pl_name l;
                  pl_args l; pl_result l]) as ->.
  { unfold pl_text, pl_stamp. by apply perfRegex_found. }
  eexists. cbn [p_lines]. split; [reflexivity|].
  cbn [line_id pid timestamp syscall args result duration raw]. done.
Qed.

Lemma perf_fold_lines_grow ils st :
  ∃ new, p_lines (fold_left perf_step ils st) = p_lines st ++ new.
Proof.
  revert st. induction ils as [|[i rawLine] ils IH]; intros st; cbn [fold_left].
  - exists []. by rewrite app_nil_r.
  - destruct (IH (perf_step st (i, rawLine))) as (new & ->).
    unfold perf_step. destruct (trim rawLine); [by exists new|].
    destruct (match_at_start perfRegex _); [|by exists new].
    cbn [p_lines]. rewrite <- app_assoc. by eexists.
Qed.

(** X29: every well-formed line of a perf trace yields an event: one line
    [S.F ( duration ms): process/pid name(args) = result] at index [i] of
    the input, whatever the other lines are, gives an event with id [i],
    the process id its digits denote, that timestamp text, call name,
    argument text and result text, a thousandth of the duration its text
    denotes, and the line as raw text.  The process name holds no [/] and
    the result no [=]. *)
Theorem perf_line_yields_its_event (content filename : jsstring) (i : nat)
    (l : PerfLine) :
  pl_wf l ->
  split 10%N content !! i = Some (pl_text l) ->
  ∃ e, e ∈ lines (parsePerfTrace content filename) ∧
       line_id e = i ∧ pid e = parseInt (pl_pid l) ∧ timestamp e = pl_stamp l ∧
       syscall e = pl_name l ∧ args e = pl_args l ∧ result e = pl_result l ∧
       duration e = ndiv (parseFloat (pl_duration l)) (of_Z 1000) ∧
       raw e = pl_text l.
Proof.
  intros Hwf Hi. cbn [parsePerfTrace lines]. unfold perf_run, indexed_lines.
  rewrite <- (take_drop_middle _ _ _ Hi), imap_app, fold_left_app.
  cbn [imap fold_left].
  assert (length (take i (split 10%N content)) = i) as ->.
  { rewrite length_take. apply lookup_lt_Some in Hi. lia. }
  rewrite Nat.add_0_r.
  set (st := fold_left perf_step _ perf_init).
  destruct (perf_line_step st i l Hwf) as (e & Hl & He).
  match goal with
  | |- context [fold_left perf_step ?ils (perf_step st (i, pl_text l))] =>
      destruct (perf_fold_lines_grow ils (perf_step st (i, pl_text l))) as (new & ->)
  end.
  exists e. split; [|done].
  rewrite Hl, !elem_of_app. left. right. by left.
Qed.

Lemma perf_line_yields_its_event_witness :
  ∃ e, e ∈ lines (parsePerfTrace
                    (str "673025301.272 ( 0.002 ms): python/390838 brk() = 0x5fdfecd85000")
                    []) ∧
       pid e = Some 390838 ∧ syscall e = str "brk" ∧ args e = [] ∧
       result e = str "0x5fdfecd85000".
Proof.
  assert (pl_wf (mkPerfLine (str "673025301") (str "272") (str " ") (str " ")
                   (str "0.002") (str " ") (str " ") (str "python") (str "390838")
                   (str " ") (str "brk") [] (str " ") (str " ")
                   (str "0x5fdfecd85000"))) as Hwf.
  { repeat split; try (by vm_compute).
    intros x Hx. vm_compute in Hx. injection Hx as <-. by vm_compute. }
  destruct (perf_line_yields_its_event
              (str "673025301.272 ( 0.002 ms): python/390838 brk() = 0x5fdfecd85000")
              [] 0 _ Hwf eq_refl)
    as (e & He & _ & Hp & _ & Hn & Ha & Hr & _).
  exists e. done.
Defined.

(** * The edit distance is the least script *)

(** Neighbours in the table differ by at most one. *)
Lemma lev_tab_neighbours a b : ∀ n i j, (i + j <= n)%nat ->
  lev_tab a b i (S j) <= lev_tab a b i j + 1 ∧
  lev_tab a b (S i) j <= lev_tab a b i j + 1 ∧
  lev_tab a b i j <= lev_tab a b i (S j) + 1 ∧
  lev_tab a b i j <= lev_tab a b (S i) j + 1.
Proof.
  induction n as [|n IH]; intros i j Hn.
  - assert (i = 0%nat) as -> by lia. assert (j = 0%nat) as -> by lia.
    rewrite !lev_tab_0_l, !lev_tab_0_r. lia.
  - destruct i as [|i], j as [|j].
    + rewrite !lev_tab_0_l, !lev_tab_0_r. lia.
    + destruct (IH 0%nat j) as (U1 & U2 & L1 & L2); [lia|].
      rewrite !lev_tab_0_l in *. rewrite (lev_tab_S a b 0 j), !lev_tab_0_l.
      case_bool_decide; lia.
    + destruct (IH i 0%nat) as (U1 & U2 & L1 & L2); [lia|].
      rewrite !lev_tab_0_r in *. rewrite (lev_tab_S a b i 0), !lev_tab_0_r.
      case_bool_decide; lia.
    + destruct (IH i (S j)) as (U1 & U2 & L1 & L2); [lia|].
      destruct (IH (S i) j) as (V1 & V2 & M1 & M2); [lia|].
      destruct (IH i j) as (W1 & W2 & N1 & N2); [lia|].
      pose proof (lev_tab_S a b i (S j)) as E1.
      pose proof (lev_tab_S a b (S i) j) as E2.
      pose proof (lev_tab_S a b i j) as E3.
      destruct (bool_decide (b !! i = a !! S j)),
               (bool_decide (b !! S i = a !! j)),
               (bool_decide (b !! i = a !! j)); lia.
Qed.

Lemma take_snoc_inv {A} (l a : list A) x j :
  (j <= length a)%nat -> l ++ [x] = take j a ->
  ∃ j', j = S j' ∧ l = take j' a ∧ a !! j' = Some x.
Proof.
  intros Hj E. destruct j as [|j'].
  - rewrite take_0 in E. by destruct l.
  - destruct (lookup_lt_is_Some_2 a j') as [z Hz]; [lia|].
    rewrite (take_S_r a j' z) in E by done.
    apply app_inj_tail in E as [-> ->]. by exists j'.
Qed.

Lemma take_nil_inv {A} (a : list A) j : (j <= length a)%nat -> [] = take j a -> j = 0%nat.
Proof.
  intros Hj E. apply (f_equal (@length A)) in E. rewrite length_take in E.
  cbn [length] in E. lia.
Qed.

(** No script is shorter than the table entry. *)
Lemma lev_tab_least a b a' b' n :
  edits a' b' n -> ∀ i j, (i <= length b)%nat -> (j <= length a)%nat ->
  a' = take j a -> b' = take i b -> lev_tab a b i j <= Z.of_nat n.
Proof.
  induction 1 as [|x a' b' n H IH|x y a' b' n H IH|x a' b' n H IH|y a' b' n H IH];
    intros i j Hi Hj Ea Eb.
  - apply take_nil_inv in Ea as ->; [|done]. apply take_nil_inv in Eb as ->; [|done].
    done.
  - apply take_snoc_inv in Ea as (j' & -> & -> & Hx); [|done].
    apply take_snoc_inv in Eb as (i' & -> & -> & Hy); [|done].
    rewrite lev_tab_S, bool_decide_true by congruence.
    apply IH; [lia|lia|done|done].
  - apply take_snoc_inv in Ea as (j' & -> & -> & Hx); [|done].
    apply take_snoc_inv in Eb as (i' & -> & -> & Hy); [|done].
    specialize (IH i' j' ltac:(lia) ltac:(lia) eq_refl eq_refl). rewrite lev_tab_S.
    case_bool_decide; lia.
  - apply take_snoc_inv in Ea as (j' & -> & -> & Hx); [|done].
    specialize (IH i j' ltac:(lia) ltac:(lia) eq_refl Eb).
    destruct (lev_tab_neighbours a b (i + j') i j') as (U1 & _); [lia|]. lia.
  - apply take_snoc_inv in Eb as (i' & -> & -> & Hy); [|done].
    specialize (IH i' j ltac:(lia) ltac:(lia) Ea eq_refl).
    destruct (lev_tab_neighbours a b (i' + j) i' j) as (_ & U2 & _); [lia|]. lia.
Qed.

(** A script as long as the table entry exists. *)
Lemma lev_tab_reached a b : ∀ i j, (i <= length b)%nat -> (j <= length a)%nat ->
  edits (take j a) (take i b) (Z.to_nat (lev_tab a b i j)).
Proof.
  induction i as [|i IHi].
  - induction j as [|j IHj]; intros Hi Hj.
    + rewrite lev_tab_0_l. constructor.
    + destruct (lookup_lt_is_Some_2 a j) as [x Hx]; [lia|].
      rewrite (take_S_r a j x), lev_tab_0_l by done.
      replace (Z.to_nat (Z.of_nat (S j))) with (S (Z.to_nat (lev_tab a b 0 j)))
        by (rewrite lev_tab_0_l; lia).
      rewrite take_0. apply edits_delete. rewrite <- (take_0 b). apply IHj; [done|lia].
  - induction j as [|j IHj]; intros Hi Hj.
    + destruct (lookup_lt_is_Some_2 b i) as [y Hy]; [lia|].
      rewrite (take_S_r b i y), lev_tab_0_r by done.
      replace (Z.to_nat (Z.of_nat (S i))) with (S (Z.to_nat (lev_tab a b i 0)))
        by (rewrite lev_tab_0_r; lia).
      apply edits_insert. apply IHi; [lia|done].
    + destruct (lookup_lt_is_Some_2 b i) as [y Hy]; [lia|].
      destruct (lookup_lt_is_Some_2 a j) as [x Hx]; [lia|].
      pose proof (IHi j ltac:(lia) ltac:(lia)) as Hd.
      pose proof (IHi (S j) ltac:(lia) ltac:(lia)) as Hu.
      pose proof (IHj ltac:(lia) ltac:(lia)) as Hl.
      pose proof (lev_tab_nonneg a b i j). pose proof (lev_tab_nonneg a b (S i) j).
      pose proof (lev_tab_nonneg a b i (S j)).
      rewrite (take_S_r b i y) in * by done.
      rewrite (take_S_r a j x) in Hu |- * by done.
      rewrite lev_tab_S. case_bool_decide as E.
      * assert (y = x) as -> by congruence. by apply edits_keep.
      * destruct (Z.min_spec (lev_tab a b i j + 1)
                    (Z.min (lev_tab a b (S i) j + 1) (lev_tab a b i (S j) + 1)))
          as [[_ ->]|[_ ->]].
        { replace (Z.to_nat (lev_tab a b i j + 1)) with (S (Z.to_nat (lev_tab a b i j)))
            by lia.
          by apply edits_replace. }
        destruct (Z.min_spec (lev_tab a b (S i) j + 1) (lev_tab a b i (S j) + 1))
          as [[_ ->]|[_ ->]].
        { replace (Z.to_nat (lev_tab a b (S i) j + 1))
            with (S (Z.to_nat (lev_tab a b (S i) j))) by lia.
          by apply edits_delete. }
        replace (Z.to_nat (lev_tab a b i (S j) + 1))
          with (S (Z.to_nat (lev_tab a b i (S j)))) by lia.
        by apply edits_insert.
Qed.

Lemma levenshtein_short_table a b :
  (length a <= 40)%nat -> (length b <= 40)%nat ->
  levenshtein a b = lev_tab a b (length b) (length a).
Proof.
  intros Hla Hlb. destruct (decide (a = b)) as [->|Hab].
  { rewrite levenshtein_refl.
    pose proof (lev_tab_nonneg b b (length b) (length b)).
    assert (edits b b 0) as H0.
    { clear. induction b as [|x b IH] using rev_ind; [constructor|].
      by apply edits_keep. }
    pose proof (lev_tab_least b b b b 0 H0 (length b) (length b)) as Hle.
    rewrite !firstn_all in Hle.
    specialize (Hle ltac:(lia) ltac:(lia) eq_refl eq_refl). lia. }
  destruct (decide (a = [])) as [->|Ha].
  { unfold levenshtein, str_eqb. rewrite bool_decide_false by done.
    cbn [length Nat.eqb]. by rewrite lev_tab_0_r. }
  destruct (decide (b = [])) as [->|Hb].
  { unfold levenshtein, str_eqb. rewrite bool_decide_false by done.
    destruct a; [done|]. cbn [length Nat.eqb]. by rewrite lev_tab_0_l. }
  by apply levenshtein_table.
Qed.

(** X30: for two strings of at most 40 units each the value returned is
    the edit distance: some script of that many one-unit insertions,
    deletions and replacements turns the first string into the second,
    and no script does it with fewer. *)
Theorem levenshtein_is_edit_distance (a b : jsstring) :
  (length a <= 40)%nat -> (length b <= 40)%nat ->
  edits a b (Z.to_nat (levenshtein a b)) ∧
  ∀ n, edits a b n -> levenshtein a b <= Z.of_nat n.
Proof.
  intros Hla Hlb. rewrite levenshtein_short_table by done. split.
  - pose proof (lev_tab_reached a b (length b) (length a)) as H.
    rewrite !firstn_all in H. by apply H.
  - intros n Hn.
    apply (lev_tab_least a b a b n Hn); [done|done|by rewrite firstn_all..].
Qed.

Lemma levenshtein_is_edit_distance_witness :
  edits (str "fstat") (str "newfstatat") (Z.to_nat (levenshtein (str "fstat") (str "newfstatat"))) ∧
  ∀ n, edits (str "fstat") (str "newfstatat") n ->
       levenshtein (str "fstat") (str "newfstatat") <= Z.of_nat n.
Proof.
  apply (levenshtein_is_edit_distance (str "fstat") (str "newfstatat")); vm_compute; lia.
Defined.

(** ** The worked examples of the specification *)

(** A standard line: the duration is the value in the angle brackets. *)
Example standard_line_duration :
  map (λ e, (syscall e, args e, result e, duration e))
    (lines (parseStrace (str "21:55:34.211679 mmap(NULL, 8192) = 0x7f <0.000046>") []))
  = [(str "mmap", str "NULL, 8192", str "0x7f", parseFloat (str "0.000046"))] ∧
  num_eqv (parseFloat (str "0.000046")) (Fin (46 # 1000000)).
Proof. split; [by vm_compute|]. by vm_compute. Qed.

(** The resumed read: one event, named [read], at relative start 0, with
    duration 0.05. *)
Example resumed_read_event :
  ∃ e, lines (parseStrace example_content []) = [e] ∧
       syscall e = str "read" ∧
       num_eqv (timestampEpoch e) (Fin 0) ∧
       num_eqv (duration e) (Fin (5 # 100)).
Proof.
  eexists. split; [by vm_compute|]. split; [by vm_compute|].
  split; by vm_compute.
Qed.

(** Two one-line variant-B logs of 1 ms and 2 ms: one match row with
    duration delta 0.001 - 0.002 seconds. *)
Example one_line_logs_match :
  ∃ r, alignTraces
         (parsePerfTrace (str "1000.000000 ( 1.000 ms): app/42 openat(...) = 3") [])
         (parsePerfTrace (str "1000.500000 ( 2.000 ms): app/42 openat(...) = 3") [])
       = Ok [r] ∧
       type r = TMatch ∧
       ∃ d, timeDiff r = Some d ∧ num_eqv d (Fin (- (1 # 1000))).
Proof.
  eexists. split; [by vm_compute|]. split; [done|].
  eexists. split; [done|]. by vm_compute.
Qed.
